(** * Rigid poses and cascaded frames of [skrobot/coordinates/base.py]

    A shallow embedding of the pose algebra ([transform_coords],
    [Transform], [Coordinates]) and of the frame tree ([CascadedCoords]:
    parent link, descendant registry, dirty flag, cached world pose).

    Conventions of the embedding.
    - A numpy [float64] is a real number of [R]: rounding is not modelled,
      so an equality proved here is what the code computes in exact
      arithmetic.  Arrays are values: the module never updates an array
      in place, it rebinds the attribute that holds it.
    - Python objects live in a store.  A reference is a plain
      [Coordinates] instance, a [CascadedCoords] node, or the
      [_worldcoords] cache that a node creates for itself in [__init__]
      and never rebinds.  Objects created inside a function and not yet
      returned to anybody are carried as values ([Tmp]).
    - A method that can raise returns [Raise] with the store as it is at
      the [raise]; recursion that does not bottom out within the given
      fuel, and arguments outside the typed model, return [Outside]. *)

From Stdlib Require Import Reals Lra RNsatz Ascii String.
From stdpp Require Import gmap strings.

Local Open Scope R_scope.

(** ** Vectors and matrices of numpy, shapes (3,) and (3,3) *)

Record vec3 := V3 { vx : R; vy : R; vz : R }.
Record mat3 := M3 { row0 : vec3; row1 : vec3; row2 : vec3 }.

Definition zeros3 : vec3 := V3 0 0 0.
Definition eye3 : mat3 := M3 (V3 1 0 0) (V3 0 1 0) (V3 0 0 1).

Definition vadd (a b : vec3) : vec3 := V3 (vx a + vx b) (vy a + vy b) (vz a + vz b).
Definition vsub (a b : vec3) : vec3 := V3 (vx a - vx b) (vy a - vy b) (vz a - vz b).
Definition vscale (k : R) (a : vec3) : vec3 := V3 (k * vx a) (k * vy a) (k * vz a).
Definition vneg (a : vec3) : vec3 := V3 (- vx a) (- vy a) (- vz a).
Definition inner (a b : vec3) : R := vx a * vx b + vy a * vy b + vz a * vz b.

Definition col0 (m : mat3) : vec3 := V3 (vx (row0 m)) (vx (row1 m)) (vx (row2 m)).
Definition col1 (m : mat3) : vec3 := V3 (vy (row0 m)) (vy (row1 m)) (vy (row2 m)).
Definition col2 (m : mat3) : vec3 := V3 (vz (row0 m)) (vz (row1 m)) (vz (row2 m)).

(** [m.T] *)
Definition transpose (m : mat3) : mat3 := M3 (col0 m) (col1 m) (col2 m).

(** [np.dot(m, v)], [np.matmul(m, v)] and [m.dot(v)] for a vector [v] *)
Definition dot (m : mat3) (v : vec3) : vec3 :=
  V3 (inner (row0 m) v) (inner (row1 m) v) (inner (row2 m) v).

(** [np.matmul(v, m)] for a vector [v]: the row vector times [m] *)
Definition vdot (v : vec3) (m : mat3) : vec3 :=
  V3 (inner v (col0 m)) (inner v (col1 m)) (inner v (col2 m)).

(** [np.matmul(a, b)], [np.dot(a, b)] and [a.dot(b)] for matrices *)
Definition matmul (a b : mat3) : mat3 :=
  M3 (vdot (row0 a) b) (vdot (row1 a) b) (vdot (row2 a) b).

(** Comparisons of floats as booleans: [a <= b], [a < b] *)
Definition Rle_b (a b : R) : bool := if Rle_dec a b then true else false.
Definition Rlt_b (a b : R) : bool := if Rlt_dec a b then true else false.

(** The invariant the spec gives to a rotation: orthonormal. *)
Definition orthonormal (m : mat3) : Prop := matmul m (transpose m) = eye3.

(** Tolerance comparison of the testable properties. *)
Definition close (eps a b : R) : Prop := Rabs (a - b) <= eps.
Definition vclose (eps : R) (a b : vec3) : Prop :=
  close eps (vx a) (vx b) /\ close eps (vy a) (vy b) /\ close eps (vz a) (vz b).
Definition mclose (eps : R) (a b : mat3) : Prop :=
  vclose eps (row0 a) (row0 b) /\ vclose eps (row1 a) (row1 b) /\
  vclose eps (row2 a) (row2 b).

Definition tol : R := 1e-9.

(** ** [class Transform] *)

Module Transform.

Record t := make { translation : vec3; rotation : mat3 }.

Definition inverse_transformation (self : t) : t :=
  let new_rot := transpose (rotation self) in
  let new_trans := vneg (dot new_rot (translation self)) in
  make new_trans new_rot.

Definition __mul__ (self tf_23 : t) : t :=
  let tf_12 := self in
  let '(tran_12, rot_12) := (translation tf_12, rotation tf_12) in
  let '(tran_23, rot_23) := (translation tf_23, rotation tf_23) in
  let rot_13 := matmul rot_23 rot_12 in
  let tran_13 := vadd tran_23 (dot rot_23 tran_12) in
  let tf_13 := make tran_13 rot_13 in
  tf_13.

Definition __rmul__ (self other : t) : t := __mul__ other self.

(** [transform_vector] and [rotate_vector] on one vector, of shape (3,) *)
Definition transform_vector (self : t) (vec : vec3) : vec3 :=
  vadd (dot (rotation self) vec) (translation self).

Definition rotate_vector (self : t) (vec : vec3) : vec3 :=
  dot (rotation self) vec.

End Transform.

(** ** Quaternions as numpy arrays of shape (4,), order [w, x, y, z] *)

Record quat := Q4 { qw : R; qx : R; qy : R; qz : R }.

Definition qdot (a b : quat) : R := qw a * qw b + qx a * qx b + qy a * qy b + qz a * qz b.
Definition qneg (a : quat) : quat := Q4 (- qw a) (- qx a) (- qy a) (- qz a).
Definition qadd (a b : quat) : quat := Q4 (qw a + qw b) (qx a + qx b) (qy a + qy b) (qz a + qz b).
Definition qscale (k : R) (a : quat) : quat := Q4 (k * qw a) (k * qx a) (k * qy a) (k * qz a).
Definition qdiv (a : quat) (k : R) : quat := Q4 (qw a / k) (qx a / k) (qy a / k) (qz a / k).
(** [np.linalg.norm(q)] *)
Definition qnorm (a : quat) : R := sqrt (qdot a a).

(** ** Objects and the store *)

Definition oid := positive.

(** A reference to an object that the caller can hold. *)
Inductive ref :=
| Plain (p : oid)   (* an instance of Coordinates *)
| Node (n : oid)    (* an instance of CascadedCoords *)
| World (n : oid).  (* the Coordinates that node [n] keeps in [_worldcoords] *)

#[global] Instance ref_eq_dec : EqDecision ref.
Proof. solve_decision. Defined.

(** The module-level [worldcoords = CascadedCoords(name='worldcoords')]. *)
Definition worldcoords : ref := Node 1%positive.

Record pose := Pose { p_rotation : mat3; p_translation : vec3 }.

(** A [Coordinates] argument: an object of the store, or an object made
    inside the running function ([Coordinates(check_validity=False)],
    name [''], no parent, no hook) that nobody else refers to. *)
Inductive cref :=
| Obj (r : ref)
| Tmp (p : pose).

(** Attributes of a plain [Coordinates]: [_rotation], [_translation],
    [_name], [parent]. *)
Record coords := mkCoords {
  c_rotation : mat3;
  c_translation : vec3;
  c_name : string;
  c_parent : option ref
}.

(** Attributes of a [CascadedCoords]: those of [Coordinates] ([parent] is
    the property over [_parent]), [_changed], [_descendants] and the
    [Coordinates] bound to [_worldcoords], whose hook is [self.update]. *)
Record cascaded := mkCascaded {
  n_rotation : mat3;
  n_translation : vec3;
  n_name : string;
  n_parent : option ref;
  n_changed : bool;
  n_descendants : list ref;
  n_worldcoords : coords
}.

Record store := Store {
  plains : gmap oid coords;
  nodes : gmap oid cascaded
}.

(** [Coordinates()] and [CascadedCoords()] as [__init__] leaves them. *)
Definition new_coords : coords := mkCoords eye3 zeros3 "" None.
Definition new_cascaded : cascaded :=
  mkCascaded eye3 zeros3 "" None true [] new_coords.

(** Python has no dangling reference: reading an identifier that the store
    does not hold gives a freshly constructed object, writing to it does
    nothing, and so no operation changes the domain of the store. *)
Definition plain (s : store) (p : oid) : coords := default new_coords (plains s !! p).
Definition node (s : store) (n : oid) : cascaded := default new_cascaded (nodes s !! n).

Definition with_plain (p : oid) (f : coords -> coords) (s : store) : store :=
  Store (alter f p (plains s)) (nodes s).
Definition with_node (n : oid) (f : cascaded -> cascaded) (s : store) : store :=
  Store (plains s) (alter f n (nodes s)).

Definition c_set_rotation (m : mat3) (c : coords) : coords :=
  mkCoords m (c_translation c) (c_name c) (c_parent c).
Definition c_set_translation (v : vec3) (c : coords) : coords :=
  mkCoords (c_rotation c) v (c_name c) (c_parent c).
Definition c_set_name (s : string) (c : coords) : coords :=
  mkCoords (c_rotation c) (c_translation c) s (c_parent c).
Definition c_set_parent (p : option ref) (c : coords) : coords :=
  mkCoords (c_rotation c) (c_translation c) (c_name c) p.

Definition n_set_rotation (m : mat3) (k : cascaded) : cascaded :=
  mkCascaded m (n_translation k) (n_name k) (n_parent k) (n_changed k)
    (n_descendants k) (n_worldcoords k).
Definition n_set_translation (v : vec3) (k : cascaded) : cascaded :=
  mkCascaded (n_rotation k) v (n_name k) (n_parent k) (n_changed k)
    (n_descendants k) (n_worldcoords k).
Definition n_set_name (s : string) (k : cascaded) : cascaded :=
  mkCascaded (n_rotation k) (n_translation k) s (n_parent k) (n_changed k)
    (n_descendants k) (n_worldcoords k).
Definition n_set_parent (p : option ref) (k : cascaded) : cascaded :=
  mkCascaded (n_rotation k) (n_translation k) (n_name k) p (n_changed k)
    (n_descendants k) (n_worldcoords k).
Definition n_set_changed (b : bool) (k : cascaded) : cascaded :=
  mkCascaded (n_rotation k) (n_translation k) (n_name k) (n_parent k) b
    (n_descendants k) (n_worldcoords k).
Definition n_set_descendants (l : list ref) (k : cascaded) : cascaded :=
  mkCascaded (n_rotation k) (n_translation k) (n_name k) (n_parent k)
    (n_changed k) l (n_worldcoords k).
Definition n_on_worldcoords (f : coords -> coords) (k : cascaded) : cascaded :=
  mkCascaded (n_rotation k) (n_translation k) (n_name k) (n_parent k)
    (n_changed k) (n_descendants k) (f (n_worldcoords k)).

(** Attribute reads: [c._rotation], [c._translation], [c._name], [c.parent]. *)
Definition _rotation (s : store) (c : cref) : mat3 :=
  match c with
  | Obj (Plain p) => c_rotation (plain s p)
  | Obj (Node n) => n_rotation (node s n)
  | Obj (World n) => c_rotation (n_worldcoords (node s n))
  | Tmp q => p_rotation q
  end.

Definition _translation (s : store) (c : cref) : vec3 :=
  match c with
  | Obj (Plain p) => c_translation (plain s p)
  | Obj (Node n) => n_translation (node s n)
  | Obj (World n) => c_translation (n_worldcoords (node s n))
  | Tmp q => p_translation q
  end.

Definition _name (s : store) (c : cref) : string :=
  match c with
  | Obj (Plain p) => c_name (plain s p)
  | Obj (Node n) => n_name (node s n)
  | Obj (World n) => c_name (n_worldcoords (node s n))
  | Tmp _ => ""
  end.

Definition parent (s : store) (c : cref) : option ref :=
  match c with
  | Obj (Plain p) => c_parent (plain s p)
  | Obj (Node n) => n_parent (node s n)
  | Obj (World n) => c_parent (n_worldcoords (node s n))
  | Tmp _ => None
  end.

Definition _changed (s : store) (n : oid) : bool := n_changed (node s n).
Definition _descendants (s : store) (n : oid) : list ref := n_descendants (node s n).

(** The pose an object holds in its own attributes (for a node: local). *)
Definition pose_of (s : store) (c : cref) : pose := Pose (_rotation s c) (_translation s c).

Definition pclose (eps : R) (a b : pose) : Prop :=
  mclose eps (p_rotation a) (p_rotation b) /\
  vclose eps (p_translation a) (p_translation b).

(** ** Outcomes of a call *)

Inductive exn := ValueError | TypeError | RuntimeError | NotImplementedError.

Inductive outcome (A : Type) :=
| Ok (a : A) (s : store)
| Raise (e : exn) (s : store)
| Outside.
Arguments Ok {A} a s.
Arguments Raise {A} e s.
Arguments Outside {A}.

Definition M (A : Type) : Type := store -> outcome A.

Definition ret {A} (a : A) : M A := fun s => Ok a s.
Definition bind {A B} (m : M A) (k : A -> M B) : M B :=
  fun s => match m s with
           | Ok a s' => k a s'
           | Raise e s' => Raise e s'
           | Outside => Outside
           end.
Definition raise {A} (e : exn) : M A := fun s => Raise e s.
Definition outside {A} : M A := fun _ => Outside.
Definition read {A} (f : store -> A) : M A := fun s => Ok (f s) s.
Definition modify (f : store -> store) : M unit := fun s => Ok tt (f s).

Notation "'let*' x ':=' m 'in' k" := (bind m (fun x => k))
  (at level 10, x name, m at level 100, k at level 200).
Notation "'do' m 'then' k" := (bind m (fun _ => k))
  (at level 10, m at level 100, k at level 200).

Fixpoint for_each {A} (f : A -> M unit) (l : list A) : M unit :=
  match l with
  | [] => ret tt
  | x :: l' => do f x then for_each f l'
  end.

(** Attribute writes: [c._rotation = m] and the like.  Writing to an object
    made inside the running function gives that object with the new value. *)
Definition store_rotation (c : cref) (m : mat3) : M cref :=
  match c with
  | Obj (Plain p) => do modify (with_plain p (c_set_rotation m)) then ret c
  | Obj (Node n) => do modify (with_node n (n_set_rotation m)) then ret c
  | Obj (World n) =>
      do modify (with_node n (n_on_worldcoords (c_set_rotation m))) then ret c
  | Tmp q => ret (Tmp (Pose m (p_translation q)))
  end.

Definition store_translation (c : cref) (v : vec3) : M cref :=
  match c with
  | Obj (Plain p) => do modify (with_plain p (c_set_translation v)) then ret c
  | Obj (Node n) => do modify (with_node n (n_set_translation v)) then ret c
  | Obj (World n) =>
      do modify (with_node n (n_on_worldcoords (c_set_translation v))) then ret c
  | Tmp q => ret (Tmp (Pose (p_rotation q) v))
  end.

Definition store_name (r : ref) (x : string) : M unit :=
  match r with
  | Plain p => modify (with_plain p (c_set_name x))
  | Node n => modify (with_node n (n_set_name x))
  | World n => modify (with_node n (n_on_worldcoords (c_set_name x)))
  end.

Definition store_parent (r : ref) (x : option ref) : M unit :=
  match r with
  | Plain p => modify (with_plain p (c_set_parent x))
  | Node n => modify (with_node n (n_set_parent x))
  | World n => modify (with_node n (n_on_worldcoords (c_set_parent x)))
  end.

(** ** Arguments as Python passes them *)

(** [wrt]: a string, a [Coordinates], [None], or anything else. *)
Inductive wrt_arg := WStr (s : string) | WObj (r : ref) | WNone | WOther.

(** [out] of [transform_coords] and [transform]. *)
Inductive out_arg := OutNone | OutCoords (c : cref) | OutOther.

(** [relative_coords] of [newcoords] and [assoc]. *)
Inductive rel_arg := RelNone | RelStr (s : string) | RelCoords (c : cref) | RelOther.

(** An array-like given as a rotation: shape (3,3), (4,), (3,) or other. *)
Inductive rot_input := RotMat (m : mat3) | RotQuat (q : quat) | RotYpr (v : vec3) | RotOther.

(** An array-like given as a translation: three components, or other. *)
Inductive pos_input := PosVec (v : vec3) | PosOther.

(** [newcoords(c, pos)]: [pos is None] and [c] is a [Coordinates], or [c] is
    a rotation and [pos] a translation. *)
Inductive newcoords_arg := NcCoords (c : cref) | NcArrays (rot : rot_input) (pos : pos_input).

(** [axis] of [rotate]: a list or array, a token such as ['x'], [None], [False]. *)
Inductive axis_arg := AxisVec (v : vec3) | AxisTok (s : string) | AxisNone | AxisFalse.

(** [theta] of [rotate]: an angle, or a matrix when [axis] is [None]. *)
Inductive theta_arg := Angle (a : R) | Matrix (m : mat3).

Inductive name_arg := NameStr (s : string) | NameOther.
Inductive parent_arg := ParentNone | ParentCoords (r : ref) | ParentOther.

Definition wrt_is (wrt : wrt_arg) (s : string) : bool :=
  match wrt with WStr s' => bool_decide (s' = s) | _ => false end.

(** [wrt == self], identity of objects *)
Definition wrt_is_obj (wrt : wrt_arg) (self : cref) : bool :=
  match wrt, self with
  | WObj r, Obj r' => bool_decide (r = r')
  | _, _ => false
  end.

(** [wrt == self.parent] *)
Definition wrt_is_parent (wrt : wrt_arg) (par : option ref) : bool :=
  match wrt, par with
  | WNone, None => true
  | WObj r, Some p => bool_decide (r = p)
  | _, _ => false
  end.

Definition lower_ascii (a : ascii) : ascii :=
  let n := nat_of_ascii a in
  if ((65 <=? n) && (n <=? 90))%nat then ascii_of_nat (n + 32) else a.

(** [s.lower()] on ASCII *)
Fixpoint lower (s : string) : string :=
  match s with
  | EmptyString => EmptyString
  | String a s' => String (lower_ascii a) (lower s')
  end.

(** [l.remove(x)]: the first occurrence goes *)
Fixpoint list_remove (x : ref) (l : list ref) : list ref :=
  match l with
  | [] => []
  | y :: l' => if bool_decide (y = x) then l' else y :: list_remove x l'
  end.

(** ** The collaborators of [skrobot.coordinates.math]

    The functions that [base.py] imports are not part of the source at
    hand; the engine takes them as an interface. *)
Class MathPrims := {
  (** [rotation_matrix(theta, axis, skip_normalization)]; [None] when it raises *)
  rotation_matrix : R -> axis_arg -> bool -> option mat3;
  quaternion2matrix : quat -> mat3;
  matrix2quaternion : mat3 -> quat;
  rpy2quaternion : vec3 -> quat;
  (** [_check_valid_rotation] on a (3,3) array: [false] when it raises *)
  check_valid_rotation : mat3 -> bool;
  (** [_check_valid_translation]: [false] when it raises *)
  check_valid_translation : pos_input -> bool
}.

Section Engine.

Context `{MathPrims}.

(** Modelled from the spec: [rotate_matrix(matrix, theta, axis, world)] of
    [skrobot.coordinates.math], which is not under src/.  The composition
    rule of [rotate] (local: rotation times the axis-angle matrix; parent
    or world: the axis-angle matrix times rotation) is what
    [Coordinates.rotate] gets from it without and with the [world] flag. *)
Definition rotate_matrix (matrix : mat3) (theta : R) (axis : axis_arg)
    (world : bool) (skip_normalization : bool) : option mat3 :=
  match rotation_matrix theta axis skip_normalization with
  | Some d => Some (if world then matmul d matrix else matmul matrix d)
  | None => None
  end.

(** *** [transform_coords] *)

Definition transform_coords (c1 c2 : cref) (out : out_arg) : M cref :=
  match out with
  | OutOther => raise TypeError
  | _ =>
    let out := match out with
               | OutCoords o => o
               | _ => Tmp (Pose eye3 zeros3)   (* Coordinates(check_validity=False) *)
               end in
    let* t := read (fun s => vadd (_translation s c1)
                               (dot (_rotation s c1) (_translation s c2))) in
    let* out := store_translation out t in
    let* r := read (fun s => matmul (_rotation s c1) (_rotation s c2)) in
    let* out := store_rotation out r in
    ret out
  end.

(** [Coordinates.__mul__] *)
Definition Coordinates___mul__ (self other_c : cref) : M cref :=
  transform_coords self other_c OutNone.

(** *** [CascadedCoords.update] and the world-pose readers *)

(** [c.worldcoords()], given the [update] of nodes.  A node updates itself
    and returns its [_worldcoords]; [Coordinates.worldcoords] calls the
    hook, which only a [_worldcoords] has, and returns [self]. *)
Definition worldcoords_by (update : oid -> M unit) (c : cref) : M cref :=
  match c with
  | Obj (Node n) => do update n then ret (Obj (World n))
  | Obj (World n) => do update n then ret c
  | _ => ret c
  end.

(** [update(force=False)]; a node has no hook of its own to disable. *)
Fixpoint CascadedCoords_update (fuel : nat) (self : oid) : M unit :=
  match fuel with
  | O => outside
  | S fuel' =>
    let* changed := read (fun s => _changed s self) in
    if negb changed then ret tt
    else
      let* par := read (fun s => parent s (Obj (Node self))) in
      do match par with
         | Some p =>
             let* pw := worldcoords_by (CascadedCoords_update fuel') (Obj p) in
             do transform_coords pw (Obj (Node self))
                  (OutCoords (Obj (World self))) then
             ret tt
         | None =>
             let* r := read (fun s => _rotation s (Obj (Node self))) in
             do store_rotation (Obj (World self)) r then
             let* t := read (fun s => _translation s (Obj (Node self))) in
             do store_translation (Obj (World self)) t then
             ret tt
         end then
      modify (with_node self (n_set_changed false))
  end.

Definition dyn_worldcoords (fuel : nat) (c : cref) : M cref :=
  worldcoords_by (CascadedCoords_update fuel) c.

(** [worldrot()]: [self.worldcoords()._rotation] on a node, [self._rotation]
    on a [Coordinates] *)
Definition dyn_worldrot (fuel : nat) (c : cref) : M mat3 :=
  match c with
  | Obj (Node n) =>
      let* w := dyn_worldcoords fuel c in read (fun s => _rotation s w)
  | _ => read (fun s => _rotation s c)
  end.

Definition dyn_worldpos (fuel : nat) (c : cref) : M vec3 :=
  match c with
  | Obj (Node n) =>
      let* w := dyn_worldcoords fuel c in read (fun s => _translation s w)
  | _ => read (fun s => _translation s c)
  end.

(** [CascadedCoords.parentcoords] *)
Definition CascadedCoords_parentcoords (fuel : nat) (self : oid) : M cref :=
  let* par := read (fun s => parent s (Obj (Node self))) in
  match par with
  | Some p => dyn_worldcoords fuel (Obj p)
  | None => ret (Obj worldcoords)
  end.

(** [copy_coords]: [Coordinates(pos=np.copy(self.worldpos()),
    rot=np.copy(self.worldrot()), check_validity=False)] *)
Definition Coordinates_copy_coords (fuel : nat) (self : cref) : M cref :=
  let* pos := dyn_worldpos fuel self in
  let* rot := dyn_worldrot fuel self in
  ret (Tmp (Pose rot pos)).

(** *** Validated setters *)

Definition Coordinates_rotation_setter (self : cref) (rotation : rot_input) : M cref :=
  let* rotation :=
    match rotation with
    | RotQuat q =>
        if Rlt_b 1e-3 (Rabs (qnorm q - 1)) then raise ValueError
        else ret (Some (quaternion2matrix q))
    | RotYpr v => ret (Some (quaternion2matrix (rpy2quaternion v)))
    | RotMat m => ret (Some m)
    | RotOther => ret None
    end in
  match rotation with
  | Some m =>
      if check_valid_rotation m then store_rotation self m   (* rotation * 1. *)
      else raise ValueError
  | None => raise ValueError   (* not a (3,3) array *)
  end.

Definition Coordinates_translation_setter (self : cref) (translation : pos_input) : M cref :=
  if check_valid_translation translation then
    match translation with
    | PosVec v => store_translation self v   (* translation.squeeze() * 1. *)
    | PosOther => outside
    end
  else raise ValueError.

Definition Coordinates_name_setter (self : ref) (name : name_arg) : M unit :=
  match name with
  | NameStr x => store_name self x
  | NameOther => raise TypeError
  end.

(** the [parent] property of a node; on a [Coordinates] it is an attribute *)
Definition CascadedCoords_parent_setter (self : oid) (c : parent_arg) : M unit :=
  match c with
  | ParentNone => store_parent (Node self) None
  | ParentCoords r => store_parent (Node self) (Some r)
  | ParentOther => raise ValueError
  end.

(** [Coordinates(pos=pos, rot=rot, check_validity=check_validity)] with
    both arrays given (no 4x4 homogeneous [pos]) *)
Definition Coordinates_init (pos : pos_input) (rot : rot_input)
    (check_validity : bool) : M cref :=
  let self := Tmp (Pose eye3 zeros3) in
  if check_validity then
    let* self := Coordinates_rotation_setter self rot in
    Coordinates_translation_setter self pos
  else
    match rot, pos with
    | RotMat m, PosVec v => ret (Tmp (Pose m v))
    | _, _ => outside
    end.

(** *** Inversion, relative transform, [transform] of [Coordinates] *)

Definition Coordinates_inverse_transformation (self : cref) (dest : option cref) : M cref :=
  let dest := match dest with
              | Some d => d
              | None => Tmp (Pose eye3 zeros3)
              end in
  let* rt := read (fun s => transpose (_rotation s self)) in
  let* dest := store_rotation dest rt in
  let* t := read (fun s => dot (_rotation s dest) (_translation s self)) in
  let* dest := store_translation dest t in
  let* t' := read (fun s => vscale (-1) (_translation s dest)) in
  store_translation dest t'.

Definition Coordinates_transformation (fuel : nat) (self c2 : cref)
    (wrt : wrt_arg) : M cref :=
  let* c2 := dyn_worldcoords fuel c2 in
  let* c1 := dyn_worldcoords fuel self in
  let* inv := Coordinates_inverse_transformation c1 None in
  let* par := read (fun s => parent s self) in
  if wrt_is wrt "local" || wrt_is_obj wrt self then
    transform_coords inv c2 (OutCoords inv)
  else if wrt_is wrt "parent" || wrt_is_parent wrt par || wrt_is wrt "world" then
    transform_coords c2 inv (OutCoords inv)
  else
    match wrt with
    | WObj w =>
        let* xw := dyn_worldcoords fuel (Obj w) in
        let* inv := transform_coords c2 inv (OutCoords inv) in
        let* xwi := Coordinates_inverse_transformation xw None in
        let* inv := transform_coords xwi inv (OutCoords inv) in
        transform_coords inv xw (OutCoords inv)
    | _ => raise ValueError
    end.

Definition Coordinates_transform (fuel : nat) (self c : cref) (wrt : wrt_arg)
    (out : out_arg) : M cref :=
  let out := match out with OutNone => OutCoords self | o => o end in
  let* par := read (fun s => parent s self) in
  if wrt_is wrt "local" || wrt_is_obj wrt self then
    transform_coords self c out
  else if wrt_is wrt "parent" || wrt_is_parent wrt par || wrt_is wrt "world" then
    transform_coords c self out
  else
    match wrt with
    | WObj w =>
        let* wi := Coordinates_inverse_transformation (Obj w) None in
        let* o := transform_coords wi self out in
        let* o := transform_coords c o (OutCoords o) in
        let* ww := dyn_worldcoords fuel (Obj w) in
        transform_coords ww o (OutCoords o)
    | _ => raise ValueError
    end.

(** *** [newcoords] and [changed] *)

(** [id(self._rotation) != id(c._rotation)]: an array is the very object
    already bound only when [c] is [self]; two objects sharing one array
    are not told apart from two objects holding equal arrays. *)
Definition same_object (a b : cref) : bool :=
  match a, b with
  | Obj r, Obj r' => bool_decide (r = r')
  | _, _ => false
  end.

Definition Coordinates_newcoords (self : cref) (c : newcoords_arg)
    (check_validity : bool) (relative_coords : rel_arg) : M cref :=
  let* par := read (fun s => parent s self) in
  let* relative_coords :=
    match relative_coords with
    | RelStr x =>
        if bool_decide (lower x = "parent") then
          match par with
          | None => raise ValueError
          | Some p => ret (RelCoords (Obj p))
          end
        else if bool_decide (lower x = "world") then ret (RelCoords (Obj worldcoords))
        else if bool_decide (lower x = "local") then ret RelNone
        else raise ValueError
    | other => ret other
    end in
  let* c :=
    match relative_coords with
    | RelNone => ret c
    | RelCoords rc =>
        match c with
        | NcCoords c0 =>
            let* c' := Coordinates___mul__ rc c0 in ret (NcCoords c')
        | NcArrays rot pos =>
            let* temp := Coordinates_init pos rot check_validity in
            let* temp := Coordinates___mul__ rc temp in
            let* r := read (fun s => _rotation s temp) in
            let* t := read (fun s => _translation s temp) in
            ret (NcArrays (RotMat r) (PosVec t))
        end
    | _ => raise TypeError   (* relative_coords * c on a non-Coordinates *)
    end in
  match c with
  | NcArrays rot pos =>
      if check_validity then
        let* self := Coordinates_rotation_setter self rot in
        Coordinates_translation_setter self pos
      else
        match rot, pos with
        | RotMat m, PosVec v =>
            let* self := store_rotation self m in
            store_translation self v
        | _, _ => outside
        end
  | NcCoords c0 =>
      if same_object c0 self then ret self
      else if check_validity then
        let* r := read (fun s => _rotation s c0) in
        let* self := Coordinates_rotation_setter self (RotMat r) in
        let* t := read (fun s => _translation s c0) in
        Coordinates_translation_setter self (PosVec t)
      else
        let* r := read (fun s => _rotation s c0) in
        let* self := store_rotation self r in
        let* t := read (fun s => _translation s c0) in
        store_translation self t
  end.

(** [CascadedCoords.changed]; [Coordinates.changed] returns [False] and
    does nothing.  The list of lists it returns is not used anywhere. *)
Fixpoint CascadedCoords_changed (fuel : nat) (self : oid) : M unit :=
  match fuel with
  | O => outside
  | S fuel' =>
    let* changed := read (fun s => _changed s self) in
    if negb changed then
      do modify (with_node self (n_set_changed true)) then
      let* ds := read (fun s => _descendants s self) in
      for_each (fun c => match c with
                         | Node m => CascadedCoords_changed fuel' m
                         | _ => ret tt
                         end) ds
    else ret tt
  end.

Definition CascadedCoords_newcoords (fuel : nat) (self : oid)
    (target : newcoords_arg) (check_validity : bool)
    (relative_coords : rel_arg) : M cref :=
  let me := Obj (Node self) in
  let* par := read (fun s => parent s me) in
  let* target :=
    match par with
    | None => ret target
    | Some p =>
        match relative_coords with
        | RelStr x =>
            if bool_decide (lower x = "world") then
              match target with
              | NcCoords c0 =>
                  let* pw := dyn_worldcoords fuel (Obj p) in
                  let* inv := Coordinates_inverse_transformation pw None in
                  let* t := Coordinates_transform fuel inv c0 (WStr "local") OutNone in
                  ret (NcCoords t)
              | NcArrays rot pos =>
                  let* temp := Coordinates_init pos rot check_validity in
                  let* pw := dyn_worldcoords fuel (Obj p) in
                  let* inv := Coordinates_inverse_transformation pw None in
                  let* temp := Coordinates_transform fuel inv temp (WStr "local") OutNone in
                  let* r := read (fun s => _rotation s temp) in
                  let* t := read (fun s => _translation s temp) in
                  ret (NcArrays (RotMat r) (PosVec t))
              end
            else if bool_decide (lower x = "local") then ret target
            else if bool_decide (lower x = "parent") then ret target
            else raise ValueError
        | RelCoords rc =>
            match target with
            | NcCoords c0 =>
                let* t := Coordinates_transformation fuel rc c0 (WStr "local") in
                ret (NcCoords t)
            | NcArrays rot pos =>
                let* temp := Coordinates_init pos rot check_validity in
                let* temp := Coordinates_transformation fuel rc temp (WStr "local") in
                let* r := read (fun s => _rotation s temp) in
                let* t := read (fun s => _translation s temp) in
                ret (NcArrays (RotMat r) (PosVec t))
            end
        | _ => raise TypeError
        end
    end in
  do Coordinates_newcoords me target check_validity RelNone then
  do CascadedCoords_changed fuel self then
  ret me.

(** [self.newcoords(...)]: the method of the class of [self] *)
Definition dyn_newcoords (fuel : nat) (self : cref) (c : newcoords_arg)
    (check_validity : bool) (relative_coords : rel_arg) : M cref :=
  match self with
  | Obj (Node n) => CascadedCoords_newcoords fuel n c check_validity relative_coords
  | _ => Coordinates_newcoords self c check_validity relative_coords
  end.

(** *** [translate] *)

Definition Coordinates_parent_orientation (fuel : nat) (self : cref) (v : vec3)
    (wrt : wrt_arg) : M vec3 :=
  let* par := read (fun s => parent s self) in
  if wrt_is wrt "local" || wrt_is_obj wrt self then
    read (fun s => dot (_rotation s self) v)
  else if wrt_is wrt "parent" || wrt_is_parent wrt par || wrt_is wrt "world" then
    ret v
  else
    match wrt with
    | WObj w => let* r := dyn_worldrot fuel (Obj w) in ret (dot r v)
    | _ => raise ValueError
    end.

Definition Coordinates_translate (fuel : nat) (self : cref) (vec : vec3)
    (wrt : wrt_arg) : M cref :=
  let* rot := read (fun s => _rotation s self) in
  let* v := Coordinates_parent_orientation fuel self vec wrt in
  let* t := read (fun s => vadd v (_translation s self)) in
  dyn_newcoords fuel self (NcArrays (RotMat rot) (PosVec t)) false (RelStr "local").

(** *** [rotate_with_matrix] and [rotate] *)

Definition Coordinates_rotate_with_matrix (fuel : nat) (self : cref) (mat : mat3)
    (wrt : wrt_arg) : M cref :=
  let* par := read (fun s => parent s self) in
  if wrt_is wrt "local" || wrt_is_obj wrt self then
    let* rot := read (fun s => matmul (_rotation s self) mat) in
    let* t := read (fun s => _translation s self) in
    do dyn_newcoords fuel self (NcArrays (RotMat rot) (PosVec t)) false
         (RelStr "local") then
    ret self
  else if wrt_is wrt "parent" || wrt_is_parent wrt par || wrt_is wrt "world"
          || match wrt with WNone => true | _ => false end
          || wrt_is_obj wrt (Obj worldcoords) then
    let* rot := read (fun s => matmul mat (_rotation s self)) in
    let* t := read (fun s => _translation s self) in
    do dyn_newcoords fuel self (NcArrays (RotMat rot) (PosVec t)) false
         (RelStr "local") then
    ret self
  else
    match wrt with
    | WObj w =>
        let* r2 := dyn_worldrot fuel (Obj w) in
        let r2t := transpose r2 in
        let r2t := matmul mat r2t in
        let r2t := matmul r2 r2t in
        let* rot := read (fun s => matmul r2t (_rotation s self)) in
        store_rotation self rot
    | _ => raise ValueError
    end.

Definition CascadedCoords_rotate_with_matrix (fuel : nat) (self : oid)
    (matrix : mat3) (wrt : wrt_arg) : M cref :=
  let me := Obj (Node self) in
  let* par := read (fun s => parent s me) in
  if wrt_is wrt "local" || wrt_is_obj wrt me then
    let* rot := read (fun s => matmul (_rotation s me) matrix) in
    do store_rotation me rot then
    let* r := read (fun s => _rotation s me) in
    let* t := read (fun s => _translation s me) in
    CascadedCoords_newcoords fuel self (NcArrays (RotMat r) (PosVec t)) false
      (RelStr "local")
  else if wrt_is wrt "parent" || wrt_is_parent wrt par then
    let* rotation := read (fun s => matmul matrix (_rotation s me)) in
    let* t := read (fun s => _translation s me) in
    CascadedCoords_newcoords fuel self (NcArrays (RotMat rotation) (PosVec t))
      false (RelStr "local")
  else
    let* parent_coords := CascadedCoords_parentcoords fuel self in
    let* parent_rot := read (fun s => _rotation s parent_coords) in
    let* matrix :=
      match wrt with
      | WObj w =>
          let* wrt_rot := dyn_worldrot fuel (Obj w) in
          let matrix := matmul wrt_rot matrix in
          ret (matmul matrix (transpose wrt_rot))
      | _ => ret matrix
      end in
    let matrix := matmul matrix parent_rot in
    let matrix := matmul (transpose parent_rot) matrix in
    let* rotation := read (fun s => matmul matrix (_rotation s me)) in
    let* t := read (fun s => _translation s me) in
    CascadedCoords_newcoords fuel self (NcArrays (RotMat rotation) (PosVec t))
      false (RelStr "local").

Definition dyn_rotate_with_matrix (fuel : nat) (self : cref) (mat : mat3)
    (wrt : wrt_arg) : M cref :=
  match self with
  | Obj (Node n) => CascadedCoords_rotate_with_matrix fuel n mat wrt
  | _ => Coordinates_rotate_with_matrix fuel self mat wrt
  end.

Definition Coordinates_rotate (fuel : nat) (self : cref) (theta : theta_arg)
    (axis : axis_arg) (wrt : wrt_arg) (skip_normalization : bool) : M cref :=
  do match axis, theta with
     | AxisVec _, Angle a =>
         match rotation_matrix a axis skip_normalization with
         | Some m => do dyn_rotate_with_matrix fuel self m wrt then ret tt
         | None => raise ValueError
         end
     | (AxisNone | AxisFalse), Matrix m =>
         do dyn_rotate_with_matrix fuel self m wrt then ret tt
     | AxisTok _, Angle a =>
         if wrt_is wrt "local" || wrt_is_obj wrt self then
           let* r := read (fun s => _rotation s self) in
           match rotate_matrix r a axis false skip_normalization with
           | Some m => do store_rotation self m then ret tt
           | None => raise ValueError
           end
         else if wrt_is wrt "parent" || wrt_is wrt "world" then
           let* r := read (fun s => _rotation s self) in
           match rotate_matrix r a axis true skip_normalization with
           | Some m => do store_rotation self m then ret tt
           | None => raise ValueError
           end
         else
           match wrt with
           | WObj _ =>
               match rotation_matrix a axis skip_normalization with
               | Some m => do dyn_rotate_with_matrix fuel self m wrt then ret tt
               | None => raise ValueError
               end
           | _ => raise ValueError
           end
     | _, _ => outside   (* an angle where a matrix is due, or the reverse *)
     end then
  let* r := read (fun s => _rotation s self) in
  let* t := read (fun s => _translation s self) in
  dyn_newcoords fuel self (NcArrays (RotMat r) (PosVec t)) false (RelStr "local").

(** The second test of the source, an array of shape (3,3), comes after
    the first has taken every array and is never reached. *)
Definition CascadedCoords_rotate (fuel : nat) (self : oid) (theta : R)
    (axis : axis_arg) (wrt : wrt_arg) (skip_normalization : bool) : M cref :=
  let me := Obj (Node self) in
  let* par := read (fun s => parent s me) in
  match axis with
  | AxisVec _ =>
      match rotation_matrix theta axis skip_normalization with
      | Some m => CascadedCoords_rotate_with_matrix fuel self m wrt
      | None => raise ValueError
      end
  | _ =>
      if wrt_is wrt "local" || wrt_is_obj wrt me then
        let* r := read (fun s => _rotation s me) in
        match rotate_matrix r theta axis false skip_normalization with
        | Some rotation =>
            let* t := read (fun s => _translation s me) in
            CascadedCoords_newcoords fuel self
              (NcArrays (RotMat rotation) (PosVec t)) false (RelStr "local")
        | None => raise ValueError
        end
      else if wrt_is wrt "parent" || wrt_is_parent wrt par then
        let* r := read (fun s => _rotation s me) in
        match rotate_matrix r theta axis false skip_normalization with
        | Some rotation =>
            let* t := read (fun s => _translation s me) in
            CascadedCoords_newcoords fuel self
              (NcArrays (RotMat rotation) (PosVec t)) false (RelStr "local")
        | None => raise ValueError
        end
      else
        match rotation_matrix theta axis skip_normalization with
        | Some m => CascadedCoords_rotate_with_matrix fuel self m wrt
        | None => raise ValueError
        end
  end.

(** *** [orient_with_matrix] *)

Definition Coordinates_orient_with_matrix (fuel : nat) (self : cref)
    (rotation_matrix : mat3) (wrt : wrt_arg) : M unit :=
  if negb (check_valid_rotation rotation_matrix) then raise ValueError
  else if wrt_is wrt "local" || wrt_is_obj wrt self then
    let* r := read (fun s => matmul (_rotation s self) rotation_matrix) in
    do store_rotation self r then ret tt
  else if wrt_is wrt "world" then
    do store_rotation self rotation_matrix then ret tt
  else
    match wrt with
    | WObj w =>
        let* wr := dyn_worldrot fuel (Obj w) in
        do store_rotation self (matmul wr rotation_matrix) then ret tt
    | _ => raise TypeError
    end.

Definition CascadedCoords_orient_with_matrix (fuel : nat) (self : oid)
    (rotation_matrix : mat3) (wrt : wrt_arg) : M cref :=
  let me := Obj (Node self) in
  let* par := read (fun s => parent s me) in
  if negb (check_valid_rotation rotation_matrix) then raise ValueError
  else
    let* rotation :=
      if wrt_is wrt "local" || wrt_is_obj wrt me then
        read (fun s => matmul (_rotation s me) rotation_matrix)
      else if wrt_is wrt "parent" || wrt_is_parent wrt par then
        ret rotation_matrix
      else if wrt_is wrt "world" then
        let* parent_worldcoords := CascadedCoords_parentcoords fuel self in
        read (fun s => matmul (transpose (_rotation s parent_worldcoords))
                         rotation_matrix)
      else
        match wrt with
        | WObj w =>
            let* wr := dyn_worldrot fuel (Obj w) in
            let world_rotation_matrix := matmul wr rotation_matrix in
            let* parent_worldcoords := CascadedCoords_parentcoords fuel self in
            read (fun s => matmul (transpose (_rotation s parent_worldcoords))
                             world_rotation_matrix)
        | _ => raise TypeError
        end in
    let* t := read (fun s => _translation s me) in
    CascadedCoords_newcoords fuel self (NcArrays (RotMat rotation) (PosVec t))
      false (RelStr "local").

(** *** [CascadedCoords.transform] *)

Definition CascadedCoords_transform (fuel : nat) (self : oid) (c : cref)
    (wrt : wrt_arg) (out : out_arg) : M cref :=
  let me := Obj (Node self) in
  let out := match out with OutNone => OutCoords me | o => o end in
  let* par := read (fun s => parent s me) in
  let* out :=
    match wrt with
    | WObj w =>
        let* pc := CascadedCoords_parentcoords fuel self in
        let* o := transform_coords pc me out in
        let* wi := Coordinates_inverse_transformation (Obj w) None in
        let* o := transform_coords wi o (OutCoords o) in
        let* o := transform_coords c o (OutCoords o) in
        let* ww := dyn_worldcoords fuel (Obj w) in
        let* o := transform_coords ww o (OutCoords o) in
        let* pc := CascadedCoords_parentcoords fuel self in
        let* pci := Coordinates_inverse_transformation pc None in
        transform_coords pci o (OutCoords o)
    | _ =>
        if wrt_is wrt "local" then
          transform_coords me c out
        else if wrt_is wrt "parent" || wrt_is_parent wrt par then
          transform_coords c me out
        else if wrt_is wrt "world" then
          let* parentcoords := CascadedCoords_parentcoords fuel self in
          let* o := transform_coords parentcoords me out in
          let* o := transform_coords c o (OutCoords o) in
          let* pci := Coordinates_inverse_transformation parentcoords None in
          transform_coords pci o (OutCoords o)
        else raise ValueError
    end in
  let* r := read (fun s => _rotation s out) in
  let* t := read (fun s => _translation s out) in
  dyn_newcoords fuel out (NcArrays (RotMat r) (PosVec t)) false (RelStr "local").

Definition dyn_transform (fuel : nat) (self c : cref) (wrt : wrt_arg)
    (out : out_arg) : M cref :=
  match self with
  | Obj (Node n) => CascadedCoords_transform fuel n c wrt out
  | _ => Coordinates_transform fuel self c wrt out
  end.

Definition dyn_rotate (fuel : nat) (self : cref) (theta : R) (axis : axis_arg)
    (wrt : wrt_arg) (skip_normalization : bool) : M cref :=
  match self with
  | Obj (Node n) => CascadedCoords_rotate fuel n theta axis wrt skip_normalization
  | _ => Coordinates_rotate fuel self (Angle theta) axis wrt skip_normalization
  end.

(** *** [assoc] and [dissoc] *)

Definition CascadedCoords_assoc (fuel : nat) (self : oid) (child : ref)
    (relative_coords : rel_arg) (force : bool) : M ref :=
  let me := Node self in
  if bool_decide (me = child) then raise ValueError
  else
    let* cpar := read (fun s => parent s (Obj child)) in
    let is_invalid_assoc :=
      match cpar with Some _ => true | None => false end && negb force in
    if is_invalid_assoc then raise RuntimeError
    else
      let* ds := read (fun s => _descendants s self) in
      if bool_decide (child ∈ ds) then ret child
      else
        let* relative_coords :=
          match relative_coords with
          | RelCoords rc => ret rc
          | RelNone | RelStr "world" =>
              let* sw := dyn_worldcoords fuel (Obj me) in
              let* cw := dyn_worldcoords fuel (Obj child) in
              Coordinates_transformation fuel sw cw (WStr "local")
          | RelStr "local" => dyn_worldcoords fuel (Obj child)
          | _ => raise TypeError
          end in
        do store_parent child (Some me) then
        do dyn_newcoords fuel (Obj child) (NcCoords relative_coords) false
             (RelStr "local") then
        do modify (with_node self (fun k =>
             n_set_descendants (n_descendants k ++ [child]) k)) then
        ret child.

Definition CascadedCoords_dissoc (fuel : nat) (self : oid) (child : ref) : M unit :=
  let* ds := read (fun s => _descendants s self) in
  if bool_decide (child ∈ ds) then
    let* w := dyn_worldcoords fuel (Obj child) in
    let* c := Coordinates_copy_coords fuel w in
    do modify (with_node self (fun k =>
         n_set_descendants (list_remove child (n_descendants k)) k)) then
    do store_parent child None then
    do dyn_newcoords fuel (Obj child) (NcCoords c) false (RelStr "local") then
    ret tt
  else ret tt.

(** *** Interpolation *)

(** the [quaternion] property *)
Definition quaternion (s : store) (c : cref) : quat :=
  matrix2quaternion (_rotation s c).

Definition lerp_coordinates (fuel : nat) (c1 c2 : cref) (t : R) : M cref :=
  if negb (Rle_b 0 t && Rle_b t 1) then raise ValueError
  else
    let* pos1 := dyn_worldpos fuel c1 in
    let* pos2 := dyn_worldpos fuel c2 in
    let interpolated_pos := vadd pos1 (vscale t (vsub pos2 pos1)) in
    let* q1 := read (fun s => quaternion s c1) in
    let* q2 := read (fun s => quaternion s c2) in
    let q2 := if Rlt_b (qdot q1 q2) 0 then qneg q2 else q2 in
    let lerp_q := qadd (qscale (1 - t) q1) (qscale t q2) in
    let lerp_q := qdiv lerp_q (qnorm lerp_q) in
    let interpolated_rot := quaternion2matrix lerp_q in
    ret (Tmp (Pose interpolated_rot interpolated_pos)).

(** [np.clip(x, lo, hi)] *)
Definition clip (x lo hi : R) : R := Rmax lo (Rmin hi x).

Definition slerp_coordinates (fuel : nat) (c1 c2 : cref) (t : R) : M cref :=
  if negb (Rle_b 0 t && Rle_b t 1) then raise ValueError
  else
    let* pos1 := dyn_worldpos fuel c1 in
    let* pos2 := dyn_worldpos fuel c2 in
    let interpolated_pos := vadd pos1 (vscale t (vsub pos2 pos1)) in
    let* q1 := read (fun s => quaternion s c1) in
    let* q2 := read (fun s => quaternion s c2) in
    let q2 := if Rlt_b (qdot q1 q2) 0 then qneg q2 else q2 in
    let dot_product := clip (qdot q1 q2) (-1) 1 in
    let omega := acos (Rabs dot_product) in
    let slerp_q :=
      if Rlt_b (Rabs omega) 1e-6 then
        qadd (qscale (1 - t) q1) (qscale t q2)
      else
        let sin_omega := sin omega in
        qadd (qscale (sin ((1 - t) * omega) / sin_omega) q1)
             (qscale (sin (t * omega) / sin_omega) q2) in
    let slerp_q := qdiv slerp_q (qnorm slerp_q) in
    let interpolated_rot := quaternion2matrix slerp_q in
    ret (Tmp (Pose interpolated_rot interpolated_pos)).

End Engine.

(** ** Vocabulary of the statements *)

(** The object is held by the store (a [Tmp] is held by the caller). *)
Definition has (s : store) (c : cref) : Prop :=
  match c with
  | Obj (Plain p) => is_Some (plains s !! p)
  | Obj (Node n) | Obj (World n) => is_Some (nodes s !! n)
  | Tmp _ => True
  end.

(** The identity pose, [Coordinates()]. *)
Definition identity_pose : pose := Pose eye3 zeros3.

(** ** Concrete poses and stores on which the statements are evaluated *)

(** a quarter turn about z, about x *)
Definition Rz90 : mat3 := M3 (V3 0 (-1) 0) (V3 1 0 0) (V3 0 0 1).
Definition Rx90 : mat3 := M3 (V3 1 0 0) (V3 0 0 (-1)) (V3 0 1 0).

(** Two plain [Coordinates]: 1 at [1, 2, 3] turned about z, 2 at [0, 1, 0]
    turned about x; and the module's [worldcoords] node. *)
Definition two_plains : store :=
  Store (<[1%positive := mkCoords Rz90 (V3 1 2 3) "a" None]>
          (<[2%positive := mkCoords Rx90 (V3 0 1 0) "b" None]> ∅))
        (<[1%positive := mkCascaded eye3 zeros3 "worldcoords" None true [] new_coords]> ∅).

(** A node without its dirty flag and its cached world pose. *)
Definition strip (k : cascaded) : cascaded :=
  mkCascaded (n_rotation k) (n_translation k) (n_name k) (n_parent k) true
    (n_descendants k) new_coords.

(** Two stores that differ at most in dirty flags and cached world poses:
    rotation, translation, name, parent link and descendant registry of
    every object are the same. *)
Definition cache_equiv (s s' : store) : Prop :=
  plains s = plains s' /\ strip <$> nodes s = strip <$> nodes s'.

(** Postcondition [Q] on return and [E] on raise (partial: nothing is said
    of a call that falls outside the model). *)
Definition wp {A} (m : M A) (s : store) (Q : A -> store -> Prop)
    (E : exn -> store -> Prop) : Prop :=
  match m s with
  | Ok a s' => Q a s'
  | Raise e s' => E e s'
  | Outside => True
  end.

(** The parent chain of [r] ends within [d] links. *)
Fixpoint chain_ok (d : nat) (s : store) (r : ref) : bool :=
  match d with
  | O => false
  | S d' =>
      match r with
      | Plain _ => true
      | Node n | World n =>
          match n_parent (node s n) with
          | None => true
          | Some p => chain_ok d' s p
          end
      end
  end.

(** The fuel covers every parent chain and the number of nodes: the parent
    links are acyclic, and no recursion of [update] or [changed] is cut. *)
Definition enough (fuel : nat) (s : store) : Prop :=
  (size (nodes s) < fuel)%nat /\
  map_Forall (fun n _ => chain_ok fuel s (Node n) = true) (nodes s).

(** The number of nodes whose cache is valid. *)
Definition clean_nodes (s : store) : gmap oid cascaded :=
  filter (fun nk => n_changed (snd nk) = false) (nodes s).

(** The call returns or raises: its recursion is not cut and its arguments
    are inside the model. *)
Definition total {A} (m : M A) (s : store) : Prop := m s <> Outside.

(** [wp] for a call that is also [total]. *)
Definition twp {A} (m : M A) (s : store) (Q : A -> store -> Prop)
    (E : exn -> store -> Prop) : Prop :=
  match m s with
  | Ok a s' => Q a s'
  | Raise e s' => E e s'
  | Outside => False
  end.

(** The node is [DIRTY] ([_changed] is true) or [CLEAN]. *)
Definition dirty (s : store) (n : oid) : Prop := _changed s n = true.
Definition clean (s : store) (n : oid) : Prop := _changed s n = false.

(** Registry and parent links agree: a node registered in the
    [_descendants] of [x] has [x] as its parent. *)
Definition registry_consistent (s : store) : Prop :=
  forall x y, Node y ∈ _descendants s x -> parent s (Obj (Node y)) = Some (Node x).

(** The invariant [changed] relies on when it stops at a dirty node: the
    nodes registered under a dirty node are dirty. *)
Definition dirty_closed (s : store) : Prop :=
  forall x y, dirty s x -> Node y ∈ _descendants s x -> dirty s y.

(** [m] is [n] or is registered, through any number of registries, under [n]. *)
Inductive reach (s : store) (n : oid) : oid -> Prop :=
| reach_self : reach s n n
| reach_step (x y : oid) :
    reach s n x -> Node y ∈ _descendants s x -> reach s n y.

(** What one or several calls of [changed] do to a store: flags only, from
    clean to dirty only, and every node they turn dirty has its registered
    nodes dirty afterwards. *)
Definition flagged (s s' : store) : Prop :=
  cache_equiv s s' /\
  (forall x, dirty s x -> dirty s' x) /\
  (forall x, n_worldcoords (node s' x) = n_worldcoords (node s x)) /\
  (forall x y, clean s x -> dirty s' x -> Node y ∈ _descendants s x -> dirty s' y).

(** What one or several calls of [update] do to a store: caches and flags
    only, nothing at a node that was clean, and the invariant of [changed]
    is kept where registry and parent links agree. *)
Definition refreshed (s s' : store) : Prop :=
  cache_equiv s s' /\
  (forall x, clean s x -> node s' x = node s x) /\
  (registry_consistent s -> dirty_closed s -> dirty_closed s').

(** The object that [c.worldcoords()] returns. *)
Definition world_of (c : cref) : cref :=
  match c with
  | Obj (Node n) => Obj (World n)
  | _ => c
  end.

(** Two stores with the same nodes, parent links, registries and flags. *)
Definition same_tree (s s' : store) : Prop :=
  (forall c, has s c <-> has s' c) /\
  (forall n, n_parent (node s' n) = n_parent (node s n) /\
             n_descendants (node s' n) = n_descendants (node s n) /\
             n_changed (node s' n) = n_changed (node s n)).

(** The invariants of a frame tree, with the fuel that covers it. *)
Definition tree_inv (fuel : nat) (s : store) : Prop :=
  enough fuel s /\ registry_consistent s /\ dirty_closed s.

(** The object keeps its rotation and translation. *)
Definition keeps (self : cref) (s s' : store) : Prop :=
  _rotation s' self = _rotation s self /\ _translation s' self = _translation s self.

(** What a pose write does: the object written is returned, the tree is the
    same, and every other object keeps its pose. *)
Definition pose_written (o o' : cref) (s s' : store) : Prop :=
  same_tree s s' /\
  (forall self, self <> o -> keeps self s s') /\
  match o with
  | Obj r => o' = o
  | Tmp _ => s' = s /\ exists q, o' = Tmp q
  end.

(** [o] is not the caller's object [self]. *)
Definition other (self o : cref) : Prop :=
  match self with
  | Tmp _ => True
  | Obj r => o <> Obj r
  end.

(** What the statements follow through a call: the fuel still covers the
    tree, the invariants of the tree hold on, [self] keeps its pose. *)
Definition evolves (fuel : nat) (self : cref) (s s' : store) : Prop :=
  (enough fuel s -> enough fuel s') /\
  (tree_inv fuel s -> tree_inv fuel s') /\
  keeps self s s' /\
  (forall c, has s c -> has s' c).

(** The store [s] of a call that started in [s0]. *)
Definition carried (fuel : nat) (self : cref) (s0 s : store) : Prop :=
  enough fuel s /\ evolves fuel self s0 s.

(** The object returned is the one given, or again an object of the call. *)
Definition same_kind (o o' : cref) : Prop :=
  match o with
  | Obj _ => o' = o
  | Tmp _ => exists q, o' = Tmp q
  end.

(** A plain [Coordinates] or a node, not a cache. *)
Definition is_frame (c : cref) : Prop :=
  match c with
  | Obj (World _) => False
  | _ => True
  end.

(** The pose [transform_coords] computes from two poses. *)
Definition compose_pose (a b : pose) : pose :=
  Pose (matmul (p_rotation a) (p_rotation b))
       (vadd (p_translation a) (dot (p_rotation a) (p_translation b))).

(** ** Checks that decide the invariants on a concrete store *)

Definition enough_check (fuel : nat) (s : store) : bool :=
  (size (nodes s) <? fuel)%nat &&
  forallb (fun nk => chain_ok fuel s (Node (fst nk))) (map_to_list (nodes s)).

Definition registry_check (s : store) : bool :=
  forallb (fun nk =>
    forallb (fun c => match c with
                      | Node y => bool_decide (n_parent (node s y) = Some (Node (fst nk)))
                      | _ => true
                      end) (n_descendants (snd nk)))
    (map_to_list (nodes s)).

Definition closed_check (s : store) : bool :=
  forallb (fun nk =>
    negb (n_changed (snd nk)) ||
    forallb (fun c => match c with
                      | Node y => n_changed (node s y)
                      | _ => true
                      end) (n_descendants (snd nk)))
    (map_to_list (nodes s)).

Definition tree_check (fuel : nat) (s : store) : bool :=
  enough_check fuel s && registry_check s && closed_check s.

(** ** An instance of the collaborators, to evaluate concrete calls *)

Definition Req_b (a b : R) : bool := if Req_EM_T a b then true else false.
Definition vec_eqb (a b : vec3) : bool :=
  Req_b (vx a) (vx b) && Req_b (vy a) (vy b) && Req_b (vz a) (vz b).
Definition mat_eqb (a b : mat3) : bool :=
  vec_eqb (row0 a) (row0 b) && vec_eqb (row1 a) (row1 b) && vec_eqb (row2 a) (row2 b).

Definition det (m : mat3) : R :=
  vx (row0 m) * (vy (row1 m) * vz (row2 m) - vz (row1 m) * vy (row2 m))
  - vy (row0 m) * (vx (row1 m) * vz (row2 m) - vz (row1 m) * vx (row2 m))
  + vz (row0 m) * (vx (row1 m) * vy (row2 m) - vy (row1 m) * vx (row2 m)).

(** Modelled from the spec: [_check_valid_rotation] of
    [skrobot.coordinates.math], not under src/: a rotation is valid when it
    is orthonormal with determinant +1 (here exactly, without tolerance). *)
Definition spec_check_valid_rotation (m : mat3) : bool :=
  mat_eqb (matmul m (transpose m)) eye3 && Req_b (det m) 1.

(** Modelled from the spec: [_check_valid_translation], not under src/:
    "accepts any 3-component numeric sequence; fails with a validation
    error on wrong length/type". *)
Definition spec_check_valid_translation (t : pos_input) : bool :=
  match t with
  | PosVec _ => true
  | PosOther => false
  end.

(** Modelled from the spec: [rotation_matrix], the axis-angle to matrix
    conversion, not under src/: the rotation by [theta] about a named axis,
    or about a vector (normalized unless told to skip it); the spec names
    the conversion without its formula, the usual one is taken. *)
Definition spec_rotation_matrix (theta : R) (axis : axis_arg) (skip : bool) : option mat3 :=
  let c := cos theta in
  let s := sin theta in
  let about (a : vec3) :=
    let x := vx a in let y := vy a in let z := vz a in
    M3 (V3 (c + x * x * (1 - c)) (x * y * (1 - c) - z * s) (x * z * (1 - c) + y * s))
       (V3 (y * x * (1 - c) + z * s) (c + y * y * (1 - c)) (y * z * (1 - c) - x * s))
       (V3 (z * x * (1 - c) - y * s) (z * y * (1 - c) + x * s) (c + z * z * (1 - c))) in
  match axis with
  | AxisTok "x" => Some (about (V3 1 0 0))
  | AxisTok "y" => Some (about (V3 0 1 0))
  | AxisTok "z" => Some (about (V3 0 0 1))
  | AxisVec v =>
      if skip then Some (about v)
      else Some (about (vscale (/ sqrt (inner v v)) v))
  | _ => None
  end.

(** Modelled from the spec: [quaternion2matrix], not under src/: the
    rotation matrix of a unit quaternion [w, x, y, z]. *)
Definition spec_quaternion2matrix (q : quat) : mat3 :=
  let w := qw q in let x := qx q in let y := qy q in let z := qz q in
  M3 (V3 (1 - 2 * (y * y + z * z)) (2 * (x * y - z * w)) (2 * (x * z + y * w)))
     (V3 (2 * (x * y + z * w)) (1 - 2 * (x * x + z * z)) (2 * (y * z - x * w)))
     (V3 (2 * (x * z - y * w)) (2 * (y * z + x * w)) (1 - 2 * (x * x + y * y))).

(** Modelled from the spec: [matrix2quaternion], not under src/: the unit
    quaternion of a rotation matrix, by the formula for a positive trace. *)
Definition spec_matrix2quaternion (m : mat3) : quat :=
  let tr := vx (row0 m) + vy (row1 m) + vz (row2 m) in
  let w := sqrt (1 + tr) / 2 in
  Q4 w ((vy (row2 m) - vz (row1 m)) / (4 * w))
       ((vz (row0 m) - vx (row2 m)) / (4 * w))
       ((vx (row1 m) - vy (row0 m)) / (4 * w)).

(** Modelled from the spec: [rpy2quaternion], not under src/: the
    quaternion of [yaw, pitch, roll]. *)
Definition spec_rpy2quaternion (v : vec3) : quat :=
  let cy := cos (vx v / 2) in let sy := sin (vx v / 2) in
  let cp := cos (vy v / 2) in let sp := sin (vy v / 2) in
  let cr := cos (vz v / 2) in let sr := sin (vz v / 2) in
  Q4 (cr * cp * cy + sr * sp * sy) (sr * cp * cy - cr * sp * sy)
     (cr * sp * cy + sr * cp * sy) (cr * cp * sy - sr * sp * cy).

Definition spec_prims : MathPrims := {|
  rotation_matrix := spec_rotation_matrix;
  quaternion2matrix := spec_quaternion2matrix;
  matrix2quaternion := spec_matrix2quaternion;
  rpy2quaternion := spec_rpy2quaternion;
  check_valid_rotation := spec_check_valid_rotation;
  check_valid_translation := spec_check_valid_translation
|}.

(** The Python session
    [P = CascadedCoords(pos=[1,0,0], rot=Rx90, name='P')],
    [C = CascadedCoords(pos=[1,0,1], rot=Rx90.Rz90, name='C')], [P.assoc(C)],
    [C.worldcoords()]: node 2 is [P], node 3 is [C], both clean, with the two
    plain [Coordinates] of [two_plains]. *)
Definition P_node : cascaded :=
  mkCascaded Rx90 (V3 1 0 0) "P" None false [Node 3%positive]
    (mkCoords Rx90 (V3 1 0 0) "" None).
Definition C_node : cascaded :=
  mkCascaded Rz90 (V3 0 1 0) "C" (Some (Node 2%positive)) false []
    (mkCoords (M3 (V3 0 (-1) 0) (V3 0 0 (-1)) (V3 1 0 0)) (V3 1 0 1) "" None).
Definition family : store :=
  Store (plains two_plains)
        (<[3%positive := C_node]> (<[2%positive := P_node]> (nodes two_plains))).

(** [P] and [C] before [P.assoc(C)]: two roots, freshly constructed. *)
Definition P_alone : cascaded :=
  mkCascaded Rx90 (V3 1 0 0) "P" None true [] (mkCoords Rx90 (V3 1 0 0) "" None).
Definition C_alone : cascaded :=
  mkCascaded (M3 (V3 0 (-1) 0) (V3 0 0 (-1)) (V3 1 0 0)) (V3 1 0 1) "C" None true []
    (mkCoords (M3 (V3 0 (-1) 0) (V3 0 0 (-1)) (V3 1 0 0)) (V3 1 0 1) "" None).
Definition apart : store :=
  Store (plains two_plains)
        (<[3%positive := C_alone]> (<[2%positive := P_alone]> (nodes two_plains))).

(** The state after a mutation of node [n]: the node and every node
    registered under it are dirty, and the next read of the world pose
    recomputes the cache from the parent's world pose and the local pose. *)
Definition marked (fuel : nat) (n : oid) (s' : store) : Prop :=
  dirty s' n /\
  (forall m, reach s' n m -> dirty s' m) /\
  twp (dyn_worldcoords fuel (Obj (Node n))) s'
    (fun w s'' =>
       w = Obj (World n) /\ clean s'' n /\
       pose_of s'' w =
       match parent s' (Obj (Node n)) with
       | None => pose_of s' (Obj (Node n))
       | Some p =>
           compose_pose (pose_of s'' (world_of (Obj p))) (pose_of s' (Obj (Node n)))
       end)
    (fun _ _ => False).

(** The store in which [C] has [P] as its parent: what [child.parent = self]
    of [assoc] makes of the parent links. *)
Definition linked (P C : oid) (s : store) : store :=
  with_node C (n_set_parent (Some (Node P))) s.

(** The pose [inverse_transformation] computes. *)
Definition inverse_pose (a : pose) : pose :=
  Pose (transpose (p_rotation a))
       (vscale (-1) (dot (transpose (p_rotation a)) (p_translation a))).



(** An object made inside the running call. *)
Definition is_tmp (c : cref) : Prop :=
  match c with Tmp _ => True | Obj _ => False end.

(** When the call raises, rotation, translation, name, parent link and
    descendant registry of every object are as before the call. *)
Definition fails_safe {A} (m : M A) : Prop :=
  forall s, wp m s (fun _ _ => True) (fun _ s' => cache_equiv s s').

(** The call does not raise. *)
Definition never_raises {A} (m : M A) : Prop :=
  forall s, wp m s (fun _ _ => True) (fun _ _ => False).

(** The call, whether it returns or raises, writes at most caches and
    flags; what it returns satisfies [P]. *)
Definition reads_only {A} (P : A -> Prop) (m : M A) : Prop :=
  forall s, wp m s (fun a s' => cache_equiv s s' /\ P a) (fun _ s' => cache_equiv s s').

(** The store after [c._rotation = m]. *)
Definition put_rotation (c : cref) (m : mat3) (s : store) : store :=
  match store_rotation c m s with
  | Ok _ s' => s'
  | _ => s
  end.

(** As [cache_equiv], but for the rotation of [self], which may have been
    assigned a new, validated value. *)
Definition rotation_apart `{MathPrims} (self : cref) (s s' : store) : Prop :=
  cache_equiv s s' \/
  exists m, check_valid_rotation m = true /\ cache_equiv (put_rotation self m s) s'.

(** When the call raises, every object is as before the call but for the
    rotation of [self]. *)
Definition fails_safe_but_rotation `{MathPrims} {A} (self : cref) (m : M A) : Prop :=
  forall s, wp m s (fun _ _ => True) (fun _ s' => rotation_apart self s s').

(** ** Vectors through a frame, and the operations built on [transform]

    [transform_vector], [inverse_transform_vector], [rotate_vector] and
    [inverse_rotate_vector] of [Coordinates] on one vector of shape (3,):
    they read [_rotation] and [_translation] of the object itself. *)

Definition Coordinates_transform_vector (s : store) (self : cref) (v : vec3) : vec3 :=
  vadd (dot (_rotation s self) v) (_translation s self).

Definition Coordinates_inverse_transform_vector (s : store) (self : cref)
    (vec : vec3) : vec3 :=
  vsub (dot (transpose (_rotation s self)) vec)
       (dot (transpose (_rotation s self)) (_translation s self)).

Definition Coordinates_rotate_vector (s : store) (self : cref) (v : vec3) : vec3 :=
  dot (_rotation s self) v.

Definition Coordinates_inverse_rotate_vector (s : store) (self : cref) (v : vec3) : vec3 :=
  vdot v (_rotation s self).

(** The methods of the class of [self]: a node answers through
    [self.worldcoords()]. *)
Definition dyn_transform_vector (fuel : nat) (self : cref) (v : vec3) : M vec3 :=
  match self with
  | Obj (Node n) =>
      let* w := dyn_worldcoords fuel self in
      read (fun s => Coordinates_transform_vector s w v)
  | _ => read (fun s => Coordinates_transform_vector s self v)
  end.

Definition dyn_inverse_transform_vector (fuel : nat) (self : cref) (v : vec3) : M vec3 :=
  match self with
  | Obj (Node n) =>
      let* w := dyn_worldcoords fuel self in
      read (fun s => Coordinates_inverse_transform_vector s w v)
  | _ => read (fun s => Coordinates_inverse_transform_vector s self v)
  end.

Definition dyn_rotate_vector (fuel : nat) (self : cref) (v : vec3) : M vec3 :=
  match self with
  | Obj (Node n) =>
      let* w := dyn_worldcoords fuel self in
      read (fun s => Coordinates_rotate_vector s w v)
  | _ => read (fun s => Coordinates_rotate_vector s self v)
  end.

Definition dyn_inverse_rotate_vector (fuel : nat) (self : cref) (v : vec3) : M vec3 :=
  match self with
  | Obj (Node n) =>
      let* w := dyn_worldcoords fuel self in
      read (fun s => Coordinates_inverse_rotate_vector s w v)
  | _ => read (fun s => Coordinates_inverse_rotate_vector s self v)
  end.

(** the module's [wrt(coords, vec)] *)
Definition wrt (fuel : nat) (coords : cref) (vec : vec3) : M vec3 :=
  dyn_transform_vector fuel coords vec.

(** [get_transform]: [Transform(self.worldpos(), self.worldrot())] *)
Definition Coordinates_get_transform (fuel : nat) (self : cref) : M Transform.t :=
  let* pos := dyn_worldpos fuel self in
  let* rot := dyn_worldrot fuel self in
  ret (Transform.make pos rot).

(** [__pow__]: [np.isclose(exponent, -1)] with the defaults of numpy,
    [|a - b| <= atol + rtol * |b|] for [rtol = 1e-05] and [atol = 1e-08] *)
Definition Coordinates___pow__ (self : cref) (exponent : R) : M cref :=
  if Rle_b (Rabs (exponent - -1)) (1e-8 + 1e-5 * Rabs (-1)) then
    Coordinates_inverse_transformation self None
  else raise NotImplementedError.

(** [move_coords(target_coords, local_coords)] *)
Definition Coordinates_move_coords `{MathPrims} (fuel : nat) (self target_coords : cref)
    (local_coords : ref) : M cref :=
  let* c := Coordinates_transformation fuel (Obj local_coords) target_coords
              (WStr "local") in
  do dyn_transform fuel self c (WObj local_coords) OutNone then
  dyn_worldcoords fuel self.

(** * Properties *)

#[global] Arguments node : simpl never.
#[global] Arguments plain : simpl never.
#[global] Arguments with_node : simpl never.
#[global] Arguments with_plain : simpl never.

(** ** Algebra of (3,) and (3,3) arrays *)

Ltac break_arrays :=
  repeat match goal with
         | m : mat3 |- _ => destruct m
         | v : vec3 |- _ => destruct v
         | q : quat |- _ => destruct q
         | p : pose |- _ => destruct p
         end.

Ltac array_eq :=
  break_arrays;
  cbv [matmul dot vdot inner transpose col0 col1 col2 vadd vsub vscale vneg
       eye3 zeros3 row0 row1 row2 vx vy vz];
  repeat (f_equal; try ring).

Lemma matmul_assoc (a b c : mat3) : matmul (matmul a b) c = matmul a (matmul b c).
Proof. array_eq. Qed.

Lemma matmul_eye_l (a : mat3) : matmul eye3 a = a.
Proof. array_eq. Qed.

Lemma matmul_eye_r (a : mat3) : matmul a eye3 = a.
Proof. array_eq. Qed.

Lemma dot_matmul (a b : mat3) (v : vec3) : dot (matmul a b) v = dot a (dot b v).
Proof. array_eq. Qed.

Lemma dot_eye (v : vec3) : dot eye3 v = v.
Proof. array_eq. Qed.

Lemma dot_vadd (a : mat3) (u v : vec3) : dot a (vadd u v) = vadd (dot a u) (dot a v).
Proof. array_eq. Qed.

Lemma dot_vscale (a : mat3) (k : R) (v : vec3) : dot a (vscale k v) = vscale k (dot a v).
Proof. array_eq. Qed.

Lemma vscale_m1 (v : vec3) : vscale (-1) v = vneg v.
Proof. array_eq. Qed.

Lemma vadd_vneg_r (v : vec3) : vadd v (vneg v) = zeros3.
Proof. array_eq. Qed.

Lemma vadd_vneg_l (v : vec3) : vadd (vneg v) v = zeros3.
Proof. array_eq. Qed.

Lemma vadd_assoc (u v w : vec3) : vadd (vadd u v) w = vadd u (vadd v w).
Proof. array_eq. Qed.

Lemma vadd_zeros_r (v : vec3) : vadd v zeros3 = v.
Proof. array_eq. Qed.

Lemma transpose_transpose (a : mat3) : transpose (transpose a) = a.
Proof. array_eq. Qed.

(** A square matrix with orthonormal rows has orthonormal columns. *)
Lemma orthonormal_transpose (m : mat3) :
  orthonormal m -> matmul (transpose m) m = eye3.
Proof.
  unfold orthonormal. destruct m as [[a b c] [d e f] [g h i]].
  cbv [matmul vdot inner transpose col0 col1 col2 eye3 row0 row1 row2 vx vy vz].
  intros E. injection E as E1 E2 E3 E4 E5 E6 E7 E8 E9.
  repeat f_equal; nsatz.
Qed.

Lemma close_refl (eps x : R) : 0 <= eps -> close eps x x.
Proof.
  intros He. unfold close. replace (x - x) with 0 by ring.
  rewrite Rabs_R0. exact He.
Qed.

Lemma tol_nonneg : 0 <= tol.
Proof. unfold tol. lra. Qed.

Lemma vclose_refl (eps : R) (v : vec3) : 0 <= eps -> vclose eps v v.
Proof. intros He. repeat split; apply close_refl; exact He. Qed.

Lemma mclose_refl (eps : R) (m : mat3) : 0 <= eps -> mclose eps m m.
Proof. intros He. repeat split; apply close_refl; exact He. Qed.

Lemma pclose_refl (eps : R) (p : pose) : 0 <= eps -> pclose eps p p.
Proof. intros He. split; [apply mclose_refl | apply vclose_refl]; exact He. Qed.

(** ** The chaining operator of [Transform] *)

(** C7: [t12 * t23] has rotation [t23.rotation . t12.rotation] and translation
    [t23.translation + t23.rotation . t12.translation]; it is what
    [transform_coords] computes for the operands in the other order,
    [transform_coords(t23, t12)]. *)
Theorem Transform_mul_reverses_transform_coords (t12 t23 : Transform.t) (s : store) :
  Transform.rotation (Transform.__mul__ t12 t23)
    = matmul (Transform.rotation t23) (Transform.rotation t12) /\
  Transform.translation (Transform.__mul__ t12 t23)
    = vadd (Transform.translation t23)
        (dot (Transform.rotation t23) (Transform.translation t12)) /\
  transform_coords
    (Tmp (Pose (Transform.rotation t23) (Transform.translation t23)))
    (Tmp (Pose (Transform.rotation t12) (Transform.translation t12)))
    OutNone s
  = Ok (Tmp (Pose (Transform.rotation (Transform.__mul__ t12 t23))
               (Transform.translation (Transform.__mul__ t12 t23)))) s.
Proof.
  repeat split.
Qed.

(** ** Reading the store after a write *)

Lemma node_with_node_ne (s : store) (n m : oid) (f : cascaded -> cascaded) :
  n <> m -> node (with_node n f s) m = node s m.
Proof.
  intros Hne. unfold node, with_node; simpl.
  rewrite lookup_alter_ne by exact Hne. reflexivity.
Qed.

Lemma node_with_node_eq (s : store) (n : oid) (f : cascaded -> cascaded) :
  is_Some (nodes s !! n) -> node (with_node n f s) n = f (node s n).
Proof.
  intros [k Hk]. unfold node, with_node; simpl.
  rewrite lookup_alter_eq, Hk. reflexivity.
Qed.

Lemma node_with_node_absent (s : store) (n m : oid) (f : cascaded -> cascaded) :
  nodes s !! n = None -> node (with_node n f s) m = node s m.
Proof.
  intros Hn. unfold node, with_node; simpl.
  destruct (decide (n = m)) as [->|Hne].
  - rewrite lookup_alter_eq, Hn. reflexivity.
  - rewrite lookup_alter_ne by exact Hne. reflexivity.
Qed.

(** A write that keeps a projection of the record keeps it in the store. *)
Lemma node_with_node_keep {A} (g : cascaded -> A) (s : store) (n m : oid)
    (f : cascaded -> cascaded) :
  (forall k, g (f k) = g k) -> g (node (with_node n f s) m) = g (node s m).
Proof.
  intros Hg. destruct (nodes s !! n) as [k|] eqn:Hn.
  - destruct (decide (n = m)) as [->|Hne].
    + rewrite node_with_node_eq by (rewrite Hn; eauto). apply Hg.
    + rewrite node_with_node_ne by exact Hne. reflexivity.
  - rewrite node_with_node_absent by exact Hn. reflexivity.
Qed.

Lemma node_with_plain (s : store) (p n : oid) (f : coords -> coords) :
  node (with_plain p f s) n = node s n.
Proof. reflexivity. Qed.

Lemma plain_with_node (s : store) (p n : oid) (f : cascaded -> cascaded) :
  plain (with_node n f s) p = plain s p.
Proof. reflexivity. Qed.

Lemma plain_with_plain_ne (s : store) (p q : oid) (f : coords -> coords) :
  p <> q -> plain (with_plain p f s) q = plain s q.
Proof.
  intros Hne. unfold plain, with_plain; simpl.
  rewrite lookup_alter_ne by exact Hne. reflexivity.
Qed.

Lemma plain_with_plain_eq (s : store) (p : oid) (f : coords -> coords) :
  is_Some (plains s !! p) -> plain (with_plain p f s) p = f (plain s p).
Proof.
  intros [k Hk]. unfold plain, with_plain; simpl.
  rewrite lookup_alter_eq, Hk. reflexivity.
Qed.

Lemma plain_with_plain_absent (s : store) (p q : oid) (f : coords -> coords) :
  plains s !! p = None -> plain (with_plain p f s) q = plain s q.
Proof.
  intros Hn. unfold plain, with_plain; simpl.
  destruct (decide (p = q)) as [->|Hne].
  - rewrite lookup_alter_eq, Hn. reflexivity.
  - rewrite lookup_alter_ne by exact Hne. reflexivity.
Qed.

Lemma plain_with_plain_keep {A} (g : coords -> A) (s : store) (p q : oid)
    (f : coords -> coords) :
  (forall k, g (f k) = g k) -> g (plain (with_plain p f s) q) = g (plain s q).
Proof.
  intros Hg. destruct (plains s !! p) as [k|] eqn:Hp.
  - destruct (decide (p = q)) as [->|Hne].
    + rewrite plain_with_plain_eq by (rewrite Hp; eauto). apply Hg.
    + rewrite plain_with_plain_ne by exact Hne. reflexivity.
  - rewrite plain_with_plain_absent by exact Hp. reflexivity.
Qed.

Lemma has_with_node (s : store) (n : oid) (f : cascaded -> cascaded) (c : cref) :
  has (with_node n f s) c <-> has s c.
Proof.
  destruct c as [[p|m|m]|q]; simpl; try tauto;
    rewrite lookup_alter_is_Some; tauto.
Qed.

Lemma has_with_plain (s : store) (p : oid) (f : coords -> coords) (c : cref) :
  has (with_plain p f s) c <-> has s c.
Proof.
  destruct c as [[p'|m|m]|q]; simpl; try tauto;
    rewrite lookup_alter_is_Some; tauto.
Qed.

(** Attribute reads after attribute writes. *)

Ltac keep_attr :=
  intros;
  match goal with
  | |- context [with_node _ _ _] =>
      match goal with
      | c : cref |- _ =>
          destruct c as [[?|?|?]|?]; simpl; try reflexivity;
          first [ apply (node_with_node_keep n_rotation)
                | apply (node_with_node_keep n_translation)
                | apply (node_with_node_keep n_name)
                | apply (node_with_node_keep n_parent)
                | apply (node_with_node_keep (fun k => c_rotation (n_worldcoords k)))
                | apply (node_with_node_keep (fun k => c_translation (n_worldcoords k)))
                | apply (node_with_node_keep (fun k => c_name (n_worldcoords k)))
                | apply (node_with_node_keep (fun k => c_parent (n_worldcoords k))) ];
          intros []; reflexivity
      end
  | |- context [with_plain _ _ _] =>
      match goal with
      | c : cref |- _ =>
          destruct c as [[?|?|?]|?]; simpl; try reflexivity;
          first [ apply (plain_with_plain_keep c_rotation)
                | apply (plain_with_plain_keep c_translation)
                | apply (plain_with_plain_keep c_name)
                | apply (plain_with_plain_keep c_parent) ];
          intros []; reflexivity
      end
  end.

Lemma rotation_with_plain_translation s p v c :
  _rotation (with_plain p (c_set_translation v) s) c = _rotation s c.
Proof. keep_attr. Qed.

Lemma rotation_with_node_translation s n v c :
  _rotation (with_node n (n_set_translation v) s) c = _rotation s c.
Proof. keep_attr. Qed.

Lemma rotation_with_world_translation s n v c :
  _rotation (with_node n (n_on_worldcoords (c_set_translation v)) s) c = _rotation s c.
Proof. keep_attr. Qed.

Lemma translation_with_plain_rotation s p m c :
  _translation (with_plain p (c_set_rotation m) s) c = _translation s c.
Proof. keep_attr. Qed.

Lemma translation_with_node_rotation s n m c :
  _translation (with_node n (n_set_rotation m) s) c = _translation s c.
Proof. keep_attr. Qed.

Lemma translation_with_world_rotation s n m c :
  _translation (with_node n (n_on_worldcoords (c_set_rotation m)) s) c = _translation s c.
Proof. keep_attr. Qed.

(** [store_translation] then [store_rotation] on one object: what is read
    back, and where the result lives. *)
Lemma store_translation_rotation (o : cref) (v : vec3) (m : mat3) (s : store) :
  has s o ->
  exists o' s',
    (let* o1 := store_translation o v in store_rotation o1 m) s = Ok o' s' /\
    _translation s' o' = v /\ _rotation s' o' = m /\
    match o with Obj r => o' = Obj r | Tmp _ => s' = s end /\
    (forall c, has s' c <-> has s c).
Proof.
  intros Ho. destruct o as [[p|n|n]|q]; simpl in Ho; cbn.
  - eexists _, _. split; [reflexivity|]. repeat split.
    + rewrite translation_with_plain_rotation. simpl.
      rewrite plain_with_plain_eq by exact Ho. reflexivity.
    + simpl. rewrite plain_with_plain_eq; [reflexivity|].
      apply (has_with_plain _ _ _ (Obj (Plain p))). exact Ho.
    + intros Hc. apply has_with_plain, has_with_plain in Hc. exact Hc.
    + intros Hc. apply has_with_plain, has_with_plain. exact Hc.
  - eexists _, _. split; [reflexivity|]. repeat split.
    + rewrite translation_with_node_rotation. simpl.
      rewrite node_with_node_eq by exact Ho. reflexivity.
    + simpl. rewrite node_with_node_eq; [reflexivity|].
      apply (has_with_node _ _ _ (Obj (Node n))). exact Ho.
    + intros Hc. apply has_with_node, has_with_node in Hc. exact Hc.
    + intros Hc. apply has_with_node, has_with_node. exact Hc.
  - eexists _, _. split; [reflexivity|]. repeat split.
    + rewrite translation_with_world_rotation. simpl.
      rewrite node_with_node_eq by exact Ho. reflexivity.
    + simpl. rewrite node_with_node_eq; [reflexivity|].
      apply (has_with_node _ _ _ (Obj (Node n))). exact Ho.
    + intros Hc. apply has_with_node, has_with_node in Hc. exact Hc.
    + intros Hc. apply has_with_node, has_with_node. exact Hc.
  - eexists _, _. split; [reflexivity|]. repeat split; tauto.
Qed.

(** Writing the translation of any object changes the rotation of none. *)
Lemma store_translation_keeps_rotation (o : cref) (v : vec3) (s : store) :
  exists o' s', store_translation o v s = Ok o' s' /\
    (forall c, _rotation s' c = _rotation s c) /\
    match o with Obj r => o' = Obj r | Tmp q => o' = Tmp (Pose (p_rotation q) v) /\ s' = s end.
Proof.
  destruct o as [[p|n|n]|q]; cbn; eexists _, _; (split; [reflexivity|]); split;
    try reflexivity; try (split; reflexivity); intros c.
  - apply rotation_with_plain_translation.
  - apply rotation_with_node_translation.
  - apply rotation_with_world_translation.
Qed.

(** ** The compositor primitive *)

(** C1: [transform_coords(c1, c2, out)] returns an object whose translation
    is [c1.translation + c1.rotation . c2.translation] and whose rotation is
    [c1.rotation . c2.rotation], the operands read before the call, also
    when [out] is one of them; a supplied [out] object receives the result
    and is the object returned, and without one the store is untouched. *)
Theorem transform_coords_composes (s : store) (c1 c2 : cref) (out : out_arg) :
  match out with OutCoords o => has s o | _ => True end ->
  out <> OutOther ->
  exists c3 s',
    transform_coords c1 c2 out s = Ok c3 s' /\
    _translation s' c3
      = vadd (_translation s c1) (dot (_rotation s c1) (_translation s c2)) /\
    _rotation s' c3 = matmul (_rotation s c1) (_rotation s c2) /\
    match out with
    | OutCoords (Obj o) => c3 = Obj o
    | _ => s' = s
    end.
Proof.
  intros Hout Hne. destruct out as [|o|]; [| |congruence].
  - cbn. eexists _, _. repeat split.
  - destruct o as [[p|n|n]|q]; cbn in *.
    + rewrite !rotation_with_plain_translation.
      eexists _, _. split; [reflexivity|]. repeat split.
      * rewrite translation_with_plain_rotation. simpl.
        rewrite plain_with_plain_eq by exact Hout. reflexivity.
      * simpl. rewrite plain_with_plain_eq; [reflexivity|].
        apply (has_with_plain _ _ _ (Obj (Plain p))). exact Hout.
    + rewrite !rotation_with_node_translation.
      eexists _, _. split; [reflexivity|]. repeat split.
      * rewrite translation_with_node_rotation. simpl.
        rewrite node_with_node_eq by exact Hout. reflexivity.
      * simpl. rewrite node_with_node_eq; [reflexivity|].
        apply (has_with_node _ _ _ (Obj (Node n))). exact Hout.
    + rewrite !rotation_with_world_translation.
      eexists _, _. split; [reflexivity|]. repeat split.
      * rewrite translation_with_world_rotation. simpl.
        rewrite node_with_node_eq by exact Hout. reflexivity.
      * simpl. rewrite node_with_node_eq; [reflexivity|].
        apply (has_with_node _ _ _ (Obj (Node n))). exact Hout.
    + eexists _, _. repeat split.
Qed.

(** The output object is the first operand itself. *)
Lemma transform_coords_composes_witness :
  has two_plains (Obj (Plain 1%positive)) /\
  OutCoords (Obj (Plain 1%positive)) <> OutOther /\
  exists c3 s',
    transform_coords (Obj (Plain 1%positive)) (Obj (Plain 2%positive)) (OutCoords (Obj (Plain 1%positive)))
      two_plains = Ok c3 s' /\
    _translation s' c3
      = vadd (_translation two_plains (Obj (Plain 1%positive)))
          (dot (_rotation two_plains (Obj (Plain 1%positive)))
             (_translation two_plains (Obj (Plain 2%positive)))) /\
    _rotation s' c3
      = matmul (_rotation two_plains (Obj (Plain 1%positive)))
          (_rotation two_plains (Obj (Plain 2%positive))) /\
    c3 = Obj (Plain 1%positive).
Proof.
  assert (H1 : has two_plains (Obj (Plain 1%positive))) by (vm_compute; eauto).
  assert (H2 : OutCoords (Obj (Plain 1%positive)) <> OutOther) by discriminate.
  split; [exact H1|]. split; [exact H2|].
  exact (transform_coords_composes two_plains (Obj (Plain 1%positive)) (Obj (Plain 2%positive))
           (OutCoords (Obj (Plain 1%positive))) H1 H2).
Defined.

(** ** Inversion *)

(** C8: for a pose [T] with an orthonormal rotation, [inverse_transformation]
    gives the transposed rotation and minus the transposed rotation applied
    to the translation, and [transform_coords] of [T] with it, in either
    order, is the identity pose within 1e-9 (exactly, in exact arithmetic). *)
Theorem inverse_transformation_group_laws (s : store) (T : cref) :
  orthonormal (_rotation s T) ->
  exists Ti c1 c2,
    Coordinates_inverse_transformation T None s = Ok Ti s /\
    _rotation s Ti = transpose (_rotation s T) /\
    _translation s Ti = vneg (dot (transpose (_rotation s T)) (_translation s T)) /\
    transform_coords T Ti OutNone s = Ok c1 s /\
    transform_coords Ti T OutNone s = Ok c2 s /\
    pclose tol (pose_of s c1) identity_pose /\
    pclose tol (pose_of s c2) identity_pose.
Proof.
  intros Ho. pose proof (orthonormal_transpose _ Ho) as Ho'.
  unfold orthonormal in Ho.
  eexists _, _, _. cbn.
  split; [reflexivity|]. split; [reflexivity|].
  split; [apply vscale_m1|].
  split; [reflexivity|]. split; [reflexivity|].
  unfold pose_of, identity_pose; simpl.
  rewrite Ho, Ho', vscale_m1.
  replace (vadd (_translation s T)
             (dot (_rotation s T)
                (vneg (dot (transpose (_rotation s T)) (_translation s T)))))
    with zeros3.
  2:{ transitivity (vadd (_translation s T)
                      (vneg (dot (matmul (_rotation s T) (transpose (_rotation s T)))
                               (_translation s T)))).
      - rewrite Ho, dot_eye, vadd_vneg_r. reflexivity.
      - rewrite dot_matmul. f_equal. array_eq. }
  rewrite vadd_vneg_l.
  split; apply pclose_refl, tol_nonneg.
Qed.

Lemma inverse_transformation_group_laws_witness :
  orthonormal (_rotation two_plains (Obj (Plain 1%positive))) /\
  exists Ti c1 c2,
    Coordinates_inverse_transformation (Obj (Plain 1%positive)) None two_plains
      = Ok Ti two_plains /\
    _rotation two_plains Ti = transpose (_rotation two_plains (Obj (Plain 1%positive))) /\
    _translation two_plains Ti
      = vneg (dot (transpose (_rotation two_plains (Obj (Plain 1%positive))))
                (_translation two_plains (Obj (Plain 1%positive)))) /\
    transform_coords (Obj (Plain 1%positive)) Ti OutNone two_plains = Ok c1 two_plains /\
    transform_coords Ti (Obj (Plain 1%positive)) OutNone two_plains = Ok c2 two_plains /\
    pclose tol (pose_of two_plains c1) identity_pose /\
    pclose tol (pose_of two_plains c2) identity_pose.
Proof.
  assert (Ho : orthonormal (_rotation two_plains (Obj (Plain 1%positive)))).
  { vm_compute. repeat f_equal; lra. }
  split; [exact Ho|].
  exact (inverse_transformation_group_laws two_plains (Obj (Plain 1%positive)) Ho).
Defined.

(** ** Reasoning on calls *)

Lemma wp_ret {A} (a : A) s Q E : Q a s -> wp (ret a) s Q E.
Proof. exact (fun H => H). Qed.

Lemma wp_read {A} (f : store -> A) s Q E : Q (f s) s -> wp (read f) s Q E.
Proof. exact (fun H => H). Qed.

Lemma wp_modify (f : store -> store) s Q E : Q tt (f s) -> wp (modify f) s Q E.
Proof. exact (fun H => H). Qed.

Lemma wp_raise {A} (e : exn) s (Q : A -> store -> Prop) E : E e s -> wp (raise e) s Q E.
Proof. exact (fun H => H). Qed.

Lemma wp_outside {A} s (Q : A -> store -> Prop) E : wp outside s Q E.
Proof. exact I. Qed.

Lemma wp_bind {A B} (m : M A) (k : A -> M B) s Q E :
  wp m s (fun a s' => wp (k a) s' Q E) E -> wp (bind m k) s Q E.
Proof. unfold wp, bind. destruct (m s); auto. Qed.

Lemma wp_mono {A} (m : M A) s (Q Q' : A -> store -> Prop) (E E' : exn -> store -> Prop) :
  wp m s Q E ->
  (forall a s', Q a s' -> Q' a s') ->
  (forall e s', E e s' -> E' e s') ->
  wp m s Q' E'.
Proof. unfold wp. destruct (m s); auto. Qed.

Lemma wp_for_each {A} (f : A -> M unit) (l : list A) (I : store -> Prop)
    (E : exn -> store -> Prop) :
  (forall x s0, x ∈ l -> I s0 -> wp (f x) s0 (fun _ s1 => I s1) E) ->
  forall s, I s -> wp (for_each f l) s (fun _ s' => I s') E.
Proof.
  induction l as [|x l IH]; intros Hf s Hs.
  - exact Hs.
  - simpl. apply wp_bind. eapply wp_mono.
    + apply Hf; [left | exact Hs].
    + intros u s1 H1. apply IH; [|exact H1].
      intros y s0 Hy. apply Hf. right. exact Hy.
    + auto.
Qed.

(** One step of a call: the monad's own operations and the case splits of
    the program. *)
Ltac wp_step :=
  first
    [ apply wp_bind
    | apply wp_ret
    | apply wp_read
    | apply wp_modify
    | apply wp_raise
    | apply wp_outside
    | match goal with
      | |- wp (if ?b then _ else _) _ _ _ => destruct b eqn:?
      | |- wp (match ?x with _ => _ end) _ _ _ => destruct x eqn:?
      | |- wp (let y := ?v in _) _ _ _ => cbv zeta
      end
    | progress cbv beta ].

Ltac wp_steps := repeat wp_step.

(** ** Stores up to caches *)

#[global] Instance cache_equiv_equivalence : Equivalence cache_equiv.
Proof.
  split.
  - intros s. split; reflexivity.
  - intros s s' [H1 H2]. split; symmetry; assumption.
  - intros s1 s2 s3 [H1 H2] [H3 H4]. split; etransitivity; eassumption.
Qed.

Lemma cache_equiv_strip (s s' : store) (n : oid) :
  cache_equiv s s' -> strip (node s n) = strip (node s' n).
Proof.
  intros [_ Hn]. unfold node.
  assert (Hl : (strip <$> nodes s) !! n = (strip <$> nodes s') !! n) by (rewrite Hn; reflexivity).
  rewrite !lookup_fmap in Hl.
  destruct (nodes s !! n), (nodes s' !! n); simpl in *; congruence.
Qed.

Lemma cache_equiv_plain (s s' : store) (p : oid) :
  cache_equiv s s' -> plain s p = plain s' p.
Proof. intros [Hp _]. unfold plain. rewrite Hp. reflexivity. Qed.

Lemma cache_equiv_lookup (s s' : store) (n : oid) :
  cache_equiv s s' -> is_Some (nodes s !! n) <-> is_Some (nodes s' !! n).
Proof.
  intros [_ Hn].
  assert (Hl : (strip <$> nodes s) !! n = (strip <$> nodes s') !! n) by (rewrite Hn; reflexivity).
  rewrite !lookup_fmap in Hl.
  destruct (nodes s !! n), (nodes s' !! n); simpl in *; try congruence;
    split; intros [? ?]; eauto; congruence.
Qed.

Lemma cache_equiv_has (s s' : store) (c : cref) :
  cache_equiv s s' -> has s c <-> has s' c.
Proof.
  intros He. destruct c as [[p|n|n]|q]; simpl; try tauto.
  - destruct He as [Hp _]. rewrite Hp. tauto.
  - apply cache_equiv_lookup, He.
  - apply cache_equiv_lookup, He.
Qed.

Lemma cache_equiv_node_attrs (s s' : store) (n : oid) :
  cache_equiv s s' ->
  n_rotation (node s n) = n_rotation (node s' n) /\
  n_translation (node s n) = n_translation (node s' n) /\
  n_name (node s n) = n_name (node s' n) /\
  n_parent (node s n) = n_parent (node s' n) /\
  n_descendants (node s n) = n_descendants (node s' n).
Proof.
  intros He. pose proof (cache_equiv_strip s s' n He) as Hs.
  unfold strip in Hs. injection Hs. auto.
Qed.

Lemma cache_equiv_parent (s s' : store) (c : cref) :
  (forall n, c <> Obj (World n)) ->
  cache_equiv s s' -> parent s c = parent s' c.
Proof.
  intros Hc He. destruct c as [[p|n|n]|q]; simpl; try reflexivity.
  - rewrite (cache_equiv_plain s s' p He). reflexivity.
  - apply (cache_equiv_node_attrs s s' n He).
  - exfalso. apply (Hc n). reflexivity.
Qed.

Lemma cache_equiv_rotation (s s' : store) (c : cref) :
  (forall n, c <> Obj (World n)) ->
  cache_equiv s s' -> _rotation s c = _rotation s' c.
Proof.
  intros Hc He. destruct c as [[p|n|n]|q]; simpl; try reflexivity.
  - rewrite (cache_equiv_plain s s' p He). reflexivity.
  - apply (cache_equiv_node_attrs s s' n He).
  - exfalso. apply (Hc n). reflexivity.
Qed.

Lemma cache_equiv_translation (s s' : store) (c : cref) :
  (forall n, c <> Obj (World n)) ->
  cache_equiv s s' -> _translation s c = _translation s' c.
Proof.
  intros Hc He. destruct c as [[p|n|n]|q]; simpl; try reflexivity.
  - rewrite (cache_equiv_plain s s' p He). reflexivity.
  - apply (cache_equiv_node_attrs s s' n He).
  - exfalso. apply (Hc n). reflexivity.
Qed.

Lemma cache_equiv_descendants (s s' : store) (n : oid) :
  cache_equiv s s' -> _descendants s n = _descendants s' n.
Proof. intros He. apply (cache_equiv_node_attrs s s' n He). Qed.

Lemma cache_equiv_size (s s' : store) :
  cache_equiv s s' -> size (nodes s) = size (nodes s').
Proof.
  intros [_ Hn].
  rewrite <- (map_size_fmap strip (nodes s)), <- (map_size_fmap strip (nodes s')), Hn.
  reflexivity.
Qed.

Lemma cache_equiv_with_node (s : store) (n : oid) (f : cascaded -> cascaded) :
  (forall k, strip (f k) = strip k) -> cache_equiv s (with_node n f s).
Proof.
  intros Hf. split; [reflexivity|]. simpl.
  apply map_eq. intros i. rewrite !lookup_fmap.
  destruct (decide (n = i)) as [->|Hne].
  - rewrite lookup_alter_eq. destruct (nodes s !! i); simpl; [rewrite Hf|]; reflexivity.
  - rewrite lookup_alter_ne by exact Hne. reflexivity.
Qed.

Lemma cache_equiv_chain_ok (s s' : store) (d : nat) (r : ref) :
  cache_equiv s s' -> chain_ok d s r = chain_ok d s' r.
Proof.
  intros He. revert r. induction d as [|d IH]; intros r; simpl; [reflexivity|].
  destruct r as [p|n|n]; try reflexivity;
    destruct (cache_equiv_node_attrs s s' n He) as (_ & _ & _ & Hp & _);
    rewrite Hp; destruct (n_parent (node s' n)); auto.
Qed.

Lemma cache_equiv_enough (s s' : store) (fuel : nat) :
  cache_equiv s s' -> enough fuel s -> enough fuel s'.
Proof.
  intros He [Hsz Hch]. split.
  - rewrite <- (cache_equiv_size s s' He). exact Hsz.
  - intros n k Hk.
    rewrite <- (cache_equiv_chain_ok s s' fuel (Node n) He).
    destruct (proj2 (cache_equiv_lookup s s' n He)) as [k' Hk']; [eauto|].
    exact (Hch n k' Hk').
Qed.

Lemma enough_chain_ok (s : store) (fuel : nat) (r : ref) :
  enough fuel s -> chain_ok fuel s r = true.
Proof.
  intros [Hsz Hch]. destruct fuel as [|f]; [lia|].
  destruct r as [p|n|n]; [reflexivity| |].
  - destruct (nodes s !! n) as [k|] eqn:Hk.
    + exact (Hch n k Hk).
    + simpl. unfold node. rewrite Hk. reflexivity.
  - destruct (nodes s !! n) as [k|] eqn:Hk.
    + exact (Hch n k Hk).
    + simpl. unfold node. rewrite Hk. reflexivity.
Qed.

Lemma twp_wp {A} (m : M A) s Q E : twp m s Q E -> wp m s Q E.
Proof. unfold twp, wp. destruct (m s); tauto. Qed.

Lemma twp_total {A} (m : M A) s Q E : twp m s Q E -> total m s.
Proof. unfold twp, total. destruct (m s); congruence. Qed.

Lemma twp_intro {A} (m : M A) s Q E : total m s -> wp m s Q E -> twp m s Q E.
Proof. unfold twp, wp, total. destruct (m s); tauto. Qed.

Lemma twp_ret {A} (a : A) s Q E : Q a s -> twp (ret a) s Q E.
Proof. exact (fun H => H). Qed.

Lemma twp_read {A} (f : store -> A) s Q E : Q (f s) s -> twp (read f) s Q E.
Proof. exact (fun H => H). Qed.

Lemma twp_modify (f : store -> store) s Q E : Q tt (f s) -> twp (modify f) s Q E.
Proof. exact (fun H => H). Qed.

Lemma twp_raise {A} (e : exn) s (Q : A -> store -> Prop) E : E e s -> twp (raise e) s Q E.
Proof. exact (fun H => H). Qed.

Lemma twp_bind {A B} (m : M A) (k : A -> M B) s Q E :
  twp m s (fun a s' => twp (k a) s' Q E) E -> twp (bind m k) s Q E.
Proof. unfold twp, bind. destruct (m s); auto. Qed.

Lemma twp_mono {A} (m : M A) s (Q Q' : A -> store -> Prop) (E E' : exn -> store -> Prop) :
  twp m s Q E ->
  (forall a s', Q a s' -> Q' a s') ->
  (forall e s', E e s' -> E' e s') ->
  twp m s Q' E'.
Proof. unfold twp. destruct (m s); auto. Qed.

Lemma wp_conj {A} (m : M A) s (Q Q' : A -> store -> Prop) (E E' : exn -> store -> Prop) :
  wp m s Q E -> wp m s Q' E' ->
  wp m s (fun a s' => Q a s' /\ Q' a s') (fun e s' => E e s' /\ E' e s').
Proof. unfold wp. destruct (m s); auto. Qed.

Lemma twp_conj {A} (m : M A) s (Q Q' : A -> store -> Prop) (E E' : exn -> store -> Prop) :
  twp m s Q E -> wp m s Q' E' ->
  twp m s (fun a s' => Q a s' /\ Q' a s') (fun e s' => E e s' /\ E' e s').
Proof. unfold twp, wp. destruct (m s); auto. Qed.

Ltac twp_step :=
  first
    [ apply twp_bind
    | apply twp_ret
    | apply twp_read
    | apply twp_modify
    | apply twp_raise
    | match goal with
      | |- twp (if ?b then _ else _) _ _ _ => destruct b eqn:?
      | |- twp (match ?x with _ => _ end) _ _ _ => destruct x eqn:?
      | |- twp (let y := ?v in _) _ _ _ => cbv zeta
      end
    | progress cbv beta ].

Ltac twp_steps := repeat twp_step.

(** ** [transform_coords] into a cache, and [update] *)

Lemma store_world_cache_equiv (n : oid) (f : coords -> coords) (s : store) :
  cache_equiv s (with_node n (n_on_worldcoords f) s).
Proof. apply cache_equiv_with_node. intros []; reflexivity. Qed.

Lemma set_changed_cache_equiv (n : oid) (b : bool) (s : store) :
  cache_equiv s (with_node n (n_set_changed b) s).
Proof. apply cache_equiv_with_node. intros []; reflexivity. Qed.

Lemma update_unfold (f : nat) (self : oid) :
  CascadedCoords_update (S f) self =
    (let* changed := read (fun s => _changed s self) in
     if negb changed then ret tt
     else
       let* par := read (fun s => parent s (Obj (Node self))) in
       do match par with
          | Some p =>
              let* pw := worldcoords_by (CascadedCoords_update f) (Obj p) in
              do transform_coords pw (Obj (Node self))
                   (OutCoords (Obj (World self))) then
              ret tt
          | None =>
              let* r := read (fun s => _rotation s (Obj (Node self))) in
              do store_rotation (Obj (World self)) r then
              let* t := read (fun s => _translation s (Obj (Node self))) in
              do store_translation (Obj (World self)) t then
              ret tt
          end then
       modify (with_node self (n_set_changed false))).
Proof. reflexivity. Qed.

(** Writing a pose into the cache of a node. *)
Lemma transform_coords_into_world (c1 c2 : cref) (n : oid) (s : store) :
  exists s',
    transform_coords c1 c2 (OutCoords (Obj (World n))) s = Ok (Obj (World n)) s' /\
    cache_equiv s s' /\
    (forall x, _changed s' x = _changed s x) /\
    (forall x, x <> n -> node s' x = node s x) /\
    (has s (Obj (Node n)) ->
     _rotation s' (Obj (World n)) = matmul (_rotation s c1) (_rotation s c2) /\
     _translation s' (Obj (World n))
       = vadd (_translation s c1) (dot (_rotation s c1) (_translation s c2))).
Proof.
  cbn. rewrite !rotation_with_world_translation.
  eexists. split; [reflexivity|]. split; [|split; [|split]].
  - etransitivity; apply store_world_cache_equiv.
  - intros x. unfold _changed.
    rewrite !(node_with_node_keep n_changed) by (intros []; reflexivity).
    reflexivity.
  - intros x Hx. rewrite !node_with_node_ne by congruence. reflexivity.
  - intros Hn. simpl in Hn. split.
    + rewrite node_with_node_eq; [reflexivity|].
      apply (has_with_node _ _ _ (Obj (Node n))). exact Hn.
    + rewrite (node_with_node_keep (fun k => c_translation (n_worldcoords k)))
        by (intros []; reflexivity).
      rewrite node_with_node_eq by exact Hn. reflexivity.
Qed.

(** Copying the local pose of a root into its cache. *)
Lemma store_world_pose (n : oid) (s : store) :
  exists s',
    (let* r := read (fun s => _rotation s (Obj (Node n))) in
     do store_rotation (Obj (World n)) r then
     let* t := read (fun s => _translation s (Obj (Node n))) in
     do store_translation (Obj (World n)) t then ret tt) s = Ok tt s' /\
    cache_equiv s s' /\
    (forall x, _changed s' x = _changed s x) /\
    (forall x, x <> n -> node s' x = node s x) /\
    (has s (Obj (Node n)) ->
     _rotation s' (Obj (World n)) = _rotation s (Obj (Node n)) /\
     _translation s' (Obj (World n)) = _translation s (Obj (Node n))).
Proof.
  cbn.
  rewrite (node_with_node_keep n_translation) by (intros []; reflexivity).
  eexists. split; [reflexivity|]. split; [|split; [|split]].
  - etransitivity; apply store_world_cache_equiv.
  - intros x. unfold _changed.
    rewrite !(node_with_node_keep n_changed) by (intros []; reflexivity).
    reflexivity.
  - intros x Hx. rewrite !node_with_node_ne by congruence. reflexivity.
  - intros Hn. simpl in Hn. split.
    + rewrite (node_with_node_keep (fun k => c_rotation (n_worldcoords k)))
        by (intros []; reflexivity).
      rewrite node_with_node_eq by exact Hn. reflexivity.
    + rewrite node_with_node_eq; [reflexivity|].
      apply (has_with_node _ _ _ (Obj (Node n))). exact Hn.
Qed.

Lemma wp_of_eq {A} (m : M A) s a s' (Q : A -> store -> Prop) E :
  m s = Ok a s' -> Q a s' -> wp m s Q E.
Proof. unfold wp. intros ->. auto. Qed.

Lemma twp_of_eq {A} (m : M A) s a s' (Q : A -> store -> Prop) E :
  m s = Ok a s' -> Q a s' -> twp m s Q E.
Proof. unfold twp. intros ->. auto. Qed.

(** [update] only refreshes caches and clears flags, and never raises. *)
Lemma update_cache_equiv (fuel : nat) :
  forall (n : oid) (s : store),
    wp (CascadedCoords_update fuel n) s
      (fun _ s' => cache_equiv s s') (fun _ _ => False).
Proof.
  induction fuel as [|f IH]; intros n s; [exact I|].
  assert (Hw : forall p s0, wp (worldcoords_by (CascadedCoords_update f) (Obj p)) s0
                 (fun _ s' => cache_equiv s0 s') (fun _ _ => False)).
  { intros [p|m|m] s0; simpl.
    - apply wp_ret. reflexivity.
    - apply wp_bind. eapply wp_mono; [apply IH| |auto].
      intros u s' He. apply wp_ret. exact He.
    - apply wp_bind. eapply wp_mono; [apply IH| |auto].
      intros u s' He. apply wp_ret. exact He. }
  rewrite update_unfold. apply wp_bind, wp_read.
  destruct (negb (_changed s n)); [apply wp_ret; reflexivity|].
  apply wp_bind, wp_read. apply wp_bind.
  destruct (parent s (Obj (Node n))) as [p|].
  - apply wp_bind. eapply wp_mono; [apply Hw| |auto].
    intros pw s1 He1. cbv beta.
    destruct (transform_coords_into_world pw (Obj (Node n)) n s1) as (s2 & E2 & He2 & _).
    apply wp_bind. eapply wp_of_eq; [exact E2|].
    apply wp_ret, wp_modify.
    etransitivity; [exact He1|]. etransitivity; [exact He2|].
    apply set_changed_cache_equiv.
  - destruct (store_world_pose n s) as (s2 & E2 & He2 & _).
    eapply wp_of_eq; [exact E2|]. apply wp_modify.
    etransitivity; [exact He2|]. apply set_changed_cache_equiv.
Qed.

Lemma registry_consistent_equiv (s s' : store) :
  cache_equiv s s' -> registry_consistent s -> registry_consistent s'.
Proof.
  intros He Hk x y Hy.
  rewrite <- (cache_equiv_descendants s s' x He) in Hy.
  rewrite <- (cache_equiv_parent s s' (Obj (Node y))) by (congruence || exact He).
  apply Hk. exact Hy.
Qed.

#[global] Instance refreshed_preorder : PreOrder refreshed.
Proof.
  split.
  - intros s. split; [reflexivity|]. split; auto.
  - intros s1 s2 s3 (He1 & Hc1 & Hd1) (He2 & Hc2 & Hd2).
    split; [etransitivity; eassumption|]. split.
    + intros x Hx. rewrite Hc2, Hc1; [reflexivity|exact Hx|].
      unfold clean, _changed in *. rewrite Hc1; exact Hx.
    + intros Hk Hd. apply Hd2; [|apply Hd1; assumption].
      eapply registry_consistent_equiv; eassumption.
Qed.

Lemma refreshed_equiv (s s' : store) : refreshed s s' -> cache_equiv s s'.
Proof. intros [He _]. exact He. Qed.

(** A clean node is left alone. *)
Lemma update_clean (f : nat) (n : oid) (s : store) :
  clean s n -> CascadedCoords_update (S f) n s = Ok tt s.
Proof.
  intros Hc. rewrite update_unfold. unfold bind, read. rewrite Hc. reflexivity.
Qed.

Lemma node_set_changed (s : store) (n x : oid) (b : bool) :
  x <> n -> node (with_node n (n_set_changed b) s) x = node s x.
Proof. intros Hx. apply node_with_node_ne. congruence. Qed.

(** The last step of [update], given what the steps before it did. *)
Lemma update_finish (n : oid) (s s1 s2 : store) :
  dirty s n ->
  refreshed s s1 ->
  cache_equiv s1 s2 ->
  (forall x, _changed s2 x = _changed s1 x) ->
  (forall x, x <> n -> node s2 x = node s1 x) ->
  (forall x, parent s (Obj (Node n)) = Some (Node x) ->
     has s (Obj (Node x)) -> clean s1 x) ->
  refreshed s (with_node n (n_set_changed false) s2) /\
  (has s (Obj (Node n)) -> clean (with_node n (n_set_changed false) s2) n).
Proof.
  intros Hd (He1 & Hc1 & Hd1) He2 Hch2 Hne2 Hpar.
  set (s3 := with_node n (n_set_changed false) s2).
  assert (He3 : cache_equiv s s3).
  { etransitivity; [exact He1|]. etransitivity; [exact He2|].
    apply set_changed_cache_equiv. }
  assert (Hx3 : forall x, x <> n -> node s3 x = node s1 x).
  { intros x Hx. unfold s3. rewrite node_set_changed by exact Hx. apply Hne2, Hx. }
  assert (Hn3 : has s (Obj (Node n)) -> clean s3 n).
  { intros Hn. unfold clean, _changed, s3.
    rewrite node_with_node_eq.
    - destruct (node s2 n); reflexivity.
    - apply (cache_equiv_has s s2 (Obj (Node n))); [|exact Hn].
      etransitivity; [exact He1|exact He2]. }
  split; [split; [exact He3|split]|exact Hn3].
  - intros x Hx. assert (x <> n).
    { intros ->. unfold clean, dirty in *. congruence. }
    rewrite Hx3 by assumption. apply Hc1, Hx.
  - intros Hk Hdc x y Hdx Hy.
    rewrite <- (cache_equiv_descendants s s3 x He3) in Hy.
    assert (Hxh : has s (Obj (Node x))).
    { simpl. destruct (nodes s !! x) eqn:Hxl; [eauto|].
      unfold _descendants, node in Hy. rewrite Hxl in Hy. inversion Hy. }
    destruct (decide (x = n)) as [->|Hxn].
    { exfalso. specialize (Hn3 Hxh). unfold clean, dirty in *. congruence. }
    assert (Hdx1 : dirty s1 x).
    { unfold dirty, _changed in *. rewrite <- Hx3 by assumption. exact Hdx. }
    assert (Hy1 : dirty s1 y).
    { apply (Hd1 Hk Hdc x y Hdx1).
      rewrite <- (cache_equiv_descendants s s1 x He1). exact Hy. }
    destruct (decide (y = n)) as [->|Hyn].
    + exfalso. pose proof (Hpar x (Hk x n Hy) Hxh) as Hcl.
      unfold clean, dirty in *. congruence.
    + unfold dirty, _changed in *. rewrite Hx3 by assumption. exact Hy1.
Qed.

Lemma worldcoords_by_unfold (upd : oid -> M unit) (c : cref) :
  worldcoords_by upd c =
    match c with
    | Obj (Node n) => do upd n then ret (Obj (World n))
    | Obj (World n) => do upd n then ret c
    | _ => ret c
    end.
Proof. reflexivity. Qed.

(** [update] refreshes, and leaves its node clean. *)
Lemma update_refreshed (fuel : nat) :
  forall (n : oid) (s : store),
    wp (CascadedCoords_update fuel n) s
      (fun _ s' => refreshed s s' /\ (has s (Obj (Node n)) -> clean s' n))
      (fun _ _ => False).
Proof.
  induction fuel as [|f IH]; intros n s; [exact I|].
  rewrite update_unfold. apply wp_bind, wp_read.
  destruct (negb (_changed s n)) eqn:Hc.
  { apply wp_ret. split; [reflexivity|]. intros _.
    unfold clean. destruct (_changed s n); [discriminate|reflexivity]. }
  assert (Hd : dirty s n).
  { unfold dirty. destruct (_changed s n); [reflexivity|discriminate]. }
  apply wp_bind, wp_read. apply wp_bind.
  destruct (parent s (Obj (Node n))) as [p|] eqn:Hp.
  - apply wp_bind.
    assert (Hw : wp (worldcoords_by (CascadedCoords_update f) (Obj p)) s
                   (fun _ s1 => refreshed s s1 /\
                      (forall x, p = Node x -> has s (Obj (Node x)) -> clean s1 x))
                   (fun _ _ => False)).
    { destruct p as [q|x|x]; rewrite worldcoords_by_unfold.
      - apply wp_ret. split; [reflexivity|]. intros x Hx. discriminate.
      - apply wp_bind. eapply wp_mono; [apply IH| |auto].
        intros u s1 [Hr Hcl]. apply wp_ret. split; [exact Hr|].
        intros y Hy. injection Hy as <-. exact Hcl.
      - apply wp_bind. eapply wp_mono; [apply IH| |auto].
        intros u s1 [Hr Hcl]. apply wp_ret. split; [exact Hr|].
        intros y Hy. discriminate. }
    eapply wp_mono; [exact Hw| |auto].
    intros pw s1 [Hr Hcl]. cbv beta.
    destruct (transform_coords_into_world pw (Obj (Node n)) n s1)
      as (s2 & E2 & He2 & Hch2 & Hne2 & _).
    apply wp_bind. eapply wp_of_eq; [exact E2|].
    apply wp_ret, wp_modify.
    apply (update_finish n s s1 s2 Hd Hr He2 Hch2 Hne2).
    intros x Hx. rewrite Hp in Hx. injection Hx as ->. apply Hcl. reflexivity.
  - destruct (store_world_pose n s) as (s2 & E2 & He2 & Hch2 & Hne2 & _).
    eapply wp_of_eq; [exact E2|]. apply wp_modify.
    apply (update_finish n s s s2 Hd); try assumption; [reflexivity|].
    intros x Hx. rewrite Hp in Hx. discriminate.
Qed.

(** The world-pose readers. *)
Lemma worldcoords_refreshed (fuel : nat) (c : cref) (s : store) :
  wp (dyn_worldcoords fuel c) s
    (fun w s' => w = world_of c /\ refreshed s s' /\
       (forall n, world_of c = Obj (World n) -> has s (Obj (Node n)) -> clean s' n))
    (fun _ _ => False).
Proof.
  unfold dyn_worldcoords. rewrite worldcoords_by_unfold.
  destruct c as [[p|n|n]|q].
  - apply wp_ret. split; [reflexivity|]. split; [reflexivity|]. discriminate.
  - apply wp_bind. eapply wp_mono; [apply update_refreshed| |auto].
    intros u s' [Hr Hc]. apply wp_ret. split; [reflexivity|]. split; [exact Hr|].
    intros m Hm. injection Hm as <-. exact Hc.
  - apply wp_bind. eapply wp_mono; [apply update_refreshed| |auto].
    intros u s' [Hr Hc]. apply wp_ret. split; [reflexivity|]. split; [exact Hr|].
    intros m Hm. injection Hm as <-. exact Hc.
  - apply wp_ret. split; [reflexivity|]. split; [reflexivity|]. discriminate.
Qed.

Lemma worldrot_refreshed (fuel : nat) (c : cref) (s : store) :
  wp (dyn_worldrot fuel c) s
    (fun r s' => refreshed s s' /\
       r = _rotation s' (match c with Obj (Node n) => Obj (World n) | _ => c end) /\
       (forall n, c = Obj (Node n) -> has s (Obj (Node n)) -> clean s' n))
    (fun _ _ => False).
Proof.
  destruct c as [[p|n|n]|q]; unfold dyn_worldrot;
    try (apply wp_read; split; [reflexivity|]; split; [reflexivity|]; discriminate).
  apply wp_bind. eapply wp_mono; [apply worldcoords_refreshed| |auto].
  intros w s' (-> & Hr & Hc). apply wp_read. split; [exact Hr|]. split; [reflexivity|].
  intros m Hm. injection Hm as <-. apply Hc. reflexivity.
Qed.

Lemma worldpos_refreshed (fuel : nat) (c : cref) (s : store) :
  wp (dyn_worldpos fuel c) s
    (fun t s' => refreshed s s' /\
       t = _translation s' (match c with Obj (Node n) => Obj (World n) | _ => c end) /\
       (forall n, c = Obj (Node n) -> has s (Obj (Node n)) -> clean s' n))
    (fun _ _ => False).
Proof.
  destruct c as [[p|n|n]|q]; unfold dyn_worldpos;
    try (apply wp_read; split; [reflexivity|]; split; [reflexivity|]; discriminate).
  apply wp_bind. eapply wp_mono; [apply worldcoords_refreshed| |auto].
  intros w s' (-> & Hr & Hc). apply wp_read. split; [exact Hr|]. split; [reflexivity|].
  intros m Hm. injection Hm as <-. apply Hc. reflexivity.
Qed.

Lemma parentcoords_refreshed (fuel : nat) (n : oid) (s : store) :
  wp (CascadedCoords_parentcoords fuel n) s
    (fun pc s' => refreshed s s' /\
       pc = match parent s (Obj (Node n)) with
            | Some p => world_of (Obj p)
            | None => Obj worldcoords
            end)
    (fun _ _ => False).
Proof.
  unfold CascadedCoords_parentcoords. apply wp_bind, wp_read.
  destruct (parent s (Obj (Node n))) as [p|].
  - eapply wp_mono; [apply worldcoords_refreshed| |auto].
    intros w s' (-> & Hr & _). split; [exact Hr|reflexivity].
  - apply wp_ret. split; reflexivity.
Qed.

(** [update] returns when the parent chain of its node ends within the fuel. *)
Lemma update_twp (d : nat) :
  forall (fuel : nat) (n : oid) (s : store),
    chain_ok d s (Node n) = true -> (d <= fuel)%nat ->
    twp (CascadedCoords_update fuel n) s (fun _ _ => True) (fun _ _ => False).
Proof.
  induction d as [|d IH]; intros fuel n s Hch Hle; [discriminate|].
  destruct fuel as [|f]; [lia|].
  rewrite update_unfold. apply twp_bind, twp_read.
  destruct (negb (_changed s n)); [apply twp_ret; exact I|].
  apply twp_bind, twp_read. apply twp_bind.
  simpl in Hch. change (n_parent (node s n)) with (parent s (Obj (Node n))) in Hch.
  destruct (parent s (Obj (Node n))) as [p|].
  - apply twp_bind.
    assert (Hw : twp (worldcoords_by (CascadedCoords_update f) (Obj p)) s
                   (fun _ _ => True) (fun _ _ => False)).
    { destruct p as [q|x|x]; rewrite worldcoords_by_unfold.
      - apply twp_ret. exact I.
      - apply twp_bind. eapply twp_mono; [apply (IH f x s); [|lia]| |auto].
        + destruct d; [discriminate|exact Hch].
        + intros u s1 _. apply twp_ret. exact I.
      - apply twp_bind. eapply twp_mono; [apply (IH f x s); [|lia]| |auto].
        + destruct d; [discriminate|exact Hch].
        + intros u s1 _. apply twp_ret. exact I. }
    eapply twp_mono; [exact Hw| |auto].
    intros pw s1 _. cbv beta.
    destruct (transform_coords_into_world pw (Obj (Node n)) n s1) as (s2 & E2 & _).
    apply twp_bind. eapply twp_of_eq; [exact E2|].
    apply twp_ret, twp_modify. exact I.
  - destruct (store_world_pose n s) as (s2 & E2 & _).
    eapply twp_of_eq; [exact E2|]. apply twp_modify. exact I.
Qed.

Lemma update_enough (fuel : nat) (n : oid) (s : store) :
  enough fuel s ->
  twp (CascadedCoords_update fuel n) s
    (fun _ s' => refreshed s s' /\ enough fuel s' /\ (has s (Obj (Node n)) -> clean s' n))
    (fun _ _ => False).
Proof.
  intros He.
  eapply twp_mono.
  - apply twp_conj; [|apply update_refreshed].
    apply (update_twp fuel fuel n s); [|lia]. apply enough_chain_ok, He.
  - intros u s' [_ [Hr Hc]]. split; [exact Hr|]. split; [|exact Hc].
    eapply cache_equiv_enough; [|exact He]. apply Hr.
  - intros e s' [[] _].
Qed.

(** ** [changed] *)

#[global] Instance flagged_preorder : PreOrder flagged.
Proof.
  split.
  - intros s. split; [reflexivity|]. split; [auto|]. split; [auto|].
    intros x y Hc Hd. unfold clean, dirty in *. congruence.
  - intros s1 s2 s3 (He1 & Hm1 & Hw1 & Hf1) (He2 & Hm2 & Hw2 & Hf2).
    split; [etransitivity; eassumption|]. split; [auto|].
    split; [intros x; rewrite Hw2; apply Hw1|].
    intros x y Hc Hd Hy.
    destruct (_changed s2 x) eqn:Hx2.
    + apply Hm2. apply (Hf1 x y Hc Hx2 Hy).
    + apply (Hf2 x y Hx2 Hd).
      rewrite <- (cache_equiv_descendants s1 s2 x He1). exact Hy.
Qed.

Lemma changed_unfold (f : nat) (self : oid) :
  CascadedCoords_changed (S f) self =
    (let* changed := read (fun s => _changed s self) in
     if negb changed then
       do modify (with_node self (n_set_changed true)) then
       let* ds := read (fun s => _descendants s self) in
       for_each (fun c => match c with
                          | Node m => CascadedCoords_changed f m
                          | _ => ret tt
                          end) ds
     else ret tt).
Proof. reflexivity. Qed.

Lemma dirty_after_flag (s : store) (n : oid) :
  dirty (with_node n (n_set_changed true) s) n.
Proof.
  unfold dirty, _changed. destruct (nodes s !! n) as [k|] eqn:Hn.
  - rewrite node_with_node_eq by (rewrite Hn; eauto). reflexivity.
  - rewrite node_with_node_absent by exact Hn. unfold node. rewrite Hn. reflexivity.
Qed.

(** [changed] flags, and leaves its node dirty. *)
Lemma changed_flagged (fuel : nat) :
  forall (n : oid) (s : store),
    wp (CascadedCoords_changed fuel n) s
      (fun _ s' => flagged s s' /\ dirty s' n) (fun _ _ => False).
Proof.
  induction fuel as [|f IH]; intros n s; [exact I|].
  rewrite changed_unfold. apply wp_bind, wp_read.
  destruct (negb (_changed s n)) eqn:Hc.
  2:{ apply wp_ret. split; [reflexivity|].
      unfold dirty. destruct (_changed s n); [reflexivity|discriminate]. }
  assert (Hcl : clean s n).
  { unfold clean. destruct (_changed s n); [discriminate|reflexivity]. }
  apply wp_bind, wp_modify. apply wp_bind, wp_read.
  set (s0 := with_node n (n_set_changed true) s).
  assert (He0 : cache_equiv s s0) by apply set_changed_cache_equiv.
  assert (Hloop : forall ds s1,
    wp (for_each (fun c => match c with
                           | Node m => CascadedCoords_changed f m
                           | _ => ret tt
                           end) ds) s1
       (fun _ s' => flagged s1 s' /\ forall y, Node y ∈ ds -> dirty s' y)
       (fun _ _ => False)).
  { induction ds as [|c ds IHds]; intros s1.
    - apply wp_ret. split; [reflexivity|]. intros y Hy. inversion Hy.
    - simpl. apply wp_bind.
      assert (Hc1 : wp (match c with
                        | Node m => CascadedCoords_changed f m
                        | _ => ret tt
                        end) s1
                      (fun _ s2 => flagged s1 s2 /\ forall y, c = Node y -> dirty s2 y)
                      (fun _ _ => False)).
      { destruct c as [q|m|m].
        - apply wp_ret. split; [reflexivity|discriminate].
        - eapply wp_mono; [apply IH| |auto]. intros u s2 [Hf Hd].
          split; [exact Hf|]. intros y Hy. injection Hy as <-. exact Hd.
        - apply wp_ret. split; [reflexivity|discriminate]. }
      eapply wp_mono; [exact Hc1| |auto].
      intros u s2 [Hf2 Hd2]. eapply wp_mono; [apply IHds| |auto].
      intros u' s3 [Hf3 Hd3]. split; [etransitivity; eassumption|].
      intros y Hy. apply elem_of_cons in Hy as [Hy|Hy].
      + destruct Hf3 as (_ & Hm & _). apply Hm, Hd2. symmetry. exact Hy.
      + apply Hd3, Hy. }
  eapply wp_mono; [apply Hloop| |auto].
  intros u s' [(He & Hm & Hw & Hf) Hds].
  assert (Hdn : dirty s' n) by (apply Hm, dirty_after_flag).
  split; [|exact Hdn].
  split; [etransitivity; eassumption|]. split; [|split].
  - intros x Hx. apply Hm. destruct (decide (x = n)) as [->|Hne].
    + apply dirty_after_flag.
    + unfold dirty, _changed, s0 in *. rewrite node_set_changed by exact Hne. exact Hx.
  - intros x. rewrite Hw. unfold s0.
    apply (node_with_node_keep n_worldcoords). intros []; reflexivity.
  - intros x y Hx Hd Hy. destruct (decide (x = n)) as [->|Hne].
    + apply Hds. unfold s0.
      change (Node y ∈ n_descendants (node (with_node n (n_set_changed true) s) n)).
      rewrite (node_with_node_keep n_descendants) by (intros []; reflexivity).
      exact Hy.
    + apply (Hf x y); [| exact Hd |].
      * unfold clean, _changed, s0 in *. rewrite node_set_changed by exact Hne. exact Hx.
      * rewrite <- (cache_equiv_descendants s s0 x He0). exact Hy.
Qed.

(** The clean nodes are the keys of [clean_nodes]. *)
Lemma elem_of_clean_nodes (s : store) (x : oid) :
  x ∈ dom (clean_nodes s) <-> clean s x.
Proof.
  unfold clean_nodes, clean, _changed, node.
  rewrite elem_of_dom. split.
  - intros [k Hk]. apply map_lookup_filter_Some in Hk as [Hk Hc].
    rewrite Hk. exact Hc.
  - intros Hc. destruct (nodes s !! x) as [k|] eqn:Hk; [|discriminate].
    exists k. apply map_lookup_filter_Some. split; [exact Hk|exact Hc].
Qed.

Lemma flagged_clean_size (s s' : store) :
  flagged s s' ->
  (size (dom (clean_nodes s')) <= size (dom (clean_nodes s)))%nat.
Proof.
  intros (_ & Hm & _). apply subseteq_size. intros x Hx.
  apply elem_of_clean_nodes in Hx. apply elem_of_clean_nodes.
  unfold clean, dirty in *. destruct (_changed s x) eqn:Hc; [|reflexivity].
  rewrite (Hm x Hc) in Hx. discriminate.
Qed.

Lemma flag_clean_size (s : store) (n : oid) :
  clean s n ->
  (size (dom (clean_nodes (with_node n (n_set_changed true) s)))
   < size (dom (clean_nodes s)))%nat.
Proof.
  intros Hc. apply subset_size. split.
  - intros x Hx. apply elem_of_clean_nodes in Hx. apply elem_of_clean_nodes.
    destruct (decide (x = n)) as [->|Hne]; [exact Hc|].
    unfold clean, _changed in *. rewrite node_set_changed in Hx by exact Hne. exact Hx.
  - intros Hsub. assert (Hn : n ∈ dom (clean_nodes s)) by (apply elem_of_clean_nodes, Hc).
    apply Hsub, elem_of_clean_nodes in Hn.
    pose proof (dirty_after_flag s n) as Hd. unfold clean, dirty in *. congruence.
Qed.

Lemma clean_size_le_nodes (s : store) :
  (size (dom (clean_nodes s)) <= size (nodes s))%nat.
Proof.
  rewrite <- (size_dom (D := gset oid) (nodes s)).
  apply subseteq_size. unfold clean_nodes. apply dom_filter_subseteq.
Qed.

(** [changed] returns when the fuel exceeds the number of clean nodes. *)
Lemma changed_twp (fuel : nat) :
  forall (n : oid) (s : store),
    (size (dom (clean_nodes s)) < fuel)%nat ->
    twp (CascadedCoords_changed fuel n) s
      (fun _ s' => flagged s s' /\ dirty s' n) (fun _ _ => False).
Proof.
  induction fuel as [|f IH]; intros n s Hsz; [lia|].
  rewrite changed_unfold. apply twp_bind, twp_read.
  destruct (negb (_changed s n)) eqn:Hc.
  2:{ apply twp_ret. split; [reflexivity|].
      unfold dirty. destruct (_changed s n); [reflexivity|discriminate]. }
  assert (Hcl : clean s n).
  { unfold clean. destruct (_changed s n); [discriminate|reflexivity]. }
  apply twp_intro.
  2:{ pose proof (changed_flagged (S f) n s) as Hw.
      rewrite changed_unfold in Hw. unfold wp, bind, read in Hw |- *.
      rewrite Hc in Hw. exact Hw. }
  (* only termination is left *)
  pose proof (flag_clean_size s n Hcl) as Hlt.
  set (s0 := with_node n (n_set_changed true) s) in *.
  assert (Hloop : forall ds s1,
    (size (dom (clean_nodes s1)) < f)%nat ->
    twp (for_each (fun c => match c with
                            | Node m => CascadedCoords_changed f m
                            | _ => ret tt
                            end) ds) s1
       (fun _ _ => True) (fun _ _ => False)).
  { induction ds as [|c ds IHds]; intros s1 Hs1.
    - apply twp_ret. exact I.
    - simpl. apply twp_bind.
      assert (Hc1 : twp (match c with
                         | Node m => CascadedCoords_changed f m
                         | _ => ret tt
                         end) s1
                      (fun _ s2 => flagged s1 s2) (fun _ _ => False)).
      { destruct c as [q|m|m].
        - apply twp_ret. reflexivity.
        - eapply twp_mono; [apply IH, Hs1| |auto]. intros u s2 [Hf _]. exact Hf.
        - apply twp_ret. reflexivity. }
      eapply twp_mono; [exact Hc1| |auto].
      intros u s2 Hf2. apply IHds.
      pose proof (flagged_clean_size s1 s2 Hf2). lia. }
  eapply twp_total. unfold bind, modify, read. fold s0.
  apply (Hloop (_descendants s0 n) s0). lia.
Qed.

Lemma changed_enough (fuel : nat) (n : oid) (s : store) :
  enough fuel s ->
  twp (CascadedCoords_changed fuel n) s
    (fun _ s' => flagged s s' /\ dirty s' n /\ enough fuel s') (fun _ _ => False).
Proof.
  intros He. eapply twp_mono; [apply changed_twp| |auto].
  - pose proof (clean_size_le_nodes s). destruct He. lia.
  - intros u s' [Hf Hd]. split; [exact Hf|]. split; [exact Hd|].
    eapply cache_equiv_enough; [|exact He]. apply Hf.
Qed.

(** Where [changed] started from a store in which the nodes under a dirty
    node are dirty, it ends in such a store. *)
Lemma flagged_dirty_closed (s s' : store) :
  flagged s s' -> dirty_closed s -> dirty_closed s'.
Proof.
  intros (He & Hm & _ & Hf) Hdc x y Hx Hy.
  rewrite <- (cache_equiv_descendants s s' x He) in Hy.
  destruct (_changed s x) eqn:Hxs.
  - apply Hm. apply (Hdc x y Hxs Hy).
  - apply (Hf x y Hxs Hx Hy).
Qed.

Lemma dirty_closed_reach (s : store) (n m : oid) :
  dirty_closed s -> dirty s n -> reach s n m -> dirty s m.
Proof.
  intros Hdc Hn Hr. induction Hr as [|x y Hr IH Hy]; [exact Hn|].
  apply (Hdc x y IH Hy).
Qed.

Lemma reach_equiv (s s' : store) (n m : oid) :
  cache_equiv s s' -> reach s n m -> reach s' n m.
Proof.
  intros He Hr. induction Hr as [|x y Hr IH Hy]; [constructor|].
  apply (reach_step s' n x y IH).
  rewrite <- (cache_equiv_descendants s s' x He). exact Hy.
Qed.

(** ** Stores with the same tree *)

#[global] Instance same_tree_preorder : PreOrder same_tree.
Proof.
  split.
  - intros s. split; [tauto|]. auto.
  - intros s1 s2 s3 [Hd1 Ha1] [Hd2 Ha2]. split.
    + intros c. rewrite Hd1. apply Hd2.
    + intros n. destruct (Ha1 n) as (H1 & H2 & H3), (Ha2 n) as (G1 & G2 & G3).
      repeat split; congruence.
Qed.

Lemma same_tree_size (s s' : store) :
  same_tree s s' -> size (nodes s) = size (nodes s').
Proof.
  intros [Hd _].
  rewrite <- (size_dom (D := gset oid) (nodes s)), <- (size_dom (D := gset oid) (nodes s')).
  f_equal. apply set_eq. intros n. rewrite !elem_of_dom. apply (Hd (Obj (Node n))).
Qed.

Lemma same_tree_chain_ok (s s' : store) (d : nat) (r : ref) :
  same_tree s s' -> chain_ok d s r = chain_ok d s' r.
Proof.
  intros [_ Ha]. revert r. induction d as [|d IH]; intros r; simpl; [reflexivity|].
  destruct r as [p|n|n]; try reflexivity;
    destruct (Ha n) as (-> & _); destruct (n_parent (node s n)); auto.
Qed.

Lemma same_tree_enough (s s' : store) (fuel : nat) :
  same_tree s s' -> enough fuel s -> enough fuel s'.
Proof.
  intros Ht [Hsz Hch]. split.
  - rewrite <- (same_tree_size s s' Ht). exact Hsz.
  - intros n k Hk. rewrite <- (same_tree_chain_ok s s' fuel (Node n) Ht).
    destruct (proj2 (proj1 Ht (Obj (Node n)))) as [k' Hk']; [simpl; eauto|].
    exact (Hch n k' Hk').
Qed.

Lemma same_tree_inv (s s' : store) (fuel : nat) :
  same_tree s s' -> tree_inv fuel s -> tree_inv fuel s'.
Proof.
  intros Ht (He & Hk & Hd). pose proof Ht as [_ Ha].
  split; [eapply same_tree_enough; eassumption|]. split.
  - intros x y Hy. unfold _descendants in Hy. simpl.
    destruct (Ha x) as (_ & Hdx & _). destruct (Ha y) as (Hpy & _).
    rewrite Hdx in Hy. rewrite Hpy. apply (Hk x y Hy).
  - intros x y Hx Hy. unfold dirty, _changed, _descendants in *.
    destruct (Ha x) as (_ & Hdx & Hcx). destruct (Ha y) as (_ & _ & Hcy).
    rewrite Hdx in Hy. rewrite Hcx in Hx. rewrite Hcy. apply (Hd x y Hx Hy).
Qed.

Lemma refreshed_inv (s s' : store) (fuel : nat) :
  refreshed s s' -> tree_inv fuel s -> tree_inv fuel s'.
Proof.
  intros (He & _ & Hd) (Hen & Hk & Hdc).
  split; [eapply cache_equiv_enough; eassumption|].
  split; [eapply registry_consistent_equiv; eassumption|]. auto.
Qed.

Lemma flagged_inv (s s' : store) (fuel : nat) :
  flagged s s' -> tree_inv fuel s -> tree_inv fuel s'.
Proof.
  intros Hf (Hen & Hk & Hdc). pose proof Hf as (He & _).
  split; [eapply cache_equiv_enough; eassumption|].
  split; [eapply registry_consistent_equiv; eassumption|].
  eapply flagged_dirty_closed; eassumption.
Qed.

#[global] Instance keeps_equivalence (self : cref) : Equivalence (keeps self).
Proof.
  split.
  - intros s. split; reflexivity.
  - intros s s' [H1 H2]. split; symmetry; assumption.
  - intros s1 s2 s3 [H1 H2] [H3 H4]. split; etransitivity; eassumption.
Qed.

Lemma is_frame_not_world (c : cref) : is_frame c -> forall n, c <> Obj (World n).
Proof. intros Hc n ->. exact Hc. Qed.

Lemma cache_equiv_keeps (self : cref) (s s' : store) :
  is_frame self -> cache_equiv s s' -> keeps self s s'.
Proof.
  intros Hf He. split; symmetry.
  - apply cache_equiv_rotation; [apply is_frame_not_world, Hf|exact He].
  - apply cache_equiv_translation; [apply is_frame_not_world, Hf|exact He].
Qed.

(** ** Writing a pose *)

Lemma same_tree_with_node (s : store) (n : oid) (f : cascaded -> cascaded) :
  (forall k, n_parent (f k) = n_parent k) ->
  (forall k, n_descendants (f k) = n_descendants k) ->
  (forall k, n_changed (f k) = n_changed k) ->
  same_tree s (with_node n f s).
Proof.
  intros Hp Hd Hc. split.
  - intros c. symmetry. apply has_with_node.
  - intros m. repeat split.
    + apply (node_with_node_keep n_parent), Hp.
    + apply (node_with_node_keep n_descendants), Hd.
    + apply (node_with_node_keep n_changed), Hc.
Qed.

Lemma same_tree_with_plain (s : store) (p : oid) (f : coords -> coords) :
  same_tree s (with_plain p f s).
Proof. split; [intros c; symmetry; apply has_with_plain|]. intros m. repeat split. Qed.

Lemma keeps_with_plain (self : cref) (s : store) (p : oid) (f : coords -> coords) :
  self <> Obj (Plain p) -> keeps self s (with_plain p f s).
Proof.
  intros Hne. destruct self as [[q|n|n]|t]; split; simpl; try reflexivity;
    rewrite plain_with_plain_ne by congruence; reflexivity.
Qed.

Lemma keeps_with_node (self : cref) (s : store) (n : oid) (f : cascaded -> cascaded) :
  (self <> Obj (Node n) \/
   forall k, n_rotation (f k) = n_rotation k /\ n_translation (f k) = n_translation k) ->
  (self <> Obj (World n) \/
   forall k, n_worldcoords (f k) = n_worldcoords k) ->
  keeps self s (with_node n f s).
Proof.
  intros H1 H2. destruct self as [[q|m|m]|t]; split; simpl; try reflexivity.
  - destruct H1 as [H1|H1].
    + rewrite node_with_node_ne by congruence. reflexivity.
    + apply (node_with_node_keep n_rotation). intros k. apply H1.
  - destruct H1 as [H1|H1].
    + rewrite node_with_node_ne by congruence. reflexivity.
    + apply (node_with_node_keep n_translation). intros k. apply H1.
  - destruct H2 as [H2|H2].
    + rewrite node_with_node_ne by congruence. reflexivity.
    + apply (node_with_node_keep (fun k => c_rotation (n_worldcoords k))).
      intros k. rewrite H2. reflexivity.
  - destruct H2 as [H2|H2].
    + rewrite node_with_node_ne by congruence. reflexivity.
    + apply (node_with_node_keep (fun k => c_translation (n_worldcoords k))).
      intros k. rewrite H2. reflexivity.
Qed.

Lemma store_rotation_written (o : cref) (m : mat3) (s : store) :
  exists o' s', store_rotation o m s = Ok o' s' /\ pose_written o o' s s' /\
    _translation s' o' = _translation s o /\
    (has s o -> _rotation s' o' = m).
Proof.
  destruct o as [[p|n|n]|q]; cbn; eexists _, _; (split; [reflexivity|]).
  - split; [split; [apply same_tree_with_plain|split; [|reflexivity]]|split].
    + intros self Hs. apply keeps_with_plain, Hs.
    + unfold _rotation, _translation. apply (plain_with_plain_keep c_translation). intros []; reflexivity.
    + intros Hp. unfold _rotation, _translation. rewrite plain_with_plain_eq by exact Hp. reflexivity.
  - split; [split; [apply same_tree_with_node; intros []; reflexivity|split; [|reflexivity]]|split].
    + intros self Hs. apply keeps_with_node; [left; exact Hs|right; intros []; reflexivity].
    + unfold _rotation, _translation. apply (node_with_node_keep n_translation). intros []; reflexivity.
    + intros Hp. unfold _rotation, _translation. rewrite node_with_node_eq by exact Hp. reflexivity.
  - split; [split; [apply same_tree_with_node; intros []; reflexivity|split; [|reflexivity]]|split].
    + intros self Hs. apply keeps_with_node; [right; intros []; split; reflexivity|left; exact Hs].
    + unfold _rotation, _translation. apply (node_with_node_keep (fun k => c_translation (n_worldcoords k))).
      intros []; reflexivity.
    + intros Hp. unfold _rotation, _translation. rewrite node_with_node_eq by exact Hp. reflexivity.
  - split; [split; [reflexivity|split; [reflexivity|eauto]]|split; reflexivity].
Qed.

Lemma store_translation_written (o : cref) (v : vec3) (s : store) :
  exists o' s', store_translation o v s = Ok o' s' /\ pose_written o o' s s' /\
    _rotation s' o' = _rotation s o /\
    (has s o -> _translation s' o' = v).
Proof.
  destruct o as [[p|n|n]|q]; cbn; eexists _, _; (split; [reflexivity|]).
  - split; [split; [apply same_tree_with_plain|split; [|reflexivity]]|split].
    + intros self Hs. apply keeps_with_plain, Hs.
    + unfold _rotation, _translation. apply (plain_with_plain_keep c_rotation). intros []; reflexivity.
    + intros Hp. unfold _rotation, _translation. rewrite plain_with_plain_eq by exact Hp. reflexivity.
  - split; [split; [apply same_tree_with_node; intros []; reflexivity|split; [|reflexivity]]|split].
    + intros self Hs. apply keeps_with_node; [left; exact Hs|right; intros []; reflexivity].
    + unfold _rotation, _translation. apply (node_with_node_keep n_rotation). intros []; reflexivity.
    + intros Hp. unfold _rotation, _translation. rewrite node_with_node_eq by exact Hp. reflexivity.
  - split; [split; [apply same_tree_with_node; intros []; reflexivity|split; [|reflexivity]]|split].
    + intros self Hs. apply keeps_with_node; [right; intros []; split; reflexivity|left; exact Hs].
    + unfold _rotation, _translation. apply (node_with_node_keep (fun k => c_rotation (n_worldcoords k))).
      intros []; reflexivity.
    + intros Hp. unfold _rotation, _translation. rewrite node_with_node_eq by exact Hp. reflexivity.
  - split; [split; [reflexivity|split; [reflexivity|eauto]]|split; reflexivity].
Qed.

#[global] Instance evolves_preorder (fuel : nat) (self : cref) : PreOrder (evolves fuel self).
Proof.
  split.
  - intros s. split; [auto|]. split; [auto|]. split; [reflexivity|auto].
  - intros s1 s2 s3 (A1 & B1 & C1 & D1) (A2 & B2 & C2 & D2).
    split; [auto|]. split; [auto|]. split; [etransitivity; eassumption|auto].
Qed.

Lemma refreshed_evolves (fuel : nat) (self : cref) (s s' : store) :
  is_frame self -> refreshed s s' -> evolves fuel self s s'.
Proof.
  intros Hf Hr. split; [|split; [|split]].
  - apply cache_equiv_enough, Hr.
  - apply refreshed_inv, Hr.
  - apply cache_equiv_keeps; [exact Hf|apply Hr].
  - intros c. apply (cache_equiv_has s s' c), Hr.
Qed.

Lemma flagged_evolves (fuel : nat) (self : cref) (s s' : store) :
  is_frame self -> flagged s s' -> evolves fuel self s s'.
Proof.
  intros Hf Hr. split; [|split; [|split]].
  - apply cache_equiv_enough, Hr.
  - apply flagged_inv, Hr.
  - apply cache_equiv_keeps; [exact Hf|apply Hr].
  - intros c. apply (cache_equiv_has s s' c), Hr.
Qed.

Lemma keeps_tmp (q : pose) (s s' : store) : keeps (Tmp q) s s'.
Proof. split; reflexivity. Qed.

Lemma written_evolves (fuel : nat) (self o o' : cref) (s s' : store) :
  other self o -> pose_written o o' s s' ->
  evolves fuel self s s' /\ other self o'.
Proof.
  intros Hne (Ht & Hk & Ho). split; [split; [|split; [|split]]|].
  - apply same_tree_enough, Ht.
  - apply same_tree_inv, Ht.
  - destruct self as [r|q]; [|apply keeps_tmp]. apply Hk. simpl in Hne. congruence.
  - intros c. apply Ht.
  - destruct self as [r|q]; [|exact I]. simpl in *.
    destruct o as [r'|q']; [subst; exact Hne|].
    destruct Ho as [_ [q'' ->]]. discriminate.
Qed.

Lemma pose_written_trans (o o1 o2 : cref) (s s1 s2 : store) :
  pose_written o o1 s s1 -> pose_written o1 o2 s1 s2 -> pose_written o o2 s s2.
Proof.
  intros (Ht1 & Hk1 & Ho1) (Ht2 & Hk2 & Ho2).
  split; [etransitivity; eassumption|]. split.
  - intros self Hs. destruct o as [r|q].
    + subst o1. etransitivity; [apply Hk1|apply Hk2]; exact Hs.
    + destruct Ho1 as [-> [q1 ->]]. destruct Ho2 as [-> _]. reflexivity.
  - destruct o as [r|q].
    + subst o1. exact Ho2.
    + destruct Ho1 as [-> [q1 ->]]. destruct Ho2 as [-> Hq]. split; [reflexivity|exact Hq].
Qed.

(** [transform_coords] with an output object. *)
Lemma transform_coords_written (c1 c2 o : cref) (s : store) :
  exists o' s',
    transform_coords c1 c2 (OutCoords o) s = Ok o' s' /\
    pose_written o o' s s' /\
    (has s o -> pose_of s' o' = compose_pose (pose_of s c1) (pose_of s c2)).
Proof.
  unfold transform_coords.
  destruct (store_translation_written o
              (vadd (_translation s c1) (dot (_rotation s c1) (_translation s c2))) s)
    as (o1 & s1 & E1 & W1 & Hr1 & Ht1).
  destruct (store_translation_keeps_rotation o
              (vadd (_translation s c1) (dot (_rotation s c1) (_translation s c2))) s)
    as (o1' & s1' & E1' & Hrot & _).
  rewrite E1 in E1'. injection E1' as <- <-.
  destruct (store_rotation_written o1
              (matmul (_rotation s1 c1) (_rotation s1 c2)) s1)
    as (o2 & s2 & E2 & W2 & Ht2 & Hr2).
  exists o2, s2. split; [|split].
  - unfold bind, read, ret. rewrite E1, E2. reflexivity.
  - eapply pose_written_trans; eassumption.
  - intros Ho. unfold pose_of, compose_pose; simpl.
    assert (Ho1 : has s1 o1).
    { destruct W1 as (Ht & _ & Hoo). destruct o as [r|q].
      - subst o1. apply Ht, Ho.
      - destruct Hoo as [_ [q' ->]]. exact I. }
    rewrite (Hr2 Ho1), Ht2, (Ht1 Ho), !Hrot. reflexivity.
Qed.

Lemma transform_coords_fresh (c1 c2 : cref) (s : store) :
  transform_coords c1 c2 OutNone s
  = Ok (Tmp (compose_pose (pose_of s c1) (pose_of s c2))) s.
Proof. reflexivity. Qed.

Lemma inverse_transformation_fresh (c : cref) (s : store) :
  Coordinates_inverse_transformation c None s
  = Ok (Tmp (Pose (transpose (_rotation s c))
               (vscale (-1) (dot (transpose (_rotation s c)) (_translation s c))))) s.
Proof. reflexivity. Qed.

(** ** [newcoords] as the methods of the module call it:
    [newcoords(rot, pos, check_validity=False, relative_coords='local')] *)

Lemma Coordinates_newcoords_local `{MathPrims} (self : cref) (r : mat3) (t : vec3) (s : store) :
  Coordinates_newcoords self (NcArrays (RotMat r) (PosVec t)) false (RelStr "local") s
  = (let* self := store_rotation self r in store_translation self t) s.
Proof. reflexivity. Qed.

Lemma CascadedCoords_newcoords_local `{MathPrims} (fuel : nat) (n : oid) (r : mat3) (t : vec3)
    (s : store) :
  CascadedCoords_newcoords fuel n (NcArrays (RotMat r) (PosVec t)) false (RelStr "local") s
  = (do store_rotation (Obj (Node n)) r then
     do store_translation (Obj (Node n)) t then
     do CascadedCoords_changed fuel n then
     ret (Obj (Node n))) s.
Proof.
  unfold CascadedCoords_newcoords, bind at 1, read at 1.
  destruct (parent s (Obj (Node n))); reflexivity.
Qed.

Lemma twp_ext {A} (m m' : M A) s Q E : m s = m' s -> twp m' s Q E -> twp m s Q E.
Proof. unfold twp. intros ->. auto. Qed.

Lemma wp_ext {A} (m m' : M A) s Q E : m s = m' s -> wp m' s Q E -> wp m s Q E.
Proof. unfold wp. intros ->. auto. Qed.

(** ** The steps of a call, with what is carried through them *)

Section Carried.

Context `{MathPrims}.
Variables (fuel : nat) (self : cref) (s0 : store).
Hypothesis Hframe : is_frame self.

Lemma carried_step (s s' : store) :
  carried fuel self s0 s -> evolves fuel self s s' -> carried fuel self s0 s'.
Proof.
  intros [Hen Hev] Hev'. split; [apply (proj1 Hev'), Hen|].
  etransitivity; eassumption.
Qed.

Lemma carried_worldcoords (c : cref) (s : store) :
  carried fuel self s0 s ->
  twp (dyn_worldcoords fuel c) s
    (fun w s' => carried fuel self s0 s' /\ w = world_of c /\ refreshed s s' /\
       (forall n, world_of c = Obj (World n) -> has s (Obj (Node n)) -> clean s' n))
    (fun _ _ => False).
Proof.
  intros Hc. apply twp_intro.
  - unfold dyn_worldcoords. rewrite worldcoords_by_unfold.
    destruct c as [[p|n|n]|q]; try discriminate.
    + unfold total, bind.
      pose proof (update_enough fuel n s (proj1 Hc)) as Hu. unfold twp in Hu.
      destruct (CascadedCoords_update fuel n s); [discriminate|destruct Hu|destruct Hu].
    + unfold total, bind.
      pose proof (update_enough fuel n s (proj1 Hc)) as Hu. unfold twp in Hu.
      destruct (CascadedCoords_update fuel n s); [discriminate|destruct Hu|destruct Hu].
  - eapply wp_mono; [apply worldcoords_refreshed| |auto].
    intros w s' (-> & Hr & Hcl). split; [|auto].
    eapply carried_step; [exact Hc|]. apply refreshed_evolves; assumption.
Qed.

Lemma carried_worldrot (c : cref) (s : store) :
  carried fuel self s0 s ->
  twp (dyn_worldrot fuel c) s
    (fun r s' => carried fuel self s0 s' /\ r = _rotation s' (world_of c) /\
       refreshed s s')
    (fun _ _ => False).
Proof.
  intros Hc. destruct c as [[p|n|n]|q]; unfold dyn_worldrot;
    try (apply twp_read; split; [exact Hc|split; reflexivity]).
  apply twp_bind. eapply twp_mono; [apply carried_worldcoords, Hc| |auto].
  intros w s' (Hc' & -> & Hr & _). apply twp_read. auto.
Qed.

Lemma carried_worldpos (c : cref) (s : store) :
  carried fuel self s0 s ->
  twp (dyn_worldpos fuel c) s
    (fun t s' => carried fuel self s0 s' /\ t = _translation s' (world_of c) /\
       refreshed s s')
    (fun _ _ => False).
Proof.
  intros Hc. destruct c as [[p|n|n]|q]; unfold dyn_worldpos;
    try (apply twp_read; split; [exact Hc|split; reflexivity]).
  apply twp_bind. eapply twp_mono; [apply carried_worldcoords, Hc| |auto].
  intros w s' (Hc' & -> & Hr & _). apply twp_read. auto.
Qed.

Lemma carried_parentcoords (n : oid) (s : store) :
  carried fuel self s0 s ->
  twp (CascadedCoords_parentcoords fuel n) s
    (fun pc s' => carried fuel self s0 s' /\ refreshed s s' /\
       pc = match parent s (Obj (Node n)) with
            | Some p => world_of (Obj p)
            | None => Obj worldcoords
            end)
    (fun _ _ => False).
Proof.
  intros Hc. unfold CascadedCoords_parentcoords. apply twp_bind, twp_read.
  destruct (parent s (Obj (Node n))) as [p|].
  - eapply twp_mono; [apply carried_worldcoords, Hc| |auto].
    intros w s' (Hc' & -> & Hr & _). auto.
  - apply twp_ret. split; [exact Hc|]. split; reflexivity.
Qed.

Lemma carried_written (o o' : cref) (s s' : store) :
  other self o -> carried fuel self s0 s -> pose_written o o' s s' ->
  carried fuel self s0 s' /\ other self o' /\ same_kind o o' /\
  (has s o -> has s' o').
Proof.
  intros Ho Hc Hw. destruct (written_evolves fuel self o o' s s' Ho Hw) as [Hev Ho'].
  split; [eapply carried_step; eassumption|]. split; [exact Ho'|].
  destruct Hw as (Ht & _ & Hk). destruct o as [r|q].
  - subst o'. split; [reflexivity|]. apply Ht.
  - destruct Hk as [_ [q' ->]]. split; [eexists; reflexivity|]. intros _. exact I.
Qed.

Lemma carried_transform_coords (c1 c2 o : cref) (s : store) :
  other self o -> carried fuel self s0 s ->
  twp (transform_coords c1 c2 (OutCoords o)) s
    (fun o' s' => carried fuel self s0 s' /\ other self o' /\ same_kind o o' /\
       (has s o -> has s' o' /\
          pose_of s' o' = compose_pose (pose_of s c1) (pose_of s c2)))
    (fun _ _ => False).
Proof.
  intros Ho Hc.
  destruct (transform_coords_written c1 c2 o s) as (o' & s' & E & Hw & Hv).
  eapply twp_of_eq; [exact E|].
  destruct (carried_written o o' s s' Ho Hc Hw) as (Hc' & Ho' & Hk & Hh).
  split; [exact Hc'|]. split; [exact Ho'|]. split; [exact Hk|].
  intros Hh0. split; [apply Hh, Hh0|apply Hv, Hh0].
Qed.

Lemma carried_store_rotation (o : cref) (m : mat3) (s : store) :
  other self o -> carried fuel self s0 s ->
  twp (store_rotation o m) s
    (fun o' s' => carried fuel self s0 s' /\ other self o' /\ same_kind o o' /\
       _translation s' o' = _translation s o /\
       (has s o -> has s' o' /\ _rotation s' o' = m))
    (fun _ _ => False).
Proof.
  intros Ho Hc.
  destruct (store_rotation_written o m s) as (o' & s' & E & Hw & Ht & Hv).
  eapply twp_of_eq; [exact E|].
  destruct (carried_written o o' s s' Ho Hc Hw) as (Hc' & Ho' & Hk & Hh).
  split; [exact Hc'|]. split; [exact Ho'|]. split; [exact Hk|]. split; [exact Ht|].
  intros Hh0. split; [apply Hh, Hh0|apply Hv, Hh0].
Qed.

Lemma carried_store_translation (o : cref) (v : vec3) (s : store) :
  other self o -> carried fuel self s0 s ->
  twp (store_translation o v) s
    (fun o' s' => carried fuel self s0 s' /\ other self o' /\ same_kind o o' /\
       _rotation s' o' = _rotation s o /\
       (has s o -> has s' o' /\ _translation s' o' = v))
    (fun _ _ => False).
Proof.
  intros Ho Hc.
  destruct (store_translation_written o v s) as (o' & s' & E & Hw & Ht & Hv).
  eapply twp_of_eq; [exact E|].
  destruct (carried_written o o' s s' Ho Hc Hw) as (Hc' & Ho' & Hk & Hh).
  split; [exact Hc'|]. split; [exact Ho'|]. split; [exact Hk|]. split; [exact Ht|].
  intros Hh0. split; [apply Hh, Hh0|apply Hv, Hh0].
Qed.

Lemma carried_changed (n : oid) (s : store) :
  carried fuel self s0 s ->
  twp (CascadedCoords_changed fuel n) s
    (fun _ s' => carried fuel self s0 s' /\ flagged s s' /\ dirty s' n)
    (fun _ _ => False).
Proof.
  intros Hc. eapply twp_mono; [apply changed_enough, (proj1 Hc)| |auto].
  intros u s' (Hf & Hd & _). split; [|auto].
  eapply carried_step; [exact Hc|]. apply flagged_evolves; assumption.
Qed.

(** [out.newcoords(rot, pos, check_validity=False, relative_coords='local')] *)
Lemma carried_newcoords_local (o : cref) (r : mat3) (t : vec3) (s : store) :
  other self o -> carried fuel self s0 s ->
  twp (dyn_newcoords fuel o (NcArrays (RotMat r) (PosVec t)) false (RelStr "local")) s
    (fun o' s' => carried fuel self s0 s' /\ other self o' /\ same_kind o o' /\
       (forall n, o = Obj (Node n) -> dirty s' n) /\
       (has s o -> has s' o' /\ _rotation s' o' = r /\ _translation s' o' = t))
    (fun _ _ => False).
Proof.
  intros Ho Hc.
  assert (Hplain :
    twp (let* o1 := store_rotation o r in store_translation o1 t) s
      (fun o' s' => carried fuel self s0 s' /\ other self o' /\ same_kind o o' /\
         (has s o -> has s' o' /\ _rotation s' o' = r /\ _translation s' o' = t))
      (fun _ _ => False)).
  { apply twp_bind. eapply twp_mono; [apply carried_store_rotation; eassumption| |auto].
    intros o1 s1 (Hc1 & Ho1 & Hk1 & Ht1 & Hv1). cbv beta.
    eapply twp_mono; [apply carried_store_translation; eassumption| |auto].
    intros o2 s2 (Hc2 & Ho2 & Hk2 & Hr2 & Hv2).
    split; [exact Hc2|]. split; [exact Ho2|]. split.
    - destruct o as [x|q].
      + simpl in Hk1. subst o1. exact Hk2.
      + destruct Hk1 as [q1 ->]. exact Hk2.
    - intros Hh. destruct (Hv1 Hh) as [Hh1 Hr1]. destruct (Hv2 Hh1) as [Hh2 Ht2].
      split; [exact Hh2|]. split; [congruence|exact Ht2]. }
  destruct o as [[p|n|n]|q]; cbn [dyn_newcoords];
    try (eapply twp_ext; [apply Coordinates_newcoords_local|];
         eapply twp_mono; [exact Hplain| |auto];
         intros o' s' (A & B & C & D);
         split; [exact A|]; split; [exact B|]; split; [exact C|];
         split; [discriminate|exact D]).
  eapply twp_ext; [apply CascadedCoords_newcoords_local|].
  apply twp_bind. eapply twp_mono; [apply carried_store_rotation; eassumption| |auto].
  intros o1 s1 (Hc1 & Ho1 & Hk1 & Ht1 & Hv1). cbv beta.
  simpl in Hk1. subst o1.
  apply twp_bind. eapply twp_mono; [apply carried_store_translation; eassumption| |auto].
  intros o2 s2 (Hc2 & Ho2 & Hk2 & Hr2 & Hv2). cbv beta.
  simpl in Hk2. subst o2.
  apply twp_bind. eapply twp_mono; [apply carried_changed; eassumption| |auto].
  intros u s3 (Hc3 & Hf3 & Hd3). apply twp_ret.
  split; [exact Hc3|]. split; [exact Ho|]. split; [reflexivity|]. split.
  - intros m Hm. injection Hm as <-. exact Hd3.
  - intros Hh. destruct (Hv1 Hh) as [Hh1 Hr1]. destruct (Hv2 Hh1) as [Hh2 Ht2].
    pose proof (proj1 Hf3) as He3.
    split; [apply (cache_equiv_has s2 s3 (Obj (Node n)) He3), Hh2|].
    rewrite <- (cache_equiv_rotation s2 s3 (Obj (Node n))) by (congruence || exact He3).
    rewrite <- (cache_equiv_translation s2 s3 (Obj (Node n))) by (congruence || exact He3).
    split; [congruence|exact Ht2].
Qed.

End Carried.

Lemma same_kind_trans (o o1 o2 : cref) :
  same_kind o o1 -> same_kind o1 o2 -> same_kind o o2.
Proof.
  destruct o as [r|q]; simpl.
  - intros ->. auto.
  - intros [q1 ->]. auto.
Qed.

Lemma same_kind_refl (o : cref) : same_kind o o.
Proof. destruct o; simpl; eauto. Qed.

(** ** [transform] *)

Section Transform.

Context `{MathPrims}.
Variables (fuel : nat) (self : cref) (s0 : store).
Hypothesis Hframe : is_frame self.

(** [transform_coords] with the [out] of the caller. *)
Lemma carried_transform_coords_out (c1 c2 o : cref) (s : store) :
  other self o -> carried fuel self s0 s ->
  twp (transform_coords c1 c2 (OutCoords o)) s
    (fun o' s' => carried fuel self s0 s' /\ other self o' /\ same_kind o o' /\
       (has s o -> has s' o' /\
          pose_of s' o' = compose_pose (pose_of s c1) (pose_of s c2)))
    (fun _ s' => carried fuel self s0 s').
Proof.
  intros Ho Hc. eapply twp_mono; [apply carried_transform_coords; eassumption|auto|].
  intros e s' [].
Qed.


Lemma CascadedCoords_transform_carried (n : oid) (c o : cref) (wrt : wrt_arg)
    (s : store) :
  other self o -> carried fuel self s0 s ->
  twp (CascadedCoords_transform fuel n c wrt (OutCoords o)) s
    (fun o' s' => carried fuel self s0 s' /\ other self o' /\ same_kind o o' /\
       (forall m, o = Obj (Node m) -> dirty s' m) /\
       (has s o ->
        (wrt = WStr "local" ->
         pose_of s' o' = compose_pose (pose_of s (Obj (Node n))) (pose_of s c)) /\
        (wrt = WStr "parent" ->
         pose_of s' o' = compose_pose (pose_of s c) (pose_of s (Obj (Node n)))) /\
        (wrt = WNone -> parent s (Obj (Node n)) = None ->
         pose_of s' o' = compose_pose (pose_of s c) (pose_of s (Obj (Node n))))))
    (fun _ s' => carried fuel self s0 s').
Proof.
  intros Ho Hc. unfold CascadedCoords_transform. apply twp_bind, twp_read.
  (* every branch leaves an object of the kind of [o] to commit *)
  assert (Hfin : forall o1 s1 (P : Prop),
    carried fuel self s0 s1 -> other self o1 -> same_kind o o1 ->
    (has s o -> has s1 o1 /\ (P -> True)) ->
    twp (let* r := read (fun s => _rotation s o1) in
         let* t := read (fun s => _translation s o1) in
         dyn_newcoords fuel o1 (NcArrays (RotMat r) (PosVec t)) false (RelStr "local")) s1
      (fun o' s' => carried fuel self s0 s' /\ other self o' /\ same_kind o o' /\
         (forall m, o = Obj (Node m) -> dirty s' m) /\
         (has s o -> has s' o' /\ pose_of s' o' = pose_of s1 o1))
      (fun _ s' => carried fuel self s0 s')).
  { intros o1 s1 P Hc1 Ho1 Hk1 Hh1. apply twp_bind, twp_read. apply twp_bind, twp_read.
    eapply twp_mono; [apply carried_newcoords_local; eassumption| |intros ? ? []].
    intros o2 s2 (Hc2 & Ho2 & Hk2 & Hd2 & Hv2).
    split; [exact Hc2|]. split; [exact Ho2|]. split; [|split].
    - eapply same_kind_trans; eassumption.
    - intros m ->. simpl in Hk1. subst o1. apply Hd2. reflexivity.
    - intros Hh. destruct (Hh1 Hh) as [Hh' _]. destruct (Hv2 Hh') as (A & B & C).
      split; [exact A|]. unfold pose_of. rewrite B, C. reflexivity. }
  apply twp_bind.
  destruct wrt as [x|w| |].
  - (* a string *)
    cbn [wrt_is_parent].
    destruct (wrt_is (WStr x) "local") eqn:Hl.
    { eapply twp_mono; [apply carried_transform_coords_out; eassumption| |auto].
      intros o1 s1 (Hc1 & Ho1 & Hk1 & Hv1). cbv beta.
      eapply twp_mono; [apply (Hfin o1 s1 True); auto| |auto].
      - intros Hh. split; [apply Hv1, Hh|auto].
      - intros o2 s2 (A & B & C & D & E). repeat (split; [assumption|]).
        intros Hh. destruct (E Hh) as [_ E']. destruct (Hv1 Hh) as [_ V].
        split; [intros _; congruence|]. split; [|discriminate].
        intros Hx. rewrite Hx in Hl. discriminate. }
    destruct (wrt_is (WStr x) "parent" || false) eqn:Hp.
    { eapply twp_mono; [apply carried_transform_coords_out; eassumption| |auto].
      intros o1 s1 (Hc1 & Ho1 & Hk1 & Hv1). cbv beta.
      eapply twp_mono; [apply (Hfin o1 s1 True); auto| |auto].
      - intros Hh. split; [apply Hv1, Hh|auto].
      - intros o2 s2 (A & B & C & D & E). repeat (split; [assumption|]).
        intros Hh. destruct (E Hh) as [_ E']. destruct (Hv1 Hh) as [_ V].
        split; [|split; [intros _; congruence|discriminate]].
        intros Hx. rewrite Hx in Hl. discriminate. }
    destruct (wrt_is (WStr x) "world") eqn:Hw; [|apply twp_raise; exact Hc].
    apply twp_bind.
    eapply twp_mono; [apply carried_parentcoords; eassumption| |intros ? ? []].
    intros pc s1 (Hc1 & Hr1 & _). cbv beta.
    apply twp_bind.
    eapply twp_mono; [apply carried_transform_coords_out; eassumption| |auto].
    intros o1 s2 (Hc2 & Ho2 & Hk2 & Hv2). cbv beta.
    apply twp_bind.
    eapply twp_mono; [apply carried_transform_coords_out; eassumption| |auto].
    intros o2 s3 (Hc3 & Ho3 & Hk3 & Hv3). cbv beta.
    apply twp_bind. eapply twp_of_eq; [apply inverse_transformation_fresh|].
    eapply twp_mono; [apply carried_transform_coords_out; eassumption| |auto].
    intros o3 s4 (Hc4 & Ho4 & Hk4 & Hv4). cbv beta.
    assert (Hk : same_kind o o3).
    { eapply same_kind_trans; [|exact Hk4]. eapply same_kind_trans; eassumption. }
    eapply twp_mono; [apply (Hfin o3 s4 True); auto| |auto].
    + intros Hh. split; [|auto].
      apply Hv4, Hv3, Hv2. apply (cache_equiv_has s s1 o); [apply Hr1|exact Hh].
    + intros o4 s5 (A & B & C & D & E). repeat (split; [assumption|]).
      intros Hh. split; [|split; [|discriminate]]; intros Hx; rewrite Hx in *;
        discriminate.
  - (* a Coordinates *)
    apply twp_bind.
    eapply twp_mono; [apply carried_parentcoords; eassumption| |intros ? ? []].
    intros pc s1 (Hc1 & Hr1 & _). cbv beta.
    apply twp_bind.
    eapply twp_mono; [apply carried_transform_coords_out; eassumption| |auto].
    intros o1 s2 (Hc2 & Ho2 & Hk2 & Hv2). cbv beta.
    apply twp_bind. eapply twp_of_eq; [apply inverse_transformation_fresh|].
    apply twp_bind.
    eapply twp_mono; [apply carried_transform_coords_out; eassumption| |auto].
    intros o2 s3 (Hc3 & Ho3 & Hk3 & Hv3). cbv beta.
    apply twp_bind.
    eapply twp_mono; [apply carried_transform_coords_out; eassumption| |auto].
    intros o3 s4 (Hc4 & Ho4 & Hk4 & Hv4). cbv beta.
    apply twp_bind.
    eapply twp_mono; [apply carried_worldcoords; eassumption| |intros ? ? []].
    intros ww s5 (Hc5 & _ & Hr5 & _). cbv beta.
    apply twp_bind.
    eapply twp_mono; [apply carried_transform_coords_out; eassumption| |auto].
    intros o4 s6 (Hc6 & Ho6 & Hk6 & Hv6). cbv beta.
    apply twp_bind.
    eapply twp_mono; [apply carried_parentcoords; eassumption| |intros ? ? []].
    intros pc' s7 (Hc7 & Hr7 & _). cbv beta.
    apply twp_bind. eapply twp_of_eq; [apply inverse_transformation_fresh|].
    eapply twp_mono; [apply carried_transform_coords_out; eassumption| |auto].
    intros o5 s8 (Hc8 & Ho8 & Hk8 & Hv8). cbv beta.
    assert (Hk : same_kind o o5).
    { eapply same_kind_trans; [|exact Hk8]. eapply same_kind_trans; [|exact Hk6].
      eapply same_kind_trans; [|exact Hk4]. eapply same_kind_trans; eassumption. }
    eapply twp_mono; [apply (Hfin o5 s8 True); auto| |auto].
    + intros Hh. split; [|auto].
      apply Hv8. apply (cache_equiv_has s6 s7 o4); [apply Hr7|].
      apply Hv6. apply (cache_equiv_has s4 s5 o3); [apply Hr5|].
      apply Hv4, Hv3, Hv2. apply (cache_equiv_has s s1 o); [apply Hr1|exact Hh].
    + intros o6 s9 (A & B & C & D & E). repeat (split; [assumption|]).
      intros Hh. split; [|split]; discriminate.
  - (* None *)
    cbn [wrt_is wrt_is_parent]. cbn [orb].
    destruct (parent s (Obj (Node n))) as [p|]; [apply twp_raise; exact Hc|].
    eapply twp_mono; [apply carried_transform_coords_out; eassumption| |auto].
    intros o1 s1 (Hc1 & Ho1 & Hk1 & Hv1). cbv beta.
    eapply twp_mono; [apply (Hfin o1 s1 True); auto| |auto].
    + intros Hh. split; [apply Hv1, Hh|auto].
    + intros o2 s2 (A & B & C & D & E). repeat (split; [assumption|]).
      intros Hh. destruct (E Hh) as [_ E']. destruct (Hv1 Hh) as [_ V].
      split; [discriminate|]. split; [discriminate|]. intros _ _. congruence.
  - apply twp_raise. exact Hc.
Qed.

End Transform.

Lemma twp_elim {A} (m : M A) s (Q : A -> store -> Prop) :
  twp m s Q (fun _ _ => False) -> exists a s', m s = Ok a s' /\ Q a s'.
Proof. unfold twp. destruct (m s); [eauto|tauto|tauto]. Qed.

(** ** [translate] and [rotate] *)

Section Mutators.

Context `{MathPrims}.
Variables (fuel : nat) (self : cref) (s0 : store).
Hypothesis Hframe : is_frame self.

Lemma parent_orientation_carried (recv : cref) (v : vec3) (wrt : wrt_arg) (s : store) :
  carried fuel self s0 s ->
  twp (Coordinates_parent_orientation fuel recv v wrt) s
    (fun u s' => carried fuel self s0 s' /\ refreshed s s' /\
       (wrt = WStr "local" -> u = dot (_rotation s recv) v) /\
       (wrt = WStr "parent" \/ wrt = WStr "world" -> u = v))
    (fun _ s' => s' = s).
Proof.
  intros Hc. unfold Coordinates_parent_orientation. apply twp_bind, twp_read.
  destruct (wrt_is wrt "local" || wrt_is_obj wrt recv) eqn:Hl.
  { apply twp_read. split; [exact Hc|]. split; [reflexivity|]. split; [auto|].
    intros [-> | ->]; discriminate. }
  destruct (wrt_is wrt "parent" || wrt_is_parent wrt (parent s recv)
            || wrt_is wrt "world") eqn:Hp.
  { apply twp_ret. split; [exact Hc|]. split; [reflexivity|]. split; [|auto].
    intros ->. discriminate. }
  destruct wrt as [x|w| |]; try (apply twp_raise; reflexivity).
  apply twp_bind.
  eapply twp_mono; [apply carried_worldrot; eassumption| |intros ? ? []].
  intros r s1 (Hc1 & _ & Hr1). apply twp_ret.
  split; [exact Hc1|]. split; [exact Hr1|]. split; [discriminate|].
  intros [?|?]; discriminate.
Qed.

Lemma Coordinates_translate_carried (recv : cref) (vec : vec3) (wrt : wrt_arg)
    (s : store) :
  other self recv -> carried fuel self s0 s ->
  twp (Coordinates_translate fuel recv vec wrt) s
    (fun o' s' => carried fuel self s0 s' /\ same_kind recv o' /\
       (forall m, recv = Obj (Node m) -> dirty s' m))
    (fun _ s' => s' = s).
Proof.
  intros Ho Hc. unfold Coordinates_translate. apply twp_bind, twp_read.
  apply twp_bind.
  eapply twp_mono; [apply parent_orientation_carried; eassumption| |auto].
  intros v s1 (Hc1 & Hr1 & Hl & Hp). cbv beta. apply twp_bind, twp_read.
  eapply twp_mono; [apply carried_newcoords_local; eassumption| |intros ? ? []].
  intros o' s2 (Hc2 & Ho2 & Hk2 & Hd2 & Hv2). auto.
Qed.

Lemma CascadedCoords_rotate_with_matrix_carried (n : oid) (matrix : mat3)
    (wrt : wrt_arg) (s : store) :
  other self (Obj (Node n)) -> carried fuel self s0 s ->
  twp (CascadedCoords_rotate_with_matrix fuel n matrix wrt) s
    (fun o' s' => carried fuel self s0 s' /\ o' = Obj (Node n) /\ dirty s' n)
    (fun _ _ => False).
Proof.
  intros Ho Hc. unfold CascadedCoords_rotate_with_matrix. apply twp_bind, twp_read.
  assert (Hfin : forall r t s1, carried fuel self s0 s1 ->
    twp (CascadedCoords_newcoords fuel n (NcArrays (RotMat r) (PosVec t)) false
           (RelStr "local")) s1
      (fun o' s' => carried fuel self s0 s' /\ o' = Obj (Node n) /\ dirty s' n)
      (fun _ _ => False)).
  { intros r t s1 Hc1.
    eapply twp_mono;
      [apply (carried_newcoords_local fuel self s0 Hframe (Obj (Node n)));
       eassumption| |auto].
    intros o' s' (A & B & C & D & _). split; [exact A|]. split; [exact C|].
    apply D. reflexivity. }
  destruct (wrt_is wrt "local" || wrt_is_obj wrt (Obj (Node n))).
  { apply twp_bind, twp_read. apply twp_bind.
    eapply twp_mono; [apply carried_store_rotation; eassumption| |auto].
    intros o1 s1 (Hc1 & _). cbv beta.
    apply twp_bind, twp_read. apply twp_bind, twp_read. apply Hfin, Hc1. }
  destruct (wrt_is wrt "parent" || wrt_is_parent wrt (parent s (Obj (Node n)))).
  { apply twp_bind, twp_read. apply twp_bind, twp_read. apply Hfin, Hc. }
  apply twp_bind.
  eapply twp_mono; [apply carried_parentcoords; eassumption| |auto].
  intros pc s1 (Hc1 & _). cbv beta. apply twp_bind, twp_read. apply twp_bind.
  destruct wrt as [x|w| |]; try (apply twp_ret; cbv zeta;
    apply twp_bind, twp_read; apply twp_bind, twp_read; apply Hfin, Hc1).
  apply twp_bind.
  eapply twp_mono; [apply carried_worldrot; eassumption| |auto].
  intros wr s2 (Hc2 & _). cbv beta zeta. apply twp_ret.
  apply twp_bind, twp_read. apply twp_bind, twp_read. apply Hfin, Hc2.
Qed.

Lemma Coordinates_rotate_with_matrix_carried (recv : cref) (mat : mat3)
    (wrt : wrt_arg) (s : store) :
  other self recv -> carried fuel self s0 s ->
  twp (Coordinates_rotate_with_matrix fuel recv mat wrt) s
    (fun o' s' => carried fuel self s0 s' /\ same_kind recv o' /\ other self o')
    (fun _ s' => s' = s).
Proof.
  intros Ho Hc. unfold Coordinates_rotate_with_matrix. apply twp_bind, twp_read.
  assert (Hfin : forall r t s1, carried fuel self s0 s1 ->
    twp (do dyn_newcoords fuel recv (NcArrays (RotMat r) (PosVec t)) false
              (RelStr "local") then ret recv) s1
      (fun o' s' => carried fuel self s0 s' /\ same_kind recv o' /\ other self o')
      (fun _ s' => s' = s)).
  { intros r t s1 Hc1. apply twp_bind.
    eapply twp_mono; [apply carried_newcoords_local; eassumption| |intros ? ? []].
    intros o' s' (A & B & C & D & _). apply twp_ret.
    split; [exact A|]. split; [apply same_kind_refl|exact Ho]. }
  destruct (wrt_is wrt "local" || wrt_is_obj wrt recv).
  { apply twp_bind, twp_read. apply twp_bind, twp_read. apply Hfin, Hc. }
  destruct (wrt_is wrt "parent" || wrt_is_parent wrt (parent s recv)
            || wrt_is wrt "world" || match wrt with WNone => true | _ => false end
            || wrt_is_obj wrt (Obj worldcoords)).
  { apply twp_bind, twp_read. apply twp_bind, twp_read. apply Hfin, Hc. }
  destruct wrt as [x|w| |]; try (apply twp_raise; reflexivity).
  apply twp_bind.
  eapply twp_mono; [apply carried_worldrot; eassumption| |intros ? ? []].
  intros r2 s1 (Hc1 & _). cbv beta zeta. apply twp_bind, twp_read.
  eapply twp_mono; [apply carried_store_rotation; eassumption| |intros ? ? []].
  intros o' s2 (Hc2 & Ho2 & Hk2 & _). auto.
Qed.

Lemma dyn_rotate_with_matrix_carried (recv : cref) (mat : mat3)
    (wrt : wrt_arg) (s : store) :
  other self recv -> carried fuel self s0 s ->
  twp (dyn_rotate_with_matrix fuel recv mat wrt) s
    (fun o' s' => carried fuel self s0 s' /\ same_kind recv o' /\ other self o')
    (fun _ s' => s' = s).
Proof.
  intros Ho Hc. destruct recv as [[p|n|n]|q]; cbn [dyn_rotate_with_matrix];
    try (apply Coordinates_rotate_with_matrix_carried; assumption).
  eapply twp_mono; [apply CascadedCoords_rotate_with_matrix_carried; eassumption|
                    |intros ? ? []].
  intros o' s' (A & -> & _). split; [exact A|]. split; [reflexivity|exact Ho].
Qed.

Lemma CascadedCoords_rotate_carried (n : oid) (theta : R) (axis : axis_arg)
    (wrt : wrt_arg) (skip : bool) (s : store) :
  other self (Obj (Node n)) -> carried fuel self s0 s ->
  twp (CascadedCoords_rotate fuel n theta axis wrt skip) s
    (fun o' s' => carried fuel self s0 s' /\ o' = Obj (Node n) /\ dirty s' n)
    (fun _ s' => s' = s).
Proof.
  intros Ho Hc. unfold CascadedCoords_rotate. apply twp_bind, twp_read.
  assert (Hm : forall m, twp (CascadedCoords_rotate_with_matrix fuel n m wrt) s
            (fun o' s' => carried fuel self s0 s' /\ o' = Obj (Node n) /\ dirty s' n)
            (fun _ s' => s' = s)).
  { intros m. eapply twp_mono;
      [apply CascadedCoords_rotate_with_matrix_carried; eassumption|auto|intros ? ? []]. }
  assert (Hfin : forall r t,
    twp (CascadedCoords_newcoords fuel n (NcArrays (RotMat r) (PosVec t)) false
           (RelStr "local")) s
      (fun o' s' => carried fuel self s0 s' /\ o' = Obj (Node n) /\ dirty s' n)
      (fun _ s' => s' = s)).
  { intros r t.
    eapply twp_mono;
      [apply (carried_newcoords_local fuel self s0 Hframe (Obj (Node n)));
       eassumption| |intros ? ? []].
    intros o' s' (A & B & C & D & _). split; [exact A|]. split; [exact C|].
    apply D. reflexivity. }
  assert (Htok :
    twp (if wrt_is wrt "local" || wrt_is_obj wrt (Obj (Node n)) then
           let* r := read (fun s => _rotation s (Obj (Node n))) in
           match rotate_matrix r theta axis false skip with
           | Some rotation =>
               let* t := read (fun s => _translation s (Obj (Node n))) in
               CascadedCoords_newcoords fuel n
                 (NcArrays (RotMat rotation) (PosVec t)) false (RelStr "local")
           | None => raise ValueError
           end
         else if wrt_is wrt "parent" || wrt_is_parent wrt (parent s (Obj (Node n))) then
           let* r := read (fun s => _rotation s (Obj (Node n))) in
           match rotate_matrix r theta axis false skip with
           | Some rotation =>
               let* t := read (fun s => _translation s (Obj (Node n))) in
               CascadedCoords_newcoords fuel n
                 (NcArrays (RotMat rotation) (PosVec t)) false (RelStr "local")
           | None => raise ValueError
           end
         else
           match rotation_matrix theta axis skip with
           | Some m => CascadedCoords_rotate_with_matrix fuel n m wrt
           | None => raise ValueError
           end) s
      (fun o' s' => carried fuel self s0 s' /\ o' = Obj (Node n) /\ dirty s' n)
      (fun _ s' => s' = s)).
  { destruct (wrt_is wrt "local" || wrt_is_obj wrt (Obj (Node n))).
    { apply twp_bind, twp_read.
      destruct (rotate_matrix _ theta axis false skip); [|apply twp_raise; reflexivity].
      apply twp_bind, twp_read. apply Hfin. }
    destruct (wrt_is wrt "parent" || wrt_is_parent wrt (parent s (Obj (Node n)))).
    { apply twp_bind, twp_read.
      destruct (rotate_matrix _ theta axis false skip); [|apply twp_raise; reflexivity].
      apply twp_bind, twp_read. apply Hfin. }
    destruct (rotation_matrix theta axis skip); [apply Hm|apply twp_raise; reflexivity]. }
  destruct axis as [v|a| |]; try exact Htok.
  destruct (rotation_matrix theta (AxisVec v) skip); [apply Hm|apply twp_raise; reflexivity].
Qed.

End Mutators.

(** ** The checks are sound *)

Lemma enough_check_sound (fuel : nat) (s : store) :
  enough_check fuel s = true -> enough fuel s.
Proof.
  unfold enough_check. intros Hb. apply andb_prop in Hb as [Hsz Hch]. split.
  - apply Nat.ltb_lt, Hsz.
  - intros n k Hk. rewrite forallb_forall in Hch.
    apply (Hch (n, k)). apply list_elem_of_In, elem_of_map_to_list, Hk.
Qed.

Lemma registry_check_sound (s : store) :
  registry_check s = true -> registry_consistent s.
Proof.
  unfold registry_check. intros Hb x y Hy. rewrite forallb_forall in Hb.
  unfold _descendants, node in Hy.
  destruct (nodes s !! x) as [k|] eqn:Hk; [|inversion Hy].
  specialize (Hb (x, k)). simpl in Hb, Hy.
  rewrite forallb_forall in Hb.
  assert (Hin : In (x, k) (map_to_list (nodes s))).
  { apply list_elem_of_In, elem_of_map_to_list, Hk. }
  specialize (Hb Hin (Node y)). simpl in Hb.
  apply (bool_decide_eq_true_1 _). apply Hb. apply list_elem_of_In, Hy.
Qed.

Lemma closed_check_sound (s : store) :
  closed_check s = true -> dirty_closed s.
Proof.
  unfold closed_check. intros Hb x y Hx Hy. rewrite forallb_forall in Hb.
  unfold dirty, _changed, _descendants, node in *.
  destruct (nodes s !! x) as [k|] eqn:Hk; [|inversion Hy].
  specialize (Hb (x, k)). simpl in Hb, Hx, Hy.
  assert (Hin : In (x, k) (map_to_list (nodes s))).
  { apply list_elem_of_In, elem_of_map_to_list, Hk. }
  specialize (Hb Hin). rewrite Hx in Hb. simpl in Hb.
  rewrite forallb_forall in Hb. specialize (Hb (Node y)). simpl in Hb.
  apply Hb. apply list_elem_of_In, Hy.
Qed.

Lemma tree_check_sound (fuel : nat) (s : store) :
  tree_check fuel s = true -> tree_inv fuel s.
Proof.
  unfold tree_check. intros Hb.
  apply andb_prop in Hb as [Hb Hc]. apply andb_prop in Hb as [Ha Hb].
  split; [apply enough_check_sound, Ha|].
  split; [apply registry_check_sound, Hb|apply closed_check_sound, Hc].
Qed.

Example family_tree_inv : tree_inv 10 family.
Proof. apply tree_check_sound. vm_compute. reflexivity. Qed.

(** ** The next read after a mutation recomputes the cache *)

Lemma chain_ok_own_parent (s : store) (n : oid) (p : ref) :
  parent s (Obj (Node n)) = Some p -> world_of (Obj p) = Obj (World n) ->
  forall d, chain_ok d s (Node n) = false /\ chain_ok d s (World n) = false.
Proof.
  intros Hp Hw d. simpl in Hp. induction d as [|d [IH1 IH2]]; [split; reflexivity|].
  simpl. rewrite Hp.
  destruct p as [q|m|m]; simpl in Hw; try discriminate;
    injection Hw as ->; auto.
Qed.

Lemma worldcoords_by_refreshed (f : nat) (c : cref) (s : store) :
  wp (worldcoords_by (CascadedCoords_update f) c) s
    (fun w s' => w = world_of c /\ refreshed s s') (fun _ _ => False).
Proof.
  eapply wp_mono; [apply (worldcoords_refreshed f c s)| |auto].
  intros w s' (A & B & _). auto.
Qed.

Lemma update_value (f : nat) (n : oid) (s : store) :
  has s (Obj (Node n)) -> dirty s n ->
  (forall p, parent s (Obj (Node n)) = Some p -> world_of (Obj p) <> Obj (World n)) ->
  wp (CascadedCoords_update (S f) n) s
    (fun _ s' =>
       pose_of s' (Obj (World n)) =
       match parent s (Obj (Node n)) with
       | None => pose_of s (Obj (Node n))
       | Some p => compose_pose (pose_of s' (world_of (Obj p))) (pose_of s (Obj (Node n)))
       end)
    (fun _ _ => False).
Proof.
  intros Hh Hd Hne. rewrite update_unfold. apply wp_bind, wp_read.
  rewrite Hd. cbn [negb]. apply wp_bind, wp_read. apply wp_bind.
  assert (Hkeep : forall s2 c, c <> Obj (World n) ->
            pose_of (with_node n (n_set_changed false) s2) c = pose_of s2 c).
  { intros s2 c Hc. unfold pose_of. f_equal.
    - destruct c as [[q|m|m]|q]; simpl; try reflexivity.
      + apply (node_with_node_keep n_rotation). intros []; reflexivity.
      + apply (node_with_node_keep (fun k => c_rotation (n_worldcoords k))).
        intros []; reflexivity.
    - destruct c as [[q|m|m]|q]; simpl; try reflexivity.
      + apply (node_with_node_keep n_translation). intros []; reflexivity.
      + apply (node_with_node_keep (fun k => c_translation (n_worldcoords k))).
        intros []; reflexivity. }
  assert (Hkeepw : forall s2,
            pose_of (with_node n (n_set_changed false) s2) (Obj (World n))
            = pose_of s2 (Obj (World n))).
  { intros s2. unfold pose_of. simpl. f_equal.
    - apply (node_with_node_keep (fun k => c_rotation (n_worldcoords k))).
      intros []; reflexivity.
    - apply (node_with_node_keep (fun k => c_translation (n_worldcoords k))).
      intros []; reflexivity. }
  destruct (parent s (Obj (Node n))) as [p|] eqn:Hp.
  - apply wp_bind. eapply wp_mono; [apply worldcoords_by_refreshed| |auto].
    intros pw s1 [-> Hr1]. cbv beta.
    destruct (transform_coords_into_world (world_of (Obj p)) (Obj (Node n)) n s1)
      as (s2 & E2 & He2 & Hch2 & Hne2 & Hv2).
    apply wp_bind. eapply wp_of_eq; [exact E2|]. apply wp_ret, wp_modify.
    rewrite Hkeepw, Hkeep by (apply Hne; reflexivity).
    destruct Hv2 as [Hrot Htr].
    { apply (cache_equiv_has s s1 (Obj (Node n))); [apply Hr1|exact Hh]. }
    assert (Hpw : pose_of s2 (world_of (Obj p)) = pose_of s1 (world_of (Obj p))).
    { specialize (Hne p eq_refl). unfold pose_of.
      destruct p as [q|m|m]; simpl in *.
      - destruct He2 as [Hpl _]. unfold plain. rewrite Hpl. reflexivity.
      - rewrite Hne2 by congruence. reflexivity.
      - rewrite Hne2 by congruence. reflexivity. }
    rewrite Hpw. unfold pose_of at 1. rewrite Hrot, Htr.
    unfold compose_pose, pose_of; simpl.
    destruct (cache_equiv_node_attrs s s1 n (proj1 Hr1)) as (-> & -> & _).
    reflexivity.
  - destruct (store_world_pose n s) as (s2 & E2 & He2 & Hch2 & Hne2 & Hv2).
    eapply wp_of_eq; [exact E2|]. apply wp_modify.
    rewrite Hkeepw. destruct (Hv2 Hh) as [Hrot Htr].
    unfold pose_of. rewrite Hrot, Htr. reflexivity.
Qed.

(** Reading the world pose of a dirty node recomputes its cache from the
    cache of its parent and its own pose, and leaves the node clean. *)
Lemma worldcoords_recomputes (fuel : nat) (n : oid) (s : store) :
  enough fuel s -> has s (Obj (Node n)) -> dirty s n ->
  twp (dyn_worldcoords fuel (Obj (Node n))) s
    (fun w s' =>
       w = Obj (World n) /\ clean s' n /\ cache_equiv s s' /\
       pose_of s' w =
       match parent s (Obj (Node n)) with
       | None => pose_of s (Obj (Node n))
       | Some p => compose_pose (pose_of s' (world_of (Obj p))) (pose_of s (Obj (Node n)))
       end)
    (fun _ _ => False).
Proof.
  intros He Hh Hd. unfold dyn_worldcoords. rewrite worldcoords_by_unfold.
  apply twp_bind.
  assert (Hf : exists f, fuel = S f).
  { destruct He as [Hsz _]. destruct fuel; [lia|eauto]. }
  destruct Hf as [f ->].
  eapply twp_mono.
  - apply twp_conj; [apply update_enough, He|apply (update_value f n s Hh Hd)].
    intros p Hp Hw.
    destruct (chain_ok_own_parent s n p Hp Hw (S f)) as [Hc _].
    rewrite (enough_chain_ok s (S f) (Node n) He) in Hc. discriminate.
  - intros u s' [(Hr & _ & Hc) Hv]. apply twp_ret.
    split; [reflexivity|]. split; [apply Hc, Hh|]. split; [apply Hr|exact Hv].
  - intros e s' [[] _].
Qed.

(** ** Mutations of a node *)

Lemma carried_start (fuel : nat) (self : cref) (s : store) :
  enough fuel s -> carried fuel self s s.
Proof. intros He. split; [exact He|reflexivity]. Qed.

Lemma carried_marked (fuel : nat) (n : oid) (q : pose) (s s' : store) :
  tree_inv fuel s -> has s (Obj (Node n)) ->
  carried fuel (Tmp q) s s' -> dirty s' n -> marked fuel n s'.
Proof.
  intros Hi Hh [He (_ & Hinv & _ & Hhas)] Hd.
  destruct (Hinv Hi) as (_ & _ & Hdc).
  split; [exact Hd|]. split.
  - intros m Hm. eapply dirty_closed_reach; eassumption.
  - eapply twp_mono; [apply worldcoords_recomputes; auto| |auto].
    intros w s'' (A & B & _ & C). auto.
Qed.

(** C2 (amended): [translate], [rotate] and [transform] in place on a clean
    node of a well-formed tree leave the node and every node registered
    under it dirty, and the next read of its world pose recomputes the
    cache; an assignment to the [rotation] or [translation] property goes
    through the setter of [Coordinates], which leaves the flag as it is. *)
Theorem mutation_marks_dirty `{MathPrims} (fuel : nat) (s : store) (n : oid) :
  tree_inv fuel s -> has s (Obj (Node n)) -> clean s n ->
  (forall vec wrt,
     twp (Coordinates_translate fuel (Obj (Node n)) vec wrt) s
       (fun _ s' => marked fuel n s') (fun _ s' => s' = s)) /\
  (forall theta axis wrt skip,
     twp (dyn_rotate fuel (Obj (Node n)) theta axis wrt skip) s
       (fun _ s' => marked fuel n s') (fun _ s' => s' = s)) /\
  (forall c wrt,
     twp (dyn_transform fuel (Obj (Node n)) c wrt OutNone) s
       (fun _ s' => marked fuel n s') (fun _ _ => True)) /\
  (forall rotation,
     twp (Coordinates_rotation_setter (Obj (Node n)) rotation) s
       (fun _ s' => clean s' n) (fun _ s' => s' = s)) /\
  (forall v,
     twp (Coordinates_translation_setter (Obj (Node n)) (PosVec v)) s
       (fun _ s' => clean s' n) (fun _ s' => s' = s)).
Proof.
  intros Hi Hh Hc. pose proof Hi as (He & _).
  pose proof (carried_start fuel (Tmp identity_pose) s He) as Hc0.
  split; [|split; [|split; [|split]]].
  - intros vec wrt.
    eapply twp_mono;
      [apply (Coordinates_translate_carried fuel (Tmp identity_pose) s I);
       [exact I|exact Hc0]| |auto].
    intros o' s' (A & _ & D). eapply carried_marked; eauto.
  - intros theta axis wrt skip. cbn [dyn_rotate].
    eapply twp_mono;
      [apply (CascadedCoords_rotate_carried fuel (Tmp identity_pose) s I);
       [exact I|exact Hc0]| |auto].
    intros o' s' (A & _ & D). eapply carried_marked; eauto.
  - intros c wrt. cbn [dyn_transform].
    change (CascadedCoords_transform fuel n c wrt OutNone)
      with (CascadedCoords_transform fuel n c wrt (OutCoords (Obj (Node n)))).
    eapply twp_mono;
      [apply (CascadedCoords_transform_carried fuel (Tmp identity_pose) s I);
       [exact I|exact Hc0]| |auto].
    intros o' s' (A & _ & _ & D & _). eapply carried_marked; eauto.
  - intros rotation. unfold Coordinates_rotation_setter. apply twp_bind.
    assert (Hset : forall m,
      twp (if check_valid_rotation m then store_rotation (Obj (Node n)) m
           else raise ValueError) s
        (fun _ s' => clean s' n) (fun _ s' => s' = s)).
    { intros m. destruct (check_valid_rotation m); [|apply twp_raise; reflexivity].
      unfold twp; cbn. unfold clean, _changed.
      rewrite (node_with_node_keep n_changed) by (intros []; reflexivity). exact Hc. }
    destruct rotation as [m|q|v|].
    + apply twp_ret. apply Hset.
    + destruct (Rlt_b _ _); [apply twp_raise; reflexivity|]. apply twp_ret. apply Hset.
    + apply twp_ret. apply Hset.
    + apply twp_ret. apply twp_raise. reflexivity.
  - intros v. unfold Coordinates_translation_setter.
    destruct (check_valid_translation (PosVec v)); [|apply twp_raise; reflexivity].
    unfold twp; cbn. unfold clean, _changed.
    rewrite (node_with_node_keep n_changed) by (intros []; reflexivity). exact Hc.
Qed.

Lemma mutation_marks_dirty_witness :
  tree_inv 10 family /\ has family (Obj (Node 2%positive)) /\ clean family 2%positive /\
  ((forall vec wrt,
     twp (Coordinates_translate (H := spec_prims) 10 (Obj (Node 2%positive)) vec wrt) family
       (fun _ s' => marked 10 2%positive s') (fun _ s' => s' = family)) /\
  (forall theta axis wrt skip,
     twp (dyn_rotate (H := spec_prims) 10 (Obj (Node 2%positive)) theta axis wrt skip) family
       (fun _ s' => marked 10 2%positive s') (fun _ s' => s' = family)) /\
  (forall c wrt,
     twp (dyn_transform (H := spec_prims) 10 (Obj (Node 2%positive)) c wrt OutNone) family
       (fun _ s' => marked 10 2%positive s') (fun _ _ => True)) /\
  (forall rotation,
     twp (Coordinates_rotation_setter (H := spec_prims) (Obj (Node 2%positive)) rotation) family
       (fun _ s' => clean s' 2%positive) (fun _ s' => s' = family)) /\
  (forall v,
     twp (Coordinates_translation_setter (H := spec_prims) (Obj (Node 2%positive)) (PosVec v))
       family
       (fun _ s' => clean s' 2%positive) (fun _ s' => s' = family))).
Proof.
  assert (H1 : tree_inv 10 family) by (apply tree_check_sound; vm_compute; reflexivity).
  assert (H2 : has family (Obj (Node 2%positive))) by (vm_compute; eauto).
  assert (H3 : clean family 2%positive) by (vm_compute; reflexivity).
  split; [exact H1|]. split; [exact H2|]. split; [exact H3|].
  exact (mutation_marks_dirty (H := spec_prims) 10 family 2%positive H1 H2 H3).
Defined.

(** ** The spec-modelled validators on the concrete rotations *)

Ltac req_true :=
  repeat match goal with
         | |- context [Req_b ?a ?b] =>
             let E := fresh in
             assert (E : Req_b a b = true)
               by (unfold Req_b; destruct (Req_EM_T a b) as [|N];
                   [reflexivity|exfalso; apply N; lra]);
             rewrite E; clear E
         end.

Lemma Rz90_valid : spec_check_valid_rotation Rz90 = true.
Proof.
  unfold spec_check_valid_rotation, mat_eqb, vec_eqb, det, Rz90.
  cbv [matmul dot vdot inner transpose col0 col1 col2 eye3 row0 row1 row2 vx vy vz].
  req_true. reflexivity.
Qed.

(** C2, as stated, fails on a direct assignment: [P.rotation = Rz90] on the
    clean node [P] succeeds, changes the rotation and leaves [P] clean, so
    that the next read of the world rotation still gives the old cache. *)
Lemma assignment_leaves_clean :
  clean family 2%positive /\
  exists s',
    Coordinates_rotation_setter (H := spec_prims) (Obj (Node 2%positive)) (RotMat Rz90)
      family = Ok (Obj (Node 2%positive)) s' /\
    _rotation s' (Obj (Node 2%positive)) = Rz90 /\
    ~ dirty s' 2%positive /\
    dyn_worldrot 10 (Obj (Node 2%positive)) s' = Ok Rx90 s' /\
    Rx90 <> Rz90.
Proof.
  split; [vm_compute; reflexivity|].
  unfold Coordinates_rotation_setter, bind, ret.
  change (check_valid_rotation (MathPrims := spec_prims) Rz90)
    with (spec_check_valid_rotation Rz90).
  rewrite Rz90_valid. cbn.
  eexists. split; [reflexivity|].
  split; [vm_compute; reflexivity|].
  split; [vm_compute; discriminate|].
  split; [vm_compute; reflexivity|].
  unfold Rx90, Rz90. intros E. injection E. intros. lra.
Qed.

(** ** [transform] into an [out] of the caller *)


(** ** What [update] and [changed] reach *)

Lemma reach_trans (s : store) (a b c : oid) :
  reach s a b -> reach s b c -> reach s a c.
Proof.
  intros Hab Hbc. induction Hbc as [|x y Hx IH Hy]; [exact Hab|].
  eapply reach_step; eassumption.
Qed.

Lemma reach_registries (s s' : store) (n m : oid) :
  (forall x, _descendants s' x = _descendants s x) -> reach s n m -> reach s' n m.
Proof.
  intros Hd Hr. induction Hr as [|x y Hx IH Hy]; [constructor|].
  eapply reach_step; [exact IH|]. rewrite Hd. exact Hy.
Qed.

(** [changed] leaves alone every node that no chain of registries joins to
    its node. *)
Lemma changed_within (fuel : nat) :
  forall (n : oid) (s : store),
    wp (CascadedCoords_changed fuel n) s
      (fun _ s' => forall x, ~ reach s n x -> node s' x = node s x)
      (fun _ _ => False).
Proof.
  induction fuel as [|f IH]; intros n s; [exact I|].
  rewrite changed_unfold. apply wp_bind, wp_read.
  destruct (negb (_changed s n)); [|apply wp_ret; reflexivity].
  apply wp_bind, wp_modify. apply wp_bind, wp_read.
  set (s0 := with_node n (n_set_changed true) s).
  assert (He0 : cache_equiv s s0) by apply set_changed_cache_equiv.
  eapply wp_mono.
  - apply (wp_for_each _ _
      (fun s' => cache_equiv s s' /\ forall x, ~ reach s n x -> node s' x = node s x)
      (fun _ _ => False)).
    + intros c s1 Hc [He1 Hk1]. destruct c as [q|m|m]; try (apply wp_ret; auto).
      eapply wp_mono; [apply (wp_conj _ _ _ _ _ _ (changed_flagged f m s1) (IH m s1))| |].
      * intros u s2 [[Hf _] Hk2]. split; [etransitivity; [exact He1|apply Hf]|].
        intros x Hx. rewrite Hk2; [apply Hk1, Hx|].
        intros Hr. apply Hx. apply (reach_trans s n m x).
        -- eapply reach_step; [constructor|].
           rewrite (cache_equiv_descendants s s0 n He0). exact Hc.
        -- apply (reach_equiv s1 s); [symmetry; exact He1|exact Hr].
      * intros e s2 [[] _].
    + split; [exact He0|]. intros x Hx. unfold s0. apply node_set_changed.
      intros ->. apply Hx. constructor.
  - intros u s' [_ Hk]. exact Hk.
  - auto.
Qed.

(** A root that [update] cleans has its local pose as its cache. *)
Lemma update_roots (fuel : nat) :
  forall (n : oid) (s : store),
    wp (CascadedCoords_update fuel n) s
      (fun _ s' => forall x, has s (Obj (Node x)) -> dirty s x -> clean s' x ->
         parent s (Obj (Node x)) = None ->
         pose_of s' (Obj (World x)) = pose_of s (Obj (Node x)))
      (fun _ _ => False).
Proof.
  induction fuel as [|f IH]; intros n s; [exact I|].
  rewrite update_unfold. apply wp_bind, wp_read.
  destruct (negb (_changed s n)) eqn:Hc.
  { apply wp_ret. intros x _ Hd Hcl. unfold dirty, clean in *. congruence. }
  apply wp_bind, wp_read. apply wp_bind.
  assert (Hfin : forall s2 x, x <> n ->
            node (with_node n (n_set_changed false) s2) x = node s2 x).
  { intros s2 x Hx. apply node_set_changed, Hx. }
  destruct (parent s (Obj (Node n))) as [p|] eqn:Hp.
  - apply wp_bind.
    assert (Hw : wp (worldcoords_by (CascadedCoords_update f) (Obj p)) s
              (fun _ s1 => forall x, has s (Obj (Node x)) -> dirty s x -> clean s1 x ->
                 parent s (Obj (Node x)) = None ->
                 pose_of s1 (Obj (World x)) = pose_of s (Obj (Node x)))
              (fun _ _ => False)).
    { destruct p as [q|m|m]; rewrite worldcoords_by_unfold.
      - apply wp_ret. intros x _ Hd Hcl. unfold dirty, clean in *. congruence.
      - apply wp_bind. eapply wp_mono; [apply IH| |auto]. intros u s1 Hk.
        apply wp_ret. exact Hk.
      - apply wp_bind. eapply wp_mono; [apply IH| |auto]. intros u s1 Hk.
        apply wp_ret. exact Hk. }
    eapply wp_mono; [exact Hw| |auto]. intros pw s1 Hk1. cbv beta.
    destruct (transform_coords_into_world pw (Obj (Node n)) n s1)
      as (s2 & E2 & He2 & Hch2 & Hne2 & _).
    apply wp_bind. eapply wp_of_eq; [exact E2|]. apply wp_ret, wp_modify.
    intros x Hh Hd Hcl Hpx.
    assert (Hx : x <> n) by (intros ->; congruence).
    assert (Hn : node (with_node n (n_set_changed false) s2) x = node s1 x).
    { rewrite Hfin by exact Hx. apply Hne2, Hx. }
    unfold clean, _changed in Hcl. rewrite Hn in Hcl.
    rewrite <- (Hk1 x Hh Hd Hcl Hpx). unfold pose_of; simpl. rewrite Hn. reflexivity.
  - destruct (store_world_pose n s) as (s2 & E2 & He2 & Hch2 & Hne2 & Hv2).
    eapply wp_of_eq; [exact E2|]. apply wp_modify.
    intros x Hh Hd Hcl Hpx. destruct (decide (x = n)) as [->|Hx].
    + destruct (Hv2 Hh) as [Hr Ht]. unfold pose_of. rewrite <- Hr, <- Ht. simpl.
      rewrite (node_with_node_keep (fun k => c_rotation (n_worldcoords k)))
        by (intros []; reflexivity).
      rewrite (node_with_node_keep (fun k => c_translation (n_worldcoords k)))
        by (intros []; reflexivity).
      reflexivity.
    + exfalso. unfold clean, dirty, _changed in *.
      rewrite Hfin, Hne2 in Hcl by exact Hx. congruence.
Qed.

(** ** [assoc] and [dissoc] *)

(** A read of the world pose, for a store the fuel covers. *)
Lemma worldcoords_enough (fuel : nat) (c : cref) (s : store) :
  enough fuel s ->
  exists s', dyn_worldcoords fuel c s = Ok (world_of c) s' /\
    refreshed s s' /\ enough fuel s' /\
    (forall n, world_of c = Obj (World n) -> has s (Obj (Node n)) -> clean s' n).
Proof.
  intros He.
  destruct (twp_elim _ _ _
    (carried_worldcoords fuel (Tmp identity_pose) s I c s
       (carried_start fuel _ s He))) as (w & s' & E & Hc & -> & Hr & Hcl).
  exists s'. split; [exact E|]. split; [exact Hr|]. split; [exact (proj1 Hc)|exact Hcl].
Qed.

(** Cutting parent links, or rewriting anything else of a node, keeps the
    fuel sufficient. *)
Lemma chain_ok_with_node (s : store) (n : oid) (f : cascaded -> cascaded) :
  (forall k, n_parent (f k) = n_parent k \/ n_parent (f k) = None) ->
  forall d r, chain_ok d s r = true -> chain_ok d (with_node n f s) r = true.
Proof.
  intros Hf d. induction d as [|d IH]; intros r Hr; [discriminate|].
  simpl in *. destruct r as [p|m|m]; [reflexivity| |].
  - destruct (nodes s !! n) as [k|] eqn:Hn.
    + destruct (decide (n = m)) as [->|Hne].
      * rewrite node_with_node_eq by (rewrite Hn; eauto).
        destruct (Hf (node s m)) as [-> | ->]; [|reflexivity].
        destruct (n_parent (node s m)); auto.
      * rewrite node_with_node_ne by exact Hne.
        destruct (n_parent (node s m)); auto.
    + rewrite node_with_node_absent by exact Hn.
      destruct (n_parent (node s m)); auto.
  - destruct (nodes s !! n) as [k|] eqn:Hn.
    + destruct (decide (n = m)) as [->|Hne].
      * rewrite node_with_node_eq by (rewrite Hn; eauto).
        destruct (Hf (node s m)) as [-> | ->]; [|reflexivity].
        destruct (n_parent (node s m)); auto.
      * rewrite node_with_node_ne by exact Hne.
        destruct (n_parent (node s m)); auto.
    + rewrite node_with_node_absent by exact Hn.
      destruct (n_parent (node s m)); auto.
Qed.

Lemma enough_with_node (fuel : nat) (s : store) (n : oid) (f : cascaded -> cascaded) :
  (forall k, n_parent (f k) = n_parent k \/ n_parent (f k) = None) ->
  enough fuel s -> enough fuel (with_node n f s).
Proof.
  intros Hf [Hsz Hch]. split.
  - unfold with_node; simpl.
    rewrite <- (size_dom (D := gset oid)), dom_alter_L, size_dom. exact Hsz.
  - intros m k Hk. apply chain_ok_with_node; [exact Hf|].
    apply enough_chain_ok. split; assumption.
Qed.

(** [newcoords(c, check_validity=False, relative_coords='local')] on a node,
    with a [Coordinates] made by the caller. *)
Lemma CascadedCoords_newcoords_copy `{MathPrims} (fuel : nat) (n : oid) (q : pose)
    (s : store) :
  CascadedCoords_newcoords fuel n (NcCoords (Tmp q)) false (RelStr "local") s
  = (do store_rotation (Obj (Node n)) (p_rotation q) then
     do store_translation (Obj (Node n)) (p_translation q) then
     do CascadedCoords_changed fuel n then
     ret (Obj (Node n))) s.
Proof.
  unfold CascadedCoords_newcoords, bind at 1, read at 1.
  destruct (parent s (Obj (Node n))); reflexivity.
Qed.

(** What that call leaves: the pose given, the links as they were, the
    node dirty. *)
Lemma newcoords_copy_node `{MathPrims} (fuel : nat) (n : oid) (q : pose) (s : store) :
  enough fuel s -> has s (Obj (Node n)) ->
  exists s',
    CascadedCoords_newcoords fuel n (NcCoords (Tmp q)) false (RelStr "local") s
      = Ok (Obj (Node n)) s' /\
    enough fuel s' /\ has s' (Obj (Node n)) /\ dirty s' n /\
    pose_of s' (Obj (Node n)) = q /\
    (forall m, n_parent (node s' m) = n_parent (node s m) /\
               n_descendants (node s' m) = n_descendants (node s m)) /\
    (forall c, c <> Obj (Node n) -> pose_of s' c = pose_of s c) /\
    (forall m, dirty s m -> dirty s' m) /\
    (forall c, has s c -> has s' c) /\
    (forall x, ~ reach s n x -> node s' x = node s x).
Proof.
  intros He Hh. rewrite CascadedCoords_newcoords_copy.
  set (s1 := with_node n (n_set_rotation (p_rotation q)) s).
  set (s2 := with_node n (n_set_translation (p_translation q)) s1).
  assert (Ht1 : same_tree s s1) by (apply same_tree_with_node; intros []; reflexivity).
  assert (Ht2 : same_tree s1 s2) by (apply same_tree_with_node; intros []; reflexivity).
  assert (He2 : enough fuel s2).
  { eapply same_tree_enough; [exact Ht2|]. eapply same_tree_enough; eassumption. }
  destruct (twp_elim _ _ _ (changed_enough fuel n s2 He2)) as ([] & s3 & E3 & Hf & Hd & He3).
  exists s3. split.
  { cbv [bind store_rotation store_translation modify ret].
    fold s1. fold s2. rewrite E3. reflexivity. }
  pose proof (proj1 Hf) as Hq.
  assert (Hh2 : has s2 (Obj (Node n))) by (apply has_with_node, has_with_node, Hh).
  split; [exact He3|]. split; [apply (cache_equiv_has s2 s3), Hh2; exact Hq|].
  split; [exact Hd|]. split; [|split; [|split; [|split; [|split]]]].
  - unfold pose_of.
    rewrite <- (cache_equiv_rotation s2 s3 (Obj (Node n))) by (congruence || exact Hq).
    rewrite <- (cache_equiv_translation s2 s3 (Obj (Node n))) by (congruence || exact Hq).
    unfold _rotation, _translation, s2.
    rewrite node_with_node_eq by (apply (has_with_node s n _ (Obj (Node n))), Hh).
    unfold s1. rewrite node_with_node_eq by exact Hh.
    destruct q, (node s n); reflexivity.
  - intros m. destruct (cache_equiv_node_attrs s2 s3 m Hq) as (_ & _ & _ & Hp & Hds).
    destruct (proj2 Ht1 m) as (A1 & B1 & _), (proj2 Ht2 m) as (A2 & B2 & _).
    split; congruence.
  - intros c Hc.
    assert (K : keeps c s s2).
    { transitivity s1; apply keeps_with_node;
        solve [left; exact Hc | right; intros []; reflexivity]. }
    assert (K3 : keeps c s2 s3).
    { destruct c as [[p|m|m]|k]; try (apply cache_equiv_keeps; [exact I|exact Hq]).
      destruct Hf as (_ & _ & Hw & _). split; simpl; rewrite Hw; reflexivity. }
    destruct K as [Kr Kt], K3 as [Kr3 Kt3]. unfold pose_of. congruence.
  - intros m Hm. apply Hf. unfold dirty, _changed in *.
    destruct (proj2 Ht1 m) as (_ & _ & A1), (proj2 Ht2 m) as (_ & _ & A2). congruence.
  - intros c Hc. apply (cache_equiv_has s2 s3 c Hq).
    apply has_with_node, has_with_node, Hc.
  - intros x Hx.
    assert (Hxn : x <> n) by (intros ->; apply Hx; constructor).
    pose proof (changed_within fuel n s2) as Hw. unfold wp in Hw. rewrite E3 in Hw.
    rewrite Hw.
    + unfold s2, s1. rewrite !node_with_node_ne by congruence. reflexivity.
    + intros Hr. apply Hx. apply (reach_registries s2 s); [|exact Hr].
      intros m. unfold _descendants.
      destruct (proj2 Ht1 m) as (_ & B1 & _), (proj2 Ht2 m) as (_ & B2 & _). congruence.
Qed.


(** [w.copy_coords()] on the cache that [worldcoords()] returned *)
Lemma copy_coords_world (fuel : nat) (n : oid) (s : store) :
  Coordinates_copy_coords fuel (Obj (World n)) s
  = Ok (Tmp (pose_of s (Obj (World n)))) s.
Proof. reflexivity. Qed.

(** [P.dissoc(C)] on a registered node, step by step. *)
Lemma dissoc_registered `{MathPrims} (fuel : nat) (s : store) (P C : oid) :
  enough fuel s -> has s (Obj (Node C)) -> Node C ∈ _descendants s P ->
  exists w s1,
    dyn_worldcoords fuel (Obj (Node C)) s = Ok w s1 /\
    twp (CascadedCoords_dissoc fuel P (Node C)) s
      (fun _ s' =>
         parent s' (Obj (Node C)) = None /\
         _descendants s' P = list_remove (Node C) (_descendants s P) /\
         pose_of s' (Obj (Node C)) = pose_of s1 w /\
         dirty s' C /\
         twp (dyn_worldcoords fuel (Obj (Node C))) s'
           (fun w' s'' => clean s'' C /\ pose_of s'' w' = pose_of s1 w)
           (fun _ _ => False))
      (fun _ _ => False).
Proof.
  intros He Hh Hin.
  destruct (worldcoords_enough fuel (Obj (Node C)) s He) as (s1 & E1 & Hr1 & He1 & Hcl1).
  cbn [world_of] in E1. exists (Obj (World C)), s1. split; [exact E1|].
  unfold CascadedCoords_dissoc. apply twp_bind, twp_read.
  rewrite bool_decide_eq_true_2 by exact Hin.
  apply twp_bind. eapply twp_of_eq; [exact E1|].
  apply twp_bind. eapply twp_of_eq; [apply copy_coords_world|].
  apply twp_bind, twp_modify. apply twp_bind. cbn [store_parent]. apply twp_modify.
  set (q := pose_of s1 (Obj (World C))).
  set (s2 := with_node P _ s1). set (s3 := with_node C _ s2).
  assert (Hh1 : has s1 (Obj (Node C))).
  { apply (cache_equiv_has s s1 (Obj (Node C))); [apply Hr1|exact Hh]. }
  assert (Hh3 : has s3 (Obj (Node C))) by (apply has_with_node, has_with_node, Hh1).
  assert (He3 : enough fuel s3).
  { apply enough_with_node; [intros []; right; reflexivity|].
    apply enough_with_node; [intros []; left; reflexivity|exact He1]. }
  assert (Hp3 : n_parent (node s3 C) = None).
  { unfold s3. rewrite node_with_node_eq by (apply (has_with_node s1 P _ (Obj (Node C))), Hh1).
    destruct (node s2 C); reflexivity. }
  assert (Hd3 : n_descendants (node s3 P) = list_remove (Node C) (_descendants s P)).
  { unfold s3. rewrite (node_with_node_keep n_descendants) by (intros []; reflexivity).
    assert (HhP : is_Some (nodes s1 !! P)).
    { destruct (nodes s1 !! P) as [k|] eqn:Hk; [eauto|].
      exfalso. unfold _descendants in Hin.
      rewrite (proj2 (proj2 (proj2 (proj2
                 (cache_equiv_node_attrs s s1 P (proj1 Hr1)))))) in Hin.
      unfold node in Hin. rewrite Hk in Hin. inversion Hin. }
    unfold s2. rewrite node_with_node_eq by exact HhP.
    rewrite (cache_equiv_descendants s s1 P (proj1 Hr1)). unfold _descendants.
    destruct (node s1 P); reflexivity. }
  destruct (newcoords_copy_node fuel C q s3 He3 Hh3)
    as (s4 & E4 & He4 & Hh4 & Hd4 & Hv4 & Hl4 & _).
  apply twp_bind. cbn [dyn_newcoords]. eapply twp_of_eq; [exact E4|]. apply twp_ret.
  assert (Hp4 : parent s4 (Obj (Node C)) = None).
  { simpl. rewrite (proj1 (Hl4 C)). exact Hp3. }
  split; [exact Hp4|]. split.
  { unfold _descendants at 1. rewrite (proj2 (Hl4 P)). exact Hd3. }
  split; [exact Hv4|]. split; [exact Hd4|].
  eapply twp_mono; [apply worldcoords_recomputes; eassumption| |auto].
  intros w' s5 (-> & Hc5 & _ & Hv5). split; [exact Hc5|].
  rewrite Hv5, Hp4. exact Hv4.
Qed.

(** C4 (amended): [P.dissoc(C)] for a node [C] registered under [P]
    returns; afterwards [C] has no parent, the first entry of [C] is gone
    from the registry of [P], the local pose of [C] is the world pose that
    [C.worldcoords()] gave at the call, and [C] is DIRTY: the next read of
    its world pose recomputes the cache, to that same pose, and leaves [C]
    clean. *)
Theorem dissoc_freezes_world_pose `{MathPrims} (fuel : nat) (s : store) (P C : oid) :
  enough fuel s -> has s (Obj (Node C)) -> Node C ∈ _descendants s P ->
  exists w s1,
    dyn_worldcoords fuel (Obj (Node C)) s = Ok w s1 /\
    twp (CascadedCoords_dissoc fuel P (Node C)) s
      (fun _ s' =>
         parent s' (Obj (Node C)) = None /\
         _descendants s' P = list_remove (Node C) (_descendants s P) /\
         pose_of s' (Obj (Node C)) = pose_of s1 w /\
         dirty s' C /\
         twp (dyn_worldcoords fuel (Obj (Node C))) s'
           (fun w' s'' => clean s'' C /\ pose_of s'' w' = pose_of s1 w)
           (fun _ _ => False))
      (fun _ _ => False).
Proof. apply dissoc_registered. Qed.

Lemma dissoc_freezes_world_pose_witness :
  exists w s1,
    dyn_worldcoords 10 (Obj (Node 3%positive)) family = Ok w s1 /\
    twp (CascadedCoords_dissoc (H := spec_prims) 10 2%positive (Node 3%positive)) family
      (fun _ s' =>
         parent s' (Obj (Node 3%positive)) = None /\
         _descendants s' 2%positive
           = list_remove (Node 3%positive) (_descendants family 2%positive) /\
         pose_of s' (Obj (Node 3%positive)) = pose_of s1 w /\
         dirty s' 3%positive /\
         twp (dyn_worldcoords 10 (Obj (Node 3%positive))) s'
           (fun w' s'' => clean s'' 3%positive /\ pose_of s'' w' = pose_of s1 w)
           (fun _ _ => False))
      (fun _ _ => False).
Proof.
  apply (dissoc_freezes_world_pose (H := spec_prims) 10 family 2%positive 3%positive).
  - apply family_tree_inv.
  - vm_compute. eauto.
  - vm_compute. apply list_elem_of_here.
Defined.

(** C4, as stated, fails: in the session of [family], [P.dissoc(C)] on the
    clean child [C] leaves [C] without a parent and DIRTY, since
    [newcoords] ends with [changed()]. *)
Lemma dissoc_leaves_child_dirty :
  Node 3%positive ∈ _descendants family 2%positive /\
  clean family 3%positive /\
  exists s',
    CascadedCoords_dissoc (H := spec_prims) 10 2%positive (Node 3%positive) family
      = Ok tt s' /\
    parent s' (Obj (Node 3%positive)) = None /\
    dirty s' 3%positive /\ ~ clean s' 3%positive.
Proof.
  split; [vm_compute; apply list_elem_of_here|].
  split; [vm_compute; reflexivity|].
  eexists. split; [vm_compute; reflexivity|].
  split; [vm_compute; reflexivity|].
  split; [vm_compute; reflexivity|vm_compute; discriminate].
Qed.

(** Reading the world pose of a clean node changes nothing. *)
Lemma worldcoords_clean (fuel : nat) (r : ref) (n : oid) (s : store) :
  enough fuel s -> clean s n -> world_of (Obj r) = Obj (World n) ->
  dyn_worldcoords fuel (Obj r) s = Ok (Obj (World n)) s.
Proof.
  intros [Hsz _] Hc Hw. destruct fuel as [|f]; [lia|].
  unfold dyn_worldcoords. rewrite worldcoords_by_unfold.
  destruct r as [p|m|m]; simpl in Hw; try discriminate; injection Hw as ->;
    unfold bind; rewrite update_clean by exact Hc; reflexivity.
Qed.

Lemma worldcoords_roots (fuel : nat) (c w : cref) (s s' : store) :
  dyn_worldcoords fuel c s = Ok w s' ->
  forall x, has s (Obj (Node x)) -> dirty s x -> clean s' x ->
    parent s (Obj (Node x)) = None ->
    pose_of s' (Obj (World x)) = pose_of s (Obj (Node x)).
Proof.
  unfold dyn_worldcoords. rewrite worldcoords_by_unfold. intros E.
  assert (Hs : forall x, dirty s x -> clean s x -> pose_of s (Obj (World x))
                                                  = pose_of s (Obj (Node x))).
  { intros x Hd Hc. unfold dirty, clean in *. congruence. }
  destruct c as [[p|n|n]|q]; try (injection E as <- <-; auto);
    pose proof (update_roots fuel n s) as Hu; unfold wp in Hu; unfold bind in E;
    destruct (CascadedCoords_update fuel n s) as [u s1| |]; try discriminate;
    injection E as <- <-; exact Hu.
Qed.

(** The world pose of a root read after other reads is the one read
    before them. *)
Lemma root_read_stable (fuel : nat) (C : oid) (s s1 : store) :
  enough fuel s -> has s (Obj (Node C)) -> parent s (Obj (Node C)) = None ->
  refreshed s s1 ->
  (forall x, has s (Obj (Node x)) -> dirty s x -> clean s1 x ->
     parent s (Obj (Node x)) = None ->
     pose_of s1 (Obj (World x)) = pose_of s (Obj (Node x))) ->
  exists sc s2,
    dyn_worldcoords fuel (Obj (Node C)) s = Ok (Obj (World C)) sc /\
    dyn_worldcoords fuel (Obj (Node C)) s1 = Ok (Obj (World C)) s2 /\
    pose_of s2 (Obj (World C)) = pose_of sc (Obj (World C)) /\
    refreshed s1 s2 /\ enough fuel s2 /\ clean s2 C.
Proof.
  intros He Hh Hp Hr Hk.
  assert (He1 : enough fuel s1) by (eapply cache_equiv_enough; [apply Hr|exact He]).
  assert (Hh1 : has s1 (Obj (Node C))).
  { apply (cache_equiv_has s s1 (Obj (Node C))); [apply Hr|exact Hh]. }
  assert (Hp1 : parent s1 (Obj (Node C)) = None).
  { rewrite <- (cache_equiv_parent s s1 (Obj (Node C))) by (congruence || apply Hr).
    exact Hp. }
  assert (Hl1 : pose_of s1 (Obj (Node C)) = pose_of s (Obj (Node C))).
  { unfold pose_of.
    rewrite <- (cache_equiv_rotation s s1 (Obj (Node C))) by (congruence || apply Hr).
    rewrite <- (cache_equiv_translation s s1 (Obj (Node C))) by (congruence || apply Hr).
    reflexivity. }
  destruct (_changed s C) eqn:HcC.
  - (* dirty at the start: the world pose is the local pose *)
    destruct (twp_elim _ _ _ (worldcoords_recomputes fuel C s He Hh HcC))
      as (w & sc & Ec & -> & _ & _ & Hvc).
    rewrite Hp in Hvc. exists sc.
    destruct (_changed s1 C) eqn:HcC1.
    + destruct (worldcoords_enough fuel (Obj (Node C)) s1 He1)
        as (s2 & E2 & Hr2 & He2 & Hcl2).
      pose proof (worldcoords_recomputes fuel C s1 He1 Hh1 HcC1) as Hv2.
      unfold twp in Hv2. rewrite E2 in Hv2. destruct Hv2 as (_ & _ & _ & Hv2).
      rewrite Hp1 in Hv2. exists s2. split; [exact Ec|]. split; [exact E2|].
      split; [rewrite Hvc, <- Hl1; exact Hv2|]. split; [exact Hr2|]. split; [exact He2|].
      apply (Hcl2 C); [reflexivity|exact Hh1].
    + exists s1. split; [exact Ec|].
      split; [apply worldcoords_clean; [exact He1|exact HcC1|reflexivity]|].
      split; [rewrite Hvc; apply Hk; assumption|].
      split; [reflexivity|]. split; [exact He1|exact HcC1].
  - (* clean at the start: nothing touches the cache *)
    assert (Hn : node s1 C = node s C) by (apply Hr; exact HcC).
    assert (HcC1 : clean s1 C) by (unfold clean, _changed; rewrite Hn; exact HcC).
    exists s, s1.
    split; [apply worldcoords_clean; [exact He|exact HcC|reflexivity]|].
    split; [apply worldcoords_clean; [exact He1|exact HcC1|reflexivity]|].
    split; [unfold pose_of; simpl; rewrite Hn; reflexivity|].
    split; [reflexivity|]. split; [exact He1|exact HcC1].
Qed.

(** Linking [C] under [P] closes no cycle only if no chain of registries
    leads from [C] to [P]. *)
Lemma linked_no_reach (fuel : nat) (s : store) (P C : oid) :
  registry_consistent s -> has s (Obj (Node C)) ->
  enough fuel (linked P C s) -> ~ reach s C P.
Proof.
  intros Hk Hh He Hr.
  assert (Hcyc : forall d x, reach s C x -> chain_ok d (linked P C s) (Node x) = false).
  { induction d as [|d IH]; intros x Hx; [reflexivity|]. simpl.
    destruct (decide (x = C)) as [->|Hne].
    - unfold linked. rewrite node_with_node_eq by exact Hh.
      replace (n_parent (n_set_parent (Some (Node P)) (node s C))) with (Some (Node P))
        by (destruct (node s C); reflexivity).
      apply IH, Hr.
    - unfold linked. rewrite node_with_node_ne by congruence.
      destruct Hx as [|x0 x Hx0 Hin]; [congruence|].
      pose proof (Hk x0 x Hin) as Hpx. simpl in Hpx. rewrite Hpx.
      apply IH, Hx0. }
  pose proof (enough_chain_ok (linked P C s) fuel (Node C) He) as Ht.
  rewrite (Hcyc fuel C) in Ht by constructor. discriminate.
Qed.

Lemma cache_equiv_linked (P C : oid) (s s' : store) :
  cache_equiv s s' -> cache_equiv (linked P C s) (linked P C s').
Proof.
  intros [Hp Hn]. split; [exact Hp|]. unfold linked, with_node; simpl.
  apply map_eq. intros i. rewrite !lookup_fmap.
  pose proof (f_equal (fun m => m !! i) Hn) as Hi. simpl in Hi.
  rewrite !lookup_fmap in Hi.
  destruct (decide (C = i)) as [->|Hne].
  - rewrite !lookup_alter_eq.
    destruct (nodes s !! i) as [k|], (nodes s' !! i) as [k'|]; simpl in *;
      try discriminate; [|reflexivity].
    injection Hi as Hi. f_equal. destruct k, k'. unfold strip in *; simpl in *.
    congruence.
  - rewrite !lookup_alter_ne by exact Hne. exact Hi.
Qed.

Lemma compose_inverse_cancel (a b : pose) :
  orthonormal (p_rotation a) ->
  compose_pose a (compose_pose (inverse_pose a) b) = b.
Proof.
  intros Ho. unfold orthonormal in Ho. destruct a as [r t], b as [rb tb].
  unfold compose_pose, inverse_pose; simpl in *. f_equal.
  - rewrite <- matmul_assoc, Ho. apply matmul_eye_l.
  - rewrite dot_vadd, dot_vscale, <- !dot_matmul, Ho, !dot_eye.
    destruct t, tb. unfold vadd, vscale; simpl. f_equal; ring.
Qed.

(** [sw.transformation(cw)] on two caches that are up to date *)
Lemma transformation_of_caches (fuel : nat) (P C : oid) (s : store) :
  enough fuel s -> clean s P -> clean s C ->
  Coordinates_transformation fuel (Obj (World P)) (Obj (World C)) (WStr "local") s
  = Ok (Tmp (compose_pose (inverse_pose (pose_of s (Obj (World P))))
                          (pose_of s (Obj (World C))))) s.
Proof.
  intros He HcP HcC. unfold Coordinates_transformation.
  unfold bind at 1. rewrite (worldcoords_clean fuel (World C) C s He HcC eq_refl).
  unfold bind at 1. rewrite (worldcoords_clean fuel (World P) P s He HcP eq_refl).
  reflexivity.
Qed.

(** [P.assoc(C, relative_coords='world')] on a root [C], step by step. *)
Lemma assoc_world_links `{MathPrims} (fuel : nat) (s : store) (P C : oid) :
  tree_inv fuel s -> enough fuel (linked P C s) ->
  has s (Obj (Node P)) -> has s (Obj (Node C)) -> P <> C ->
  parent s (Obj (Node C)) = None ->
  exists sp sc,
    dyn_worldcoords fuel (Obj (Node P)) s = Ok (Obj (World P)) sp /\
    dyn_worldcoords fuel (Obj (Node C)) s = Ok (Obj (World C)) sc /\
    twp (CascadedCoords_assoc fuel P (Node C) (RelStr "world") false) s
      (fun r s' =>
         r = Node C /\ enough fuel s' /\ has s' (Obj (Node C)) /\
         parent s' (Obj (Node C)) = Some (Node P) /\
         Node C ∈ _descendants s' P /\ dirty s' C /\ clean s' P /\
         pose_of s' (Obj (World P)) = pose_of sp (Obj (World P)) /\
         pose_of s' (Obj (Node C)) =
           compose_pose (inverse_pose (pose_of sp (Obj (World P))))
                        (pose_of sc (Obj (World C))))
      (fun _ _ => False).
Proof.
  intros (He & Hk & Hdc) Hel HhP HhC Hne Hp.
  destruct (worldcoords_enough fuel (Obj (Node P)) s He) as (s1 & E1 & Hr1 & He1 & Hcl1).
  cbn [world_of] in E1.
  destruct (root_read_stable fuel C s s1 He HhC Hp Hr1
              (worldcoords_roots fuel _ _ s s1 E1))
    as (sc & s2 & Ec & E2 & Hv2 & Hr2 & He2 & Hc2).
  exists s1, sc. split; [exact E1|]. split; [exact Ec|].
  assert (HcP1 : clean s1 P) by (apply (Hcl1 P); [reflexivity|exact HhP]).
  assert (HnP2 : node s2 P = node s1 P) by (apply Hr2, HcP1).
  assert (HcP2 : clean s2 P) by (unfold clean, _changed; rewrite HnP2; exact HcP1).
  assert (Hq2 : cache_equiv s s2) by (etransitivity; [apply Hr1|apply Hr2]).
  assert (HhC2 : has s2 (Obj (Node C))) by (apply (cache_equiv_has s s2 _ Hq2), HhC).
  assert (HhP2 : has s2 (Obj (Node P))) by (apply (cache_equiv_has s s2 _ Hq2), HhP).
  assert (Hnot : Node C ∉ _descendants s P).
  { intros Hin. pose proof (Hk P C Hin) as Hx. congruence. }
  (* the call *)
  unfold CascadedCoords_assoc.
  rewrite bool_decide_eq_false_2 by congruence.
  apply twp_bind, twp_read. rewrite Hp. cbn [andb negb].
  apply twp_bind, twp_read. rewrite bool_decide_eq_false_2 by exact Hnot.
  apply twp_bind. apply twp_bind. eapply twp_of_eq; [exact E1|].
  apply twp_bind. eapply twp_of_eq; [exact E2|].
  eapply twp_of_eq; [apply transformation_of_caches; assumption|].
  set (rel := compose_pose _ _).
  apply twp_bind. cbn [store_parent]. apply twp_modify.
  change (with_node C (n_set_parent (Some (Node P))) s2) with (linked P C s2).
  set (s3 := linked P C s2).
  assert (He3 : enough fuel s3).
  { eapply cache_equiv_enough; [apply cache_equiv_linked, Hq2|exact Hel]. }
  assert (HhC3 : has s3 (Obj (Node C))) by (apply has_with_node, HhC2).
  assert (Hd3 : forall x, _descendants s x = _descendants s3 x).
  { intros x. rewrite (cache_equiv_descendants s s2 x Hq2). unfold _descendants, s3, linked.
    rewrite (node_with_node_keep n_descendants) by (intros []; reflexivity). reflexivity. }
  assert (Hnr : ~ reach s3 C P).
  { intros Hr. apply (linked_no_reach fuel s P C Hk HhC Hel).
    apply (reach_registries s3 s); [exact Hd3|exact Hr]. }
  destruct (newcoords_copy_node fuel C rel s3 He3 HhC3)
    as (s4 & E4 & He4 & Hh4 & Hd4 & Hv4 & Hl4 & Hoth4 & _ & Hhas4 & Hwi4).
  apply twp_bind. cbn [dyn_newcoords]. eapply twp_of_eq; [exact E4|].
  apply twp_bind, twp_modify. apply twp_ret.
  set (s5 := with_node P _ s4).
  assert (HnP4 : node s4 P = node s1 P).
  { rewrite (Hwi4 P Hnr). unfold s3, linked. rewrite node_with_node_ne by congruence.
    exact HnP2. }
  assert (HhP4 : has s4 (Obj (Node P))) by (apply Hhas4, has_with_node, HhP2).
  split; [reflexivity|].
  split; [apply enough_with_node; [intros []; left; reflexivity|exact He4]|].
  split; [apply has_with_node, Hh4|]. split.
  { simpl. unfold s5. rewrite (node_with_node_keep n_parent) by (intros []; reflexivity).
    rewrite (proj1 (Hl4 C)). unfold s3, linked. rewrite node_with_node_eq by exact HhC2.
    destruct (node s2 C); reflexivity. }
  split.
  { unfold _descendants, s5. rewrite node_with_node_eq by exact HhP4.
    replace (n_descendants (n_set_descendants (n_descendants (node s4 P) ++ [Node C])
                              (node s4 P)))
      with (n_descendants (node s4 P) ++ [Node C]) by (destruct (node s4 P); reflexivity).
    apply elem_of_app. right. apply list_elem_of_here. }
  split.
  { unfold dirty, _changed, s5.
    rewrite (node_with_node_keep n_changed) by (intros []; reflexivity). exact Hd4. }
  split.
  { unfold clean, _changed, s5.
    rewrite (node_with_node_keep n_changed) by (intros []; reflexivity).
    rewrite HnP4. exact HcP1. }
  split.
  { unfold pose_of; simpl. unfold s5.
    rewrite (node_with_node_keep (fun k => c_rotation (n_worldcoords k)))
      by (intros []; reflexivity).
    rewrite (node_with_node_keep (fun k => c_translation (n_worldcoords k)))
      by (intros []; reflexivity).
    rewrite HnP4. reflexivity. }
  transitivity (pose_of s4 (Obj (Node C))).
  { unfold pose_of; simpl. unfold s5. rewrite node_with_node_ne by exact Hne. reflexivity. }
  rewrite Hv4. unfold rel. rewrite Hv2. f_equal. f_equal.
  unfold pose_of; simpl. rewrite HnP2. reflexivity.
Qed.

(** C5 (amended): for a parent [P] whose world rotation is orthonormal and a
    root [C] other than [P] of a well-formed tree, which linking under [P]
    leaves acyclic ([C] is not above [P]),
    [P.assoc(C, relative_coords='world')] followed by [P.dissoc(C)] returns,
    and [C.worldcoords()] then gives the pose it gave before the two calls:
    the same rotation and translation, hence equal within [1e-9]. *)
Theorem assoc_dissoc_round_trip `{MathPrims} (fuel : nat) (s : store) (P C : oid) :
  tree_inv fuel s -> enough fuel (linked P C s) ->
  has s (Obj (Node P)) -> has s (Obj (Node C)) -> P <> C ->
  parent s (Obj (Node C)) = None ->
  (forall w sp, dyn_worldcoords fuel (Obj (Node P)) s = Ok w sp ->
     orthonormal (_rotation sp w)) ->
  exists w0 s0,
    dyn_worldcoords fuel (Obj (Node C)) s = Ok w0 s0 /\
    twp (do CascadedCoords_assoc fuel P (Node C) (RelStr "world") false then
         do CascadedCoords_dissoc fuel P (Node C) then
         dyn_worldcoords fuel (Obj (Node C))) s
      (fun w s' => pose_of s' w = pose_of s0 w0 /\
                   pclose tol (pose_of s' w) (pose_of s0 w0))
      (fun _ _ => False).
Proof.
  intros Hi Hel HhP HhC Hne Hp Ho.
  destruct (assoc_world_links fuel s P C Hi Hel HhP HhC Hne Hp)
    as (sp & sc & EP & EC & Ha).
  exists (Obj (World C)), sc. split; [exact EC|].
  apply twp_bind. eapply twp_mono; [exact Ha| |auto].
  intros r s5 (-> & He5 & HhC5 & Hp5 & Hin5 & Hd5 & HcP5 & HvP5 & HvC5). cbv beta.
  destruct (dissoc_registered fuel s5 P C He5 HhC5 Hin5) as (w & s6 & E6 & Hdis).
  (* the pose [dissoc] snapshots is the one of before *)
  assert (Hsnap : pose_of s6 w = pose_of sc (Obj (World C))).
  { destruct (worldcoords_enough fuel (Obj (Node C)) s5 He5) as (s6' & E6' & Hr6 & _).
    rewrite E6 in E6'. cbn [world_of] in E6'. injection E6' as -> <-.
    pose proof (worldcoords_recomputes fuel C s5 He5 HhC5 Hd5) as Hv.
    unfold twp in Hv. rewrite E6 in Hv. destruct Hv as (_ & _ & _ & Hv).
    rewrite Hp5 in Hv. cbn [world_of] in Hv. rewrite Hv, HvC5.
    assert (HP6 : pose_of s6 (Obj (World P)) = pose_of sp (Obj (World P))).
    { rewrite <- HvP5. unfold pose_of; simpl.
      rewrite (proj1 (proj2 Hr6) P HcP5). reflexivity. }
    rewrite HP6. apply compose_inverse_cancel. apply (Ho _ _ EP). }
  apply twp_bind. eapply twp_mono; [exact Hdis| |auto].
  intros u s7 (_ & _ & _ & _ & Hread). cbv beta.
  eapply twp_mono; [exact Hread| |auto].
  intros w' s8 [_ Hv]. rewrite Hv, Hsnap.
  split; [reflexivity|apply pclose_refl, tol_nonneg].
Qed.

Lemma assoc_dissoc_round_trip_witness :
  exists w0 s0,
    dyn_worldcoords 10 (Obj (Node 3%positive)) apart = Ok w0 s0 /\
    twp (do CascadedCoords_assoc (H := spec_prims) 10 2%positive (Node 3%positive)
              (RelStr "world") false then
         do CascadedCoords_dissoc (H := spec_prims) 10 2%positive (Node 3%positive) then
         dyn_worldcoords 10 (Obj (Node 3%positive))) apart
      (fun w s' => pose_of s' w = pose_of s0 w0 /\
                   pclose tol (pose_of s' w) (pose_of s0 w0))
      (fun _ _ => False).
Proof.
  apply (assoc_dissoc_round_trip (H := spec_prims) 10 apart 2%positive 3%positive).
  - apply tree_check_sound. vm_compute. reflexivity.
  - apply enough_check_sound. vm_compute. reflexivity.
  - vm_compute. eauto.
  - vm_compute. eauto.
  - discriminate.
  - vm_compute. reflexivity.
  - intros w sp E. vm_compute in E. injection E as <- <-.
    unfold orthonormal. vm_compute. f_equal; f_equal; lra.
Defined.

(** ** The composition rule of [rotate] *)

(** [rotate] with an axis token on a plain [Coordinates]: one write of the
    rotation, then [newcoords] with the pose just written. *)
Lemma Coordinates_rotate_token `{MathPrims} (fuel : nat) (p : oid) (theta : R)
    (tok : string) (wrt : wrt_arg) (skip world : bool) (d : mat3) (s : store) :
  has s (Obj (Plain p)) ->
  rotation_matrix theta (AxisTok tok) skip = Some d ->
  (wrt = WStr "local" /\ world = false) \/
  ((wrt = WStr "parent" \/ wrt = WStr "world") /\ world = true) ->
  exists s',
    Coordinates_rotate fuel (Obj (Plain p)) (Angle theta) (AxisTok tok) wrt skip s
      = Ok (Obj (Plain p)) s' /\
    _rotation s' (Obj (Plain p))
      = (if world then matmul d (_rotation s (Obj (Plain p)))
         else matmul (_rotation s (Obj (Plain p))) d) /\
    _translation s' (Obj (Plain p)) = _translation s (Obj (Plain p)).
Proof.
  intros Hh Hd Hw.
  set (m := if world then matmul d (_rotation s (Obj (Plain p)))
            else matmul (_rotation s (Obj (Plain p))) d).
  assert (E : Coordinates_rotate fuel (Obj (Plain p)) (Angle theta) (AxisTok tok) wrt skip s
              = (do store_rotation (Obj (Plain p)) m then
                 let* r := read (fun s => _rotation s (Obj (Plain p))) in
                 let* t := read (fun s => _translation s (Obj (Plain p))) in
                 dyn_newcoords fuel (Obj (Plain p)) (NcArrays (RotMat r) (PosVec t)) false
                   (RelStr "local")) s).
  { unfold Coordinates_rotate, rotate_matrix, m.
    destruct Hw as [[-> ->]|[[-> | ->] ->]]; cbn [wrt_is wrt_is_obj orb];
      unfold bind at 1; unfold bind at 1, read at 1; rewrite Hd; reflexivity. }
  rewrite E. cbn [dyn_newcoords].
  eexists. split; [reflexivity|]. simpl in Hh. unfold _rotation, _translation.
  repeat rewrite plain_with_plain_eq
    by (repeat apply (proj2 (has_with_plain _ p _ (Obj (Plain p)))); exact Hh).
  destruct (plain s p); split; reflexivity.
Qed.

(** [newcoords(rot, pos, check_validity=False, relative_coords='local')] on
    a node, with the pose it leaves. *)
Lemma newcoords_local_node `{MathPrims} (fuel : nat) (n : oid) (r : mat3) (t : vec3)
    (s : store) :
  enough fuel s -> has s (Obj (Node n)) ->
  twp (CascadedCoords_newcoords fuel n (NcArrays (RotMat r) (PosVec t)) false
         (RelStr "local")) s
    (fun o s' => o = Obj (Node n) /\ dirty s' n /\
                 _rotation s' (Obj (Node n)) = r /\ _translation s' (Obj (Node n)) = t)
    (fun _ _ => False).
Proof.
  intros He Hh.
  eapply twp_mono;
    [apply (carried_newcoords_local fuel (Tmp identity_pose) s I (Obj (Node n)) r t s I
              (carried_start fuel _ s He))| |auto].
  intros o s' (_ & _ & Hk & Hd & Hv). destruct (Hv Hh) as (_ & Hr & Ht).
  simpl in Hk. subst o. auto.
Qed.

(** [rotate] with an axis token on a node, about its own axes. *)
Lemma CascadedCoords_rotate_local `{MathPrims} (fuel : nat) (n : oid) (theta : R)
    (tok : string) (skip : bool) (d : mat3) (s : store) :
  enough fuel s -> has s (Obj (Node n)) ->
  rotation_matrix theta (AxisTok tok) skip = Some d ->
  twp (CascadedCoords_rotate fuel n theta (AxisTok tok) (WStr "local") skip) s
    (fun _ s' =>
       _rotation s' (Obj (Node n)) = matmul (_rotation s (Obj (Node n))) d /\
       _translation s' (Obj (Node n)) = _translation s (Obj (Node n)))
    (fun _ _ => False).
Proof.
  intros He Hh Hd. unfold CascadedCoords_rotate. apply twp_bind, twp_read.
  cbn [wrt_is wrt_is_obj orb].
  rewrite bool_decide_eq_true_2 by reflexivity. cbn [orb].
  apply twp_bind, twp_read. unfold rotate_matrix. rewrite Hd.
  apply twp_bind, twp_read.
  eapply twp_mono; [apply newcoords_local_node; assumption| |auto].
  intros o s' (_ & _ & Hr & Ht). auto.
Qed.

(** [rotate] with an axis token on a node, about the axes of the world: the
    axis-angle matrix is carried into the frame of the parent. *)
Lemma CascadedCoords_rotate_world `{MathPrims} (fuel : nat) (n : oid) (theta : R)
    (tok : string) (skip : bool) (d : mat3) (s : store) :
  enough fuel s -> has s (Obj (Node n)) ->
  rotation_matrix theta (AxisTok tok) skip = Some d ->
  exists pc s1,
    CascadedCoords_parentcoords fuel n s = Ok pc s1 /\
    pc = match parent s (Obj (Node n)) with
         | Some p => world_of (Obj p)
         | None => Obj worldcoords
         end /\
    twp (CascadedCoords_rotate fuel n theta (AxisTok tok) (WStr "world") skip) s
      (fun _ s' =>
         _rotation s' (Obj (Node n))
           = matmul (matmul (transpose (_rotation s1 pc)) (matmul d (_rotation s1 pc)))
                    (_rotation s (Obj (Node n))) /\
         _translation s' (Obj (Node n)) = _translation s (Obj (Node n)))
      (fun _ _ => False).
Proof.
  intros He Hh Hd.
  destruct (twp_elim _ _ _
    (carried_parentcoords fuel (Tmp identity_pose) s I n s (carried_start fuel _ s He)))
    as (pc & s1 & E1 & Hc1 & Hr1 & Hpc).
  exists pc, s1. split; [exact E1|]. split; [exact Hpc|].
  unfold CascadedCoords_rotate. apply twp_bind, twp_read.
  cbn [wrt_is wrt_is_obj wrt_is_parent orb].
  rewrite !bool_decide_eq_false_2 by discriminate. cbn [orb].
  rewrite Hd. unfold CascadedCoords_rotate_with_matrix. apply twp_bind, twp_read.
  cbn [wrt_is wrt_is_obj wrt_is_parent orb].
  rewrite !bool_decide_eq_false_2 by discriminate. cbn [orb].
  apply twp_bind. eapply twp_of_eq; [exact E1|].
  apply twp_bind, twp_read. apply twp_bind, twp_ret. cbv zeta.
  apply twp_bind, twp_read. apply twp_bind, twp_read.
  eapply twp_mono; [apply newcoords_local_node; [exact (proj1 Hc1)|]| |auto].
  - apply (cache_equiv_has s s1 (Obj (Node n))); [apply Hr1|exact Hh].
  - intros o s' (_ & _ & Hr & Ht). rewrite Hr, Ht.
    rewrite <- (cache_equiv_rotation s s1 (Obj (Node n))) by (congruence || apply Hr1).
    rewrite <- (cache_equiv_translation s s1 (Obj (Node n))) by (congruence || apply Hr1).
    split; reflexivity.
Qed.

(** C3 (amended): with the axis-angle matrix [d] of a supported axis token,
    [rotate(theta, axis, wrt='local')] replaces the rotation [R] of a plain
    [Coordinates] or of a node by [R.d]; on a plain [Coordinates],
    [wrt='parent'] and [wrt='world'] replace it by [d.R]; on a node,
    [wrt='world'] replaces it by [(Pt.d.P).R], where [P] is the rotation of
    what [parentcoords()] returns (the world pose of the parent, or the
    module's [worldcoords] for a root), which is [d.R] where [P] is the
    identity.  The translation stays. *)
Theorem rotate_composition_rule `{MathPrims} (fuel : nat) (s : store) (self : ref)
    (theta : R) (tok : string) (skip : bool) (d : mat3) :
  is_frame (Obj self) -> enough fuel s -> has s (Obj self) ->
  rotation_matrix theta (AxisTok tok) skip = Some d ->
  twp (dyn_rotate fuel (Obj self) theta (AxisTok tok) (WStr "local") skip) s
    (fun _ s' => _rotation s' (Obj self) = matmul (_rotation s (Obj self)) d /\
                 _translation s' (Obj self) = _translation s (Obj self))
    (fun _ _ => False) /\
  (forall p wrt, self = Plain p -> wrt = WStr "parent" \/ wrt = WStr "world" ->
     twp (dyn_rotate fuel (Obj self) theta (AxisTok tok) wrt skip) s
       (fun _ s' => _rotation s' (Obj self) = matmul d (_rotation s (Obj self)) /\
                    _translation s' (Obj self) = _translation s (Obj self))
       (fun _ _ => False)) /\
  (forall n, self = Node n ->
     exists pc s1,
       CascadedCoords_parentcoords fuel n s = Ok pc s1 /\
       twp (dyn_rotate fuel (Obj self) theta (AxisTok tok) (WStr "world") skip) s
         (fun _ s' =>
            _rotation s' (Obj self)
              = matmul (matmul (transpose (_rotation s1 pc)) (matmul d (_rotation s1 pc)))
                       (_rotation s (Obj self)) /\
            (_rotation s1 pc = eye3 ->
             _rotation s' (Obj self) = matmul d (_rotation s (Obj self))) /\
            _translation s' (Obj self) = _translation s (Obj self))
         (fun _ _ => False)).
Proof.
  intros Hf He Hh Hd. destruct self as [p|n|n]; [| |destruct Hf]; cbn [dyn_rotate].
  - split; [|split].
    + destruct (Coordinates_rotate_token fuel p theta tok (WStr "local") skip false d s
                  Hh Hd) as (s' & E & Hr & Ht); [left; auto|].
      eapply twp_of_eq; [exact E|]. auto.
    + intros q wrt _ Hw.
      destruct (Coordinates_rotate_token fuel p theta tok wrt skip true d s Hh Hd)
        as (s' & E & Hr & Ht); [right; auto|].
      eapply twp_of_eq; [exact E|]. auto.
    + intros n Hn. discriminate.
  - split; [apply CascadedCoords_rotate_local; assumption|].
    split; [intros p wrt Hp; discriminate|].
    intros m Hm. injection Hm as <-.
    destruct (CascadedCoords_rotate_world fuel n theta tok skip d s He Hh Hd)
      as (pc & s1 & E1 & _ & Hw).
    exists pc, s1. split; [exact E1|].
    eapply twp_mono; [exact Hw| |auto].
    intros o s' [Hr Ht]. split; [exact Hr|]. split; [|exact Ht].
    intros Hi. rewrite Hr, Hi. change (transpose eye3) with eye3.
    rewrite matmul_eye_r, matmul_eye_l. reflexivity.
Qed.

(** The quarter turn about z, from the axis-angle conversion. *)
Lemma quarter_turn_z :
  rotation_matrix (MathPrims := spec_prims) (PI / 2) (AxisTok "z") false = Some Rz90.
Proof.
  change (spec_rotation_matrix (PI / 2) (AxisTok "z") false = Some Rz90).
  cbv beta iota zeta delta [spec_rotation_matrix vx vy vz].
  rewrite cos_PI2, sin_PI2. unfold Rz90. f_equal. f_equal; f_equal; ring.
Qed.

Lemma rotate_composition_rule_witness :
  twp (dyn_rotate (H := spec_prims) 10 (Obj (Node 3%positive)) (PI / 2) (AxisTok "z")
         (WStr "local") false) family
    (fun _ s' =>
       _rotation s' (Obj (Node 3%positive))
         = matmul (_rotation family (Obj (Node 3%positive))) Rz90 /\
       _translation s' (Obj (Node 3%positive))
         = _translation family (Obj (Node 3%positive)))
    (fun _ _ => False) /\
  (forall p wrt, Node 3%positive = Plain p -> wrt = WStr "parent" \/ wrt = WStr "world" ->
     twp (dyn_rotate (H := spec_prims) 10 (Obj (Node 3%positive)) (PI / 2) (AxisTok "z")
            wrt false) family
       (fun _ s' =>
          _rotation s' (Obj (Node 3%positive))
            = matmul Rz90 (_rotation family (Obj (Node 3%positive))) /\
          _translation s' (Obj (Node 3%positive))
            = _translation family (Obj (Node 3%positive)))
       (fun _ _ => False)) /\
  (forall n, Node 3%positive = Node n ->
     exists pc s1,
       CascadedCoords_parentcoords 10 n family = Ok pc s1 /\
       twp (dyn_rotate (H := spec_prims) 10 (Obj (Node 3%positive)) (PI / 2) (AxisTok "z")
              (WStr "world") false) family
         (fun _ s' =>
            _rotation s' (Obj (Node 3%positive))
              = matmul (matmul (transpose (_rotation s1 pc)) (matmul Rz90 (_rotation s1 pc)))
                       (_rotation family (Obj (Node 3%positive))) /\
            (_rotation s1 pc = eye3 ->
             _rotation s' (Obj (Node 3%positive))
               = matmul Rz90 (_rotation family (Obj (Node 3%positive)))) /\
            _translation s' (Obj (Node 3%positive))
              = _translation family (Obj (Node 3%positive)))
         (fun _ _ => False)).
Proof.
  apply (rotate_composition_rule (H := spec_prims) 10 family (Node 3%positive)
           (PI / 2) "z" false Rz90).
  - exact I.
  - apply family_tree_inv.
  - vm_compute. eauto.
  - exact quarter_turn_z.
Defined.

(** C3, as stated, fails for [wrt='world'] on a node under a turned parent:
    in the session of [family] the child [C], with rotation [Rz90] under the
    parent [P] of world rotation [Rx90], is left by
    [C.rotate(pi/2, 'z', wrt='world')] with a rotation that is not
    [Rz90.Rz90]. *)
Lemma rotate_world_on_child :
  rotation_matrix (MathPrims := spec_prims) (PI / 2) (AxisTok "z") false = Some Rz90 /\
  exists o s',
    dyn_rotate (H := spec_prims) 10 (Obj (Node 3%positive)) (PI / 2) (AxisTok "z")
      (WStr "world") false family = Ok o s' /\
    _rotation s' (Obj (Node 3%positive)) = M3 (V3 0 0 1) (V3 1 0 0) (V3 0 1 0) /\
    _rotation s' (Obj (Node 3%positive))
      <> matmul Rz90 (_rotation family (Obj (Node 3%positive))).
Proof.
  split; [exact quarter_turn_z|].
  assert (He : enough 10 family) by apply family_tree_inv.
  assert (Hh : has family (Obj (Node 3%positive))) by (vm_compute; eauto).
  destruct (CascadedCoords_rotate_world (H := spec_prims) 10 3%positive (PI / 2) "z"
              false Rz90 family He Hh quarter_turn_z) as (pc & s1 & E1 & _ & Hw).
  vm_compute in E1. injection E1 as <- <-.
  destruct (twp_elim _ _ _ Hw) as (o & s' & E & Hr & _).
  exists o, s'. split; [exact E|].
  assert (Hv : _rotation s' (Obj (Node 3%positive)) = M3 (V3 0 0 1) (V3 1 0 0) (V3 0 1 0)).
  { rewrite Hr. vm_compute. f_equal; f_equal; lra. }
  split; [exact Hv|]. rewrite Hv. vm_compute. intros Hx. injection Hx. intros. lra.
Qed.

(** ** Interpolation *)

Lemma worldpos_enough (fuel : nat) (c : cref) (s : store) :
  enough fuel s ->
  exists s', dyn_worldpos fuel c s = Ok (_translation s' (world_of c)) s' /\
    refreshed s s' /\ enough fuel s' /\
    (forall n, c = Obj (Node n) -> has s c -> clean s' n).
Proof.
  intros He. destruct c as [[p|n|n]|q];
    try (exists s; split; [reflexivity|]; split; [reflexivity|];
         split; [exact He|discriminate]).
  destruct (worldcoords_enough fuel (Obj (Node n)) s He) as (s' & E & Hr & He' & Hc).
  exists s'. unfold dyn_worldpos, bind. rewrite E. split; [reflexivity|].
  split; [exact Hr|]. split; [exact He'|].
  intros m Hm Hh. injection Hm as <-. apply (Hc n); [reflexivity|exact Hh].
Qed.

Lemma Rle_b_true (a b : R) : a <= b -> Rle_b a b = true.
Proof. intros Hab. unfold Rle_b. destruct (Rle_dec a b); [reflexivity|contradiction]. Qed.













(** ** Calls that raise *)

Section Effects.

Context {A B : Type}.

Lemma never_fails_safe (m : M A) : never_raises m -> fails_safe m.
Proof. intros Hm s. eapply wp_mono; [apply Hm|auto|intros ? ? []]. Qed.

Lemma reads_fails_safe (P : A -> Prop) (m : M A) : reads_only P m -> fails_safe m.
Proof. intros Hm s. eapply wp_mono; [apply Hm|auto|auto]. Qed.

Lemma reads_only_weaken (P : A -> Prop) (m : M A) :
  reads_only P m -> reads_only (fun _ => True) m.
Proof. intros Hm s. eapply wp_mono; [apply Hm| |auto]. intros a s' [He _]. auto. Qed.

Lemma fails_safe_bind_reads (P : A -> Prop) (m : M A) (k : A -> M B) :
  reads_only P m -> (forall a, P a -> fails_safe (k a)) -> fails_safe (bind m k).
Proof.
  intros Hm Hk s. apply wp_bind. eapply wp_mono; [apply Hm| |auto].
  intros a s1 [He Ha]. eapply wp_mono; [apply (Hk a Ha)|auto|].
  intros e s2 He2. etransitivity; eassumption.
Qed.

Lemma fails_safe_bind_never (m : M A) (k : A -> M B) :
  fails_safe m -> (forall a, never_raises (k a)) -> fails_safe (bind m k).
Proof.
  intros Hm Hk s. apply wp_bind. eapply wp_mono; [apply Hm| |auto].
  intros a s1 _. eapply wp_mono; [apply (Hk a)|auto|intros ? ? []].
Qed.

Lemma never_raises_bind (m : M A) (k : A -> M B) :
  never_raises m -> (forall a, never_raises (k a)) -> never_raises (bind m k).
Proof.
  intros Hm Hk s. apply wp_bind. eapply wp_mono; [apply Hm| |auto].
  intros a s1 _. apply Hk.
Qed.

Lemma reads_only_bind (P : A -> Prop) (Q : B -> Prop) (m : M A) (k : A -> M B) :
  reads_only P m -> (forall a, P a -> reads_only Q (k a)) -> reads_only Q (bind m k).
Proof.
  intros Hm Hk s. apply wp_bind. eapply wp_mono; [apply Hm| |auto].
  intros a s1 [He Ha]. eapply wp_mono; [apply (Hk a Ha)| |].
  - intros b s2 [He2 Hb]. split; [etransitivity; eassumption|exact Hb].
  - intros e s2 He2. etransitivity; eassumption.
Qed.

Lemma never_raises_ret (a : A) : never_raises (ret a).
Proof. intros s. exact I. Qed.

Lemma never_raises_read (f : store -> A) : never_raises (read f).
Proof. intros s. exact I. Qed.

Lemma never_raises_outside : never_raises (@outside A).
Proof. intros s. exact I. Qed.

Lemma reads_only_ret (P : A -> Prop) (a : A) : P a -> reads_only P (ret a).
Proof. intros Ha s. split; [reflexivity|exact Ha]. Qed.

Lemma reads_only_read (f : store -> A) : reads_only (fun _ => True) (read f).
Proof. intros s. split; [reflexivity|exact I]. Qed.

Lemma reads_only_raise (P : A -> Prop) (e : exn) : reads_only P (raise e).
Proof. intros s. unfold wp, raise. reflexivity. Qed.

Lemma reads_only_outside (P : A -> Prop) : reads_only P (@outside A).
Proof. intros s. exact I. Qed.

Lemma fails_safe_raise (e : exn) : fails_safe (@raise A e).
Proof. intros s. unfold wp, raise. reflexivity. Qed.

End Effects.

Lemma never_raises_modify (f : store -> store) : never_raises (modify f).
Proof. intros s. exact I. Qed.

Lemma never_raises_for_each {A} (f : A -> M unit) (l : list A) :
  (forall x, never_raises (f x)) -> never_raises (for_each f l).
Proof.
  intros Hf. induction l as [|x l IH]; [apply never_raises_ret|].
  simpl. apply never_raises_bind; [apply Hf|intros _; exact IH].
Qed.

Create HintDb effects discriminated.

#[export] Hint Resolve never_raises_ret never_raises_read never_raises_outside
  never_raises_modify reads_only_read reads_only_raise reads_only_outside
  fails_safe_raise : effects.

(** The search for the three judgements: through [bind] and the case
    splits of the program, down to the calls already settled. *)
Ltac effects_split :=
  match goal with
  | |- _ => progress cbv beta iota zeta
  | |- context [bind (ret ?a) ?k] => change (bind (ret a) k) with (k a)
  | |- never_raises (match ?x with _ => _ end) => destruct x
  | |- fails_safe (match ?x with _ => _ end) => destruct x
  | |- reads_only _ (match ?x with _ => _ end) => destruct x
  | H : is_tmp ?a |- _ => destruct a; [destruct H|clear H]
  | |- forall _, _ => intro
  end.

Ltac never_tac :=
  repeat effects_split;
  lazymatch goal with
  | |- never_raises (bind _ _) =>
      apply never_raises_bind; [never_tac | intros; never_tac]
  | |- never_raises _ => solve [eauto 2 with effects]
  end.

Ltac reads_tac :=
  repeat effects_split;
  lazymatch goal with
  | |- reads_only ?P (bind _ _) =>
      first
        [ apply (reads_only_bind is_tmp P); [solve [reads_tac] | intros; reads_tac]
        | apply (reads_only_bind (fun _ => True) P); [solve [reads_tac] | intros; reads_tac] ]
  | |- reads_only _ (ret _) => apply reads_only_ret; exact I
  | |- reads_only _ _ =>
      first [ solve [eauto 2 with effects]
            | apply (reads_only_weaken is_tmp); solve [eauto 2 with effects] ]
  end.

Ltac fails_tac :=
  repeat effects_split;
  lazymatch goal with
  | |- fails_safe (bind _ _) =>
      first
        [ apply (fails_safe_bind_reads is_tmp); [solve [reads_tac] | intros; solve [fails_tac] ]
        | apply (fails_safe_bind_reads (fun _ => True));
            [solve [reads_tac] | intros; solve [fails_tac] ]
        | apply fails_safe_bind_never; [solve [fails_tac] | intros; solve [never_tac] ] ]
  | |- fails_safe _ =>
      first [ solve [eauto 2 with effects]
            | apply never_fails_safe; solve [never_tac]
            | apply (reads_fails_safe (fun _ => True)); solve [reads_tac]
            | apply (reads_fails_safe is_tmp); solve [reads_tac] ]
  end.

(** *** The writes and the world-pose readers *)

Lemma never_raises_store_rotation (c : cref) (m : mat3) : never_raises (store_rotation c m).
Proof. destruct c as [[p|n|n]|q]; unfold store_rotation; never_tac. Qed.

Lemma never_raises_store_translation (c : cref) (v : vec3) :
  never_raises (store_translation c v).
Proof. destruct c as [[p|n|n]|q]; unfold store_translation; never_tac. Qed.

Lemma never_raises_store_name (r : ref) (x : string) : never_raises (store_name r x).
Proof. destruct r; unfold store_name; never_tac. Qed.

Lemma never_raises_store_parent (r : ref) (x : option ref) : never_raises (store_parent r x).
Proof. destruct r; unfold store_parent; never_tac. Qed.

Lemma reads_only_store_rotation (q : pose) (m : mat3) :
  reads_only is_tmp (store_rotation (Tmp q) m).
Proof. intros s. split; [reflexivity|exact I]. Qed.

Lemma reads_only_store_translation (q : pose) (v : vec3) :
  reads_only is_tmp (store_translation (Tmp q) v).
Proof. intros s. split; [reflexivity|exact I]. Qed.

#[export] Hint Resolve never_raises_store_rotation never_raises_store_translation
  never_raises_store_name never_raises_store_parent
  reads_only_store_rotation reads_only_store_translation : effects.

Lemma reads_only_update (fuel : nat) (n : oid) :
  reads_only (fun _ => True) (CascadedCoords_update fuel n).
Proof.
  intros s. eapply wp_mono; [apply update_cache_equiv|auto|intros ? ? []].
Qed.

Lemma never_raises_update (fuel : nat) (n : oid) :
  never_raises (CascadedCoords_update fuel n).
Proof.
  intros s. eapply wp_mono; [apply update_cache_equiv|auto|auto].
Qed.

#[export] Hint Resolve reads_only_update never_raises_update : effects.

Lemma reads_only_worldcoords (fuel : nat) (c : cref) :
  reads_only (fun _ => True) (dyn_worldcoords fuel c).
Proof. unfold dyn_worldcoords, worldcoords_by. reads_tac. Qed.

Lemma never_raises_worldcoords (fuel : nat) (c : cref) :
  never_raises (dyn_worldcoords fuel c).
Proof. unfold dyn_worldcoords, worldcoords_by. never_tac. Qed.

#[export] Hint Resolve reads_only_worldcoords never_raises_worldcoords : effects.

Lemma reads_only_worldrot (fuel : nat) (c : cref) :
  reads_only (fun _ => True) (dyn_worldrot fuel c).
Proof. unfold dyn_worldrot. reads_tac. Qed.

Lemma never_raises_worldrot (fuel : nat) (c : cref) : never_raises (dyn_worldrot fuel c).
Proof. unfold dyn_worldrot. never_tac. Qed.

Lemma reads_only_worldpos (fuel : nat) (c : cref) :
  reads_only (fun _ => True) (dyn_worldpos fuel c).
Proof. unfold dyn_worldpos. reads_tac. Qed.

Lemma never_raises_worldpos (fuel : nat) (c : cref) : never_raises (dyn_worldpos fuel c).
Proof. unfold dyn_worldpos. never_tac. Qed.

Lemma reads_only_parentcoords (fuel : nat) (n : oid) :
  reads_only (fun _ => True) (CascadedCoords_parentcoords fuel n).
Proof. unfold CascadedCoords_parentcoords. reads_tac. Qed.

Lemma never_raises_parentcoords (fuel : nat) (n : oid) :
  never_raises (CascadedCoords_parentcoords fuel n).
Proof. unfold CascadedCoords_parentcoords. never_tac. Qed.

#[export] Hint Resolve reads_only_worldrot never_raises_worldrot reads_only_worldpos
  never_raises_worldpos reads_only_parentcoords never_raises_parentcoords : effects.

Lemma reads_only_copy_coords (fuel : nat) (c : cref) :
  reads_only is_tmp (Coordinates_copy_coords fuel c).
Proof. unfold Coordinates_copy_coords. reads_tac. Qed.

Lemma never_raises_copy_coords (fuel : nat) (c : cref) :
  never_raises (Coordinates_copy_coords fuel c).
Proof. unfold Coordinates_copy_coords. never_tac. Qed.

#[export] Hint Resolve reads_only_copy_coords never_raises_copy_coords : effects.

(** *** [transform_coords], inversion, relative transform *)

Lemma never_raises_transform_coords (c1 c2 o : cref) :
  never_raises (transform_coords c1 c2 (OutCoords o)).
Proof. unfold transform_coords. never_tac. Qed.

Lemma never_raises_transform_coords_fresh (c1 c2 : cref) :
  never_raises (transform_coords c1 c2 OutNone).
Proof. unfold transform_coords. never_tac. Qed.

Lemma reads_only_transform_coords (c1 c2 : cref) (q : pose) :
  reads_only is_tmp (transform_coords c1 c2 (OutCoords (Tmp q))).
Proof. intros s. split; [reflexivity|exact I]. Qed.

Lemma reads_only_transform_coords_fresh (c1 c2 : cref) :
  reads_only is_tmp (transform_coords c1 c2 OutNone).
Proof. intros s. split; [reflexivity|exact I]. Qed.

Lemma fails_safe_transform_coords (c1 c2 : cref) (out : out_arg) :
  fails_safe (transform_coords c1 c2 out).
Proof.
  destruct out as [|o|]; [apply never_fails_safe, never_raises_transform_coords_fresh
                         |apply never_fails_safe, never_raises_transform_coords
                         |apply fails_safe_raise].
Qed.

Lemma reads_only_mul (c1 c2 : cref) : reads_only is_tmp (Coordinates___mul__ c1 c2).
Proof. apply reads_only_transform_coords_fresh. Qed.

Lemma reads_only_inverse (c : cref) :
  reads_only is_tmp (Coordinates_inverse_transformation c None).
Proof. intros s. split; [reflexivity|exact I]. Qed.

Lemma never_raises_inverse (c : cref) (dest : option cref) :
  never_raises (Coordinates_inverse_transformation c dest).
Proof. unfold Coordinates_inverse_transformation. never_tac. Qed.

#[export] Hint Resolve never_raises_transform_coords never_raises_transform_coords_fresh
  reads_only_transform_coords reads_only_transform_coords_fresh
  fails_safe_transform_coords reads_only_mul reads_only_inverse never_raises_inverse
  : effects.

Lemma reads_only_transformation (fuel : nat) (self c2 : cref) (wrt : wrt_arg) :
  reads_only is_tmp (Coordinates_transformation fuel self c2 wrt).
Proof. unfold Coordinates_transformation. reads_tac. Qed.

#[export] Hint Resolve reads_only_transformation : effects.

Lemma fails_safe_Coordinates_transform (fuel : nat) (self c : cref) (wrt : wrt_arg)
    (out : out_arg) :
  fails_safe (Coordinates_transform fuel self c wrt out).
Proof. unfold Coordinates_transform. fails_tac. Qed.

(** [inv.transform(c)] on an inverse made by the caller *)
Lemma reads_only_transform_tmp (fuel : nat) (q : pose) (c : cref) :
  reads_only is_tmp (Coordinates_transform fuel (Tmp q) c (WStr "local") OutNone).
Proof. intros s. split; [reflexivity|exact I]. Qed.

#[export] Hint Resolve fails_safe_Coordinates_transform reads_only_transform_tmp : effects.

(** *** The validated setters and the constructor *)

Section Validated.

Context `{MathPrims}.

Lemma fails_safe_rotation_setter (self : cref) (r : rot_input) :
  fails_safe (Coordinates_rotation_setter self r).
Proof. unfold Coordinates_rotation_setter. fails_tac. Qed.

Lemma fails_safe_translation_setter (self : cref) (t : pos_input) :
  fails_safe (Coordinates_translation_setter self t).
Proof. unfold Coordinates_translation_setter. fails_tac. Qed.

Lemma reads_only_rotation_setter (q : pose) (r : rot_input) :
  reads_only is_tmp (Coordinates_rotation_setter (Tmp q) r).
Proof. unfold Coordinates_rotation_setter. reads_tac. Qed.

Lemma reads_only_translation_setter (q : pose) (t : pos_input) :
  reads_only is_tmp (Coordinates_translation_setter (Tmp q) t).
Proof. unfold Coordinates_translation_setter. reads_tac. Qed.

Lemma fails_safe_name_setter (self : ref) (x : name_arg) :
  fails_safe (Coordinates_name_setter self x).
Proof. unfold Coordinates_name_setter. fails_tac. Qed.

Lemma fails_safe_parent_setter (self : oid) (c : parent_arg) :
  fails_safe (CascadedCoords_parent_setter self c).
Proof. unfold CascadedCoords_parent_setter. fails_tac. Qed.

End Validated.

#[export] Hint Resolve fails_safe_rotation_setter fails_safe_translation_setter
  reads_only_rotation_setter reads_only_translation_setter
  fails_safe_name_setter fails_safe_parent_setter : effects.

Lemma reads_only_init `{MathPrims} (pos : pos_input) (rot : rot_input) (check : bool) :
  reads_only is_tmp (Coordinates_init pos rot check).
Proof. unfold Coordinates_init. reads_tac. Qed.

#[export] Hint Resolve reads_only_init : effects.

(** *** [newcoords], [changed] and the mutators *)

Lemma never_raises_changed (fuel : nat) (n : oid) :
  never_raises (CascadedCoords_changed fuel n).
Proof.
  intros s. eapply wp_mono; [apply changed_flagged|auto|auto].
Qed.

#[export] Hint Resolve never_raises_changed : effects.

Section Mutations.

Context `{MathPrims}.
Variable fuel : nat.

(** without validation the arrays or the pose are written as they are *)
Lemma never_raises_Coordinates_newcoords (self : cref) (c : newcoords_arg) :
  never_raises (Coordinates_newcoords self c false RelNone).
Proof. unfold Coordinates_newcoords. never_tac. Qed.

Lemma fails_safe_Coordinates_newcoords (self : cref) (c : newcoords_arg)
    (rel : rel_arg) :
  fails_safe (Coordinates_newcoords self c false rel).
Proof. unfold Coordinates_newcoords. fails_tac. Qed.

#[local] Hint Resolve never_raises_Coordinates_newcoords fails_safe_Coordinates_newcoords : effects.

Lemma fails_safe_CascadedCoords_newcoords (n : oid) (c : newcoords_arg) (rel : rel_arg) :
  fails_safe (CascadedCoords_newcoords fuel n c false rel).
Proof. unfold CascadedCoords_newcoords. fails_tac. Qed.

Lemma fails_safe_newcoords (self : cref) (c : newcoords_arg) (rel : rel_arg) :
  fails_safe (dyn_newcoords fuel self c false rel).
Proof.
  destruct self as [[p|n|n]|q]; cbn [dyn_newcoords];
    auto using fails_safe_CascadedCoords_newcoords, fails_safe_Coordinates_newcoords.
Qed.

(** as the methods of the module call it, it does not raise *)
Lemma Coordinates_newcoords_rel_local (self : cref) (c : newcoords_arg) (s : store) :
  Coordinates_newcoords self c false (RelStr "local") s
  = Coordinates_newcoords self c false RelNone s.
Proof. reflexivity. Qed.

Lemma CascadedCoords_newcoords_rel_local (n : oid) (c : newcoords_arg) (s : store) :
  CascadedCoords_newcoords fuel n c false (RelStr "local") s
  = (do Coordinates_newcoords (Obj (Node n)) c false RelNone then
     do CascadedCoords_changed fuel n then
     ret (Obj (Node n))) s.
Proof.
  unfold CascadedCoords_newcoords, bind at 1, read at 1.
  destruct (parent s (Obj (Node n))); reflexivity.
Qed.

Lemma never_raises_newcoords_local (self : cref) (c : newcoords_arg) :
  never_raises (dyn_newcoords fuel self c false (RelStr "local")).
Proof.
  intros s. destruct self as [[p|n|n]|q]; cbn [dyn_newcoords];
    try (eapply wp_ext; [apply Coordinates_newcoords_rel_local|];
         apply never_raises_Coordinates_newcoords).
  eapply wp_ext; [apply CascadedCoords_newcoords_rel_local|].
  revert s. change (never_raises
    (do Coordinates_newcoords (Obj (Node n)) c false RelNone then
     do CascadedCoords_changed fuel n then ret (Obj (Node n)))).
  never_tac.
Qed.

#[local] Hint Resolve never_raises_newcoords_local : effects.

End Mutations.

#[export] Hint Resolve never_raises_Coordinates_newcoords fails_safe_Coordinates_newcoords
  fails_safe_CascadedCoords_newcoords fails_safe_newcoords never_raises_newcoords_local
  : effects.

Section Operations.

Context `{MathPrims}.
Variable fuel : nat.

Lemma reads_only_parent_orientation (self : cref) (v : vec3) (wrt : wrt_arg) :
  reads_only (fun _ => True) (Coordinates_parent_orientation fuel self v wrt).
Proof. unfold Coordinates_parent_orientation. reads_tac. Qed.

#[local] Hint Resolve reads_only_parent_orientation : effects.

Lemma fails_safe_translate (self : cref) (v : vec3) (wrt : wrt_arg) :
  fails_safe (Coordinates_translate fuel self v wrt).
Proof. unfold Coordinates_translate. fails_tac. Qed.

Lemma fails_safe_Coordinates_rotate_with_matrix (self : cref) (m : mat3) (wrt : wrt_arg) :
  fails_safe (Coordinates_rotate_with_matrix fuel self m wrt).
Proof. unfold Coordinates_rotate_with_matrix. fails_tac. Qed.

Lemma never_raises_CascadedCoords_rotate_with_matrix (n : oid) (m : mat3) (wrt : wrt_arg) :
  never_raises (CascadedCoords_rotate_with_matrix fuel n m wrt).
Proof.
  unfold CascadedCoords_rotate_with_matrix.
  change (CascadedCoords_newcoords fuel n) with (dyn_newcoords fuel (Obj (Node n))).
  never_tac.
Qed.

Lemma fails_safe_rotate_with_matrix (self : cref) (m : mat3) (wrt : wrt_arg) :
  fails_safe (dyn_rotate_with_matrix fuel self m wrt).
Proof.
  destruct self as [[p|n|n]|q]; cbn [dyn_rotate_with_matrix];
    try apply fails_safe_Coordinates_rotate_with_matrix.
  apply never_fails_safe, never_raises_CascadedCoords_rotate_with_matrix.
Qed.

#[local] Hint Resolve fails_safe_rotate_with_matrix never_raises_CascadedCoords_rotate_with_matrix
  : effects.

Lemma fails_safe_Coordinates_rotate (self : cref) (theta : theta_arg) (axis : axis_arg)
    (wrt : wrt_arg) (skip : bool) :
  fails_safe (Coordinates_rotate fuel self theta axis wrt skip).
Proof. unfold Coordinates_rotate, rotate_matrix. fails_tac. Qed.

Lemma fails_safe_CascadedCoords_rotate (n : oid) (theta : R) (axis : axis_arg)
    (wrt : wrt_arg) (skip : bool) :
  fails_safe (CascadedCoords_rotate fuel n theta axis wrt skip).
Proof.
  unfold CascadedCoords_rotate, rotate_matrix.
  change (CascadedCoords_newcoords fuel n) with (dyn_newcoords fuel (Obj (Node n))).
  fails_tac.
Qed.

Lemma fails_safe_rotate (self : cref) (theta : R) (axis : axis_arg) (wrt : wrt_arg)
    (skip : bool) :
  fails_safe (dyn_rotate fuel self theta axis wrt skip).
Proof.
  destruct self as [[p|n|n]|q]; cbn [dyn_rotate];
    auto using fails_safe_Coordinates_rotate, fails_safe_CascadedCoords_rotate.
Qed.

Lemma fails_safe_Coordinates_orient_with_matrix (self : cref) (m : mat3) (wrt : wrt_arg) :
  fails_safe (Coordinates_orient_with_matrix fuel self m wrt).
Proof. unfold Coordinates_orient_with_matrix. fails_tac. Qed.

Lemma fails_safe_CascadedCoords_orient_with_matrix (n : oid) (m : mat3) (wrt : wrt_arg) :
  fails_safe (CascadedCoords_orient_with_matrix fuel n m wrt).
Proof.
  unfold CascadedCoords_orient_with_matrix.
  change (CascadedCoords_newcoords fuel n) with (dyn_newcoords fuel (Obj (Node n))).
  fails_tac.
Qed.

Lemma fails_safe_CascadedCoords_transform (n : oid) (c : cref) (wrt : wrt_arg)
    (out : out_arg) :
  fails_safe (CascadedCoords_transform fuel n c wrt out).
Proof. unfold CascadedCoords_transform. fails_tac. Qed.

Lemma fails_safe_transform (self c : cref) (wrt : wrt_arg) (out : out_arg) :
  fails_safe (dyn_transform fuel self c wrt out).
Proof.
  destruct self as [[p|n|n]|q]; cbn [dyn_transform];
    auto using fails_safe_Coordinates_transform, fails_safe_CascadedCoords_transform.
Qed.

Lemma fails_safe_assoc (self : oid) (child : ref) (rel : rel_arg) (force : bool) :
  fails_safe (CascadedCoords_assoc fuel self child rel force).
Proof. unfold CascadedCoords_assoc. fails_tac. Qed.

Lemma never_raises_dissoc (self : oid) (child : ref) :
  never_raises (CascadedCoords_dissoc fuel self child).
Proof. unfold CascadedCoords_dissoc. never_tac. Qed.

Lemma reads_only_lerp (c1 c2 : cref) (t : R) :
  reads_only is_tmp (lerp_coordinates fuel c1 c2 t).
Proof. unfold lerp_coordinates. reads_tac. Qed.

Lemma reads_only_slerp (c1 c2 : cref) (t : R) :
  reads_only is_tmp (slerp_coordinates fuel c1 c2 t).
Proof. unfold slerp_coordinates. reads_tac. Qed.

End Operations.

(** *** [newcoords] with validation *)

Lemma cache_equiv_with_node_both (n : oid) (f : cascaded -> cascaded) (s s' : store) :
  (forall k k', strip k = strip k' -> strip (f k) = strip (f k')) ->
  cache_equiv s s' -> cache_equiv (with_node n f s) (with_node n f s').
Proof.
  intros Hf [Hp Hn]. split; [exact Hp|]. unfold with_node; simpl.
  apply map_eq. intros i. rewrite !lookup_fmap.
  pose proof (f_equal (fun m => m !! i) Hn) as Hi. simpl in Hi.
  rewrite !lookup_fmap in Hi.
  destruct (decide (n = i)) as [->|Hne].
  - rewrite !lookup_alter_eq.
    destruct (nodes s !! i) as [k|], (nodes s' !! i) as [k'|]; simpl in *;
      try discriminate; [|reflexivity].
    f_equal. apply Hf. congruence.
  - rewrite !lookup_alter_ne by exact Hne. exact Hi.
Qed.

Lemma cache_equiv_put_rotation (c : cref) (m : mat3) (s s' : store) :
  cache_equiv s s' -> cache_equiv (put_rotation c m s) (put_rotation c m s').
Proof.
  intros He. destruct c as [[p|n|n]|q]; unfold put_rotation; cbn.
  - destruct He as [Hp Hn]. split; [|exact Hn]. simpl. rewrite Hp. reflexivity.
  - apply cache_equiv_with_node_both; [|exact He].
    intros [] []; unfold strip; simpl. congruence.
  - apply cache_equiv_with_node_both; [|exact He].
    intros [] []; unfold strip; simpl. congruence.
  - exact He.
Qed.

Section Validating.

Context `{MathPrims}.

Lemma rotation_apart_after (self : cref) (s s1 s' : store) :
  cache_equiv s s1 -> rotation_apart self s1 s' -> rotation_apart self s s'.
Proof.
  intros He [H1|(m & Hv & H1)].
  - left. etransitivity; eassumption.
  - right. exists m. split; [exact Hv|].
    etransitivity; [apply cache_equiv_put_rotation, He|exact H1].
Qed.

Lemma but_rotation_bind_reads {A B} (self : cref) (P : A -> Prop) (m : M A)
    (k : A -> M B) :
  reads_only P m -> (forall a, P a -> fails_safe_but_rotation self (k a)) ->
  fails_safe_but_rotation self (bind m k).
Proof.
  intros Hm Hk s. apply wp_bind. eapply wp_mono; [apply Hm| |].
  - intros a s1 [He Ha]. eapply wp_mono; [apply (Hk a Ha)|auto|].
    intros e s2 H2. eapply rotation_apart_after; eassumption.
  - intros e s1 He. left. exact He.
Qed.

Lemma but_rotation_bind_never {A B} (self : cref) (m : M A) (k : A -> M B) :
  fails_safe_but_rotation self m -> (forall a, never_raises (k a)) ->
  fails_safe_but_rotation self (bind m k).
Proof.
  intros Hm Hk s. apply wp_bind. eapply wp_mono; [apply Hm| |auto].
  intros a s1 _. eapply wp_mono; [apply (Hk a)|auto|intros ? ? []].
Qed.

Lemma fails_safe_but_rotation_weaken {A} (self : cref) (m : M A) :
  fails_safe m -> fails_safe_but_rotation self m.
Proof. intros Hm s. eapply wp_mono; [apply Hm|auto|]. intros e s' He. left. exact He. Qed.

(** [self.rotation = rot] and then a step that may raise: the rotation is
    committed by then. *)
Lemma but_rotation_after_setter {B} (self : cref) (rot : rot_input) (k : cref -> M B) :
  (forall a, fails_safe (k a)) ->
  fails_safe_but_rotation self (bind (Coordinates_rotation_setter self rot) k).
Proof.
  intros Hk s. unfold Coordinates_rotation_setter.
  assert (Hset : forall m,
    wp (bind (if check_valid_rotation m then store_rotation self m
              else raise ValueError) k) s
      (fun _ _ => True) (fun _ s' => rotation_apart self s s')).
  { intros m. destruct (check_valid_rotation m) eqn:Hv.
    - apply wp_bind.
      assert (E : exists o, store_rotation self m s = Ok o (put_rotation self m s)).
      { unfold put_rotation. destruct self as [[p|n|n]|q]; cbn; eauto. }
      destruct E as [o E]. eapply wp_of_eq; [exact E|].
      eapply wp_mono; [apply (Hk o)|auto|].
      intros e s' He. right. exists m. split; [exact Hv|exact He].
    - apply wp_bind, wp_raise. left. reflexivity. }
  destruct rot as [m|q|v|].
  - apply Hset.
  - unfold bind at 2. destruct (Rlt_b 1e-3 (Rabs (qnorm q - 1))).
    + unfold wp, bind, raise. left. reflexivity.
    + apply Hset.
  - apply Hset.
  - unfold wp, bind, ret, raise. left. reflexivity.
Qed.

Ltac apart_tac :=
  repeat effects_split;
  lazymatch goal with
  | |- fails_safe_but_rotation ?self (bind (Coordinates_rotation_setter ?self _) _) =>
      apply but_rotation_after_setter; intros; solve [fails_tac]
  | |- fails_safe_but_rotation ?self (bind _ _) =>
      first
        [ apply (but_rotation_bind_reads self is_tmp);
            [solve [reads_tac] | intros; solve [apart_tac] ]
        | apply (but_rotation_bind_reads self (fun _ => True));
            [solve [reads_tac] | intros; solve [apart_tac] ]
        | apply but_rotation_bind_never; [solve [apart_tac] | intros; solve [never_tac] ] ]
  | |- fails_safe_but_rotation _ (match ?x with _ => _ end) => destruct x; apart_tac
  | |- fails_safe_but_rotation _ _ =>
      first [ solve [eauto 2 with effects]
            | apply fails_safe_but_rotation_weaken; solve [fails_tac] ]
  end.

Lemma but_rotation_Coordinates_newcoords (self : cref) (c : newcoords_arg) (rel : rel_arg) :
  fails_safe_but_rotation self (Coordinates_newcoords self c true rel).
Proof. unfold Coordinates_newcoords. apart_tac. Qed.

#[local] Hint Resolve but_rotation_Coordinates_newcoords : effects.

Lemma but_rotation_CascadedCoords_newcoords (fuel : nat) (n : oid) (c : newcoords_arg)
    (rel : rel_arg) :
  fails_safe_but_rotation (Obj (Node n)) (CascadedCoords_newcoords fuel n c true rel).
Proof. unfold CascadedCoords_newcoords. apart_tac. Qed.

Lemma but_rotation_newcoords (fuel : nat) (self : cref) (c : newcoords_arg)
    (rel : rel_arg) :
  fails_safe_but_rotation self (dyn_newcoords fuel self c true rel).
Proof.
  destruct self as [[p|n|n]|q]; cbn [dyn_newcoords];
    auto using but_rotation_CascadedCoords_newcoords, but_rotation_Coordinates_newcoords.
Qed.

End Validating.

(** [newcoords(rot, pos)] with the defaults [check_validity=True] and
    [relative_coords='local']: the two validating assignments in turn. *)
Lemma Coordinates_newcoords_validated `{MathPrims} (self : cref) (rot : rot_input)
    (pos : pos_input) (s : store) :
  Coordinates_newcoords self (NcArrays rot pos) true (RelStr "local") s
  = (let* self := Coordinates_rotation_setter self rot in
     Coordinates_translation_setter self pos) s.
Proof. reflexivity. Qed.

(** C6 (amended): when one of these operations raises, rotation,
    translation, name, parent link and descendant registry of the receiver
    and of every other object are as before the call; only cached world
    poses and dirty flags may have been refreshed by the world-pose reads
    made before the failure.  [newcoords] with [check_validity=True] is
    apart: when it raises, the same holds but for the rotation of the
    receiver, which is as before or is the new, validated rotation. *)
Theorem raise_leaves_poses_and_links `{MathPrims} (fuel : nat) :
  (forall c1 c2 out, fails_safe (transform_coords c1 c2 out)) /\
  (forall self rot, fails_safe (Coordinates_rotation_setter self rot)) /\
  (forall self pos, fails_safe (Coordinates_translation_setter self pos)) /\
  (forall self x, fails_safe (Coordinates_name_setter self x)) /\
  (forall n c, fails_safe (CascadedCoords_parent_setter n c)) /\
  (forall self c2 wrt, fails_safe (Coordinates_transformation fuel self c2 wrt)) /\
  (forall self c wrt out, fails_safe (dyn_transform fuel self c wrt out)) /\
  (forall self v wrt, fails_safe (Coordinates_translate fuel self v wrt)) /\
  (forall self m wrt, fails_safe (dyn_rotate_with_matrix fuel self m wrt)) /\
  (forall self theta axis wrt skip,
     fails_safe (Coordinates_rotate fuel self theta axis wrt skip)) /\
  (forall self theta axis wrt skip,
     fails_safe (dyn_rotate fuel self theta axis wrt skip)) /\
  (forall self m wrt, fails_safe (Coordinates_orient_with_matrix fuel self m wrt)) /\
  (forall n m wrt, fails_safe (CascadedCoords_orient_with_matrix fuel n m wrt)) /\
  (forall self c rel, fails_safe (dyn_newcoords fuel self c false rel)) /\
  (forall n child rel force, fails_safe (CascadedCoords_assoc fuel n child rel force)) /\
  (forall n child, fails_safe (CascadedCoords_dissoc fuel n child)) /\
  (forall c1 c2 t, fails_safe (lerp_coordinates fuel c1 c2 t)) /\
  (forall c1 c2 t, fails_safe (slerp_coordinates fuel c1 c2 t)) /\
  (forall self c rel,
     fails_safe_but_rotation self (dyn_newcoords fuel self c true rel)).
Proof.
  repeat split; intros.
  - apply fails_safe_transform_coords.
  - apply fails_safe_rotation_setter.
  - apply fails_safe_translation_setter.
  - apply fails_safe_name_setter.
  - apply fails_safe_parent_setter.
  - apply (reads_fails_safe is_tmp), reads_only_transformation.
  - apply fails_safe_transform.
  - apply fails_safe_translate.
  - apply fails_safe_rotate_with_matrix.
  - apply fails_safe_Coordinates_rotate.
  - apply fails_safe_rotate.
  - apply fails_safe_Coordinates_orient_with_matrix.
  - apply fails_safe_CascadedCoords_orient_with_matrix.
  - apply fails_safe_newcoords.
  - apply fails_safe_assoc.
  - apply never_fails_safe, never_raises_dissoc.
  - apply (reads_fails_safe is_tmp), reads_only_lerp.
  - apply (reads_fails_safe is_tmp), reads_only_slerp.
  - apply but_rotation_newcoords.
Qed.

(** Such a raise: [translate] with a [wrt] that is not supported. *)
Example translate_unsupported_wrt (v : vec3) :
  Coordinates_translate (H := spec_prims) 10 (Obj (Plain 1%positive)) v (WStr "bogus")
    two_plains = Raise ValueError two_plains.
Proof. reflexivity. Qed.

(** C6, as stated, fails.  [c.newcoords(Rz90, pos)] with a [pos] that is
    not a translation raises after it has assigned the rotation: the plain
    [Coordinates] 2 of [two_plains], turned about x, is left turned about
    z.  And [P.transformation(c, wrt)] with a [wrt] that is not supported
    raises after [P.worldcoords()] has cleared the dirty flag of [P]. *)
Lemma raise_after_partial_write :
  (exists s',
     Coordinates_newcoords (H := spec_prims) (Obj (Plain 2%positive))
       (NcArrays (RotMat Rz90) PosOther) true (RelStr "local") two_plains
       = Raise ValueError s' /\
     _rotation two_plains (Obj (Plain 2%positive)) = Rx90 /\
     _rotation s' (Obj (Plain 2%positive)) = Rz90 /\
     Rz90 <> Rx90) /\
  (exists s',
     Coordinates_transformation 10 (Obj (Node 2%positive)) (Obj (Plain 1%positive))
       (WStr "bogus") apart = Raise ValueError s' /\
     dirty apart 2%positive /\ clean s' 2%positive).
Proof.
  split.
  - eexists. split; [|split; [|split]].
    + rewrite Coordinates_newcoords_validated.
      unfold Coordinates_rotation_setter, Coordinates_translation_setter, bind, ret.
      change (check_valid_rotation (MathPrims := spec_prims) Rz90)
        with (spec_check_valid_rotation Rz90).
      rewrite Rz90_valid. cbn. reflexivity.
    + reflexivity.
    + vm_compute. reflexivity.
    + unfold Rx90, Rz90. intros E. injection E. intros. lra.
  - eexists. split; [vm_compute; reflexivity|].
    split; vm_compute; reflexivity.
Qed.

(** * More of the module *)

(** ** [class Transform] as a group acting on vectors *)

(** X1: the product of two [Transform]s acts on a vector as the first
    operand and then the second, and the product is associative. *)
Theorem Transform_mul_acts_in_turn (t12 t23 t34 : Transform.t) (v : vec3) :
  Transform.transform_vector (Transform.__mul__ t12 t23) v
    = Transform.transform_vector t23 (Transform.transform_vector t12 v) /\
  Transform.rotate_vector (Transform.__mul__ t12 t23) v
    = Transform.rotate_vector t23 (Transform.rotate_vector t12 v) /\
  Transform.__mul__ (Transform.__mul__ t12 t23) t34
    = Transform.__mul__ t12 (Transform.__mul__ t23 t34) /\
  Transform.__rmul__ t23 t12 = Transform.__mul__ t12 t23.
Proof.
  destruct t12 as [a ra], t23 as [b rb], t34 as [c rc].
  unfold Transform.transform_vector, Transform.rotate_vector, Transform.__mul__,
    Transform.__rmul__; simpl.
  split; [|split; [|split]].
  - array_eq.
  - apply dot_matmul.
  - f_equal; [array_eq|symmetry; apply matmul_assoc].
  - reflexivity.
Qed.

(** X2: for an orthonormal rotation, [inverse_transformation] undoes the
    transform on vectors in both orders, composes with it to the identity
    in both orders, and is an involution. *)
Theorem Transform_inverse_undoes (t : Transform.t) (v : vec3) :
  orthonormal (Transform.rotation t) ->
  let ti := Transform.inverse_transformation t in
  Transform.transform_vector ti (Transform.transform_vector t v) = v /\
  Transform.transform_vector t (Transform.transform_vector ti v) = v /\
  Transform.__mul__ t ti = Transform.make zeros3 eye3 /\
  Transform.__mul__ ti t = Transform.make zeros3 eye3 /\
  Transform.inverse_transformation ti = t.
Proof.
  intros Ho. pose proof (orthonormal_transpose _ Ho) as Ho'. unfold orthonormal in Ho.
  destruct t as [a r]. cbn [Transform.rotation] in *.
  cbv zeta.
  unfold Transform.transform_vector, Transform.inverse_transformation, Transform.__mul__.
  cbn [Transform.rotation Transform.translation].
  assert (H1 : forall x, dot (transpose r) (dot r x) = x).
  { intros x. rewrite <- dot_matmul, Ho'. apply dot_eye. }
  assert (H2 : forall x, dot r (dot (transpose r) x) = x).
  { intros x. rewrite <- dot_matmul, Ho. apply dot_eye. }
  assert (Hn : forall m x, dot m (vneg x) = vneg (dot m x)).
  { intros m x. rewrite <- !vscale_m1. apply dot_vscale. }
  split; [|split; [|split; [|split]]].
  - rewrite dot_vadd, H1, vadd_assoc, vadd_vneg_r. apply vadd_zeros_r.
  - rewrite dot_vadd, H2, Hn, H2, vadd_assoc, vadd_vneg_l. apply vadd_zeros_r.
  - f_equal; [|exact Ho']. apply vadd_vneg_l.
  - f_equal; [|exact Ho]. rewrite Hn, H2. apply vadd_vneg_r.
  - rewrite transpose_transpose. f_equal. rewrite Hn, H2.
    destruct a. unfold vneg; simpl. f_equal; ring.
Qed.

Lemma Transform_inverse_undoes_witness :
  let t := Transform.make (V3 1 2 3) Rz90 in
  let ti := Transform.inverse_transformation t in
  Transform.transform_vector ti (Transform.transform_vector t (V3 4 5 6)) = V3 4 5 6 /\
  Transform.transform_vector t (Transform.transform_vector ti (V3 4 5 6)) = V3 4 5 6 /\
  Transform.__mul__ t ti = Transform.make zeros3 eye3 /\
  Transform.__mul__ ti t = Transform.make zeros3 eye3 /\
  Transform.inverse_transformation ti = t.
Proof.
  apply (Transform_inverse_undoes (Transform.make (V3 1 2 3) Rz90) (V3 4 5 6)).
  unfold orthonormal, Rz90; simpl.
  cbv [matmul vdot inner transpose col0 col1 col2 eye3 row0 row1 row2 vx vy vz].
  f_equal; f_equal; lra.
Defined.

(** ** Vectors through a frame *)

Lemma vdot_transpose (v : vec3) (m : mat3) : vdot v m = dot (transpose m) v.
Proof. array_eq. Qed.

Lemma dot_vsub (a : mat3) (u v : vec3) : dot a (vsub u v) = vsub (dot a u) (dot a v).
Proof. array_eq. Qed.

Lemma vsub_vadd_cancel (u v : vec3) : vsub (vadd u v) v = u.
Proof. array_eq. Qed.

Lemma vadd_vsub_cancel (u v : vec3) : vadd (vsub u v) v = u.
Proof. array_eq. Qed.

(** The vector maps of a frame and their inverses. *)
Lemma vector_round_trips (s : store) (c : cref) (v : vec3) :
  orthonormal (_rotation s c) ->
  Coordinates_inverse_transform_vector s c (Coordinates_transform_vector s c v) = v /\
  Coordinates_transform_vector s c (Coordinates_inverse_transform_vector s c v) = v /\
  Coordinates_inverse_rotate_vector s c (Coordinates_rotate_vector s c v) = v /\
  Coordinates_rotate_vector s c (Coordinates_inverse_rotate_vector s c v) = v.
Proof.
  intros Ho. pose proof (orthonormal_transpose _ Ho) as Ho'. unfold orthonormal in Ho.
  unfold Coordinates_inverse_transform_vector, Coordinates_transform_vector,
    Coordinates_inverse_rotate_vector, Coordinates_rotate_vector.
  set (r := _rotation s c) in *. set (t := _translation s c).
  assert (H1 : forall x, dot (transpose r) (dot r x) = x).
  { intros x. rewrite <- dot_matmul, Ho'. apply dot_eye. }
  assert (H2 : forall x, dot r (dot (transpose r) x) = x).
  { intros x. rewrite <- dot_matmul, Ho. apply dot_eye. }
  split; [|split; [|split]].
  - rewrite dot_vadd, H1. apply vsub_vadd_cancel.
  - rewrite dot_vsub, !H2. apply vadd_vsub_cancel.
  - rewrite vdot_transpose. apply H1.
  - rewrite vdot_transpose. apply H2.
Qed.

(** X3: on a frame with an orthonormal rotation, [inverse_transform_vector]
    and [transform_vector] undo each other, and so do
    [inverse_rotate_vector] and [rotate_vector]. *)
Theorem vector_maps_round_trip (s : store) (c : cref) (v : vec3) :
  orthonormal (_rotation s c) ->
  Coordinates_inverse_transform_vector s c (Coordinates_transform_vector s c v) = v /\
  Coordinates_transform_vector s c (Coordinates_inverse_transform_vector s c v) = v /\
  Coordinates_inverse_rotate_vector s c (Coordinates_rotate_vector s c v) = v /\
  Coordinates_rotate_vector s c (Coordinates_inverse_rotate_vector s c v) = v.
Proof.
  intros Ho. pose proof (orthonormal_transpose _ Ho) as Ho'. unfold orthonormal in Ho.
  unfold Coordinates_inverse_transform_vector, Coordinates_transform_vector,
    Coordinates_inverse_rotate_vector, Coordinates_rotate_vector.
  set (r := _rotation s c) in *. set (t := _translation s c).
  assert (H1 : forall x, dot (transpose r) (dot r x) = x).
  { intros x. rewrite <- dot_matmul, Ho'. apply dot_eye. }
  assert (H2 : forall x, dot r (dot (transpose r) x) = x).
  { intros x. rewrite <- dot_matmul, Ho. apply dot_eye. }
  split; [|split; [|split]].
  - rewrite dot_vadd, H1. apply vsub_vadd_cancel.
  - rewrite dot_vsub, !H2. apply vadd_vsub_cancel.
  - rewrite vdot_transpose. apply H1.
  - rewrite vdot_transpose. apply H2.
Qed.

Lemma Rz90_orthonormal : orthonormal Rz90.
Proof.
  unfold orthonormal, Rz90.
  cbv [matmul vdot inner transpose col0 col1 col2 eye3 row0 row1 row2 vx vy vz].
  f_equal; f_equal; lra.
Qed.

Lemma Rx90_orthonormal : orthonormal Rx90.
Proof.
  unfold orthonormal, Rx90.
  cbv [matmul vdot inner transpose col0 col1 col2 eye3 row0 row1 row2 vx vy vz].
  f_equal; f_equal; lra.
Qed.

Lemma vector_maps_round_trip_witness :
  let c := Obj (Plain 1%positive) in
  let v := V3 4 5 6 in
  Coordinates_inverse_transform_vector two_plains c
    (Coordinates_transform_vector two_plains c v) = v /\
  Coordinates_transform_vector two_plains c
    (Coordinates_inverse_transform_vector two_plains c v) = v /\
  Coordinates_inverse_rotate_vector two_plains c
    (Coordinates_rotate_vector two_plains c v) = v /\
  Coordinates_rotate_vector two_plains c
    (Coordinates_inverse_rotate_vector two_plains c v) = v.
Proof.
  apply (vector_maps_round_trip two_plains (Obj (Plain 1%positive)) (V3 4 5 6)).
  exact Rz90_orthonormal.
Defined.

(** X4: the product [c1 * c2] maps a vector as [c2] and then [c1], and the
    call leaves the store as it is. *)
Theorem transform_vector_of_product (s : store) (c1 c2 : cref) (v : vec3) :
  exists c3,
    Coordinates___mul__ c1 c2 s = Ok c3 s /\
    Coordinates_transform_vector s c3 v
      = Coordinates_transform_vector s c1 (Coordinates_transform_vector s c2 v) /\
    Coordinates_rotate_vector s c3 v
      = Coordinates_rotate_vector s c1 (Coordinates_rotate_vector s c2 v).
Proof.
  unfold Coordinates___mul__. rewrite transform_coords_fresh.
  eexists. split; [reflexivity|].
  unfold Coordinates_transform_vector, Coordinates_rotate_vector, compose_pose, pose_of.
  cbn [_rotation _translation p_rotation p_translation].
  set (r1 := _rotation s c1). set (r2 := _rotation s c2).
  set (t1 := _translation s c1). set (t2 := _translation s c2).
  split; [array_eq|apply dot_matmul].
Qed.

(** ** Inversion into an object, and the relative transform *)

Lemma store_rotation_keeps_translation (o : cref) (m : mat3) (s : store) :
  exists o' s', store_rotation o m s = Ok o' s' /\
    forall c, _translation s' c = _translation s c.
Proof.
  destruct o as [[p|n|n]|q]; cbn; eexists _, _; (split; [reflexivity|]); intros c.
  - apply translation_with_plain_rotation.
  - apply translation_with_node_rotation.
  - apply translation_with_world_rotation.
  - reflexivity.
Qed.

(** [self.inverse_transformation(dest)]: the pose written into [dest], also
    when [dest] is [self]. *)
Lemma inverse_transformation_written (c d : cref) (s : store) :
  has s d ->
  exists d' s',
    Coordinates_inverse_transformation c (Some d) s = Ok d' s' /\
    pose_written d d' s s' /\
    pose_of s' d' = inverse_pose (pose_of s c).
Proof.
  intros Hd. unfold Coordinates_inverse_transformation.
  set (rt := transpose (_rotation s c)).
  destruct (store_rotation_written d rt s) as (d1 & s1 & E1 & W1 & _ & Hr1).
  destruct (store_rotation_keeps_translation d rt s) as (d1' & s1' & E1' & Ht1).
  rewrite E1 in E1'. injection E1' as <- <-.
  assert (Hd1 : has s1 d1).
  { destruct W1 as (Ht & _ & Hoo). destruct d as [r|q].
    - subst d1. apply Ht, Hd.
    - destruct Hoo as [_ [q' ->]]. exact I. }
  set (t := dot (_rotation s1 d1) (_translation s1 c)).
  destruct (store_translation_written d1 t s1) as (d2 & s2 & E2 & W2 & Hr2 & Ht2).
  assert (Hd2 : has s2 d2).
  { destruct W2 as (Ht & _ & Hoo). destruct d1 as [r|q].
    - subst d2. apply Ht, Hd1.
    - destruct Hoo as [_ [q' ->]]. exact I. }
  destruct (store_translation_written d2 (vscale (-1) (_translation s2 d2)) s2)
    as (d3 & s3 & E3 & W3 & Hr3 & Ht3).
  exists d3, s3. split; [|split].
  - subst rt t. cbv [bind read]. rewrite E1. cbv beta iota. rewrite E2. cbv beta iota. rewrite E3. reflexivity.
  - eapply pose_written_trans; [|exact W3]. eapply pose_written_trans; eassumption.
  - unfold pose_of, inverse_pose; simpl.
    rewrite (Ht3 Hd2), Hr3, Hr2, (Ht2 Hd1), (Hr1 Hd). unfold t.
    rewrite (Hr1 Hd), Ht1. reflexivity.
Qed.

Lemma inverse_pose_involutive (a : pose) :
  orthonormal (p_rotation a) -> inverse_pose (inverse_pose a) = a.
Proof.
  intros Ho. unfold orthonormal in Ho. destruct a as [r t].
  unfold inverse_pose; simpl in *. rewrite transpose_transpose. f_equal.
  rewrite dot_vscale, <- dot_matmul, Ho, dot_eye.
  destruct t. unfold vscale; simpl. f_equal; ring.
Qed.

(** X5: [c.inverse_transformation(c)], the inversion of a stored object
    into itself, leaves in [c] the inverse of the pose it had, touches no
    other object, and for an orthonormal rotation a second such call
    restores the pose. *)
Theorem inverse_transformation_in_place (s : store) (r : ref) :
  has s (Obj r) ->
  exists s1,
    Coordinates_inverse_transformation (Obj r) (Some (Obj r)) s = Ok (Obj r) s1 /\
    pose_of s1 (Obj r) = inverse_pose (pose_of s (Obj r)) /\
    (forall c, c <> Obj r -> keeps c s s1) /\
    (orthonormal (_rotation s (Obj r)) ->
     exists s2,
       Coordinates_inverse_transformation (Obj r) (Some (Obj r)) s1 = Ok (Obj r) s2 /\
       pose_of s2 (Obj r) = pose_of s (Obj r)).
Proof.
  intros Hh.
  destruct (inverse_transformation_written (Obj r) (Obj r) s Hh)
    as (d1 & s1 & E1 & (Ht1 & Hk1 & ->) & Hv1).
  exists s1. split; [exact E1|]. split; [exact Hv1|]. split; [exact Hk1|].
  intros Ho.
  assert (Hh1 : has s1 (Obj r)) by (apply Ht1, Hh).
  destruct (inverse_transformation_written (Obj r) (Obj r) s1 Hh1)
    as (d2 & s2 & E2 & (_ & _ & ->) & Hv2).
  exists s2. split; [exact E2|].
  rewrite Hv2, Hv1. apply inverse_pose_involutive. exact Ho.
Qed.

Lemma inverse_transformation_in_place_witness :
  exists s1 s2,
    Coordinates_inverse_transformation (Obj (Plain 1%positive))
      (Some (Obj (Plain 1%positive))) two_plains = Ok (Obj (Plain 1%positive)) s1 /\
    pose_of s1 (Obj (Plain 1%positive))
      = inverse_pose (pose_of two_plains (Obj (Plain 1%positive))) /\
    Coordinates_inverse_transformation (Obj (Plain 1%positive))
      (Some (Obj (Plain 1%positive))) s1 = Ok (Obj (Plain 1%positive)) s2 /\
    pose_of s2 (Obj (Plain 1%positive)) = pose_of two_plains (Obj (Plain 1%positive)).
Proof.
  assert (Hh : has two_plains (Obj (Plain 1%positive))) by (vm_compute; eauto).
  destruct (inverse_transformation_in_place two_plains (Plain 1%positive) Hh)
    as (s1 & E1 & Hv & _ & Hback).
  destruct (Hback Rz90_orthonormal) as (s2 & E2 & Hv2).
  exists s1, s2. auto.
Defined.

(** ** The relative transform *)

Lemma compose_cancel_inverse (a b : pose) :
  orthonormal (p_rotation a) ->
  compose_pose (compose_pose b (inverse_pose a)) a = b.
Proof.
  intros Ho. pose proof (orthonormal_transpose _ Ho) as Ho'.
  destruct a as [r t], b as [rb tb]. unfold compose_pose, inverse_pose; simpl in *.
  f_equal.
  - rewrite matmul_assoc, Ho'. apply matmul_eye_r.
  - rewrite dot_vscale, !dot_matmul.
    destruct tb, (dot rb (dot (transpose r) t)). unfold vadd, vscale; simpl. f_equal; ring.
Qed.

(** X6: [self.transformation(c2, wrt)] returns, for [wrt='local'], the pose
    that takes the world pose of [self] to the world pose of [c2] when
    composed on the right, and for [wrt='world'] the pose that does so when
    composed on the left; the call only brings the two caches up to date,
    so that reading either world pose afterwards changes nothing. *)
Theorem transformation_round_trip (fuel : nat) (self c2 : cref) (s : store) :
  enough fuel s -> has s self -> has s c2 ->
  exists (rl rw : pose) (s' : store),
    Coordinates_transformation fuel self c2 (WStr "local") s = Ok (Tmp rl) s' /\
    Coordinates_transformation fuel self c2 (WStr "world") s = Ok (Tmp rw) s' /\
    refreshed s s' /\
    dyn_worldcoords fuel self s' = Ok (world_of self) s' /\
    dyn_worldcoords fuel c2 s' = Ok (world_of c2) s' /\
    (orthonormal (_rotation s' (world_of self)) ->
       compose_pose (pose_of s' (world_of self)) rl = pose_of s' (world_of c2) /\
       compose_pose rw (pose_of s' (world_of self)) = pose_of s' (world_of c2)).
Proof.
  intros He Hh1 Hh2.
  destruct (worldcoords_enough fuel c2 s He) as (s1 & E1 & Hr1 & He1 & Hcl1).
  destruct (worldcoords_enough fuel self s1 He1) as (s2 & E2 & Hr2 & He2 & Hcl2).
  set (w1 := pose_of s2 (world_of self)). set (w2 := pose_of s2 (world_of c2)).
  exists (compose_pose (inverse_pose w1) w2), (compose_pose w2 (inverse_pose w1)), s2.
  assert (Hh1' : has s1 self).
  { apply (cache_equiv_has s s1 self); [apply Hr1|exact Hh1]. }
  split; [|split; [|split; [|split; [|split]]]].
  - unfold Coordinates_transformation. cbv [bind]. rewrite E1. cbv beta iota. rewrite E2.
    reflexivity.
  - unfold Coordinates_transformation. cbv [bind]. rewrite E1. cbv beta iota. rewrite E2.
    destruct self as [[p|n|n]|q]; reflexivity.
  - etransitivity; eassumption.
  - destruct self as [[p|n|n]|q]; try reflexivity;
      apply (worldcoords_clean fuel _ n s2 He2); try reflexivity;
      apply (Hcl2 n); try reflexivity; exact Hh1'.
  - destruct c2 as [[p|n|n]|q]; try reflexivity;
      apply (worldcoords_clean fuel _ n s2 He2); try reflexivity;
      unfold clean, _changed;
      rewrite (proj1 (proj2 Hr2) n) by (apply (Hcl1 n); [reflexivity|exact Hh2]);
      apply (Hcl1 n); try reflexivity; exact Hh2.
  - intros Ho. split.
    + apply compose_inverse_cancel. exact Ho.
    + apply compose_cancel_inverse. exact Ho.
Qed.

Lemma transformation_round_trip_witness :
  exists (rl rw : pose) (s' : store),
    Coordinates_transformation 10 (Obj (Node 3%positive)) (Obj (Plain 1%positive))
      (WStr "local") family = Ok (Tmp rl) s' /\
    Coordinates_transformation 10 (Obj (Node 3%positive)) (Obj (Plain 1%positive))
      (WStr "world") family = Ok (Tmp rw) s' /\
    compose_pose (pose_of s' (Obj (World 3%positive))) rl
      = pose_of s' (Obj (Plain 1%positive)) /\
    compose_pose rw (pose_of s' (Obj (World 3%positive)))
      = pose_of s' (Obj (Plain 1%positive)).
Proof.
  assert (He : enough 10 family) by apply family_tree_inv.
  assert (Hh1 : has family (Obj (Node 3%positive))) by (vm_compute; eauto).
  assert (Hh2 : has family (Obj (Plain 1%positive))) by (vm_compute; eauto).
  destruct (transformation_round_trip 10 (Obj (Node 3%positive)) (Obj (Plain 1%positive))
              family He Hh1 Hh2) as (rl & rw & s' & E1 & E2 & Hr & _ & _ & Hrt).
  exists rl, rw, s'. split; [exact E1|]. split; [exact E2|]. apply Hrt.
  cbn [world_of]. unfold _rotation.
  rewrite (proj1 (proj2 Hr) 3%positive) by reflexivity.
  unfold orthonormal.
  change (node family 3%positive) with C_node. cbn [C_node n_worldcoords c_rotation].
  array_eq.
Defined.

(** ** The world pose of a node after a write of its local pose *)

(** In a tree the fuel covers, no chain of registries leads from a node to
    its parent. *)
Lemma no_reach_parent (fuel : nat) (s : store) (n P : oid) :
  registry_consistent s -> enough fuel s ->
  parent s (Obj (Node n)) = Some (Node P) -> ~ reach s n P.
Proof.
  intros Hk He Hp Hr.
  assert (Hcyc : forall d x, reach s n x -> chain_ok d s (Node x) = false).
  { induction d as [|d IH]; intros x Hx; [reflexivity|]. simpl.
    destruct Hx as [|x0 x Hx0 Hin].
    - simpl in Hp. rewrite Hp. apply IH, Hr.
    - pose proof (Hk x0 x Hin) as Hpx. simpl in Hpx. rewrite Hpx. apply IH, Hx0. }
  pose proof (enough_chain_ok s fuel (Node n) He) as Ht.
  rewrite (Hcyc fuel n) in Ht by constructor. discriminate.
Qed.

(** [n.newcoords(q, check_validity=False, relative_coords='local')] on a
    child of a node [P] whose cache is up to date, then [n.worldcoords()]:
    the cache of [n] holds the world pose of [P] composed with [q]. *)
Lemma write_then_read `{MathPrims} (fuel : nat) (n P : oid) (q : pose) (s1 : store) :
  tree_inv fuel s1 -> has s1 (Obj (Node n)) ->
  parent s1 (Obj (Node n)) = Some (Node P) -> clean s1 P ->
  exists s' s'',
    CascadedCoords_newcoords fuel n (NcCoords (Tmp q)) false (RelStr "local") s1
      = Ok (Obj (Node n)) s' /\
    dyn_worldcoords fuel (Obj (Node n)) s' = Ok (Obj (World n)) s'' /\
    pose_of s' (Obj (Node n)) = q /\
    parent s' (Obj (Node n)) = Some (Node P) /\
    pose_of s'' (Obj (World n)) = compose_pose (pose_of s1 (Obj (World P))) q /\
    pose_of s'' (Obj (World P)) = pose_of s1 (Obj (World P)) /\
    (forall c, c <> Obj (Node n) -> pose_of s' c = pose_of s1 c).
Proof.
  intros (He & Hk & Hdc) Hh Hp HcP.
  destruct (newcoords_copy_node fuel n q s1 He Hh)
    as (s' & E & He' & Hh' & Hd' & Hv & Hlinks & Hoth & _ & _ & Hun).
  assert (Hp' : parent s' (Obj (Node n)) = Some (Node P)).
  { simpl. rewrite (proj1 (Hlinks n)). exact Hp. }
  destruct (twp_elim _ _ _ (worldcoords_recomputes fuel n s' He' Hh' Hd'))
    as (w & s'' & E2 & -> & Hcl & _ & Hpose).
  destruct (worldcoords_enough fuel (Obj (Node n)) s' He') as (s2 & E2' & Hr2 & _).
  rewrite E2 in E2'. injection E2' as <-.
  assert (HnP : node s'' P = node s1 P).
  { rewrite (proj1 (proj2 Hr2) P).
    - apply Hun. eapply no_reach_parent; eassumption.
    - unfold clean, _changed. rewrite Hun; [exact HcP|].
      eapply no_reach_parent; eassumption. }
  assert (HwP : pose_of s'' (Obj (World P)) = pose_of s1 (Obj (World P))).
  { unfold pose_of, _rotation, _translation. rewrite HnP. reflexivity. }
  exists s', s''. repeat split; try assumption.
  rewrite Hpose, Hp'. cbn [world_of]. rewrite HwP, Hv. reflexivity.
Qed.

(** ** [newcoords] with a target given in the world *)

Lemma CascadedCoords_newcoords_world_unfold `{MathPrims} (fuel : nat) (n P : oid)
    (c0 : pose) (s sp : store) :
  parent s (Obj (Node n)) = Some (Node P) ->
  dyn_worldcoords fuel (Obj (Node P)) s = Ok (Obj (World P)) sp ->
  CascadedCoords_newcoords fuel n (NcCoords (Tmp c0)) false (RelStr "world") s
  = CascadedCoords_newcoords fuel n
      (NcCoords (Tmp (compose_pose (inverse_pose (pose_of sp (Obj (World P)))) c0)))
      false (RelStr "local") sp.
Proof.
  intros Hp E. rewrite CascadedCoords_newcoords_copy.
  unfold CascadedCoords_newcoords. unfold bind at 1, read at 1. rewrite Hp.
  change (bool_decide (lower "world" = "world")) with true. cbv iota.
  unfold bind at 1. unfold bind at 1. rewrite E. reflexivity.
Qed.

(** X7: [n.newcoords(c, check_validity=False, relative_coords='world')] on
    a child [n] of [P] stores in [n] the pose [c] carried into the frame of
    [P], whose own world pose stays; when the world rotation of [P] is
    orthonormal, [n.worldcoords()] then is [c]. *)
Theorem newcoords_world_reaches_target `{MathPrims} (fuel : nat) (s : store)
    (n P : oid) (c : pose) :
  tree_inv fuel s -> has s (Obj (Node n)) -> has s (Obj (Node P)) ->
  parent s (Obj (Node n)) = Some (Node P) ->
  exists sp s' s'',
    dyn_worldcoords fuel (Obj (Node P)) s = Ok (Obj (World P)) sp /\
    CascadedCoords_newcoords fuel n (NcCoords (Tmp c)) false (RelStr "world") s
      = Ok (Obj (Node n)) s' /\
    dyn_worldcoords fuel (Obj (Node n)) s' = Ok (Obj (World n)) s'' /\
    parent s' (Obj (Node n)) = Some (Node P) /\
    pose_of s' (Obj (Node n))
      = compose_pose (inverse_pose (pose_of sp (Obj (World P)))) c /\
    pose_of s'' (Obj (World P)) = pose_of sp (Obj (World P)) /\
    (orthonormal (_rotation sp (Obj (World P))) -> pose_of s'' (Obj (World n)) = c).
Proof.
  intros Hi Hh HhP Hp.
  destruct (worldcoords_enough fuel (Obj (Node P)) s (proj1 Hi))
    as (sp & Ep & Hrp & Hep & Hclp).
  cbn [world_of] in Ep.
  assert (Hip : tree_inv fuel sp) by (eapply refreshed_inv; eassumption).
  assert (Hhp : has sp (Obj (Node n))).
  { apply (cache_equiv_has s sp (Obj (Node n))); [apply Hrp|exact Hh]. }
  assert (Hpp : parent sp (Obj (Node n)) = Some (Node P)).
  { rewrite <- (cache_equiv_parent s sp (Obj (Node n))) by (congruence || apply Hrp).
    exact Hp. }
  assert (HcP : clean sp P) by (apply (Hclp P); [reflexivity|exact HhP]).
  destruct (write_then_read fuel n P
              (compose_pose (inverse_pose (pose_of sp (Obj (World P)))) c) sp
              Hip Hhp Hpp HcP)
    as (s' & s'' & E1 & E2 & Hv & Hp' & Hw & HwP & _).
  exists sp, s', s''. split; [exact Ep|]. split.
  { rewrite (CascadedCoords_newcoords_world_unfold fuel n P c s sp Hp Ep). exact E1. }
  split; [exact E2|]. split; [exact Hp'|]. split; [exact Hv|]. split; [exact HwP|].
  intros Ho. rewrite Hw. apply compose_inverse_cancel. exact Ho.
Qed.

Lemma newcoords_world_reaches_target_witness :
  exists s' s'',
    CascadedCoords_newcoords (H := spec_prims) 10 3%positive
      (NcCoords (Tmp (Pose Rz90 (V3 4 5 6)))) false (RelStr "world") family
      = Ok (Obj (Node 3%positive)) s' /\
    dyn_worldcoords 10 (Obj (Node 3%positive)) s' = Ok (Obj (World 3%positive)) s'' /\
    pose_of s'' (Obj (World 3%positive)) = Pose Rz90 (V3 4 5 6).
Proof.
  assert (Hh : has family (Obj (Node 3%positive))) by (vm_compute; eauto).
  assert (HhP : has family (Obj (Node 2%positive))) by (vm_compute; eauto).
  destruct (newcoords_world_reaches_target (H := spec_prims) 10 family 3%positive
              2%positive (Pose Rz90 (V3 4 5 6)) family_tree_inv Hh HhP eq_refl)
    as (sp & s' & s'' & Ep & E1 & E2 & _ & _ & _ & Hw).
  exists s', s''. split; [exact E1|]. split; [exact E2|]. apply Hw.
  rewrite (worldcoords_clean 10 (Node 2%positive) 2%positive family
             (proj1 family_tree_inv) eq_refl eq_refl) in Ep.
  injection Ep as <-. exact Rx90_orthonormal.
Defined.

(** ** Mutations of a child given in the world *)

Lemma orient_world_unfold `{MathPrims} (fuel : nat) (n P : oid) (m : mat3)
    (s sp : store) :
  parent s (Obj (Node n)) = Some (Node P) ->
  dyn_worldcoords fuel (Obj (Node P)) s = Ok (Obj (World P)) sp ->
  check_valid_rotation m = true ->
  CascadedCoords_orient_with_matrix fuel n m (WStr "world") s
  = CascadedCoords_newcoords fuel n
      (NcCoords (Tmp (Pose (matmul (transpose (_rotation sp (Obj (World P)))) m)
                           (_translation sp (Obj (Node n))))))
      false (RelStr "local") sp.
Proof.
  intros Hp E Hv. rewrite CascadedCoords_newcoords_copy.
  unfold CascadedCoords_orient_with_matrix. unfold bind at 1, read at 1.
  rewrite Hv. cbn [negb wrt_is wrt_is_obj wrt_is_parent orb].
  rewrite !bool_decide_eq_false_2 by discriminate. cbn [orb].
  rewrite bool_decide_eq_true_2 by reflexivity.
  unfold CascadedCoords_parentcoords.
  unfold bind at 1. unfold bind at 1. unfold bind at 1. unfold read at 1. rewrite Hp, E.
  unfold read at 1. unfold bind at 1, read at 1.
  rewrite CascadedCoords_newcoords_local. reflexivity.
Qed.

(** The first step of every mutation given in the world: the world pose of
    the parent is brought up to date. *)
Lemma parent_refreshed (fuel : nat) (s : store) (n P : oid) :
  tree_inv fuel s -> has s (Obj (Node n)) -> has s (Obj (Node P)) ->
  parent s (Obj (Node n)) = Some (Node P) ->
  exists sp,
    dyn_worldcoords fuel (Obj (Node P)) s = Ok (Obj (World P)) sp /\
    tree_inv fuel sp /\ has sp (Obj (Node n)) /\
    parent sp (Obj (Node n)) = Some (Node P) /\ clean sp P /\
    pose_of sp (Obj (Node n)) = pose_of s (Obj (Node n)).
Proof.
  intros Hi Hh HhP Hp.
  destruct (worldcoords_enough fuel (Obj (Node P)) s (proj1 Hi))
    as (sp & Ep & Hrp & Hep & Hclp).
  cbn [world_of] in Ep. exists sp. split; [exact Ep|].
  split; [eapply refreshed_inv; eassumption|].
  split; [apply (cache_equiv_has s sp (Obj (Node n))); [apply Hrp|exact Hh]|].
  split.
  { rewrite <- (cache_equiv_parent s sp (Obj (Node n))) by (congruence || apply Hrp).
    exact Hp. }
  split; [apply (Hclp P); [reflexivity|exact HhP]|].
  unfold pose_of.
  rewrite <- (cache_equiv_rotation s sp (Obj (Node n))) by (congruence || apply Hrp).
  rewrite <- (cache_equiv_translation s sp (Obj (Node n))) by (congruence || apply Hrp).
  reflexivity.
Qed.

(** X8: [n.orient_with_matrix(m, wrt='world')] on a child [n] of [P], for
    a matrix [m] that [_check_valid_rotation] accepts: when the world
    rotation of [P] is orthonormal, the world rotation of [n] becomes [m]
    and its world position stays where the parent's world pose puts its
    local translation; a matrix that is rejected raises [ValueError] and
    leaves the store as it was. *)
Theorem orient_world_sets_world_rotation `{MathPrims} (fuel : nat) (s : store)
    (n P : oid) (m : mat3) :
  tree_inv fuel s -> has s (Obj (Node n)) -> has s (Obj (Node P)) ->
  parent s (Obj (Node n)) = Some (Node P) ->
  (check_valid_rotation m = false ->
   CascadedCoords_orient_with_matrix fuel n m (WStr "world") s = Raise ValueError s) /\
  (check_valid_rotation m = true ->
   exists sp s' s'',
     dyn_worldcoords fuel (Obj (Node P)) s = Ok (Obj (World P)) sp /\
     CascadedCoords_orient_with_matrix fuel n m (WStr "world") s
       = Ok (Obj (Node n)) s' /\
     dyn_worldcoords fuel (Obj (Node n)) s' = Ok (Obj (World n)) s'' /\
     (orthonormal (_rotation sp (Obj (World P))) ->
      _rotation s'' (Obj (World n)) = m /\
      _translation s'' (Obj (World n))
        = Coordinates_transform_vector sp (Obj (World P))
            (_translation s (Obj (Node n))))).
Proof.
  intros Hi Hh HhP Hp. split.
  - intros Hv. unfold CascadedCoords_orient_with_matrix, bind, read. rewrite Hv.
    reflexivity.
  - intros Hv.
    destruct (parent_refreshed fuel s n P Hi Hh HhP Hp)
      as (sp & Ep & Hip & Hhp & Hpp & HcP & Hloc).
    destruct (write_then_read fuel n P
                (Pose (matmul (transpose (_rotation sp (Obj (World P)))) m)
                      (_translation sp (Obj (Node n)))) sp Hip Hhp Hpp HcP)
      as (s' & s'' & E1 & E2 & _ & _ & Hw & _ & _).
    exists sp, s', s''. split; [exact Ep|]. split.
    { rewrite (orient_world_unfold fuel n P m s sp Hp Ep Hv). exact E1. }
    split; [exact E2|]. intros Ho.
    pose proof (f_equal p_rotation Hw) as Hwr.
    pose proof (f_equal p_translation Hw) as Hwt.
    pose proof (f_equal p_translation Hloc) as Hlt.
    cbn [pose_of compose_pose p_rotation p_translation] in Hwr, Hwt, Hlt.
    rewrite Hwr, Hwt, Hlt. split.
    + rewrite <- matmul_assoc. unfold orthonormal in Ho. rewrite Ho. apply matmul_eye_l.
    + unfold Coordinates_transform_vector. array_eq.
Qed.

Lemma family_parent_read :
  dyn_worldcoords 10 (Obj (Node 2%positive)) family = Ok (Obj (World 2%positive)) family.
Proof.
  exact (worldcoords_clean 10 (Node 2%positive) 2%positive family
           (proj1 family_tree_inv) eq_refl eq_refl).
Qed.

Lemma orient_world_sets_world_rotation_witness :
  exists s' s'',
    CascadedCoords_orient_with_matrix (H := spec_prims) 10 3%positive Rz90
      (WStr "world") family = Ok (Obj (Node 3%positive)) s' /\
    dyn_worldcoords 10 (Obj (Node 3%positive)) s' = Ok (Obj (World 3%positive)) s'' /\
    _rotation s'' (Obj (World 3%positive)) = Rz90 /\
    _translation s'' (Obj (World 3%positive))
      = Coordinates_transform_vector family (Obj (World 2%positive))
          (_translation family (Obj (Node 3%positive))).
Proof.
  assert (Hh : has family (Obj (Node 3%positive))) by (vm_compute; eauto).
  assert (HhP : has family (Obj (Node 2%positive))) by (vm_compute; eauto).
  destruct (proj2 (orient_world_sets_world_rotation (H := spec_prims) 10 family
                     3%positive 2%positive Rz90 family_tree_inv Hh HhP eq_refl)
              Rz90_valid)
    as (sp & s' & s'' & Ep & E1 & E2 & Hw).
  rewrite family_parent_read in Ep. injection Ep as <-.
  exists s', s''. split; [exact E1|]. split; [exact E2|].
  apply Hw. exact Rx90_orthonormal.
Defined.

(** X9: [n.transform(c, wrt='world')] on a child [n] of [P]: when the world
    rotation of [P] is orthonormal, the world pose of [n] becomes [c]
    composed with the world pose it had, that is with the world pose of
    [P] composed with the local pose of [n]. *)
Theorem transform_world_premultiplies `{MathPrims} (fuel : nat) (s : store)
    (n P : oid) (c : pose) :
  tree_inv fuel s -> has s (Obj (Node n)) -> has s (Obj (Node P)) ->
  parent s (Obj (Node n)) = Some (Node P) ->
  exists sp s' s'',
    dyn_worldcoords fuel (Obj (Node P)) s = Ok (Obj (World P)) sp /\
    CascadedCoords_transform fuel n (Tmp c) (WStr "world") OutNone s
      = Ok (Obj (Node n)) s' /\
    dyn_worldcoords fuel (Obj (Node n)) s' = Ok (Obj (World n)) s'' /\
    (orthonormal (_rotation sp (Obj (World P))) ->
     pose_of s'' (Obj (World n))
       = compose_pose c (compose_pose (pose_of sp (Obj (World P)))
                                      (pose_of s (Obj (Node n))))).
Proof.
  intros Hi Hh HhP Hp.
  destruct (parent_refreshed fuel s n P Hi Hh HhP Hp)
    as (sp & Ep & Hip & Hhp & Hpp & HcP & Hloc).
  set (me := Obj (Node n)). set (pw := Obj (World P)).
  destruct (transform_coords_written pw me me sp) as (o1 & s1 & T1 & W1 & V1).
  assert (Ho1 : o1 = me) by apply W1. subst o1.
  destruct (transform_coords_written (Tmp c) me me s1) as (o2 & s2 & T2 & W2 & V2).
  assert (Ho2 : o2 = me) by apply W2. subst o2.
  pose proof (pose_written_trans _ _ _ _ _ _ W1 W2) as W12.
  set (inv := Pose (transpose (_rotation s2 pw))
                (vscale (-1) (dot (transpose (_rotation s2 pw)) (_translation s2 pw)))).
  destruct (transform_coords_written (Tmp inv) me me s2) as (o3 & s3 & T3 & W3 & V3).
  assert (Ho3 : o3 = me) by apply W3. subst o3.
  pose proof (pose_written_trans _ _ _ _ _ _ W12 W3) as W13.
  destruct W13 as (Ht13 & Hk13 & _).
  assert (Hh1 : has s1 me) by (apply W1, Hhp).
  assert (Hh2 : has s2 me) by (apply W2, Hh1).
  assert (Hi3 : tree_inv fuel s3) by (eapply same_tree_inv; eassumption).
  assert (Hh3 : has s3 me) by (apply Ht13, Hhp).
  assert (Hp3 : parent s3 me = Some (Node P)).
  { simpl. rewrite (proj1 (proj2 Ht13 n)). exact Hpp. }
  assert (Hc3 : clean s3 P).
  { unfold clean, _changed. rewrite (proj2 (proj2 (proj2 Ht13 P))). exact HcP. }
  assert (HP2 : pose_of s2 pw = pose_of sp pw).
  { destruct W12 as (_ & Hk & _). destruct (Hk pw) as [Hr Ht]; [discriminate|].
    unfold pose_of. rewrite Hr, Ht. reflexivity. }
  assert (HP3 : pose_of s3 pw = pose_of sp pw).
  { destruct (Hk13 pw) as [Hr Ht]; [discriminate|].
    unfold pose_of. rewrite Hr, Ht. reflexivity. }
  destruct (write_then_read fuel n P (pose_of s3 me) s3 Hi3 Hh3 Hp3 Hc3)
    as (s' & s'' & E1 & E2 & _ & _ & Hw & _ & _).
  exists sp, s', s''. split; [exact Ep|]. split; [|split; [exact E2|]].
  - subst inv pw me. unfold CascadedCoords_transform. cbv zeta.
    unfold bind at 1, read at 1. rewrite Hp.
    cbn [wrt_is wrt_is_obj wrt_is_parent orb].
    rewrite !bool_decide_eq_false_2 by discriminate. cbn [orb].
    rewrite bool_decide_eq_true_2 by reflexivity.
    unfold CascadedCoords_parentcoords.
    cbv [bind read]. rewrite Hp, Ep. cbv beta iota. rewrite T1.
    cbv beta iota. rewrite T2. cbv beta iota. rewrite inverse_transformation_fresh.
    cbv beta iota. rewrite T3. cbv beta iota.
    unfold dyn_newcoords. rewrite CascadedCoords_newcoords_local.
    rewrite CascadedCoords_newcoords_copy in E1. exact E1.
  - intros Ho. fold pw in Hw. rewrite Hw, HP3, (V3 Hh2), (V2 Hh1), (V1 Hhp).
    change (pose_of s2 (Tmp inv)) with inv.
    replace (pose_of s1 (Tmp c)) with c by (destruct c; reflexivity).
    replace inv with (inverse_pose (pose_of sp pw)).
    + rewrite compose_inverse_cancel by exact Ho. unfold me. rewrite Hloc. reflexivity.
    + rewrite <- HP2. reflexivity.
Qed.

Lemma transform_world_premultiplies_witness :
  exists s' s'',
    CascadedCoords_transform (H := spec_prims) 10 3%positive
      (Tmp (Pose Rz90 (V3 4 5 6))) (WStr "world") OutNone family
      = Ok (Obj (Node 3%positive)) s' /\
    dyn_worldcoords 10 (Obj (Node 3%positive)) s' = Ok (Obj (World 3%positive)) s'' /\
    pose_of s'' (Obj (World 3%positive))
      = compose_pose (Pose Rz90 (V3 4 5 6))
          (compose_pose (pose_of family (Obj (World 2%positive)))
                        (pose_of family (Obj (Node 3%positive)))).
Proof.
  assert (Hh : has family (Obj (Node 3%positive))) by (vm_compute; eauto).
  assert (HhP : has family (Obj (Node 2%positive))) by (vm_compute; eauto).
  destruct (transform_world_premultiplies (H := spec_prims) 10 family 3%positive
              2%positive (Pose Rz90 (V3 4 5 6)) family_tree_inv Hh HhP eq_refl)
    as (sp & s' & s'' & Ep & E1 & E2 & Hw).
  rewrite family_parent_read in Ep. injection Ep as <-.
  exists s', s''. split; [exact E1|]. split; [exact E2|].
  apply Hw. exact Rx90_orthonormal.
Defined.

Lemma rotate_with_matrix_world_unfold `{MathPrims} (fuel : nat) (n P : oid) (d : mat3)
    (s sp : store) :
  parent s (Obj (Node n)) = Some (Node P) ->
  dyn_worldcoords fuel (Obj (Node P)) s = Ok (Obj (World P)) sp ->
  CascadedCoords_rotate_with_matrix fuel n d (WStr "world") s
  = CascadedCoords_newcoords fuel n
      (NcCoords (Tmp (Pose
         (matmul (matmul (transpose (_rotation sp (Obj (World P))))
                         (matmul d (_rotation sp (Obj (World P)))))
                 (_rotation sp (Obj (Node n))))
         (_translation sp (Obj (Node n))))))
      false (RelStr "local") sp.
Proof.
  intros Hp E. rewrite CascadedCoords_newcoords_copy.
  unfold CascadedCoords_rotate_with_matrix. unfold bind at 1, read at 1.
  rewrite Hp. cbn [wrt_is wrt_is_obj wrt_is_parent orb].
  rewrite !bool_decide_eq_false_2 by discriminate. cbn [orb].
  unfold CascadedCoords_parentcoords.
  unfold bind at 1. unfold bind at 1. unfold read at 1. rewrite Hp, E.
  cbv [bind read ret]. cbv beta iota zeta.
  rewrite CascadedCoords_newcoords_local. reflexivity.
Qed.

(** X10: [n.rotate_with_matrix(d, 'world')] on a child [n] of [P], and
    [n.rotate(theta, axis, 'world')] when [d] is the axis-angle matrix of
    [theta] about [axis]: when the world rotation of [P] is orthonormal,
    the world rotation of [n] becomes [d] times the world rotation it had,
    and its world position stays. *)
Theorem rotate_world_premultiplies `{MathPrims} (fuel : nat) (s : store) (n P : oid)
    (d : mat3) :
  tree_inv fuel s -> has s (Obj (Node n)) -> has s (Obj (Node P)) ->
  parent s (Obj (Node n)) = Some (Node P) ->
  exists sp s' s'',
    dyn_worldcoords fuel (Obj (Node P)) s = Ok (Obj (World P)) sp /\
    CascadedCoords_rotate_with_matrix fuel n d (WStr "world") s
      = Ok (Obj (Node n)) s' /\
    (forall theta tok skip, rotation_matrix theta (AxisTok tok) skip = Some d ->
       CascadedCoords_rotate fuel n theta (AxisTok tok) (WStr "world") skip s
         = Ok (Obj (Node n)) s') /\
    dyn_worldcoords fuel (Obj (Node n)) s' = Ok (Obj (World n)) s'' /\
    (orthonormal (_rotation sp (Obj (World P))) ->
     _rotation s'' (Obj (World n))
       = matmul d (matmul (_rotation sp (Obj (World P))) (_rotation s (Obj (Node n)))) /\
     _translation s'' (Obj (World n))
       = Coordinates_transform_vector sp (Obj (World P))
           (_translation s (Obj (Node n)))).
Proof.
  intros Hi Hh HhP Hp.
  destruct (parent_refreshed fuel s n P Hi Hh HhP Hp)
    as (sp & Ep & Hip & Hhp & Hpp & HcP & Hloc).
  set (pr := _rotation sp (Obj (World P))).
  destruct (write_then_read fuel n P
              (Pose (matmul (matmul (transpose pr) (matmul d pr))
                            (_rotation sp (Obj (Node n))))
                    (_translation sp (Obj (Node n)))) sp Hip Hhp Hpp HcP)
    as (s' & s'' & E1 & E2 & _ & _ & Hw & _ & _).
  assert (Em : CascadedCoords_rotate_with_matrix fuel n d (WStr "world") s
               = Ok (Obj (Node n)) s').
  { rewrite (rotate_with_matrix_world_unfold fuel n P d s sp Hp Ep). exact E1. }
  exists sp, s', s''. split; [exact Ep|]. split; [exact Em|]. split; [|split; [exact E2|]].
  - intros theta tok skip Hd. unfold CascadedCoords_rotate.
    unfold bind at 1, read at 1. rewrite Hp.
    cbn [wrt_is wrt_is_obj wrt_is_parent orb].
    rewrite !bool_decide_eq_false_2 by discriminate. cbn [orb].
    rewrite Hd. exact Em.
  - intros Ho.
    pose proof (f_equal p_rotation Hw) as Hwr.
    pose proof (f_equal p_translation Hw) as Hwt.
    pose proof (f_equal p_rotation Hloc) as Hlr.
    pose proof (f_equal p_translation Hloc) as Hlt.
    cbn [pose_of compose_pose p_rotation p_translation] in Hwr, Hwt, Hlr, Hlt.
    rewrite Hwr, Hwt, Hlr, Hlt. fold pr. split.
    + rewrite <- !matmul_assoc. unfold orthonormal in Ho. fold pr in Ho.
      rewrite Ho, matmul_eye_l. reflexivity.
    + unfold Coordinates_transform_vector. fold pr. array_eq.
Qed.

Lemma rotate_world_premultiplies_witness :
  exists s' s'',
    CascadedCoords_rotate (H := spec_prims) 10 3%positive (PI / 2) (AxisTok "z")
      (WStr "world") false family = Ok (Obj (Node 3%positive)) s' /\
    dyn_worldcoords 10 (Obj (Node 3%positive)) s' = Ok (Obj (World 3%positive)) s'' /\
    _rotation s'' (Obj (World 3%positive))
      = matmul Rz90 (matmul (_rotation family (Obj (World 2%positive)))
                            (_rotation family (Obj (Node 3%positive)))) /\
    _translation s'' (Obj (World 3%positive))
      = Coordinates_transform_vector family (Obj (World 2%positive))
          (_translation family (Obj (Node 3%positive))).
Proof.
  assert (Hh : has family (Obj (Node 3%positive))) by (vm_compute; eauto).
  assert (HhP : has family (Obj (Node 2%positive))) by (vm_compute; eauto).
  destruct (rotate_world_premultiplies (H := spec_prims) 10 family 3%positive
              2%positive Rz90 family_tree_inv Hh HhP eq_refl)
    as (sp & s' & s'' & Ep & _ & Er & E2 & Hw).
  rewrite family_parent_read in Ep. injection Ep as <-.
  exists s', s''. split; [exact (Er _ _ _ quarter_turn_z)|]. split; [exact E2|].
  apply Hw. exact Rx90_orthonormal.
Defined.

(** ** [translate] on a child *)

(** A write of the local pose of a child, then a read of its world pose. *)
Lemma write_then_read_child `{MathPrims} (fuel : nat) (n P : oid) (q : pose) (s : store) :
  enough fuel s -> has s (Obj (Node n)) ->
  parent s (Obj (Node n)) = Some (Node P) ->
  exists s' s'',
    CascadedCoords_newcoords fuel n (NcCoords (Tmp q)) false (RelStr "local") s
      = Ok (Obj (Node n)) s' /\
    dyn_worldcoords fuel (Obj (Node n)) s' = Ok (Obj (World n)) s'' /\
    pose_of s' (Obj (Node n)) = q /\
    pose_of s'' (Obj (World n)) = compose_pose (pose_of s'' (Obj (World P))) q.
Proof.
  intros He Hh Hp.
  destruct (newcoords_copy_node fuel n q s He Hh)
    as (s' & E & He' & Hh' & Hd' & Hv & Hlinks & _).
  destruct (twp_elim _ _ _ (worldcoords_recomputes fuel n s' He' Hh' Hd'))
    as (w & s'' & E2 & -> & _ & _ & Hpose).
  exists s', s''. split; [exact E|]. split; [exact E2|]. split; [exact Hv|].
  rewrite Hpose. simpl parent. rewrite (proj1 (Hlinks n)).
  simpl in Hp. rewrite Hp. cbn [world_of]. rewrite Hv. reflexivity.
Qed.

Lemma translate_node_unfold `{MathPrims} (fuel : nat) (n P : oid) (v : vec3) (s : store) :
  parent s (Obj (Node n)) = Some (Node P) ->
  Coordinates_translate fuel (Obj (Node n)) v (WStr "local") s
  = CascadedCoords_newcoords fuel n
      (NcCoords (Tmp (Pose (_rotation s (Obj (Node n)))
                           (vadd (dot (_rotation s (Obj (Node n))) v)
                                 (_translation s (Obj (Node n)))))))
      false (RelStr "local") s /\
  forall wrt, wrt = WStr "world" \/ wrt = WStr "parent" ->
  Coordinates_translate fuel (Obj (Node n)) v wrt s
  = CascadedCoords_newcoords fuel n
      (NcCoords (Tmp (Pose (_rotation s (Obj (Node n)))
                           (vadd v (_translation s (Obj (Node n)))))))
      false (RelStr "local") s.
Proof.
  intros Hp. split; [|intros wrt [->| ->]];
    rewrite CascadedCoords_newcoords_copy;
    unfold Coordinates_translate, Coordinates_parent_orientation, dyn_newcoords;
    cbv [bind read ret]; rewrite Hp;
    cbn [wrt_is wrt_is_obj wrt_is_parent orb];
    rewrite ?bool_decide_eq_false_2 by discriminate;
    rewrite ?bool_decide_eq_true_2 by reflexivity; cbn [orb];
    rewrite CascadedCoords_newcoords_local; reflexivity.
Qed.

(** X11: [n.translate(v, wrt)] on a child [n] of [P] adds to the local
    translation [v] turned by the local rotation for [wrt='local'], and [v]
    itself for [wrt='world'] as for [wrt='parent']: in the world the child
    then moves by [v] turned by its own world rotation, respectively by
    the world rotation of its parent, and its world rotation stays. *)
Theorem translate_on_child `{MathPrims} (fuel : nat) (s : store) (n P : oid)
    (v : vec3) (wrt : wrt_arg) :
  enough fuel s -> has s (Obj (Node n)) ->
  parent s (Obj (Node n)) = Some (Node P) ->
  wrt = WStr "local" \/ wrt = WStr "world" \/ wrt = WStr "parent" ->
  let r := _rotation s (Obj (Node n)) in
  let t := _translation s (Obj (Node n)) in
  exists s' s'',
    Coordinates_translate fuel (Obj (Node n)) v wrt s = Ok (Obj (Node n)) s' /\
    dyn_worldcoords fuel (Obj (Node n)) s' = Ok (Obj (World n)) s'' /\
    _rotation s' (Obj (Node n)) = r /\
    _translation s' (Obj (Node n))
      = vadd (if wrt_is wrt "local" then dot r v else v) t /\
    let pr := _rotation s'' (Obj (World P)) in
    _rotation s'' (Obj (World n)) = matmul pr r /\
    _translation s'' (Obj (World n))
      = vadd (dot (if wrt_is wrt "local" then matmul pr r else pr) v)
             (Coordinates_transform_vector s'' (Obj (World P)) t).
Proof.
  intros He Hh Hp Hw r t.
  destruct (translate_node_unfold fuel n P v s Hp) as [El Ew].
  set (d := if wrt_is wrt "local" then dot r v else v).
  destruct (write_then_read_child fuel n P (Pose r (vadd d t)) s He Hh Hp)
    as (s' & s'' & E1 & E2 & Hv & Hwp).
  exists s', s''. split.
  { destruct Hw as [->|Hw]; [rewrite El|rewrite (Ew wrt Hw); destruct Hw as [->| ->]];
      exact E1. }
  split; [exact E2|].
  pose proof (f_equal p_rotation Hv) as Hvr.
  pose proof (f_equal p_translation Hv) as Hvt.
  pose proof (f_equal p_rotation Hwp) as Hwr.
  pose proof (f_equal p_translation Hwp) as Hwt.
  cbn [pose_of compose_pose p_rotation p_translation] in Hvr, Hvt, Hwr, Hwt.
  split; [exact Hvr|]. split; [exact Hvt|]. cbv zeta. split; [exact Hwr|].
  rewrite Hwt. unfold Coordinates_transform_vector, d.
  destruct (wrt_is wrt "local"); array_eq.
Qed.

Lemma translate_on_child_witness :
  exists s' s'',
    Coordinates_translate (H := spec_prims) 10 (Obj (Node 3%positive)) (V3 1 0 0)
      (WStr "world") family = Ok (Obj (Node 3%positive)) s' /\
    dyn_worldcoords 10 (Obj (Node 3%positive)) s' = Ok (Obj (World 3%positive)) s'' /\
    _translation s' (Obj (Node 3%positive))
      = vadd (V3 1 0 0) (_translation family (Obj (Node 3%positive))) /\
    _translation s'' (Obj (World 3%positive))
      = vadd (dot (_rotation s'' (Obj (World 2%positive))) (V3 1 0 0))
             (Coordinates_transform_vector s'' (Obj (World 2%positive))
                (_translation family (Obj (Node 3%positive)))).
Proof.
  assert (Hh : has family (Obj (Node 3%positive))) by (vm_compute; eauto).
  destruct (translate_on_child (H := spec_prims) 10 family 3%positive 2%positive
              (V3 1 0 0) (WStr "world") (proj1 family_tree_inv) Hh eq_refl
              (or_intror (or_introl eq_refl)))
    as (s' & s'' & E1 & E2 & _ & Ht & _ & Hwt).
  exists s', s''. split; [exact E1|]. split; [exact E2|]. split; [exact Ht|exact Hwt].
Defined.

(** ** [assoc] *)

(** X12: [P.assoc(C, relative_coords='world')] on a root [C] that is not
    [P], which linking under [P] leaves acyclic, returns [C] with [P] as
    its parent, registered once more in [P._descendants] and dirty; when
    the world rotation of [P] is orthonormal, [C.worldcoords()] then gives
    the world pose [C] had before the call. *)
Theorem assoc_world_keeps_world_pose `{MathPrims} (fuel : nat) (s : store) (P C : oid) :
  tree_inv fuel s -> enough fuel (linked P C s) ->
  has s (Obj (Node P)) -> has s (Obj (Node C)) -> P <> C ->
  parent s (Obj (Node C)) = None ->
  exists sp sc s' s'',
    dyn_worldcoords fuel (Obj (Node P)) s = Ok (Obj (World P)) sp /\
    dyn_worldcoords fuel (Obj (Node C)) s = Ok (Obj (World C)) sc /\
    CascadedCoords_assoc fuel P (Node C) (RelStr "world") false s = Ok (Node C) s' /\
    parent s' (Obj (Node C)) = Some (Node P) /\
    Node C ∈ _descendants s' P /\ dirty s' C /\
    dyn_worldcoords fuel (Obj (Node C)) s' = Ok (Obj (World C)) s'' /\
    (orthonormal (_rotation sp (Obj (World P))) ->
     pose_of s'' (Obj (World C)) = pose_of sc (Obj (World C))).
Proof.
  intros Hi Hel HhP HhC Hne Hp.
  destruct (assoc_world_links fuel s P C Hi Hel HhP HhC Hne Hp)
    as (sp & sc & EP & EC & Ha).
  destruct (twp_elim _ _ _ Ha)
    as (r & s' & Ea & -> & He' & HhC' & Hp' & Hin' & Hd' & HcP' & HvP' & HvC').
  destruct (worldcoords_enough fuel (Obj (Node C)) s' He') as (s'' & E2 & Hr2 & _).
  cbn [world_of] in E2.
  exists sp, sc, s', s''. repeat (split; [assumption|]).
  intros Ho.
  pose proof (worldcoords_recomputes fuel C s' He' HhC' Hd') as Hv.
  unfold twp in Hv. rewrite E2 in Hv. destruct Hv as (_ & _ & _ & Hv).
  rewrite Hp' in Hv. cbn [world_of] in Hv. rewrite Hv, HvC'.
  assert (HP2 : pose_of s'' (Obj (World P)) = pose_of sp (Obj (World P))).
  { rewrite <- HvP'. unfold pose_of; simpl.
    rewrite (proj1 (proj2 Hr2) P HcP'). reflexivity. }
  rewrite HP2. apply compose_inverse_cancel. exact Ho.
Qed.

Lemma assoc_world_keeps_world_pose_witness :
  exists sc s' s'',
    dyn_worldcoords 10 (Obj (Node 3%positive)) apart = Ok (Obj (World 3%positive)) sc /\
    CascadedCoords_assoc (H := spec_prims) 10 2%positive (Node 3%positive)
      (RelStr "world") false apart = Ok (Node 3%positive) s' /\
    parent s' (Obj (Node 3%positive)) = Some (Node 2%positive) /\
    dyn_worldcoords 10 (Obj (Node 3%positive)) s' = Ok (Obj (World 3%positive)) s'' /\
    pose_of s'' (Obj (World 3%positive)) = pose_of sc (Obj (World 3%positive)).
Proof.
  assert (Hi : tree_inv 10 apart) by (apply tree_check_sound; vm_compute; reflexivity).
  assert (Hl : enough 10 (linked 2%positive 3%positive apart))
    by (apply enough_check_sound; vm_compute; reflexivity).
  assert (HhP : has apart (Obj (Node 2%positive))) by (vm_compute; eauto).
  assert (HhC : has apart (Obj (Node 3%positive))) by (vm_compute; eauto).
  assert (Hne : 2%positive <> 3%positive) by discriminate.
  destruct (assoc_world_keeps_world_pose (H := spec_prims) 10 apart 2%positive
              3%positive Hi Hl HhP HhC Hne eq_refl)
    as (sp & sc & s' & s'' & EP & EC & Ea & Hp & _ & _ & E2 & Hw).
  exists sc, s', s''. repeat (split; [assumption|]). apply Hw.
  vm_compute in EP. injection EP as <-.
  unfold orthonormal. vm_compute. f_equal; f_equal; lra.
Defined.

(** X13: the guards of [assoc] and [dissoc].  [P.assoc(P)] raises
    [ValueError]; [P.assoc(C)] on a [C] that has a parent raises
    [RuntimeError] unless [force] is given; [P.assoc(C, force=True)] on a
    [C] already registered under [P] and [P.dissoc(C)] on a [C] not
    registered under [P] return without any change, whatever
    [relative_coords] is.  None of the four touches the store. *)
Theorem assoc_dissoc_guards `{MathPrims} (fuel : nat) (s : store) (P : oid) (C q : ref)
    (rel : rel_arg) (force : bool) :
  CascadedCoords_assoc fuel P (Node P) rel force s = Raise ValueError s /\
  (C <> Node P -> parent s (Obj C) = Some q ->
   CascadedCoords_assoc fuel P C rel false s = Raise RuntimeError s) /\
  (C <> Node P -> C ∈ _descendants s P ->
   CascadedCoords_assoc fuel P C rel true s = Ok C s) /\
  (C ∉ _descendants s P -> CascadedCoords_dissoc fuel P C s = Ok tt s).
Proof.
  split; [|split; [|split]].
  - unfold CascadedCoords_assoc. rewrite bool_decide_eq_true_2 by reflexivity.
    reflexivity.
  - intros Hne Hp. unfold CascadedCoords_assoc.
    rewrite bool_decide_eq_false_2 by congruence.
    unfold bind, read. rewrite Hp. reflexivity.
  - intros Hne Hin. unfold CascadedCoords_assoc.
    rewrite bool_decide_eq_false_2 by congruence.
    unfold bind, read. rewrite andb_false_r.
    rewrite bool_decide_eq_true_2 by exact Hin. reflexivity.
  - intros Hnin. unfold CascadedCoords_dissoc, bind, read.
    rewrite bool_decide_eq_false_2 by exact Hnin. reflexivity.
Qed.

Lemma assoc_dissoc_guards_witness :
  CascadedCoords_assoc (H := spec_prims) 10 2%positive (Node 3%positive)
    (RelStr "world") false family = Raise RuntimeError family /\
  CascadedCoords_assoc (H := spec_prims) 10 2%positive (Node 3%positive)
    (RelStr "world") true family = Ok (Node 3%positive) family /\
  CascadedCoords_dissoc (H := spec_prims) 10 3%positive (Node 2%positive) family
    = Ok tt family.
Proof.
  pose proof (assoc_dissoc_guards (H := spec_prims) 10 family 2%positive
                (Node 3%positive) (Node 2%positive) (RelStr "world") false)
    as (_ & H1 & H2 & _).
  pose proof (assoc_dissoc_guards (H := spec_prims) 10 family 3%positive
                (Node 2%positive) (Node 2%positive) (RelStr "world") false)
    as (_ & _ & _ & H3).
  split; [apply H1; [discriminate|reflexivity]|].
  split; [apply H2; [discriminate|vm_compute; set_solver]|].
  apply H3. vm_compute. set_solver.
Defined.

(** ** [worldcoords] and [changed] *)

(** X14: [c.worldcoords()] returns; it changes no rotation, translation,
    parent link or registry of any frame, only caches and dirty flags, and
    leaves the node of [c] clean, so that a second call returns the same
    object with the same pose and changes nothing at all. *)
Theorem worldcoords_idempotent (fuel : nat) (c : cref) (s : store) :
  enough fuel s -> has s c ->
  exists s',
    dyn_worldcoords fuel c s = Ok (world_of c) s' /\
    dyn_worldcoords fuel (world_of c) s' = Ok (world_of c) s' /\
    dyn_worldcoords fuel c s' = Ok (world_of c) s' /\
    (forall n, world_of c = Obj (World n) -> clean s' n) /\
    (forall x, is_frame x ->
       pose_of s' x = pose_of s x /\ parent s' x = parent s x) /\
    (forall n, _descendants s' n = _descendants s n).
Proof.
  intros He Hh.
  destruct (worldcoords_enough fuel c s He) as (s' & E & Hr & He' & Hcl).
  assert (Hc : forall n, world_of c = Obj (World n) -> clean s' n).
  { intros n Hw. apply (Hcl n Hw).
    destruct c as [[p|m|m]|q]; simpl in Hw; try discriminate;
      injection Hw as <-; exact Hh. }
  exists s'. split; [exact E|]. split; [|split; [|split; [exact Hc|split]]].
  - destruct c as [[p|n|n]|q]; try reflexivity;
      apply (worldcoords_clean fuel _ n s' He'); try reflexivity;
      apply Hc; reflexivity.
  - destruct c as [[p|n|n]|q]; try reflexivity;
      apply (worldcoords_clean fuel _ n s' He'); try reflexivity;
      apply Hc; reflexivity.
  - intros x Hx.
    assert (Hnw : forall n, x <> Obj (World n)).
    { intros n ->. exact Hx. }
    unfold pose_of.
    rewrite <- (cache_equiv_rotation s s' x Hnw (proj1 Hr)).
    rewrite <- (cache_equiv_translation s s' x Hnw (proj1 Hr)).
    rewrite <- (cache_equiv_parent s s' x Hnw (proj1 Hr)). split; reflexivity.
  - intros n. symmetry. apply cache_equiv_descendants, Hr.
Qed.

Lemma worldcoords_idempotent_witness :
  exists s',
    dyn_worldcoords 10 (Obj (Node 3%positive)) apart = Ok (Obj (World 3%positive)) s' /\
    dyn_worldcoords 10 (Obj (Node 3%positive)) s' = Ok (Obj (World 3%positive)) s' /\
    clean s' 3%positive /\
    pose_of s' (Obj (Node 3%positive)) = pose_of apart (Obj (Node 3%positive)).
Proof.
  assert (He : enough 10 apart) by (apply enough_check_sound; vm_compute; reflexivity).
  assert (Hh : has apart (Obj (Node 3%positive))) by (vm_compute; eauto).
  destruct (worldcoords_idempotent 10 (Obj (Node 3%positive)) apart He Hh)
    as (s' & E1 & _ & E2 & Hc & Hk & _).
  exists s'. split; [exact E1|]. split; [exact E2|].
  split; [apply Hc; reflexivity|]. apply (Hk (Obj (Node 3%positive))). exact I.
Defined.

(** X15: [n.changed()] returns; it only raises dirty flags: every pose,
    parent link, registry and cached world pose is as before and no dirty
    node becomes clean; [n] is dirty afterwards, in a well-formed tree so
    is every node that registries join to [n], and the nodes they do not
    join to [n] are untouched.  On a node that is dirty already the call
    changes nothing. *)
Theorem changed_raises_flags_only (fuel : nat) (n : oid) (s : store) :
  tree_inv fuel s ->
  exists s',
    CascadedCoords_changed fuel n s = Ok tt s' /\
    dirty s' n /\
    (forall m, reach s n m -> dirty s' m) /\
    (forall m, ~ reach s n m -> node s' m = node s m) /\
    (forall m, dirty s m -> dirty s' m) /\
    (forall x, pose_of s' x = pose_of s x /\ parent s' x = parent s x) /\
    (forall m, _descendants s' m = _descendants s m) /\
    (dirty s n -> s' = s).
Proof.
  intros (He & Hk & Hdc).
  destruct (twp_elim _ _ _ (changed_enough fuel n s He))
    as ([] & s' & E & Hf & Hd & He').
  pose proof (changed_within fuel n s) as Hw. unfold wp in Hw. rewrite E in Hw.
  pose proof Hf as (Hce & Hm & Hwc & _).
  exists s'. split; [exact E|]. split; [exact Hd|]. split; [|split; [exact Hw|]].
  { intros m Hr. apply (dirty_closed_reach s' n m).
    - eapply flagged_dirty_closed; eassumption.
    - exact Hd.
    - apply (reach_equiv s s'); [exact Hce|exact Hr]. }
  split; [exact Hm|]. split; [|split].
  - intros x. destruct x as [[p|m|m]|q].
    + unfold pose_of; simpl. rewrite (cache_equiv_plain s s' p Hce). split; reflexivity.
    + destruct (cache_equiv_node_attrs s s' m Hce) as (Hr & Ht & _ & Hp & _).
      unfold pose_of; simpl. rewrite Hr, Ht, Hp. split; reflexivity.
    + unfold pose_of; simpl. rewrite (Hwc m). split; reflexivity.
    + split; reflexivity.
  - intros m. symmetry. apply cache_equiv_descendants, Hce.
  - intros Hdn. destruct fuel as [|f]; [discriminate|].
    rewrite changed_unfold in E. unfold bind, read in E. rewrite Hdn in E.
    simpl in E. injection E as <-. reflexivity.
Qed.

Lemma changed_raises_flags_only_witness :
  exists s',
    CascadedCoords_changed 10 2%positive family = Ok tt s' /\
    dirty s' 2%positive /\ dirty s' 3%positive /\
    node s' 1%positive = node family 1%positive /\
    pose_of s' (Obj (World 3%positive)) = pose_of family (Obj (World 3%positive)).
Proof.
  destruct (changed_raises_flags_only 10 2%positive family family_tree_inv)
    as (s' & E & Hd & Hr & Hn & Hm & Hk & Hds & Hsame).
  exists s'. split; [exact E|]. split; [exact Hd|]. split; [|split].
  - apply Hr. apply (reach_step family 2%positive 2%positive 3%positive).
    + constructor.
    + vm_compute. constructor.
  - apply Hn. intros Hreach.
    assert (Hin : forall m, reach family 2%positive m -> m <> 1%positive).
    { intros m Hm0. induction Hm0 as [|x y Hx IH Hy]; [discriminate|].
      intros ->. apply (proj1 (proj2 family_tree_inv)) in Hy. simpl in Hy.
      vm_compute in Hy. discriminate. }
    exact (Hin _ Hreach eq_refl).
  - apply Hk.
Defined.

(** ** Interpolation *)







Lemma Rle_b_false (a b : R) : b < a -> Rle_b a b = false.
Proof. intros Hab. unfold Rle_b. destruct (Rle_dec a b); [lra|reflexivity]. Qed.

(** X17: [lerp_coordinates] and [slerp_coordinates] raise [ValueError] for
    [t] outside [0, 1], before anything is read, and for [t] within return
    a new [Coordinates] at [pos1 + t * (pos2 - pos1)], the same for both,
    where [pos1] and [pos2] are the world positions of [c1] and [c2]; the
    calls change caches and dirty flags only. *)
Theorem interpolation_range_and_position `{MathPrims} (fuel : nat) (s : store)
    (c1 c2 : cref) (t : R) :
  is_frame c1 -> is_frame c2 -> enough fuel s -> has s c1 -> has s c2 ->
  (t < 0 \/ 1 < t ->
   lerp_coordinates fuel c1 c2 t s = Raise ValueError s /\
   slerp_coordinates fuel c1 c2 t s = Raise ValueError s) /\
  (0 <= t <= 1 ->
   exists rl rs s',
     let pos1 := _translation s' (world_of c1) in
     let pos2 := _translation s' (world_of c2) in
     let pos := vadd pos1 (vscale t (vsub pos2 pos1)) in
     lerp_coordinates fuel c1 c2 t s = Ok (Tmp (Pose rl pos)) s' /\
     slerp_coordinates fuel c1 c2 t s = Ok (Tmp (Pose rs pos)) s' /\
     cache_equiv s s' /\
     dyn_worldpos fuel c1 s' = Ok pos1 s' /\
     dyn_worldpos fuel c2 s' = Ok pos2 s').
Proof.
  intros Hf1 Hf2 He Hh1 Hh2. split.
  - intros Ht. unfold lerp_coordinates, slerp_coordinates.
    destruct Ht as [Ht|Ht].
    + rewrite (Rle_b_false 0 t Ht). split; reflexivity.
    + rewrite (Rle_b_false t 1 Ht), andb_false_r. split; reflexivity.
  - intros [Ht0 Ht1].
    destruct (worldpos_enough fuel c1 s He) as (s1 & E1 & Hr1 & He1 & Hc1).
    destruct (worldpos_enough fuel c2 s1 He1) as (s2 & E2 & Hr2 & He2 & Hc2).
    assert (Hh1' : has s1 c1).
    { apply (cache_equiv_has s s1 c1); [apply Hr1|exact Hh1]. }
    assert (Hh2' : has s1 c2).
    { apply (cache_equiv_has s s1 c2); [apply Hr1|exact Hh2]. }
    assert (HT1 : _translation s2 (world_of c1) = _translation s1 (world_of c1)).
    { destruct c1 as [[p|n|n]|q]; [| |destruct Hf1|reflexivity].
      - symmetry. apply cache_equiv_translation; [discriminate|apply Hr2].
      - simpl. rewrite (proj1 (proj2 Hr2) n); [reflexivity|].
        apply (Hc1 n); [reflexivity|exact Hh1]. }
    eexists _, _, s2. cbv zeta.
    split; [|split; [|split; [|split]]].
    + unfold lerp_coordinates. rewrite !Rle_b_true by assumption. cbn [andb negb].
      cbv [bind read ret]. rewrite E1, E2. rewrite HT1. reflexivity.
    + unfold slerp_coordinates. rewrite !Rle_b_true by assumption. cbn [andb negb].
      cbv [bind read ret]. rewrite E1, E2. rewrite HT1. reflexivity.
    + etransitivity; [apply Hr1|apply Hr2].
    + destruct c1 as [[p|n|n]|q]; [reflexivity| |destruct Hf1|reflexivity].
      unfold dyn_worldpos, bind.
      rewrite (worldcoords_clean fuel (Node n) n s2 He2); [reflexivity| |reflexivity].
      unfold clean, _changed. rewrite (proj1 (proj2 Hr2) n);
        apply (Hc1 n); try reflexivity; exact Hh1.
    + destruct c2 as [[p|n|n]|q]; [reflexivity| |destruct Hf2|reflexivity].
      unfold dyn_worldpos, bind.
      rewrite (worldcoords_clean fuel (Node n) n s2 He2); [reflexivity| |reflexivity].
      apply (Hc2 n); [reflexivity|exact Hh2'].
Qed.

Lemma interpolation_range_and_position_witness :
  slerp_coordinates (H := spec_prims) 10 (Obj (Plain 1%positive))
    (Obj (Plain 2%positive)) 2 two_plains = Raise ValueError two_plains /\
  exists rl rs s',
    lerp_coordinates (H := spec_prims) 10 (Obj (Plain 1%positive))
      (Obj (Plain 2%positive)) (1 / 2) two_plains
      = Ok (Tmp (Pose rl (vadd (_translation s' (Obj (Plain 1%positive)))
                            (vscale (1 / 2)
                               (vsub (_translation s' (Obj (Plain 2%positive)))
                                     (_translation s' (Obj (Plain 1%positive)))))))) s' /\
    slerp_coordinates (H := spec_prims) 10 (Obj (Plain 1%positive))
      (Obj (Plain 2%positive)) (1 / 2) two_plains
      = Ok (Tmp (Pose rs (vadd (_translation s' (Obj (Plain 1%positive)))
                            (vscale (1 / 2)
                               (vsub (_translation s' (Obj (Plain 2%positive)))
                                     (_translation s' (Obj (Plain 1%positive)))))))) s'.
Proof.
  assert (He : enough 10 two_plains) by (apply enough_check_sound; vm_compute; reflexivity).
  assert (Hh1 : has two_plains (Obj (Plain 1%positive))) by (vm_compute; eauto).
  assert (Hh2 : has two_plains (Obj (Plain 2%positive))) by (vm_compute; eauto).
  split.
  - apply (interpolation_range_and_position (H := spec_prims) 10 two_plains
             (Obj (Plain 1%positive)) (Obj (Plain 2%positive)) 2 I I He Hh1 Hh2).
    right. lra.
  - destruct (proj2 (interpolation_range_and_position (H := spec_prims) 10 two_plains
                       (Obj (Plain 1%positive)) (Obj (Plain 2%positive)) (1 / 2)
                       I I He Hh1 Hh2))
      as (rl & rs & s' & El & Es & _); [lra|].
    exists rl, rs, s'. split; [exact El|exact Es].
Defined.

(** ** Vectors through the world pose of a frame *)

(** X18: on a plain [Coordinates] as on a node, [c.transform_vector(v)],
    the module's [wrt(c, v)] and [c.get_transform().transform_vector(v)]
    give the same vector, the world pose of [c] applied to [v], and so do
    the two [rotate_vector]; the calls only bring the cache of [c] up to
    date, and when the world rotation is orthonormal the inverse methods
    of [c] take the results back to [v]. *)
Theorem vectors_through_world_pose (fuel : nat) (c : cref) (v : vec3) (s : store) :
  is_frame c -> enough fuel s -> has s c ->
  exists (tf : Transform.t) (s' : store),
    let w := world_of c in
    let tv := Coordinates_transform_vector s' w v in
    let rv := Coordinates_rotate_vector s' w v in
    dyn_transform_vector fuel c v s = Ok tv s' /\
    wrt fuel c v s = Ok tv s' /\
    dyn_rotate_vector fuel c v s = Ok rv s' /\
    Coordinates_get_transform fuel c s = Ok tf s' /\
    Transform.transform_vector tf v = tv /\
    Transform.rotate_vector tf v = rv /\
    cache_equiv s s' /\
    (orthonormal (_rotation s' w) ->
     dyn_inverse_transform_vector fuel c tv s' = Ok v s' /\
     dyn_inverse_rotate_vector fuel c rv s' = Ok v s').
Proof.
  intros Hf He Hh.
  destruct (worldcoords_enough fuel c s He) as (s' & E & Hr & He' & Hcl).
  assert (E' : dyn_worldcoords fuel c s' = Ok (world_of c) s').
  { destruct c as [[p|n|n]|q]; try reflexivity;
      apply (worldcoords_clean fuel _ n s' He'); try reflexivity;
      apply (Hcl n); try reflexivity; exact Hh. }
  exists (Transform.make (_translation s' (world_of c)) (_rotation s' (world_of c))), s'.
  cbv zeta.
  assert (Hs : forall p, c = Obj (Plain p) -> s' = s).
  { intros p ->. simpl in E. injection E as <-. reflexivity. }
  assert (Hq : forall q, c = Tmp q -> s' = s).
  { intros q ->. simpl in E. injection E as <-. reflexivity. }
  split; [|split; [|split; [|split; [|split; [|split; [|split]]]]]].
  - destruct c as [[p|n|n]|q]; [rewrite (Hs p eq_refl); reflexivity| |destruct Hf|
                                rewrite (Hq q eq_refl); reflexivity].
    unfold dyn_transform_vector, bind. rewrite E. reflexivity.
  - unfold wrt.
    destruct c as [[p|n|n]|q]; [rewrite (Hs p eq_refl); reflexivity| |destruct Hf|
                                rewrite (Hq q eq_refl); reflexivity].
    unfold dyn_transform_vector, bind. rewrite E. reflexivity.
  - destruct c as [[p|n|n]|q]; [rewrite (Hs p eq_refl); reflexivity| |destruct Hf|
                                rewrite (Hq q eq_refl); reflexivity].
    unfold dyn_rotate_vector, bind. rewrite E. reflexivity.
  - destruct c as [[p|n|n]|q]; [rewrite (Hs p eq_refl); reflexivity| |destruct Hf|
                                rewrite (Hq q eq_refl); reflexivity].
    unfold Coordinates_get_transform, dyn_worldpos, dyn_worldrot, bind, read.
    rewrite E, E'. reflexivity.
  - reflexivity.
  - reflexivity.
  - apply Hr.
  - intros Ho.
    destruct (vector_round_trips s' (world_of c) v Ho) as (H1 & _ & H3 & _).
    destruct c as [[p|n|n]|q]; [| |destruct Hf|]; cbn [world_of] in *;
      try (split; [unfold dyn_inverse_transform_vector, read; rewrite H1; reflexivity
                  |unfold dyn_inverse_rotate_vector, read; rewrite H3; reflexivity]).
    split.
    + unfold dyn_inverse_transform_vector, bind. rewrite E'. unfold read.
      rewrite H1. reflexivity.
    + unfold dyn_inverse_rotate_vector, bind. rewrite E'. unfold read.
      rewrite H3. reflexivity.
Qed.

Lemma vectors_through_world_pose_witness :
  exists (tf : Transform.t),
    let w := Obj (World 3%positive) in
    let tv := Coordinates_transform_vector family w (V3 4 5 6) in
    dyn_transform_vector 10 (Obj (Node 3%positive)) (V3 4 5 6) family = Ok tv family /\
    Coordinates_get_transform 10 (Obj (Node 3%positive)) family = Ok tf family /\
    Transform.transform_vector tf (V3 4 5 6) = tv /\
    dyn_inverse_transform_vector 10 (Obj (Node 3%positive)) tv family
      = Ok (V3 4 5 6) family.
Proof.
  assert (Hh : has family (Obj (Node 3%positive))) by (vm_compute; eauto).
  destruct (vectors_through_world_pose 10 (Obj (Node 3%positive)) (V3 4 5 6) family
              I (proj1 family_tree_inv) Hh)
    as (tf & s' & E1 & _ & _ & E2 & Ht & _ & _ & Hinv).
  assert (Es : s' = family).
  { unfold dyn_transform_vector, bind in E1.
    rewrite (worldcoords_clean 10 (Node 3%positive) 3%positive family
               (proj1 family_tree_inv) eq_refl eq_refl) in E1.
    unfold read in E1.
    exact (eq_sym (f_equal (fun o => match o with Ok _ x => x | _ => family end) E1)). }
  subst s'. exists tf. cbv zeta. split; [exact E1|]. split; [exact E2|].
  split; [exact Ht|]. apply Hinv.
  unfold orthonormal. cbn [world_of]. unfold _rotation.
  change (node family 3%positive) with C_node. cbn [C_node n_worldcoords c_rotation].
  array_eq.
Defined.

(** ** [__pow__] *)

(** X19: [c ** e] returns a new [Coordinates] holding the inverse of the
    pose of [c] when [e] is within the tolerance of [np.isclose] of [-1],
    that is [|e + 1| <= 1e-8 + 1e-5], and raises [NotImplementedError] for
    any other exponent; neither changes the store, and on an orthonormal
    rotation [(c ** -1) ** -1] has the pose of [c] again. *)
Theorem pow_inverts_near_minus_one (c : cref) (e : R) (s : store) :
  (Rabs (e + 1) <= 1e-8 + 1e-5 ->
   Coordinates___pow__ c e s = Ok (Tmp (inverse_pose (pose_of s c))) s) /\
  (1e-8 + 1e-5 < Rabs (e + 1) ->
   Coordinates___pow__ c e s = Raise NotImplementedError s) /\
  (orthonormal (_rotation s c) ->
   exists ci, Coordinates___pow__ c (-1) s = Ok ci s /\
     exists cii, Coordinates___pow__ ci (-1) s = Ok cii s /\
       pose_of s cii = pose_of s c).
Proof.
  assert (Hb : Rabs (-1) = 1) by (unfold Rabs; destruct (Rcase_abs (-1)); lra).
  assert (Hin : forall x, Rabs (x + 1) <= 1e-8 + 1e-5 -> forall c0,
            Coordinates___pow__ c0 x s = Ok (Tmp (inverse_pose (pose_of s c0))) s).
  { intros x Hx c0. unfold Coordinates___pow__.
    replace (x - -1) with (x + 1) by ring. rewrite Hb.
    rewrite Rle_b_true by lra. reflexivity. }
  split; [intros He; apply Hin, He|]. split.
  - intros He. unfold Coordinates___pow__.
    replace (e - -1) with (e + 1) by ring. rewrite Hb.
    rewrite Rle_b_false by lra. reflexivity.
  - intros Ho.
    assert (H1 : Rabs (-1 + 1) <= 1e-8 + 1e-5).
    { replace (-1 + 1) with 0 by ring. rewrite Rabs_R0. lra. }
    eexists. split; [apply Hin, H1|]. eexists. split; [apply Hin, H1|].
    set (a := pose_of s c).
    replace (pose_of s (Tmp (inverse_pose a))) with (inverse_pose a)
      by (destruct a; reflexivity).
    replace (pose_of s (Tmp (inverse_pose (inverse_pose a))))
      with (inverse_pose (inverse_pose a)) by (destruct a; reflexivity).
    apply inverse_pose_involutive. exact Ho.
Qed.

Lemma pow_inverts_near_minus_one_witness :
  Coordinates___pow__ (Obj (Plain 1%positive)) (-1) two_plains
    = Ok (Tmp (inverse_pose (pose_of two_plains (Obj (Plain 1%positive))))) two_plains /\
  Coordinates___pow__ (Obj (Plain 1%positive)) 2 two_plains
    = Raise NotImplementedError two_plains /\
  Coordinates___pow__ (Obj (Plain 1%positive)) 1 two_plains
    = Raise NotImplementedError two_plains.
Proof.
  split; [|split].
  - apply (pow_inverts_near_minus_one (Obj (Plain 1%positive)) (-1) two_plains).
    replace (-1 + 1) with 0 by ring. rewrite Rabs_R0. lra.
  - apply (pow_inverts_near_minus_one (Obj (Plain 1%positive)) 2 two_plains).
    rewrite Rabs_right; lra.
  - apply (pow_inverts_near_minus_one (Obj (Plain 1%positive)) 1 two_plains).
    rewrite Rabs_right; lra.
Defined.

(** ** [move_coords] *)

Lemma compose_pose_assoc (a b c : pose) :
  compose_pose (compose_pose a b) c = compose_pose a (compose_pose b c).
Proof.
  destruct a as [ra ta], b as [rb tb], c as [rc tc].
  unfold compose_pose; simpl. f_equal; array_eq.
Qed.

Lemma inverse_compose_self (a : pose) :
  orthonormal (p_rotation a) -> compose_pose (inverse_pose a) a = Pose eye3 zeros3.
Proof.
  intros Ho. pose proof (orthonormal_transpose _ Ho) as Ho'.
  destruct a as [r t]. unfold compose_pose, inverse_pose; simpl in *.
  rewrite Ho'. f_equal. array_eq.
Qed.

Lemma compose_identity_r (a : pose) : compose_pose a (Pose eye3 zeros3) = a.
Proof. destruct a as [r t]. unfold compose_pose; simpl. f_equal; array_eq. Qed.

Lemma pose_of_tmp (s : store) (q : pose) : pose_of s (Tmp q) = q.
Proof. destruct q. reflexivity. Qed.

(** X20: [c.move_coords(target, local)] on plain [Coordinates], with a
    [local] whose rotation is orthonormal: [c] is taken by the rigid
    motion that takes [local] onto [target], that is, its pose becomes
    [target . local^-1 . c]; with [local] being [c] itself, [c] lands on
    [target].  [c] is returned, and no other object changes. *)
Theorem move_coords_aligns `{MathPrims} (fuel : nat) (s : store) (p l : oid)
    (target : pose) :
  has s (Obj (Plain p)) -> has s (Obj (Plain l)) ->
  parent s (Obj (Plain p)) = None ->
  orthonormal (_rotation s (Obj (Plain l))) ->
  exists s',
    Coordinates_move_coords fuel (Obj (Plain p)) (Tmp target) (Plain l) s
      = Ok (Obj (Plain p)) s' /\
    pose_of s' (Obj (Plain p))
      = compose_pose target
          (compose_pose (inverse_pose (pose_of s (Obj (Plain l))))
                        (pose_of s (Obj (Plain p)))) /\
    (p = l -> pose_of s' (Obj (Plain p)) = target) /\
    (forall c, c <> Obj (Plain p) -> keeps c s s').
Proof.
  intros Hp Hl Hpar Ho.
  set (L := pose_of s (Obj (Plain l))). set (S := pose_of s (Obj (Plain p))).
  set (rel := compose_pose (inverse_pose L) target).
  assert (Erel : Coordinates_transformation fuel (Obj (Plain l)) (Tmp target) (WStr "local") s
                 = Ok (Tmp rel) s).
  { destruct target as [rt tt]. reflexivity. }
  assert (Hfin : exists s',
    dyn_transform fuel (Obj (Plain p)) (Tmp rel) (WObj (Plain l)) OutNone s = Ok (Obj (Plain p)) s' /\
    pose_of s' (Obj (Plain p)) = compose_pose target (compose_pose (inverse_pose L) S) /\
    (forall c, c <> (Obj (Plain p)) -> keeps c s s')).
  { unfold dyn_transform, Coordinates_transform. cbv zeta.
    unfold bind at 1, read at 1. rewrite Hpar.
    cbn [wrt_is wrt_is_obj wrt_is_parent orb].
    destruct (decide (l = p)) as [->|Hne].
    - rewrite bool_decide_eq_true_2 by reflexivity.
      destruct (transform_coords_written (Obj (Plain p)) (Tmp rel) (Obj (Plain p)) s)
        as (o1 & s1 & T1 & (_ & Hk & ->) & V1).
      exists s1. split; [exact T1|]. split; [|exact Hk].
      rewrite (V1 Hp), pose_of_tmp. fold S. unfold rel.
      replace L with S by reflexivity.
      rewrite compose_inverse_cancel by exact Ho.
      rewrite inverse_compose_self by exact Ho.
      symmetry. apply compose_identity_r.
    - rewrite bool_decide_eq_false_2 by congruence. cbn [orb].
      destruct (transform_coords_written (Tmp (inverse_pose L)) (Obj (Plain p)) (Obj (Plain p)) s)
        as (o1 & s1 & T1 & W1 & V1).
      assert (Ho1 : o1 = (Obj (Plain p))) by apply W1. subst o1.
      destruct (transform_coords_written (Tmp rel) (Obj (Plain p)) (Obj (Plain p)) s1)
        as (o2 & s2 & T2 & W2 & V2).
      assert (Ho2 : o2 = (Obj (Plain p))) by apply W2. subst o2.
      pose proof (pose_written_trans _ _ _ _ _ _ W1 W2) as W12.
      destruct (transform_coords_written (Obj (Plain l)) (Obj (Plain p)) (Obj (Plain p)) s2)
        as (o3 & s3 & T3 & W3 & V3).
      assert (Ho3 : o3 = (Obj (Plain p))) by apply W3. subst o3.
      pose proof (pose_written_trans _ _ _ _ _ _ W12 W3) as W13.
      assert (Hh1 : has s1 (Obj (Plain p))) by (apply W1, Hp).
      assert (Hh2 : has s2 (Obj (Plain p))) by (apply W2, Hh1).
      exists s3. split; [|split; [|apply W13]].
      + cbv [bind]. rewrite inverse_transformation_fresh. cbv beta iota.
        change (Pose (transpose (_rotation s (Obj (Plain l))))
                  (vscale (-1) (dot (transpose (_rotation s (Obj (Plain l))))
                                    (_translation s (Obj (Plain l))))))
          with (inverse_pose L).
        rewrite T1. cbv beta iota. rewrite T2. cbv beta iota.
        cbn [dyn_worldcoords worldcoords_by ret]. exact T3.
      + rewrite (V3 Hh2), (V2 Hh1), (V1 Hp), !pose_of_tmp. fold S.
        assert (HL2 : pose_of s2 (Obj (Plain l)) = L).
        { destruct W12 as (_ & Hk & _). destruct (Hk (Obj (Plain l))) as [Hr Ht].
          - congruence.
          - unfold pose_of. rewrite Hr, Ht. reflexivity. }
        rewrite HL2. unfold rel.
        rewrite <- compose_pose_assoc.
        rewrite compose_inverse_cancel by exact Ho. reflexivity. }
  destruct Hfin as (s' & Et & Hv & Hk).
  exists s'. split; [|split; [exact Hv|split; [|exact Hk]]].
  - unfold Coordinates_move_coords. cbv [bind]. rewrite Erel.
    cbv beta iota. rewrite Et. reflexivity.
  - intros ->. rewrite Hv. fold S. replace L with S by reflexivity.
    rewrite inverse_compose_self by exact Ho. apply compose_identity_r.
Qed.

Lemma move_coords_aligns_witness :
  exists s',
    Coordinates_move_coords (H := spec_prims) 10 (Obj (Plain 1%positive))
      (Tmp (Pose Rz90 (V3 4 5 6))) (Plain 2%positive) two_plains
      = Ok (Obj (Plain 1%positive)) s' /\
    pose_of s' (Obj (Plain 1%positive))
      = compose_pose (Pose Rz90 (V3 4 5 6))
          (compose_pose (inverse_pose (pose_of two_plains (Obj (Plain 2%positive))))
                        (pose_of two_plains (Obj (Plain 1%positive)))) /\
    keeps (Obj (Plain 2%positive)) two_plains s'.
Proof.
  assert (Hh1 : has two_plains (Obj (Plain 1%positive))) by (vm_compute; eauto).
  assert (Hh2 : has two_plains (Obj (Plain 2%positive))) by (vm_compute; eauto).
  destruct (move_coords_aligns (H := spec_prims) 10 two_plains 1%positive 2%positive
              (Pose Rz90 (V3 4 5 6)) Hh1 Hh2 eq_refl Rx90_orthonormal)
    as (s' & E & Hv & _ & Hk).
  exists s'. split; [exact E|]. split; [exact Hv|]. apply Hk. discriminate.
Defined.

(** ** [relative_coords] of [newcoords] *)

(** X21: how [newcoords] reads [relative_coords].  A node without parent
    ignores it altogether, an unsupported string included.  On a child,
    ['parent'] is ['local'], in any letter case, and a string that is none
    of ['world'], ['local'], ['parent'] raises [ValueError] before anything
    is written.  A plain [Coordinates] without parent raises [ValueError],
    before anything is written, for ['parent'] and for an unsupported
    string. *)
Theorem newcoords_relative_coords_edges `{MathPrims} (fuel : nat) (s : store) (n : oid)
    (self : cref) (c : newcoords_arg) (cv : bool) (x : string) :
  (parent s (Obj (Node n)) = None ->
   forall rel, CascadedCoords_newcoords fuel n c cv rel s
               = CascadedCoords_newcoords fuel n c cv (RelStr "local") s) /\
  (parent s (Obj (Node n)) <> None ->
   (lower x = "parent" \/ lower x = "local" ->
    CascadedCoords_newcoords fuel n c cv (RelStr x) s
    = CascadedCoords_newcoords fuel n c cv (RelStr "local") s) /\
   (lower x <> "world" -> lower x <> "local" -> lower x <> "parent" ->
    CascadedCoords_newcoords fuel n c cv (RelStr x) s = Raise ValueError s)) /\
  (parent s self = None ->
   lower x <> "world" -> lower x <> "local" ->
   Coordinates_newcoords self c cv (RelStr x) s = Raise ValueError s).
Proof.
  split; [|split].
  - intros Hp rel. unfold CascadedCoords_newcoords. cbv [bind read]. rewrite Hp.
    reflexivity.
  - intros Hp. destruct (parent s (Obj (Node n))) as [p|] eqn:Ep; [|congruence].
    split.
    + intros Hx. unfold CascadedCoords_newcoords. cbv [bind read]. rewrite Ep.
      change (bool_decide (lower "local" = "world")) with false.
      change (bool_decide (lower "local" = "local")) with true.
      destruct Hx as [Hx|Hx]; rewrite Hx.
      * change (bool_decide ("parent" = "world")) with false.
        change (bool_decide ("parent" = "local")) with false.
        change (bool_decide ("parent" = "parent")) with true. reflexivity.
      * change (bool_decide ("local" = "world")) with false.
        change (bool_decide ("local" = "local")) with true. reflexivity.
    + intros H1 H2 H3. unfold CascadedCoords_newcoords. cbv [bind read]. rewrite Ep.
      rewrite !bool_decide_eq_false_2 by assumption. reflexivity.
  - intros Hp H1 H2. unfold Coordinates_newcoords. cbv [bind read]. rewrite Hp.
    destruct (bool_decide (lower x = "parent")); [reflexivity|].
    rewrite !bool_decide_eq_false_2 by assumption. reflexivity.
Qed.

Lemma newcoords_relative_coords_edges_witness :
  let c := NcCoords (Tmp (Pose Rz90 (V3 4 5 6))) in
  CascadedCoords_newcoords (H := spec_prims) 10 2%positive c false (RelStr "bogus") family
    = CascadedCoords_newcoords (H := spec_prims) 10 2%positive c false (RelStr "local")
        family /\
  CascadedCoords_newcoords (H := spec_prims) 10 3%positive c false (RelStr "bogus") family
    = Raise ValueError family /\
  Coordinates_newcoords (H := spec_prims) (Obj (Plain 1%positive)) c false
    (RelStr "PARENT") two_plains = Raise ValueError two_plains.
Proof.
  intros c.
  pose proof (newcoords_relative_coords_edges (H := spec_prims) 10 family 2%positive
                (Obj (Plain 1%positive)) c false "bogus") as (Hroot & _ & _).
  pose proof (newcoords_relative_coords_edges (H := spec_prims) 10 family 3%positive
                (Obj (Plain 1%positive)) c false "bogus") as (_ & Hchild & _).
  pose proof (newcoords_relative_coords_edges (H := spec_prims) 10 two_plains 1%positive
                (Obj (Plain 1%positive)) c false "PARENT") as (_ & _ & Hplain).
  split; [|split].
  - apply Hroot. reflexivity.
  - apply Hchild; vm_compute; discriminate.
  - apply Hplain; [reflexivity|vm_compute; discriminate|vm_compute; discriminate].
Defined.

(** ** Interpolation of a frame with itself *)










(** ** [assoc] with the child's pose taken as local *)

(** [newcoords] from the cache of a node copies the pose the cache holds. *)
Lemma newcoords_from_cache `{MathPrims} (fuel : nat) (n m : oid) (s : store) :
  CascadedCoords_newcoords fuel n (NcCoords (Obj (World m))) false (RelStr "local") s
  = CascadedCoords_newcoords fuel n (NcCoords (Tmp (pose_of s (Obj (World m)))))
      false (RelStr "local") s.
Proof.
  rewrite CascadedCoords_newcoords_copy.
  unfold CascadedCoords_newcoords. unfold bind at 1, read at 1.
  assert (Hgo : forall tgt : M cref,
    (do Coordinates_newcoords (Obj (Node n)) (NcCoords (Obj (World m))) false RelNone
     then tgt) s
    = (do store_rotation (Obj (Node n)) (p_rotation (pose_of s (Obj (World m))))
       then do store_translation (Obj (Node n))
                 (p_translation (pose_of s (Obj (World m))))
            then tgt) s).
  { intros tgt. unfold Coordinates_newcoords. cbv [bind read ret same_object].
    rewrite bool_decide_eq_false_2 by discriminate. cbv beta.
    cbn [store_rotation store_translation]. cbv [bind modify ret].
    rewrite translation_with_node_rotation. reflexivity. }
  destruct (parent s (Obj (Node n))); cbv iota;
    change (bool_decide (lower "local" = "world")) with false;
    change (bool_decide (lower "local" = "local")) with true; cbv iota;
    unfold bind at 1; unfold ret at 1; apply Hgo.
Qed.

(** X23: [P.assoc(C, relative_coords='local')] on a root [C] that is not
    [P], which linking under [P] leaves acyclic, returns [C] with [P] as
    its parent and registered in [P._descendants]; the world pose [C] had
    becomes its pose relative to [P], so that [C.worldcoords()] then is the
    world pose of [P] composed with the world pose [C] had. *)
Theorem assoc_local_reinterprets `{MathPrims} (fuel : nat) (s : store) (P C : oid) :
  tree_inv fuel s -> enough fuel (linked P C s) ->
  has s (Obj (Node P)) -> has s (Obj (Node C)) -> P <> C ->
  parent s (Obj (Node C)) = None ->
  exists sc s' s'',
    dyn_worldcoords fuel (Obj (Node C)) s = Ok (Obj (World C)) sc /\
    CascadedCoords_assoc fuel P (Node C) (RelStr "local") false s = Ok (Node C) s' /\
    parent s' (Obj (Node C)) = Some (Node P) /\
    Node C ∈ _descendants s' P /\
    pose_of s' (Obj (Node C)) = pose_of sc (Obj (World C)) /\
    dyn_worldcoords fuel (Obj (Node C)) s' = Ok (Obj (World C)) s'' /\
    pose_of s'' (Obj (World C))
      = compose_pose (pose_of s'' (Obj (World P))) (pose_of sc (Obj (World C))).
Proof.
  intros (He & Hk & Hdc) Hel HhP HhC Hne Hp.
  destruct (worldcoords_enough fuel (Obj (Node C)) s He) as (sc & Ec & Hrc & Hec & _).
  cbn [world_of] in Ec.
  assert (Hq : cache_equiv s sc) by apply Hrc.
  assert (HhC2 : has sc (Obj (Node C))) by (apply (cache_equiv_has s sc _ Hq), HhC).
  assert (HhP2 : has sc (Obj (Node P))) by (apply (cache_equiv_has s sc _ Hq), HhP).
  assert (Hnot : Node C ∉ _descendants s P).
  { intros Hin. pose proof (Hk P C Hin) as Hx. congruence. }
  set (s3 := linked P C sc).
  assert (He3 : enough fuel s3).
  { eapply cache_equiv_enough; [apply cache_equiv_linked, Hq|exact Hel]. }
  assert (HhC3 : has s3 (Obj (Node C))) by (apply has_with_node, HhC2).
  assert (Hw3 : pose_of s3 (Obj (World C)) = pose_of sc (Obj (World C))).
  { unfold pose_of, _rotation, _translation, s3, linked.
    rewrite (node_with_node_keep (fun k => c_rotation (n_worldcoords k)))
      by (intros []; reflexivity).
    rewrite (node_with_node_keep (fun k => c_translation (n_worldcoords k)))
      by (intros []; reflexivity).
    reflexivity. }
  destruct (newcoords_copy_node fuel C (pose_of s3 (Obj (World C))) s3 He3 HhC3)
    as (s4 & E4 & He4 & Hh4 & Hd4 & Hv4 & Hl4 & _ & _ & Hhas4 & _).
  rewrite <- newcoords_from_cache in E4.
  set (s5 := with_node P (fun k => n_set_descendants (n_descendants k ++ [Node C]) k) s4).
  assert (HhP4 : has s4 (Obj (Node P))) by (apply Hhas4, has_with_node, HhP2).
  assert (He5 : enough fuel s5).
  { apply enough_with_node; [intros []; left; reflexivity|exact He4]. }
  assert (Hh5 : has s5 (Obj (Node C))) by (apply has_with_node, Hh4).
  assert (Hd5 : dirty s5 C).
  { unfold dirty, _changed, s5.
    rewrite (node_with_node_keep n_changed) by (intros []; reflexivity). exact Hd4. }
  assert (Hp5 : parent s5 (Obj (Node C)) = Some (Node P)).
  { simpl. unfold s5. rewrite (node_with_node_keep n_parent) by (intros []; reflexivity).
    rewrite (proj1 (Hl4 C)). unfold s3, linked. rewrite node_with_node_eq by exact HhC2.
    destruct (node sc C); reflexivity. }
  assert (Hv5 : pose_of s5 (Obj (Node C)) = pose_of sc (Obj (World C))).
  { transitivity (pose_of s4 (Obj (Node C))).
    - unfold pose_of; simpl. unfold s5. rewrite node_with_node_ne by exact Hne.
      reflexivity.
    - rewrite Hv4. exact Hw3. }
  destruct (twp_elim _ _ _ (worldcoords_recomputes fuel C s5 He5 Hh5 Hd5))
    as (w & s'' & E6 & -> & _ & _ & Hpose).
  exists sc, s5, s''. split; [exact Ec|]. split.
  { unfold CascadedCoords_assoc.
    rewrite bool_decide_eq_false_2 by congruence.
    cbv [bind read]. rewrite Hp. cbn [andb negb].
    rewrite bool_decide_eq_false_2 by exact Hnot.
    rewrite Ec. cbv beta iota. cbn [store_parent modify dyn_newcoords].
    fold (linked P C sc). fold s3. rewrite E4. reflexivity. }
  split; [exact Hp5|]. split.
  { unfold _descendants, s5. rewrite node_with_node_eq by exact HhP4.
    replace (n_descendants (n_set_descendants (n_descendants (node s4 P) ++ [Node C])
                              (node s4 P)))
      with (n_descendants (node s4 P) ++ [Node C]) by (destruct (node s4 P); reflexivity).
    apply elem_of_app. right. apply list_elem_of_here. }
  split; [exact Hv5|]. split; [exact E6|].
  rewrite Hpose, Hp5. cbn [world_of]. rewrite Hv5. reflexivity.
Qed.

Lemma assoc_local_reinterprets_witness :
  exists sc s' s'',
    dyn_worldcoords 10 (Obj (Node 3%positive)) apart = Ok (Obj (World 3%positive)) sc /\
    CascadedCoords_assoc (H := spec_prims) 10 2%positive (Node 3%positive)
      (RelStr "local") false apart = Ok (Node 3%positive) s' /\
    parent s' (Obj (Node 3%positive)) = Some (Node 2%positive) /\
    pose_of s' (Obj (Node 3%positive)) = pose_of sc (Obj (World 3%positive)) /\
    dyn_worldcoords 10 (Obj (Node 3%positive)) s' = Ok (Obj (World 3%positive)) s'' /\
    pose_of s'' (Obj (World 3%positive))
      = compose_pose (pose_of s'' (Obj (World 2%positive)))
                     (pose_of sc (Obj (World 3%positive))).
Proof.
  assert (Hi : tree_inv 10 apart) by (apply tree_check_sound; vm_compute; reflexivity).
  assert (Hl : enough 10 (linked 2%positive 3%positive apart))
    by (apply enough_check_sound; vm_compute; reflexivity).
  assert (HhP : has apart (Obj (Node 2%positive))) by (vm_compute; eauto).
  assert (HhC : has apart (Obj (Node 3%positive))) by (vm_compute; eauto).
  assert (Hne : 2%positive <> 3%positive) by discriminate.
  destruct (assoc_local_reinterprets (H := spec_prims) 10 apart 2%positive
              3%positive Hi Hl HhP HhC Hne eq_refl)
    as (sc & s' & s'' & Ec & Ea & Hp & _ & Hv & E2 & Hw).
  exists sc, s', s''. repeat (split; [assumption|]). exact Hw.
Defined.

(** ** [transform] into an [out] of the caller, branch by branch *)











(** ** [assoc] under a descendant *)

(** Two dirty nodes that are each other's parent: [update] calls itself
    without end, whatever the fuel. *)
Lemma update_in_cycle (s : store) (a b : oid) :
  dirty s a -> dirty s b ->
  parent s (Obj (Node a)) = Some (Node b) ->
  parent s (Obj (Node b)) = Some (Node a) ->
  forall fuel,
    CascadedCoords_update fuel a s = Outside /\
    CascadedCoords_update fuel b s = Outside.
Proof.
  intros Ha Hb Hpa Hpb. induction fuel as [|f [IHa IHb]]; [split; reflexivity|].
  split; rewrite update_unfold; unfold bind at 1, read at 1.
  - rewrite Ha. cbn [negb]. unfold bind at 1, read at 1. rewrite Hpa.
    unfold bind at 1. unfold bind at 1. rewrite worldcoords_by_unfold.
    unfold bind at 1. rewrite IHb. reflexivity.
  - rewrite Hb. cbn [negb]. unfold bind at 1, read at 1. rewrite Hpb.
    unfold bind at 1. unfold bind at 1. rewrite worldcoords_by_unfold.
    unfold bind at 1. rewrite IHa. reflexivity.
Qed.

(** C5, as stated, fails for a root [C] that is above [P].  In the session
    of [family] the root (node 2) plays [C] and its child (node 3) plays
    [P]: [C] has no parent and the tree is well formed.
    [P.assoc(C, relative_coords='world')] returns, with any fuel from 10
    on, and leaves each of the two nodes as the parent of the other, both
    dirty; [P.dissoc(C)] then starts with [C.worldcoords()], whose [update]
    goes from [C] to [P] and back without end: with no fuel does the call
    return, and neither does a read of the world pose of [C]. *)
Lemma assoc_under_descendant_no_return :
  tree_inv 10 family /\
  has family (Obj (Node 3%positive)) /\ has family (Obj (Node 2%positive)) /\
  parent family (Obj (Node 2%positive)) = None /\
  parent family (Obj (Node 3%positive)) = Some (Node 2%positive) /\
  exists s',
    (forall k, CascadedCoords_assoc (H := spec_prims) (10 + k) 3%positive
                 (Node 2%positive) (RelStr "world") false family
               = Ok (Node 2%positive) s') /\
    parent s' (Obj (Node 2%positive)) = Some (Node 3%positive) /\
    parent s' (Obj (Node 3%positive)) = Some (Node 2%positive) /\
    (forall fuel, CascadedCoords_dissoc (H := spec_prims) fuel 3%positive
                    (Node 2%positive) s' = Outside) /\
    (forall fuel, dyn_worldcoords fuel (Obj (Node 2%positive)) s' = Outside).
Proof.
  split; [exact family_tree_inv|].
  split; [vm_compute; eauto|]. split; [vm_compute; eauto|].
  split; [reflexivity|]. split; [reflexivity|].
  eexists. split; [intros k; vm_compute; reflexivity|].
  split; [vm_compute; reflexivity|]. split; [vm_compute; reflexivity|].
  match goal with
  | |- (forall fuel, CascadedCoords_dissoc _ _ _ ?s = _) /\ _ =>
      assert (Hcyc : forall fuel, CascadedCoords_update fuel 2%positive s = Outside)
  end.
  { intros fuel.
    apply (update_in_cycle _ 2%positive 3%positive); vm_compute; reflexivity. }
  split.
  - intros fuel. unfold CascadedCoords_dissoc. unfold bind at 1, read at 1.
    rewrite bool_decide_eq_true_2 by (vm_compute; constructor).
    unfold bind at 1. unfold dyn_worldcoords. rewrite worldcoords_by_unfold.
    unfold bind at 1. rewrite Hcyc. reflexivity.
  - intros fuel. unfold dyn_worldcoords. rewrite worldcoords_by_unfold.
    unfold bind at 1. rewrite Hcyc. reflexivity.
Qed.
